(* ===== verification/_CoqProject ===== *)
-Q . S2P
Prelude.v
Paths.v
Handles.v
Inodes.v
Env.v
Passthrough.v
Sample.v
Cas.v
HashTable.v
Eviction.v
Interleave.v
Occ.v
Config.v
Fs.v
FsLogic.v
FsFile.v
FsDir.v
FsTrace.v
Refine.v
FsTypes.v
FsEquiv.v
FsOwners.v
FsProps.v
FsNames.v
FsLimits.v
FsAttr.v
Shutdown.v
Main.v
MainProps.v
