(* ===== verification/Prelude.v ===== *)
(** * dibs: a verification development

    dibs mounts a FUSE file system over a backing directory and detects lost
    updates between sessions (POSIX sessions, in practice one per agent).  It
    passes every request through to the backing files.  On the way it remembers,
    per session and path, the hash of the contents the session last saw (its
    receipt), and per path the handle that owns writing.  A writer whose receipt
    does not match the file is answered with [EIO].

    ** The program and the files that model it

    - [Prelude]: results, machine integers, iteration over concurrent maps, the
      hint databases and tactics.  [Paths]: the [std::path] operations in use.
      A path is its list of components, which is how Rust compares and hashes
      paths.
    - [Env]: interfaces, as type classes, of the code dibs calls and does not
      contain: the kernel and backing file system ([Posix]), the digests
      ([Digests]), the clocks and chrono ([Clocks]), JSON printing and error
      numbers ([Crates]).  [PosixLaws], [DigestLaws] and [ClockLaws] state the
      documented behaviour that is relied on.  [Sample] has concrete instances
      of all of them, an in-memory file system among them, with proofs of the
      laws; the closed examples run on these.
    - [Handles] (src/fs/handles.rs): [HandleTable], [DirHandleTable].
      [Inodes] (src/fs/inodes.rs): [InodeTable] and the synthetic inodes.
      [Passthrough] (src/fs/passthrough.rs): attribute conversion, [lstat],
      [fstat].  [Cas] (src/fs/cas.rs): content hashing.  [HashTable]
      (src/state/hash_table.rs): [CasTable], the table of owners and receipts.
      Each table is a record of finite maps, each method a function on it.
    - [Eviction] (src/state/eviction.rs): the loop of the background thread.
      [Interleave]: the atomic pieces of the check and of an eviction, and a
      step relation that interleaves them.  [Occ]: the abstract specification
      of the table and the refinement.
    - [Config] (src/config.rs, src/error.rs): the data types, the defaults of the
      options, the text of errors.
    - [Fs], [FsFile], [FsDir] (src/fs/mod.rs, src/fs/virtual_dir.rs): the state
      [DibsFs], the handler monad [M] over a [World] (tables, backing file
      system, count of clock readings), and one definition per FUSE handler.
      [reply_error] is [reply.error(..); return], [require] a [match] with an
      early return, [Stuck] a panic.
    - [FsLogic]: a weakest precondition per primitive and the tactic [wp_run].
      [FsTrace]: requests, the dispatch [handle], events, runs, invariants.
      [Refine]: the abstract protocol of receipts and owners ([Protocol]), the
      abstraction [abs] of the table, and the simulation of every request and
      eviction.  [FsTypes]: ranges and kinds of replies.  [FsEquiv]: the order in
      which concurrent maps are iterated.  [FsOwners], [FsProps], [FsNames],
      [FsLimits], [FsAttr]: properties of the handlers.
    - [Shutdown] (src/main.rs, wait_for_shutdown): the signal pipe, [poll], the
      wait as a state machine.  [Main] (src/main.rs, main and the rest): the
      program as a monad [P] over the process, with exit codes and a log of acts;
      FUSE sessions and external commands are the interface [Host].
      [MainProps]: its phases one by one, and whole runs.

    ** How the parts meet

    [Main.main] makes an instance with [Fs.fs_new], hands its CAS table to the
    thread of [Eviction] and the instance to a session, whose requests are the
    runs of [FsTrace], from [mounted] on.  An eviction is an event of these runs
    ([FsTrace.evict]).  Handlers change the tables through the operations of
    [HashTable], [Handles] and [Inodes] only.  The CAS table is related to two
    specifications: [Occ.Spec] (contents, for sequences of table operations) and
    [Refine.Protocol] (hashes, for runs of the whole file system).

    ** What is proved

    - Lost updates ([FsProps]): [no_lost_update] and [fresh_writer_accepted] are
      about runs from mounting on.  A session reads a file; then come any events
      that leave its receipt alone (requests of any sessions, evictions, outside
      changes to files); then it opens the file for writing, and is refused if
      the hash changed and accepted if not.  [write_flush_cycle],
      [refused_write_harmless] and [release_frees] describe the rest of the
      cycle.  [table_refines_spec] ([Occ]) shows that the table decides as a
      specification over contents does.
    - The tables: decisions and effects of every operation of [CasTable];
      handle numbers are never reused; the inode maps agree; all of this along
      every run ([reachable_tables_wf]).  As long as nothing is renamed and a
      truncation through a handle is of an inode registered under the handle's own
      path, every owner is a handle open for the path it owns ([owners_are_open]).
    - The whole system ([Refine]): [runs_refine_protocol] matches every run with a
      run of the protocol in which each event takes only the actions it may take;
      through it [owner_keeps_path]: nobody but the owner, an unlink or a rename
      takes a path from its owner, in any run.
    - Totality: [every_request_replied], no handler panics or loops.  Typing:
      [replies_well_typed], replies of the right kind with fields in range.
      Equivalence: [iteration_order_irrelevant].
    - Names, listings, virtual files ([FsNames]): among them clients that call
      [readdir] and [read] again and again, each request in the world the last one
      left, and end up with the whole directory or text; [setattr] as a list of
      system calls ([FsAttr]); hashing and conversions ([Cas], [Passthrough]); the
      two background loops, and what the idle window comes to for every number of
      minutes ([Eviction], [Shutdown]).
    - The program ([MainProps]): [mount_only_checked], nothing is started before
      every check has passed; [orderly_shutdown], the order of the acts that end
      a mount; [main_ends]; [unmount_forces_last].  They and [shutdown_two_phase]
      state the two-phase ctrl-C of main.rs and of tests/scenarios.rs: the first
      signal on a busy mount warns and waits, the second forces.  SCENARIOS.md
      (scenarios 2 and 8, invariant 1) and ARCHITECTURE.md (Shutdown) describe
      an end on the first signal, which the code does not implement.
    - Limits ([FsLimits], [Interleave], and parts of [HashTable], [Inodes],
      [Eviction], [MainProps]): where the protection fails, each with a concrete
      run: writes while another handle owns the path, truncation by a refused
      open, truncation without a handle, truncation through a second name of an
      open file, renames of open files and of directories, unknown parents, the
      race of eviction with a check, the eviction thread after a retried mount,
      extreme eviction windows.

    ** Fuel and bounds

    The read loops of [Cas] take the number of bytes left as fuel, plus one:
    each read takes at least one byte or ends the loop, so the fuel never runs
    out ([hash_file_some]).  [Eviction.sleep_loop] gets one unit per tick of the
    interval; [eviction_thread] needs one round per minute plus one.  The
    clients that read in pieces ([FsNames]) need one round per byte or entry,
    plus one, and return nothing when the rounds are used up.  The wait for
    shutdown is run on a finite list of rounds and may be left waiting at its end;
    [main_ends] says which lists end it.  64-bit counters are kept at their width;
    results about runs ask for fewer than 2^64 - 2 events.  Whether arithmetic
    overflow is checked depends on the build: the field [overflow_checks] of
    [Host], used where a value of the command line can overflow (the idle window,
    [Eviction.eviction_seconds]).

    ** What is not modelled

    Log lines and the installation of the log subscriber; the parsing of the
    command line (generated by clap from the types in [Config]); the FUSE protocol
    and threading of the fuser crate (a handler runs as one step, except in
    [Interleave], which splits the check and the eviction); the body of system
    calls, digests, chrono and serde_json, which are parameters; files whose
    contents never end or that block a read (devices, FIFOs): [PosixLaws] gives
    every opened file finite contents; tests.  The
    constants are those of macOS, the platform whose [stat] fields the source
    uses.

    ** Plan

    Next: the pieces of [write] and [flush] against each other and against
    [rename] as interleaved steps; an interface class of the CAS table shared by
    the table and its two specifications; the table's entries of untracked and
    tracked paths along runs (how much the table can grow between evictions). *)
From Stdlib Require Export ZArith Lia Ascii String.
From Stdlib.Strings Require Export Byte.
From stdpp Require Export base gmap fin_maps list strings pretty.

#[global] Set Default Goal Selector "!".

(** ** Results

    Rust's [Result<T, E>]. *)
Inductive result (A E : Type) :=
| Ok (a : A)
| Err (e : E).
Arguments Ok {A E} a.
Arguments Err {A E} e.

(** [r.ok()]. *)
Definition result_ok {A E} (r : result A E) : option A :=
  match r with Ok a => Some a | Err _ => None end.

(** [r.unwrap_or(d)]; with the type's default for [d], [r.unwrap_or_default()]. *)
Definition result_unwrap_or {A E} (d : A) (r : result A E) : A :=
  match r with Ok a => a | Err _ => d end.

(** ** Machine integers

    A [w]-bit unsigned value is a [Z] in [0, 2^w); a signed one is a [Z] in
    [-2^(w-1), 2^(w-1)).  An [as] cast of Rust is the matching wrap, and
    [fetch_add] on an atomic wraps the same way. *)
Definition wrap_u (w : Z) (z : Z) : Z := (z `mod` 2 ^ w)%Z.

Definition wrap_i (w : Z) (z : Z) : Z :=
  let m := (z `mod` 2 ^ w)%Z in
  if (m <? 2 ^ (w - 1))%Z then m else (m - 2 ^ w)%Z.

Abbreviation as_u64 := (wrap_u 64).
Abbreviation as_u32 := (wrap_u 32).
Abbreviation as_u16 := (wrap_u 16).
Abbreviation as_i64 := (wrap_i 64).
Abbreviation as_i32 := (wrap_i 32).

Definition u64_MAX : Z := (2 ^ 64 - 1)%Z.
Definition u32_MAX : Z := (2 ^ 32 - 1)%Z.
Definition i64_MAX : Z := (2 ^ 63 - 1)%Z.

Lemma wrap_u_small w z : (0 <= z < 2 ^ w)%Z → wrap_u w z = z.
Proof. intros ?. by apply Z.mod_small. Qed.

Lemma wrap_u_range w z : (0 <= w)%Z → (0 <= wrap_u w z < 2 ^ w)%Z.
Proof. intros ?. apply Z.mod_pos_bound. lia. Qed.

Lemma wrap_i_small w z :
  (0 < w)%Z → (- 2 ^ (w - 1) <= z < 2 ^ (w - 1))%Z → wrap_i w z = z.
Proof.
  intros Hw Hz. unfold wrap_i.
  assert (2 ^ w = 2 * 2 ^ (w - 1))%Z as Hp.
  { rewrite <-Z.pow_succ_r by lia. f_equal. lia. }
  destruct (Z.lt_ge_cases z 0).
  - rewrite <-(Z.mod_add z 1), Z.mod_small by lia.
    destruct (Z.ltb_spec (z + 1 * 2 ^ w) (2 ^ (w - 1)))%Z; lia.
  - rewrite Z.mod_small by lia.
    destruct (Z.ltb_spec z (2 ^ (w - 1)))%Z; lia.
Qed.

(** ** Bytes *)
#[global] Instance byte_eq_dec : EqDecision byte := Byte.byte_eq_dec.

(** ** Iterating a DashMap

    [DashMap] is modelled by [gmap]; the order in which its [iter] yields the
    entries is not specified, so every traversal goes through this interface:
    some enumeration of the entries, each exactly once. *)
Class DashMapIter := {
  dash_iter : ∀ {K V : Type} `{Countable K}, gmap K V → list (K * V);
  dash_iter_perm : ∀ {K V : Type} `{Countable K} (m : gmap K V),
    dash_iter m ≡ₚ map_to_list m
}.

(** The enumeration used by the concrete evaluations. *)
Definition canonical_iter : DashMapIter := {|
  dash_iter := λ K V _ _ m, map_to_list m;
  dash_iter_perm := λ K V _ _ m, Permutation_refl _
|}.

Section dash_iter.
Context `{DashMapIter} {K V : Type} `{Countable K}.
Implicit Types (m : gmap K V) (k : K) (v : V).

Lemma elem_of_dash_iter m k v : (k, v) ∈ dash_iter m ↔ m !! k = Some v.
Proof. rewrite (dash_iter_perm m). apply elem_of_map_to_list. Qed.

Lemma NoDup_dash_iter m : NoDup (dash_iter m).*1.
Proof.
  rewrite (dash_iter_perm m). apply NoDup_fst_map_to_list.
Qed.

Lemma length_dash_iter m : length (dash_iter m) = size m.
Proof. rewrite (dash_iter_perm m). apply length_map_to_list. Qed.
End dash_iter.

(** ** Counting by a boolean test *)
Section filter_bool.
Context {A : Type} (P : A → Prop) `{∀ x, Decision (P x)}.

Lemma filter_bool_decide (l : list A) :
  List.filter (λ x, bool_decide (P x)) l = filter P l.
Proof.
  induction l as [|x l IH]; [done|]. simpl. rewrite filter_cons, IH.
  case_bool_decide; by case_decide.
Qed.
End filter_bool.

Lemma NoDup_filter_fst {K V} (P : K * V → Prop) `{∀ x, Decision (P x)} (l : list (K * V)) :
  NoDup l.*1 → NoDup (filter P l).*1.
Proof.
  induction l as [|[k v] l IH]; intros Hnd; [done|].
  apply NoDup_cons in Hnd as [Hn Hnd]. rewrite filter_cons. case_decide; [|by apply IH].
  simpl. constructor; [|by apply IH]. intros (x&->&[_ Hx]%list_elem_of_filter)%list_elem_of_fmap.
  apply Hn, list_elem_of_fmap. by exists x.
Qed.

Lemma count_dash_iter `{DashMapIter} {K V} `{Countable K} (P : K * V → Prop)
    `{∀ x, Decision (P x)} (m : gmap K V) :
  length (List.filter (λ x, bool_decide (P x)) (dash_iter m)) = size (filter P m).
Proof.
  rewrite filter_bool_decide, (dash_iter_perm m), map_filter_alt, map_size_list_to_map; [done|].
  apply NoDup_filter_fst, NoDup_fst_map_to_list.
Qed.

(** ** Deleting a list of keys *)
Lemma take_drop_min {A} (k : nat) (l : list A) : take k l ++ drop (k `min` length l) l = l.
Proof.
  destruct (Nat.le_ge_cases k (length l)).
  - by rewrite Nat.min_l, take_drop.
  - by rewrite Nat.min_r, take_ge, drop_all, app_nil_r.
Qed.

Section delete_list.
Context {K V : Type} `{Countable K}.
Implicit Types (m : gmap K V) (k : K) (ks : list K).

Definition delete_all ks m : gmap K V := foldl (λ m k, delete k m) m ks.

Lemma lookup_delete_all ks m k :
  delete_all ks m !! k = if decide (k ∈ ks) then None else m !! k.
Proof.
  revert m. induction ks as [|k' ks IH]; intros m.
  { case_decide as Hk; [by apply not_elem_of_nil in Hk|done]. }
  change (delete_all (k' :: ks) m) with (delete_all ks (delete k' m)).
  rewrite IH, lookup_delete.
  repeat case_decide; set_solver.
Qed.
End delete_list.

(** ** Automation

    [dibs_map] rewrites lookups; [dibs] holds the facts resolved by search. *)
Create HintDb dibs.
Create Rewrite HintDb dibs_map.

#[export] Hint Resolve wrap_u_range : dibs.
#[export] Hint Rewrite @lookup_insert_eq @lookup_delete_eq : dibs_map.

(** Destruct the innermost scrutinee of a match in a hypothesis or the goal,
    keeping the equation. *)
Ltac split_match :=
  match goal with
  | H : context [match ?x with _ => _ end] |- _ =>
      lazymatch x with context [match _ with _ => _ end] => fail | _ => idtac end;
      destruct x eqn:?
  | |- context [match ?x with _ => _ end] =>
      lazymatch x with context [match _ with _ => _ end] => fail | _ => idtac end;
      destruct x eqn:?
  end.

Ltac split_matches := repeat (split_match; simplify_eq/=); try done.
