(* ===== verification/Paths.v ===== *)
(** * Paths: the [std::path] operations the file system uses

    Rust compares, hashes, joins and takes the parent of a [Path] by its
    components, so a path is modelled by them: whether it is rooted, and the
    list of its components.  [parse] is the splitting done by
    [Path::components], [render] the bytes handed to the kernel.  Names coming
    from the kernel are byte strings.  [to_string_lossy] is the UTF-8 decoding
    that replaces every maximal invalid sequence by U+FFFD. *)
From S2P Require Import Prelude.

Local Open Scope string_scope.

Record PathBuf := mkPath { p_abs : bool; p_comps : list string }.

#[global] Instance PathBuf_eq_dec : EqDecision PathBuf.
Proof. solve_decision. Defined.

#[global] Instance PathBuf_countable : Countable PathBuf.
Proof.
  refine (inj_countable' (λ p, (p_abs p, p_comps p)) (λ x, mkPath x.1 x.2) _).
  by intros [].
Defined.

(** [PathBuf::new()]. *)
Definition path_empty : PathBuf := mkPath false [].

Definition slash : ascii := "/"%char.

(** The pieces of [s] between occurrences of [c]. *)
Fixpoint split_on (c : ascii) (s : string) : list string :=
  match s with
  | EmptyString => [""]
  | String a s' =>
      if Ascii.eqb a c then "" :: split_on c s'
      else match split_on c s' with
           | [] => [String a ""]
           | x :: xs => String a x :: xs
           end
  end.

Definition is_cur (c : string) : bool := String.eqb c ".".

(** Empty pieces and [.] disappear ... *)
Definition drop_cur (l : list string) : list string :=
  List.filter (λ c, negb (String.eqb c "" || is_cur c)) l.

(** ... except a [.] that opens a relative path. *)
Definition parse (s : string) : PathBuf :=
  match split_on slash s with
  | c :: cs =>
      if String.eqb c "" && negb (String.eqb s "") then mkPath true (drop_cur cs)
      else if is_cur c then mkPath false (c :: drop_cur cs)
      else mkPath false (drop_cur (c :: cs))
  | [] => path_empty
  end.

(** [Path::as_os_str().is_empty()]. *)
Definition path_is_empty (p : PathBuf) : bool :=
  negb (p_abs p) && match p_comps p with [] => true | _ => false end.

(** [Path::join] of two paths: a rooted right operand replaces the left one. *)
Definition join_path (p q : PathBuf) : PathBuf :=
  if p_abs q then q
  else if path_is_empty p then q
  else mkPath (p_abs p) (p_comps p ++ drop_cur (p_comps q)).

(** [Path::join] with a name. *)
Definition join (p : PathBuf) (name : string) : PathBuf := join_path p (parse name).

(** [Path::parent]. *)
Definition parent (p : PathBuf) : option PathBuf :=
  match p_comps p with
  | [] => None
  | _ => Some (mkPath (p_abs p) (removelast (p_comps p)))
  end.

(** [Path::file_name]: the last component unless it is [.] or [..]. *)
Definition file_name (p : PathBuf) : option string :=
  match last (p_comps p) with
  | Some c => if is_cur c || String.eqb c ".." then None else Some c
  | None => None
  end.

(** [Path::starts_with], componentwise. *)
Fixpoint comps_prefix (a b : list string) : bool :=
  match a, b with
  | [], _ => true
  | x :: a, y :: b => String.eqb x y && comps_prefix a b
  | _ :: _, [] => false
  end.

Definition starts_with (p base : PathBuf) : bool :=
  Bool.eqb (p_abs p) (p_abs base) && comps_prefix (p_comps base) (p_comps p).

(** The bytes of the path. *)
Fixpoint sep_by (l : list string) : string :=
  match l with
  | [] => ""
  | [c] => c
  | c :: l => c ++ "/" ++ sep_by l
  end.

Definition render (p : PathBuf) : string :=
  (if p_abs p then "/" else "") ++ sep_by (p_comps p).

Fixpoint has_nul (s : string) : bool :=
  match s with
  | EmptyString => false
  | String a s => Ascii.eqb a "000"%char || has_nul s
  end.

(** ** [OsStr::to_string_lossy] *)

Definition byte_in (lo hi : N) (a : ascii) : bool :=
  (lo <=? N_of_ascii a)%N && (N_of_ascii a <=? hi)%N.

Definition is_cont (a : ascii) : bool := byte_in 128 191 a.

(** U+FFFD in UTF-8. *)
Definition replacement : string :=
  String "239"%char (String "191"%char (String "189"%char "")).

(** The bytes accepted after a lead byte: [None] for a byte that cannot start
    a sequence, otherwise the tests of the continuation bytes in order. *)
Definition lead_tests (a : ascii) : option (list (ascii → bool)) :=
  if byte_in 0 127 a then Some []
  else if byte_in 194 223 a then Some [is_cont]
  else if byte_in 224 224 a then Some [byte_in 160 191; is_cont]
  else if byte_in 237 237 a then Some [byte_in 128 159; is_cont]
  else if byte_in 225 239 a then Some [is_cont; is_cont]
  else if byte_in 240 240 a then Some [byte_in 144 191; is_cont; is_cont]
  else if byte_in 241 243 a then Some [is_cont; is_cont; is_cont]
  else if byte_in 244 244 a then Some [byte_in 128 143; is_cont; is_cont]
  else None.

(** Take the continuation bytes: how many were taken, and whether all were. *)
Fixpoint take_cont (ts : list (ascii → bool)) (s : string) : nat * bool :=
  match ts, s with
  | [], _ => (0, true)
  | t :: ts, String b s =>
      if t b then let (n, ok) := take_cont ts s in (S n, ok) else (0, false)
  | _ :: _, EmptyString => (0, false)
  end.

(** [skip] counts bytes of the current sequence still to be consumed, [keep]
    whether they are copied (valid sequence) or dropped (already replaced). *)
Fixpoint lossy_go (skip : nat) (keep : bool) (s : string) : string :=
  match s with
  | EmptyString => ""
  | String a s' =>
      match skip with
      | S n => if keep then String a (lossy_go n keep s') else lossy_go n keep s'
      | O =>
          match lead_tests a with
          | None => replacement ++ lossy_go 0 false s'
          | Some ts =>
              let (n, ok) := take_cont ts s' in
              if ok then String a (lossy_go n true s')
              else replacement ++ lossy_go n false s'
          end
      end
  end.

Definition to_string_lossy (s : string) : string := lossy_go 0 false s.

(** [Path::display().to_string()]. *)
Definition display (p : PathBuf) : string := to_string_lossy (render p).

(** ** Names and well-formed paths *)

Fixpoint no_slash (s : string) : bool :=
  match s with
  | EmptyString => true
  | String a s => negb (Ascii.eqb a slash) && no_slash s
  end.

(** A single component other than [.], the names the kernel sends. *)
Definition plain_name (s : string) : bool :=
  no_slash s && negb (String.eqb s "") && negb (is_cur s).

(** The component lists [parse] produces. *)
Definition wf_path (p : PathBuf) : Prop :=
  match p_comps p with
  | [] => True
  | c :: cs =>
      (plain_name c || (is_cur c && negb (p_abs p))) = true ∧
      Forall (λ c, plain_name c = true) cs
  end.

Lemma split_on_no_slash s : no_slash s = true → split_on slash s = [s].
Proof.
  induction s as [|a s IH]; simpl; [done|].
  intros [Ha Hs]%andb_prop. apply negb_true_iff in Ha. by rewrite Ha, IH.
Qed.

Lemma plain_name_spec s :
  plain_name s = true ↔ no_slash s = true ∧ s ≠ "" ∧ s ≠ ".".
Proof.
  unfold plain_name, is_cur.
  rewrite !andb_true_iff, !negb_true_iff, !String.eqb_neq. tauto.
Qed.

Lemma drop_cur_plain l : Forall (λ c, plain_name c = true) l → drop_cur l = l.
Proof.
  induction 1 as [|c l Hc Hl IH]; [done|]. unfold drop_cur in *; simpl.
  apply plain_name_spec in Hc as (_ & Hne & Hcur). unfold is_cur.
  rewrite (proj2 (String.eqb_neq _ _) Hne), (proj2 (String.eqb_neq _ _) Hcur); simpl.
  by f_equal.
Qed.

Lemma parse_plain s : plain_name s = true → parse s = mkPath false [s].
Proof.
  intros Hs. pose proof (drop_cur_plain [s] ltac:(by constructor)) as Hd.
  apply plain_name_spec in Hs as (Hns & Hne & Hcur). unfold parse, is_cur.
  rewrite split_on_no_slash by done.
  rewrite (proj2 (String.eqb_neq _ _) Hne), (proj2 (String.eqb_neq _ _) Hcur); cbn [andb].
  by rewrite Hd.
Qed.

Lemma join_plain p n :
  plain_name n = true → join p n = mkPath (p_abs p) (p_comps p ++ [n])%list.
Proof.
  intros Hn. unfold join, join_path. rewrite parse_plain by done; cbn [p_abs p_comps].
  rewrite drop_cur_plain by (by constructor).
  by destruct p as [[] [|c cs]].
Qed.

Lemma parent_join p n : plain_name n = true → parent (join p n) = Some p.
Proof.
  intros Hn. rewrite join_plain by done. unfold parent; simpl.
  destruct (p_comps p ++ [n])%list eqn:E; [by destruct (p_comps p)|].
  rewrite <-E, removelast_last. by destruct p.
Qed.

Lemma file_name_join p n :
  plain_name n = true → n ≠ ".." → file_name (join p n) = Some n.
Proof.
  intros Hn Hdd. rewrite join_plain by done. unfold file_name; simpl.
  rewrite last_snoc. apply plain_name_spec in Hn as (_ & _ & Hcur).
  unfold is_cur.
  by rewrite (proj2 (String.eqb_neq _ _) Hcur), (proj2 (String.eqb_neq _ _) Hdd).
Qed.

Lemma join_inj p q m n :
  plain_name m = true → plain_name n = true → join p m = join q n → p = q ∧ m = n.
Proof.
  intros Hm Hn. rewrite !join_plain by done. intros [= Hab [Hc [= ->]]%app_inj_2]; [|done].
  destruct p, q; simpl in *; by subst.
Qed.

(** A file is neither its directory nor the directory above. *)
Lemma join_ne p n :
  plain_name n = true → join p n ≠ p ∧ join p n ≠ default path_empty (parent p).
Proof.
  intros Hn. rewrite join_plain by done. split; intros Hp;
    apply (f_equal (length ∘ p_comps)) in Hp; unfold compose in Hp; simpl in Hp;
    rewrite length_app in Hp; simpl in Hp; [lia|].
  unfold parent in Hp. destruct (p_comps p) as [|c cs]; [simpl in Hp; lia|].
  cbn [default p_comps] in Hp. pose proof (@app_removelast_last _ (c :: cs) "" ltac:(done)) as Hl.
  apply (f_equal length) in Hl. rewrite length_app in Hl. simpl in Hp, Hl. lia.
Qed.

Lemma join_not_empty p n : plain_name n = true → path_is_empty (join p n) = false.
Proof.
  intros Hn. rewrite join_plain by done. unfold path_is_empty; simpl.
  by destruct (p_comps p), (p_abs p).
Qed.

(** Nothing is lost by the component view: the bytes of a well-formed path
    parse back to it. *)
Lemma split_on_app a s :
  no_slash a = true → split_on slash (a ++ String slash s) = a :: split_on slash s.
Proof.
  induction a as [|x a IH]; simpl; [done|].
  intros [Hx Ha]%andb_prop. apply negb_true_iff in Hx. by rewrite Hx, IH.
Qed.

Lemma split_on_sep_by c cs :
  Forall (λ c, no_slash c = true) (c :: cs) → split_on slash (sep_by (c :: cs)) = c :: cs.
Proof.
  revert c. induction cs as [|d cs IH]; intros c [Hc Hcs]%Forall_cons_1.
  - by apply split_on_no_slash.
  - change (sep_by (c :: d :: cs)) with (c ++ String slash (sep_by (d :: cs))).
    by rewrite split_on_app, IH.
Qed.

Lemma plain_no_slash cs :
  Forall (λ c, plain_name c = true) cs → Forall (λ c, no_slash c = true) cs.
Proof. intros H. eapply Forall_impl; [exact H|]. by intros c []%plain_name_spec. Qed.

Lemma sep_by_nonempty c cs : c ≠ "" → String.eqb (sep_by (c :: cs)) "" = false.
Proof. intros Hc. apply String.eqb_neq. by destruct c, cs. Qed.

Lemma parse_render p : wf_path p → parse (render p) = p.
Proof.
  destruct p as [[] [|c cs]]; unfold wf_path; simpl; [done| |done|].
  - rewrite andb_false_r, orb_false_r. intros [Hc Hcs].
    assert (Forall (λ c, plain_name c = true) (c :: cs)) as Hall by by constructor.
    change (render _) with (String slash (sep_by (c :: cs))).
    unfold parse. change (split_on slash (String slash ?s)) with ("" :: split_on slash s).
    rewrite split_on_sep_by by by apply plain_no_slash. cbn [String.eqb andb negb].
    by rewrite drop_cur_plain.
  - intros [Hc Hcs]. change (render _) with (sep_by (c :: cs)).
    assert (no_slash c = true ∧ c ≠ "") as [Hns Hne].
    { apply orb_true_iff in Hc as [Hc|[Hc _]%andb_prop].
      - by apply plain_name_spec in Hc as (?&?&?).
      - by apply String.eqb_eq in Hc as ->. }
    unfold parse. rewrite split_on_sep_by by (constructor; [done|by apply plain_no_slash]).
    rewrite (proj2 (String.eqb_neq _ _) Hne); cbn [andb].
    destruct (is_cur c) eqn:Hcur; [by rewrite drop_cur_plain|].
    rewrite drop_cur_plain; [done|]. constructor; [|done].
    apply orb_true_iff in Hc as [Hc|[Hc _]%andb_prop]; [done|congruence].
Qed.
