(* ===== verification/Handles.v ===== *)
(** * Handles: the file and directory handle tables (src/fs/handles.rs)

    [HandleTable] maps the handle numbers given to the kernel to the state of
    the open file; numbers come from an atomic 64-bit counter starting at 1.
    [DirHandleTable] does the same for directories.  The invariant [wf] says
    that every key is a number already handed out and that each entry carries
    its own key; it gives that a number is never handed out twice. *)
From S2P Require Import Prelude Paths.

Local Open Scope Z_scope.

(** Snapshot of an open file handle for display purposes. *)
Record OpenFileInfo := mkInfo { i_path : PathBuf; i_sid : Z; i_flags : Z }.

Record HandleState := mkHandle {
  h_fh : Z;                          (* u64: the id assigned by dibs *)
  h_real_fd : Z;                     (* i32: descriptor in the backing fs *)
  h_path : PathBuf;                  (* relative to the backing root *)
  h_hash_at_open : option (list byte);
  h_flags : Z;                       (* i32: open flags *)
  h_has_written : bool;
  h_sid : Z                          (* u32: session of the opener *)
}.

Module HandleTable.

Record t := mk { handles : gmap Z HandleState; next_fh : Z }.

Definition new : t := mk ∅ 1.

Definition alloc (real_fd : Z) (path : PathBuf) (flags : Z)
    (hash : option (list byte)) (sid : Z) (ht : t) : Z * t :=
  let fh := next_fh ht in
  let state := mkHandle fh real_fd path hash flags false sid in
  (fh, mk (<[fh := state]> (handles ht)) (as_u64 (fh + 1))).

Definition get (fh : Z) (ht : t) : option HandleState := handles ht !! fh.

(** A mutation of the entry through the guard returned by [get_mut]. *)
Definition get_mut (fh : Z) (f : HandleState → HandleState) (ht : t) : t :=
  mk (alter f fh (handles ht)) (next_fh ht).

Definition remove (fh : Z) (ht : t) : option HandleState * t :=
  (handles ht !! fh, mk (delete fh (handles ht)) (next_fh ht)).

Definition count (ht : t) : nat := size (handles ht).

Definition is_listed (h : HandleState) : bool :=
  (0 <=? h_real_fd h) && negb (starts_with (h_path h) (parse ".dibs")).

Definition list_open `{DashMapIter} (ht : t) : list OpenFileInfo :=
  (λ e : Z * HandleState, mkInfo (h_path e.2) (h_sid e.2) (h_flags e.2)) <$>
    List.filter (λ e : Z * HandleState, is_listed e.2) (dash_iter (handles ht)).

(** Every entry sits at its own id, and ids are below the counter. *)
Definition wf (ht : t) : Prop :=
  1 <= next_fh ht ∧
  ∀ fh h, handles ht !! fh = Some h → h_fh h = fh ∧ 1 <= fh < next_fh ht.

(** Room for one more id before the counter wraps. *)
Definition has_room (ht : t) : Prop := next_fh ht < u64_MAX.

Lemma wf_new : wf new.
Proof. split; [done|]. intros fh h; simpl. by rewrite lookup_empty. Qed.

Lemma wf_lt ht fh : wf ht → is_Some (get fh ht) → 1 <= fh < next_fh ht.
Proof. intros [_ Hwf] [h Hh]. by apply Hwf in Hh as []. Qed.

Lemma alloc_room_next ht fd p fl hash sid :
  wf ht → has_room ht →
  next_fh (alloc fd p fl hash sid ht).2 = next_fh ht + 1.
Proof.
  intros [? _] Hr. unfold has_room, u64_MAX in Hr. simpl. rewrite wrap_u_small; lia.
Qed.

Lemma alloc_wf ht fd p fl hash sid :
  wf ht → has_room ht → wf (alloc fd p fl hash sid ht).2.
Proof.
  intros Hwf Hr. pose proof (alloc_room_next ht fd p fl hash sid Hwf Hr) as Hn.
  destruct Hwf as [H1 Hwf]. split; [lia|]. rewrite Hn. simpl. intros fh h.
  rewrite lookup_insert_Some. intros [[<- <-]|[_ Hh]]; simpl; [lia|].
  apply Hwf in Hh. lia.
Qed.

Lemma get_mut_wf ht fh f :
  (∀ h, h_fh (f h) = h_fh h) → wf ht → wf (get_mut fh f ht).
Proof.
  intros Hf [H1 Hwf]. split; [done|]. simpl. intros fh' h.
  rewrite lookup_alter_Some. intros [(<-&h'&Hh&->)|[_ Hh]]; [rewrite Hf|]; by apply Hwf.
Qed.

Lemma remove_wf ht fh : wf ht → wf (remove fh ht).2.
Proof.
  intros [H1 Hwf]. split; [done|]. simpl. intros fh' h.
  rewrite lookup_delete_Some. intros [_ Hh]. by apply Hwf.
Qed.

Lemma remove_next ht fh : next_fh (remove fh ht).2 = next_fh ht.
Proof. done. Qed.

Lemma get_alloc ht fd p fl hash sid :
  get (alloc fd p fl hash sid ht).1 (alloc fd p fl hash sid ht).2 =
  Some (mkHandle (next_fh ht) fd p hash fl false sid).
Proof. unfold get; simpl. by rewrite lookup_insert_eq. Qed.

Lemma get_alloc_next ht fd p fl hash sid :
  get (next_fh ht) (alloc fd p fl hash sid ht).2 =
  Some (mkHandle (next_fh ht) fd p hash fl false sid).
Proof. exact (get_alloc ht fd p fl hash sid). Qed.

Lemma get_alloc_ne ht fd p fl hash sid fh :
  fh ≠ next_fh ht → get fh (alloc fd p fl hash sid ht).2 = get fh ht.
Proof. intros. unfold get; simpl. by rewrite lookup_insert_ne. Qed.

Lemma alloc_fresh ht fd p fl hash sid :
  wf ht → get (alloc fd p fl hash sid ht).1 ht = None.
Proof.
  intros [_ Hwf]. unfold get; simpl.
  destruct (handles ht !! next_fh ht) eqn:E; [|done]. apply Hwf in E. lia.
Qed.

Lemma get_remove ht fh fh' :
  get fh' (remove fh ht).2 = if decide (fh' = fh) then None else get fh' ht.
Proof.
  unfold get, remove; simpl. case_decide; subst; by simplify_map_eq.
Qed.

Lemma get_get_mut ht fh fh' f :
  get fh' (get_mut fh f ht) =
  if decide (fh' = fh) then f <$> get fh ht else get fh' ht.
Proof.
  unfold get, get_mut; simpl. case_decide; subst; by simplify_map_eq.
Qed.

(** ** Histories

    The mutations the rest of the program performs on the table, in any
    order.  [h_fh] is never assigned after [alloc]; the two fields that are
    ([hash_at_open], [has_written]) are the ones [OpSet] sets. *)
Inductive op :=
| OpAlloc (real_fd : Z) (path : PathBuf) (flags : Z) (hash : option (list byte)) (sid : Z)
| OpSet (fh : Z) (hash : option (list byte)) (has_written : bool)
| OpRemove (fh : Z).

Definition set_state (hash : option (list byte)) (w : bool) (h : HandleState) : HandleState :=
  mkHandle (h_fh h) (h_real_fd h) (h_path h) hash (h_flags h) w (h_sid h).

Fixpoint exec (ops : list op) (ht : t) : list Z * t :=
  match ops with
  | [] => ([], ht)
  | OpAlloc fd p fl hash sid :: ops =>
      let (fh, ht) := alloc fd p fl hash sid ht in
      let (fhs, ht) := exec ops ht in (fh :: fhs, ht)
  | OpSet fh hash w :: ops => exec ops (get_mut fh (set_state hash w) ht)
  | OpRemove fh :: ops => exec ops (remove fh ht).2
  end.

Definition allocs (ops : list op) : nat :=
  length (List.filter (λ o, match o with OpAlloc _ _ _ _ _ => true | _ => false end) ops).

Lemma exec_ids ops ht :
  wf ht → next_fh ht + Z.of_nat (allocs ops) <= u64_MAX →
  (exec ops ht).1 = seqZ (next_fh ht) (Z.of_nat (allocs ops)) ∧ wf (exec ops ht).2.
Proof.
  revert ht. induction ops as [|o ops IH]; intros ht Hwf Hn; [done|].
  destruct o as [fd p fl hash sid|fh hash w|fh].
  - assert (has_room ht) as Hr by (unfold has_room; revert Hn; unfold allocs; simpl; lia).
    pose proof (alloc_room_next ht fd p fl hash sid Hwf Hr) as Hnx.
    pose proof (alloc_wf ht fd p fl hash sid Hwf Hr) as Hwf'.
    destruct (IH (alloc fd p fl hash sid ht).2) as [He Hw]; [done| |].
    { rewrite Hnx. revert Hn. unfold allocs; simpl. lia. }
    cbn [exec]. destruct (alloc fd p fl hash sid ht) as [fh ht'] eqn:Ea.
    assert (fh = next_fh ht) as -> by (unfold alloc in Ea; by simplify_eq).
    simpl in *. destruct (exec ops ht') as [fhs ht'']; simpl in *. subst. split; [|done].
    change (allocs (_ :: ops)) with (S (allocs ops)).
    rewrite (seqZ_cons (next_fh ht)) by lia. f_equal. rewrite Hnx. f_equal; lia.
  - apply (IH (get_mut fh (set_state hash w) ht)); [by apply get_mut_wf|done].
  - apply (IH (remove fh ht).2); [by apply remove_wf|done].
Qed.

(** C26. Handle numbers are never reused: whatever sequence of opens, updates and
    releases runs on a fresh table, the numbers handed out are 1, 2, 3, ... in
    order (so all distinct), for as many opens as the 64-bit counter allows;
    and the table invariant still holds at the end. *)
Theorem ids_never_reused (ops : list op) (Hn : Z.of_nat (allocs ops) < u64_MAX) :
  (exec ops new).1 = seqZ 1 (Z.of_nat (allocs ops)) ∧ NoDup (exec ops new).1 ∧ wf (exec ops new).2.
Proof.
  destruct (exec_ids ops new wf_new) as [He Hw]; [simpl; lia|].
  rewrite He. split; [done|]. split; [apply NoDup_seqZ|done].
Qed.

Lemma ids_never_reused_witness :
  (exec [OpAlloc 3 path_empty 0 None 7; OpRemove 1; OpAlloc 4 path_empty 0 None 7] new).1
    = [1; 2].
Proof.
  pose proof (ids_never_reused
    [OpAlloc 3 path_empty 0 None 7; OpRemove 1; OpAlloc 4 path_empty 0 None 7]
    ltac:(vm_compute; reflexivity)) as [H _].
  exact H.
Defined.

(** [list_open] reports exactly the handles backed by a real descriptor whose
    path is outside the virtual [.dibs] directory, with their path, session and
    flags, in whatever order the table is iterated, and never more entries than
    there are handles. *)
Theorem list_open_spec `{DashMapIter} (ht : t) (i : OpenFileInfo) :
  (i ∈ list_open ht ↔
   ∃ fh h, get fh ht = Some h ∧ 0 <= h_real_fd h ∧
           starts_with (h_path h) (parse ".dibs") = false ∧
           i = mkInfo (h_path h) (h_sid h) (h_flags h)) ∧
  (length (list_open ht) <= count ht)%nat.
Proof.
  split.
  - unfold list_open. rewrite list_elem_of_fmap. split.
    + intros ([fh h]&->&Hin). apply list_elem_of_In, filter_In in Hin as [Hin Hl].
      apply list_elem_of_In, elem_of_dash_iter in Hin. unfold is_listed in Hl; simpl in *.
      apply andb_prop in Hl as [Hfd Hp]. apply negb_true_iff in Hp.
      exists fh, h. split; [done|]. split; [lia|done].
    + intros (fh&h&Hh&Hfd&Hp&->). exists (fh, h). split; [done|].
      apply list_elem_of_In, filter_In. split.
      * by apply list_elem_of_In, elem_of_dash_iter.
      * unfold is_listed; simpl. rewrite Hp, andb_true_r. lia.
  - unfold list_open, count. rewrite length_fmap, <-length_dash_iter.
    apply List.filter_length_le.
Qed.

End HandleTable.

Record DirHandleState := mkDirHandle {
  d_fh : Z;
  d_real_fd : Z;
  d_path : PathBuf
}.

Module DirHandleTable.

Record t := mk { handles : gmap Z DirHandleState; next_fh : Z }.

Definition new : t := mk ∅ 1.

Definition alloc (real_fd : Z) (path : PathBuf) (dt : t) : Z * t :=
  let fh := next_fh dt in
  (fh, mk (<[fh := mkDirHandle fh real_fd path]> (handles dt)) (as_u64 (fh + 1))).

Definition get (fh : Z) (dt : t) : option DirHandleState := handles dt !! fh.

Definition remove (fh : Z) (dt : t) : option DirHandleState * t :=
  (handles dt !! fh, mk (delete fh (handles dt)) (next_fh dt)).

Definition wf (dt : t) : Prop :=
  1 <= next_fh dt ∧
  ∀ fh h, handles dt !! fh = Some h → d_fh h = fh ∧ 1 <= fh < next_fh dt.

Definition has_room (dt : t) : Prop := next_fh dt < u64_MAX.

Lemma dir_wf_new : wf new.
Proof. split; [done|]. intros fh h; simpl. by rewrite lookup_empty. Qed.

Lemma dir_alloc_wf dt fd p : wf dt → has_room dt → wf (alloc fd p dt).2.
Proof.
  intros [H1 Hwf] Hr. unfold has_room, u64_MAX in Hr. unfold wf; simpl.
  rewrite wrap_u_small by lia. split; [lia|]. intros fh h.
  rewrite lookup_insert_Some. intros [[<- <-]|[_ Hh]]; simpl; [lia|].
  apply Hwf in Hh. lia.
Qed.

Lemma dir_remove_wf dt fh : wf dt → wf (remove fh dt).2.
Proof.
  intros [H1 Hwf]. split; [done|]. simpl. intros fh' h.
  rewrite lookup_delete_Some. intros [_ Hh]. by apply Hwf.
Qed.

Lemma dir_alloc_remove dt fd p :
  wf dt →
  remove (alloc fd p dt).1 (alloc fd p dt).2 =
  (Some (mkDirHandle (next_fh dt) fd p), mk (handles dt) (as_u64 (next_fh dt + 1))).
Proof.
  intros [_ Hwf]. unfold remove, alloc; simpl. rewrite lookup_insert_eq.
  rewrite delete_insert_id; [done|].
  destruct (handles dt !! next_fh dt) eqn:E; [|done]. apply Hwf in E. lia.
Qed.

End DirHandleTable.

#[export] Hint Resolve HandleTable.wf_new HandleTable.alloc_wf HandleTable.remove_wf
  DirHandleTable.dir_wf_new DirHandleTable.dir_alloc_wf DirHandleTable.dir_remove_wf : dibs.
#[export] Hint Extern 1 (HandleTable.wf (HandleTable.get_mut _ _ _)) =>
  apply HandleTable.get_mut_wf; [reflexivity|] : dibs.
