(* ===== verification/Inodes.v ===== *)
(** * Inodes: the inode table (src/fs/inodes.rs)

    Two maps, inode to path and path to inode, kept in step by every operation.
    [consistent] (each registered path's inode maps back to that path) holds in
    every reachable table; [bijective] (the converse too) holds as long as no
    rename lands on a path that is already registered.  The last thousand
    64-bit numbers are reserved for the virtual [.dibs] entries. *)
From S2P Require Import Prelude Paths.

Local Open Scope Z_scope.

(** Reserved inode range for synthetic [.dibs] entries. *)
Definition SYNTHETIC_INODE_BASE : Z := u64_MAX - 1000.
Definition DIBS_DIR_INO : Z := SYNTHETIC_INODE_BASE.
Definition DIBS_STATUS_INO : Z := SYNTHETIC_INODE_BASE + 1.
Definition DIBS_LOCKS_INO : Z := SYNTHETIC_INODE_BASE + 2.
Definition DIBS_CONFLICTS_DIR_INO : Z := SYNTHETIC_INODE_BASE + 3.

Module InodeTable.

Record t := mk {
  ino_to_path : gmap Z PathBuf;
  path_to_ino : gmap PathBuf Z;
  next_synthetic : Z
}.

Definition new : t := mk ∅ ∅ (DIBS_CONFLICTS_DIR_INO + 1).

(** Drop the old path of this inode. *)
Definition forget_ino (ino : Z) (it : t) : t :=
  match ino_to_path it !! ino with
  | Some old_path =>
      mk (delete ino (ino_to_path it)) (delete old_path (path_to_ino it)) (next_synthetic it)
  | None => it
  end.

(** Drop the old inode of this path. *)
Definition forget_path (ino : Z) (path : PathBuf) (it : t) : t :=
  match path_to_ino it !! path with
  | Some old_ino =>
      mk (if decide (old_ino ≠ ino) then delete old_ino (ino_to_path it) else ino_to_path it)
         (delete path (path_to_ino it)) (next_synthetic it)
  | None => it
  end.

Definition insert (ino : Z) (path : PathBuf) (it : t) : t :=
  let it := forget_path ino path (forget_ino ino it) in
  mk (<[ino := path]> (ino_to_path it)) (<[path := ino]> (path_to_ino it)) (next_synthetic it).

Definition get_path (ino : Z) (it : t) : option PathBuf := ino_to_path it !! ino.

Definition get_ino (path : PathBuf) (it : t) : option Z := path_to_ino it !! path.

Definition remove_by_ino (ino : Z) (it : t) : t := forget_ino ino it.

Definition remove_by_path (path : PathBuf) (it : t) : t :=
  match path_to_ino it !! path with
  | Some ino =>
      mk (delete ino (ino_to_path it)) (delete path (path_to_ino it)) (next_synthetic it)
  | None => it
  end.

Definition rename (old_path new_path : PathBuf) (it : t) : t :=
  match path_to_ino it !! old_path with
  | Some ino =>
      mk (<[ino := new_path]> (ino_to_path it))
         (<[new_path := ino]> (delete old_path (path_to_ino it))) (next_synthetic it)
  | None => it
  end.

Definition alloc_synthetic (it : t) : Z * t :=
  (next_synthetic it,
   mk (ino_to_path it) (path_to_ino it) (as_u64 (next_synthetic it + 1))).

Definition is_synthetic (ino : Z) : bool := SYNTHETIC_INODE_BASE <=? ino.

(** ** Invariants *)

Definition consistent (it : t) : Prop :=
  ∀ p i, path_to_ino it !! p = Some i → ino_to_path it !! i = Some p.

Definition bijective (it : t) : Prop :=
  ∀ i p, ino_to_path it !! i = Some p ↔ path_to_ino it !! p = Some i.

Lemma bijective_consistent it : bijective it → consistent it.
Proof. intros H p i. apply H. Qed.

Lemma bijective_new : bijective new.
Proof. intros i p. unfold new; simpl. by rewrite !lookup_empty. Qed.

Lemma consistent_inj it p q i :
  consistent it → path_to_ino it !! p = Some i → path_to_ino it !! q = Some i → p = q.
Proof. intros Hc Hp%Hc Hq%Hc. congruence. Qed.

Lemma forget_ino_consistent ino it :
  consistent it →
  consistent (forget_ino ino it) ∧
  ino_to_path (forget_ino ino it) !! ino = None ∧
  ∀ p, path_to_ino (forget_ino ino it) !! p ≠ Some ino.
Proof.
  intros Hc. unfold forget_ino. destruct (ino_to_path it !! ino) as [old|] eqn:Ho; simpl.
  - split; [|split; [by simplify_map_eq|]].
    + intros p i; simpl. intros [Hne Hp]%lookup_delete_Some. pose proof (Hc _ _ Hp).
      rewrite lookup_delete_ne; [done|]. intros <-. congruence.
    + intros p [Hne Hp%Hc]%lookup_delete_Some. congruence.
  - split; [done|]. split; [done|]. intros p Hp%Hc. congruence.
Qed.

Lemma forget_path_consistent ino path it :
  consistent it → (∀ p, path_to_ino it !! p ≠ Some ino) →
  consistent (forget_path ino path it) ∧
  path_to_ino (forget_path ino path it) !! path = None ∧
  ∀ p, path_to_ino (forget_path ino path it) !! p ≠ Some ino.
Proof.
  intros Hc Hno. unfold forget_path.
  destruct (path_to_ino it !! path) as [old|] eqn:Ho; simpl; [|done].
  split; [|split; [by simplify_map_eq|]].
  - intros p i; simpl. intros [Hne Hp]%lookup_delete_Some. pose proof (Hc _ _ Hp) as Hp'.
    case_decide; [|done]. rewrite lookup_delete_ne; [done|]. intros <-.
    apply Hne. by eapply consistent_inj.
  - intros p [_ Hp]%lookup_delete_Some. by eapply Hno.
Qed.

Lemma insert_consistent ino path it : consistent it → consistent (insert ino path it).
Proof.
  intros Hc. destruct (forget_ino_consistent ino it Hc) as (Hc1&Hi1&Hp1).
  destruct (forget_path_consistent ino path _ Hc1 Hp1) as (Hc2&Hi2&Hp2).
  unfold insert. set (it' := forget_path _ _ _) in *. intros p i; simpl.
  rewrite lookup_insert_Some. intros [[<- <-]|[Hne Hp]]; [by simplify_map_eq|].
  rewrite lookup_insert_ne; [by apply Hc2|]. intros <-. by eapply Hp2.
Qed.

Lemma remove_by_path_consistent path it : consistent it → consistent (remove_by_path path it).
Proof.
  intros Hc. unfold remove_by_path.
  destruct (path_to_ino it !! path) as [ino|] eqn:Ho; [|done].
  intros p i; simpl. intros [Hne Hp]%lookup_delete_Some.
  rewrite lookup_delete_ne; [by apply Hc|]. intros <-. apply Hne. by eapply consistent_inj.
Qed.

Lemma get_path_insert ino path it : get_path ino (insert ino path it) = Some path.
Proof. unfold get_path, insert; simpl. by rewrite lookup_insert_eq. Qed.

(** What registering [(ino, path)] does to the lookups of the other pairs. *)
Lemma get_path_insert_ne ino i path p it :
  consistent it → i ≠ ino → p ≠ path →
  get_path i it = Some p → get_path i (insert ino path it) = Some p.
Proof.
  intros Hc Hi Hp Hg. unfold get_path, insert in *; simpl. rewrite lookup_insert_ne by done.
  destruct (forget_ino_consistent ino it Hc) as (Hc1&_&_).
  assert (ino_to_path (forget_ino ino it) !! i = Some p) as Hg1.
  { unfold forget_ino. case_match; [|done]. simpl. by rewrite lookup_delete_ne. }
  unfold forget_path. destruct (path_to_ino (forget_ino ino it) !! path) as [old|] eqn:Ho; [|done].
  simpl. case_decide; [|done]. rewrite lookup_delete_ne; [done|]. intros ->.
  apply Hc1 in Ho. congruence.
Qed.

Lemma get_path_insert_inv ino i path p it :
  get_path i (insert ino path it) = Some p → (i = ino ∧ p = path) ∨ get_path i it = Some p.
Proof.
  unfold get_path, insert; simpl. rewrite lookup_insert_Some. intros [[<- <-]|[_ Hg]]; [by left|].
  right. revert Hg. unfold forget_path, forget_ino.
  repeat (case_match; simpl; try case_decide); rewrite ?lookup_delete_Some; tauto.
Qed.

Lemma get_ino_insert_ne ino path p it :
  p ≠ path → get_path ino it ≠ Some p → get_ino p (insert ino path it) = get_ino p it.
Proof.
  intros Hp Hg. unfold get_ino, get_path, insert in *; simpl. rewrite lookup_insert_ne by done.
  transitivity (path_to_ino (forget_ino ino it) !! p).
  - unfold forget_path. case_match; [|done]. simpl. by rewrite lookup_delete_ne.
  - unfold forget_ino. destruct (ino_to_path it !! ino) as [q|]; [|done]. simpl.
    rewrite lookup_delete_ne; [done|]. congruence.
Qed.

Lemma get_ino_remove path it : get_ino path (remove_by_path path it) = None.
Proof.
  unfold get_ino, remove_by_path. destruct (path_to_ino it !! path) eqn:E; [|done]. simpl.
  by rewrite lookup_delete_eq.
Qed.

Lemma rename_consistent old_path new_path it :
  consistent it → consistent (rename old_path new_path it).
Proof.
  intros Hc. unfold rename. destruct (path_to_ino it !! old_path) as [ino|] eqn:Ho; [|done].
  intros p i; simpl. rewrite lookup_insert_Some. intros [[<- <-]|[Hne Hp]]; [by simplify_map_eq|].
  apply lookup_delete_Some in Hp as [Hne' Hp].
  rewrite lookup_insert_ne; [by apply Hc|]. intros <-. apply Hne'. by eapply consistent_inj.
Qed.

Lemma remove_by_ino_consistent ino it : consistent it → consistent (remove_by_ino ino it).
Proof. intros Hc. by apply forget_ino_consistent. Qed.

(** ** The bijection *)

Lemma bijective_extend ino path it :
  bijective it → ino_to_path it !! ino = None → path_to_ino it !! path = None →
  bijective (mk (<[ino := path]> (ino_to_path it)) (<[path := ino]> (path_to_ino it))
               (next_synthetic it)).
Proof.
  intros Hb Hi Hp i p; simpl.
  destruct (decide (i = ino)) as [->|Hni], (decide (p = path)) as [->|Hnp];
    simplify_map_eq; [done| | |apply Hb].
  - split; [congruence|]. intros Hq%Hb. congruence.
  - split; [|congruence]. intros Hq%Hb. congruence.
Qed.

Lemma bijective_shrink ino path it :
  bijective it → ino_to_path it !! ino = Some path →
  bijective (mk (delete ino (ino_to_path it)) (delete path (path_to_ino it))
               (next_synthetic it)).
Proof.
  intros Hb Hi i p; simpl. pose proof (proj1 (Hb _ _) Hi) as Hp.
  destruct (decide (i = ino)) as [->|Hni], (decide (p = path)) as [->|Hnp];
    simplify_map_eq; [done| | |apply Hb].
  - split; [done|]. intros Hq%Hb. congruence.
  - split; [|done]. intros Hq%Hb. congruence.
Qed.

Lemma forget_ino_bijective ino it :
  bijective it → bijective (forget_ino ino it).
Proof.
  intros Hb. unfold forget_ino.
  destruct (ino_to_path it !! ino) eqn:E; [|done]. by apply bijective_shrink.
Qed.

Lemma forget_path_bijective ino path it :
  bijective it → ino_to_path it !! ino = None →
  bijective (forget_path ino path it) ∧
  ino_to_path (forget_path ino path it) !! ino = None ∧
  path_to_ino (forget_path ino path it) !! path = None.
Proof.
  intros Hb Hi. unfold forget_path.
  destruct (path_to_ino it !! path) as [old|] eqn:E; [|done].
  assert (old ≠ ino) as Hne. { intros ->. apply Hb in E. congruence. }
  rewrite decide_True by done. split; [|simpl; by simplify_map_eq].
  apply bijective_shrink; [done|]. by apply Hb.
Qed.

Lemma insert_bijective ino path it : bijective it → bijective (insert ino path it).
Proof.
  intros Hb. pose proof (forget_ino_bijective ino it Hb) as Hb1.
  destruct (forget_ino_consistent ino it (bijective_consistent it Hb)) as (_&Hi1&_).
  destruct (forget_path_bijective ino path _ Hb1 Hi1) as (Hb2&Hi2&Hp2).
  by apply bijective_extend.
Qed.

Lemma remove_by_path_bijective path it : bijective it → bijective (remove_by_path path it).
Proof.
  intros Hb. unfold remove_by_path.
  destruct (path_to_ino it !! path) eqn:E; [|done]. apply bijective_shrink; [done|]. by apply Hb.
Qed.

Lemma rename_bijective old_path new_path it :
  bijective it → (new_path = old_path ∨ path_to_ino it !! new_path = None) →
  bijective (rename old_path new_path it).
Proof.
  intros Hb Hnew. unfold rename.
  destruct (path_to_ino it !! old_path) as [ino|] eqn:Ho; [|done].
  pose proof (bijective_shrink ino old_path it Hb (proj2 (Hb _ _) Ho)) as Hb'.
  rewrite <-(insert_delete_eq (ino_to_path it) ino).
  apply (bijective_extend ino new_path _ Hb'); simpl; [by simplify_map_eq|].
  destruct Hnew as [->|Hnew]; [by simplify_map_eq|].
  destruct (decide (new_path = old_path)) as [->|]; by simplify_map_eq.
Qed.

(** ** Histories *)

Inductive op :=
| OpInsert (ino : Z) (path : PathBuf)
| OpRemoveByIno (ino : Z)
| OpRemoveByPath (path : PathBuf)
| OpRename (old_path new_path : PathBuf)
| OpAllocSynthetic.

Definition apply_op (o : op) (it : t) : t :=
  match o with
  | OpInsert ino path => insert ino path it
  | OpRemoveByIno ino => remove_by_ino ino it
  | OpRemoveByPath path => remove_by_path path it
  | OpRename old_path new_path => rename old_path new_path it
  | OpAllocSynthetic => (alloc_synthetic it).2
  end.

Definition exec (ops : list op) (it : t) : t := foldl (λ it o, apply_op o it) it ops.

Lemma apply_op_consistent o it : consistent it → consistent (apply_op o it).
Proof.
  destruct o; simpl; auto using insert_consistent, remove_by_ino_consistent,
    remove_by_path_consistent, rename_consistent.
Qed.

Lemma exec_consistent ops it : consistent it → consistent (exec ops it).
Proof.
  revert it. induction ops as [|o ops IH]; intros it Hc; [done|].
  apply (IH (apply_op o it)). by apply apply_op_consistent.
Qed.

(** A history in which no rename lands on a path registered at that time. *)
Fixpoint no_clobber (ops : list op) (it : t) : Prop :=
  match ops with
  | [] => True
  | o :: ops =>
      match o with
      | OpRename old_path new_path => new_path = old_path ∨ get_ino new_path it = None
      | _ => True
      end ∧ no_clobber ops (apply_op o it)
  end.

Lemma exec_bijective ops it : bijective it → no_clobber ops it → bijective (exec ops it).
Proof.
  revert it. induction ops as [|o ops IH]; intros it Hb Hn; [done|].
  destruct Hn as [Ho Hn]. apply (IH (apply_op o it)); [|done].
  destruct o; simpl; auto using insert_bijective, forget_ino_bijective,
    remove_by_path_bijective, rename_bijective.
Qed.

(** C24. In every table reached from the empty one by any sequence of inserts,
    removals, renames and synthetic allocations, the inode of a registered path
    maps back to that path, so two registered paths never share an inode. *)
Theorem reachable_consistent (ops : list op) (p q : PathBuf) (i : Z) :
  let it := exec ops new in
  get_ino p it = Some i →
  get_path i it = Some p ∧ (get_ino q it = Some i → p = q).
Proof.
  intros it Hp. pose proof (exec_consistent ops new
    (bijective_consistent _ bijective_new)) as Hc.
  split; [by apply Hc|]. intros Hq. by eapply consistent_inj.
Qed.

Lemma reachable_consistent_witness :
  get_path 5 (exec [OpInsert 5 (parse "a"); OpRename (parse "a") (parse "b")] new)
    = Some (parse "b").
Proof.
  apply (reachable_consistent [OpInsert 5 (parse "a"); OpRename (parse "a") (parse "b")]
    (parse "b") (parse "b") 5). reflexivity.
Defined.

(** C25. The two maps are inverse to each other in every table reached without a
    rename onto a registered path, and registering an inode there makes both
    lookups return the new pair while the other pairs that name neither the inode
    nor the path keep their lookups. *)
Theorem insert_lookup (ops : list op) (ino : Z) (path : PathBuf)
    (Hn : no_clobber ops new) :
  let it := exec ops new in
  bijective it ∧ bijective (insert ino path it) ∧
  get_path ino (insert ino path it) = Some path ∧
  get_ino path (insert ino path it) = Some ino ∧
  ∀ i p, i ≠ ino → p ≠ path →
    (get_path i (insert ino path it) = Some p ↔ get_path i it = Some p).
Proof.
  intros it. assert (bijective it) as Hb by by apply exec_bijective, Hn; apply bijective_new.
  split; [done|]. split; [by apply insert_bijective|].
  unfold get_path, get_ino, insert; simpl. split; [by simplify_map_eq|].
  split; [by simplify_map_eq|]. intros i p Hi Hp. rewrite lookup_insert_ne by done.
  unfold forget_path, forget_ino.
  destruct (ino_to_path it !! ino) as [old|] eqn:E1; simpl;
    [destruct (delete old (path_to_ino it) !! path) as [oi|] eqn:E2
    |destruct (path_to_ino it !! path) as [oi|] eqn:E2]; simpl;
    repeat case_decide; rewrite ?lookup_delete_Some; try (clear Hb; split; [tauto|]; intros; split_and?; congruence).
  - apply lookup_delete_Some in E2 as [_ E2']. apply Hb in E2'.
    split; [tauto|]. intros Hip. split_and!; [congruence|done|done].
  - split; [tauto|]. intros Hip. split; [|done]. apply Hb in E2. congruence.
Qed.

Lemma insert_lookup_witness :
  bijective (exec [OpInsert 5 (parse "a"); OpRename (parse "a") (parse "b")] new) ∧
  get_path 7 (insert 7 (parse "b")
    (exec [OpInsert 5 (parse "a"); OpRename (parse "a") (parse "b")] new)) = Some (parse "b").
Proof.
  pose proof (insert_lookup [OpInsert 5 (parse "a"); OpRename (parse "a") (parse "b")]
    7 (parse "b")) as H.
  destruct H as (H1&_&H2&_).
  { simpl. split; [done|]. split; [right; reflexivity|done]. }
  split; [exact H1|exact H2].
Defined.

(** A rename moves exactly one registration: the inode of the old path now
    resolves to the new path and back, the old path is no longer registered, and
    every path other than the two keeps its inode; renaming an unregistered path
    changes nothing. *)
Theorem rename_lookup (it : t) (old_path new_path q : PathBuf) :
  (∀ ino, get_ino old_path it = Some ino →
     get_path ino (rename old_path new_path it) = Some new_path ∧
     get_ino new_path (rename old_path new_path it) = Some ino ∧
     (old_path ≠ new_path → get_ino old_path (rename old_path new_path it) = None)) ∧
  (get_ino old_path it = None → rename old_path new_path it = it) ∧
  (q ≠ old_path → q ≠ new_path →
     get_ino q (rename old_path new_path it) = get_ino q it).
Proof.
  unfold rename, get_ino, get_path. split_and!.
  - intros ino ->; simpl. split_and!; intros; by simplify_map_eq.
  - by intros ->.
  - intros. destruct (path_to_ino it !! old_path); simpl; by simplify_map_eq.
Qed.

(** Renaming onto a path that is already registered leaves the inode of the
    overwritten file resolving to the path of the new one: two inodes then share
    that path and the maps are no longer inverse to each other. *)
Theorem rename_over_registered_not_bijective
    (it : t) (old_path new_path : PathBuf) (ino victim : Z)
    (Hb : bijective it) (Hne : old_path ≠ new_path)
    (Ho : get_ino old_path it = Some ino) (Hv : get_ino new_path it = Some victim) :
  get_path victim (rename old_path new_path it) = Some new_path ∧
  get_path ino (rename old_path new_path it) = Some new_path ∧
  victim ≠ ino ∧
  ¬ bijective (rename old_path new_path it).
Proof.
  unfold get_ino, get_path in *.
  assert (victim ≠ ino) as Hvi.
  { intros ->. apply Hne. by eapply consistent_inj; [apply bijective_consistent|..]. }
  assert (ino_to_path (rename old_path new_path it) !! victim = Some new_path) as Hvp.
  { unfold rename. rewrite Ho; simpl. rewrite lookup_insert_ne by done. by apply Hb. }
  split; [done|]. split; [|split; [done|]].
  - unfold rename. rewrite Ho; simpl. by simplify_map_eq.
  - intros Hb'. apply Hb' in Hvp. unfold rename in Hvp. rewrite Ho in Hvp; simpl in Hvp.
    by simplify_map_eq.
Qed.

Lemma rename_over_registered_not_bijective_witness :
  get_path 6 (rename (parse "tmp") (parse "a")
    (insert 5 (parse "tmp") (insert 6 (parse "a") new))) = Some (parse "a").
Proof.
  destruct (rename_over_registered_not_bijective
    (insert 5 (parse "tmp") (insert 6 (parse "a") new)) (parse "tmp") (parse "a") 5 6)
    as [H _]; [| | | |exact H].
  - apply insert_bijective, insert_bijective, bijective_new.
  - done.
  - reflexivity.
  - reflexivity.
Defined.

(** ** Synthetic inodes *)

Fixpoint alloc_n (n : nat) (it : t) : list Z * t :=
  match n with
  | O => ([], it)
  | S n => let (i, it) := alloc_synthetic it in
           let (js, it) := alloc_n n it in (i :: js, it)
  end.

Lemma alloc_n_seq n it :
  0 <= next_synthetic it → next_synthetic it + Z.of_nat n <= u64_MAX →
  (alloc_n n it).1 = seqZ (next_synthetic it) (Z.of_nat n) ∧
  next_synthetic (alloc_n n it).2 = next_synthetic it + Z.of_nat n.
Proof.
  revert it. induction n as [|n IH]; intros it H0 Hn; [simpl; split; [done|lia]|].
  assert (as_u64 (next_synthetic it + 1) = next_synthetic it + 1) as Hw.
  { unfold u64_MAX in Hn. apply wrap_u_small. lia. }
  pose proof (IH (alloc_synthetic it).2) as IH'. simpl in IH'. rewrite Hw in IH'.
  destruct IH' as [H1 H2]; [lia|lia|]. cbn [alloc_n alloc_synthetic]. rewrite Hw.
  destruct (alloc_n n _) as [js it'] in *; simpl in *. rewrite H1, H2.
  split; [|lia]. rewrite (seqZ_cons (next_synthetic it)) by lia. f_equal. f_equal; lia.
Qed.

(** Bounds of the synthetic range: the first 996 allocated numbers are all
    synthetic, distinct, and different from the four well-known ones; the 997th
    is [u64::MAX] and the counter then wraps to 0, so the next number handed out
    is no longer synthetic. *)
Theorem alloc_synthetic_bounds :
  (∀ n, (n <= 996)%nat →
     NoDup (alloc_n n new).1 ∧
     Forall (λ i, is_synthetic i = true ∧ i ∉ [DIBS_DIR_INO; DIBS_STATUS_INO;
       DIBS_LOCKS_INO; DIBS_CONFLICTS_DIR_INO]) (alloc_n n new).1) ∧
  (alloc_synthetic (alloc_n 996 new).2).1 = u64_MAX ∧
  (alloc_synthetic (alloc_synthetic (alloc_n 996 new).2).2).1 = 0 ∧
  is_synthetic 0 = false.
Proof.
  assert (next_synthetic new = u64_MAX - 996) as Hs by reflexivity.
  assert (0 <= next_synthetic new) as H0 by (rewrite Hs; done).
  split; [|split; [|split; [|reflexivity]]].
  - intros n Hn. destruct (alloc_n_seq n new H0 ltac:(lia)) as [-> _].
    split; [apply NoDup_seqZ|]. apply Forall_forall. intros i Hi%elem_of_seqZ.
    rewrite Hs in Hi. unfold is_synthetic, SYNTHETIC_INODE_BASE.
    split; [lia|]. rewrite !elem_of_cons, elem_of_nil.
    unfold DIBS_DIR_INO, DIBS_STATUS_INO, DIBS_LOCKS_INO, DIBS_CONFLICTS_DIR_INO,
      SYNTHETIC_INODE_BASE. lia.
  - destruct (alloc_n_seq 996 new H0 ltac:(lia)) as [_ H].
    cbn [alloc_synthetic fst snd next_synthetic]. rewrite H, Hs. lia.
  - destruct (alloc_n_seq 996 new H0 ltac:(lia)) as [_ H].
    cbn [alloc_synthetic fst snd next_synthetic]. rewrite H, Hs. reflexivity.
Qed.

End InodeTable.

#[export] Hint Resolve InodeTable.insert_consistent InodeTable.remove_by_path_consistent
  InodeTable.rename_consistent : dibs.
