(* ===== verification/Env.v ===== *)
(** * Env: the interfaces of the code dibs calls and does not contain

    The kernel and the backing file system ([Posix]), the hash functions of the
    [sha2] and [xxhash_rust] crates ([Digests]), the clocks and [chrono]
    ([Clocks]), [serde_json] and [fuser]'s error conversion ([Crates]) are
    parameters: each class lists the operations the source calls, and a class of
    laws states the documented behaviour the theorems rely on.  Types and
    constants are those of the [libc] crate on macOS, the only platform the code
    compiles for (it reads [st_birthtime] and calls [chflags]). *)
From S2P Require Import Prelude Paths.

Local Open Scope Z_scope.

(** [std::io::Error]: an OS error number, or the [InvalidInput] error made by
    [path_to_cstring]. *)
Inductive IoError :=
| OsError (code : Z)
| InvalidInput.

(** The [Errno] constants the handlers reply with. *)
Module Errno.
Definition ENOENT : Z := 2.
Definition EIO : Z := 5.
Definition EBADF : Z := 9.
Definition EACCES : Z := 13.
Definition EINVAL : Z := 22.
Definition ENOTSUP : Z := 45.
End Errno.

(** [libc] flags. *)
Definition O_ACCMODE : Z := 3.
Definition O_RDONLY : Z := 0.
Definition O_WRONLY : Z := 1.
Definition O_RDWR : Z := 2.
Definition O_CREAT : Z := 512.
Definition O_TRUNC : Z := 1024.
Definition UTIME_NOW : Z := -1.
Definition UTIME_OMIT : Z := -2.

(** [libc::stat]: the fields [stat_to_file_attr] reads. *)
Record stat := mkStat {
  st_ino : Z;              (* u64 *)
  st_size : Z;             (* i64 *)
  st_blocks : Z;           (* i64 *)
  st_atime : Z; st_atime_nsec : Z;
  st_mtime : Z; st_mtime_nsec : Z;
  st_ctime : Z; st_ctime_nsec : Z;
  st_birthtime : Z; st_birthtime_nsec : Z;   (* i64 each *)
  st_mode : Z;             (* u16 *)
  st_nlink : Z;            (* u16 *)
  st_uid : Z; st_gid : Z;  (* u32 *)
  st_rdev : Z;             (* i32 *)
  st_blksize : Z;          (* i32 *)
  st_flags : Z             (* u32 *)
}.

(** [libc::statfs]: the fields [statfs] reads. *)
Record statfs_t := mkStatfs {
  f_blocks : Z; f_bfree : Z; f_bavail : Z; f_files : Z; f_ffree : Z; f_bsize : Z
}.

(** A [timespec] passed to [utimensat]. *)
Record timespec := mkTimespec { tv_sec : Z; tv_nsec : Z }.

(** ** The kernel and the backing file system

    A call that fails returns its error number.  Calls that only inspect the
    file system do not return a new state. *)
Class Posix := {
  os : Type;
  File : Type;
  sys_getsid : os → Z → Z;
  sys_getuid : os → Z;
  sys_getgid : os → Z;
  sys_lstat : os → PathBuf → result stat Z;
  sys_fstat : os → Z → result stat Z;
  sys_open : os → PathBuf → Z → option Z → result Z Z * os;
  sys_close : os → Z → os;
  sys_pread : os → Z → Z → Z → result (list byte) Z;
  sys_pwrite : os → Z → list byte → Z → result Z Z * os;
  sys_ftruncate : os → Z → Z → result unit Z * os;
  sys_truncate : os → PathBuf → Z → result unit Z * os;
  sys_chmod : os → PathBuf → Z → result unit Z * os;
  sys_chown : os → PathBuf → Z → Z → result unit Z * os;
  sys_utimensat : os → PathBuf → timespec → timespec → result unit Z * os;
  sys_chflags : os → PathBuf → Z → result unit Z * os;
  sys_opendir : os → PathBuf → result Z Z * os;
  sys_dirfd : os → Z → Z;
  sys_dup : os → Z → Z * os;
  sys_closedir : os → Z → os;
  sys_mkdir : os → PathBuf → Z → result unit Z * os;
  sys_rmdir : os → PathBuf → result unit Z * os;
  sys_unlink : os → PathBuf → result unit Z * os;
  sys_rename : os → PathBuf → PathBuf → result unit Z * os;
  sys_symlink : os → PathBuf → PathBuf → result unit Z * os;
  sys_statfs : os → PathBuf → result statfs_t Z;
  sys_access : os → PathBuf → Z → result unit Z;
  fs_metadata_len : os → PathBuf → result Z IoError;
  fs_open_read : os → PathBuf → result File IoError;
  file_read : File → Z → result (list byte * File) IoError;
  file_rest : File → list byte;
  fs_read_dir : os → PathBuf → result (list (result string IoError)) IoError;
  fs_read_link : os → PathBuf → result string IoError;
  fs_exists : os → PathBuf → bool;
  fs_write : os → PathBuf → list byte → result unit IoError * os;
  fs_create_dir_all : os → PathBuf → result unit IoError * os
}.

(** The nanosecond fields of a [stat] are below a second (POSIX), and its
    seconds fit the 64-bit [time_t]. *)
Definition timespec_ok (sec nsec : Z) : Prop :=
  - 2 ^ 63 <= sec <= i64_MAX ∧ 0 <= nsec < 1000000000.

Definition stat_ok (st : stat) : Prop :=
  timespec_ok (st_atime st) (st_atime_nsec st) ∧
  timespec_ok (st_mtime st) (st_mtime_nsec st) ∧
  timespec_ok (st_ctime st) (st_ctime_nsec st) ∧
  timespec_ok (st_birthtime st) (st_birthtime_nsec st).

(** [file_rest f] are the bytes an open file has left to read: a read takes some
    prefix of them, empty only at the end of the file. *)
Class PosixLaws `{Posix} := {
  file_read_prefix : ∀ f n c f', file_read f n = Ok (c, f') →
    file_rest f = c ++ file_rest f';
  file_read_eof : ∀ f n f', 0 < n → file_read f n = Ok ([], f') → file_rest f = [];
  lstat_ok : ∀ o p st, sys_lstat o p = Ok st → stat_ok st;
  fstat_ok : ∀ o fd st, sys_fstat o fd = Ok st → stat_ok st
}.

(** ** Hash functions *)
Class Digests := {
  hasher : Type;
  sha256_new : hasher;
  sha256_update : hasher → list byte → hasher;
  sha256_finalize : hasher → list byte;
  xxh3_128 : list byte → Z
}.

(** Feeding a hasher in pieces is feeding it their concatenation; SHA-256
    outputs have 32 bytes, XXH3-128 outputs are 128-bit numbers. *)
Class DigestLaws `{Digests} := {
  sha256_update_app : ∀ h a b,
    sha256_update (sha256_update h a) b = sha256_update h (a ++ b);
  sha256_update_nil : ∀ h, sha256_update h [] = h;
  sha256_length : ∀ h, length (sha256_finalize h) = 32%nat;
  xxh3_range : ∀ l, 0 <= xxh3_128 l < 2 ^ 128
}.

(** ** Clocks and chrono

    The clocks are read through a counter of readings: [utc_now k] is the value
    of the [k]-th reading, in nanoseconds, with no assumption on the sequence. *)
Class Clocks := {
  utc_now : nat → Z;
  system_now : nat → Z;
  instant_now : nat → Z;
  format_ts : Z → string;            (* "%Y%m%d_%H%M%S_%3f" *)
  to_rfc3339 : Z → string;
  chrono_from_std : Z → option Z;    (* Duration::from_std(..).ok() *)
  chrono_sub : Z → Z → option Z;     (* DateTime - Duration; None: it panics *)
  datetime_min : Z                   (* DateTime::<Utc>::MIN_UTC *)
}.

(** A chrono duration holds up to [i64::MAX] milliseconds, and a subtraction
    panics when the result is before the earliest date. *)
Class ClockLaws `{Clocks} := {
  chrono_from_std_exact : ∀ d d', chrono_from_std d = Some d' → d' = d;
  chrono_from_std_some : ∀ d, 0 <= d → is_Some (chrono_from_std d) ↔ d <= i64_MAX * 1000000;
  chrono_sub_exact : ∀ t d t', chrono_sub t d = Some t' → t' = t - d;
  chrono_sub_some : ∀ t d, 0 <= d → is_Some (chrono_sub t d) ↔ datetime_min <= t - d
}.

(** ** serde_json and fuser *)
#[local] Set Warnings "-register-all".

Inductive Json :=
| JNull
| JNum (n : Z)
| JStr (s : string)
| JArr (l : list Json)
| JObj (l : list (string * Json)).

Class Crates := {
  json_to_string : Json → string;
  json_to_string_pretty : Json → result string unit;
  errno_from_io : IoError → Z
}.
