(* ===== verification/Passthrough.v ===== *)
(** * Passthrough: conversions between kernel and FUSE types (src/fs/passthrough.rs)

    Attribute conversion with the integer casts of the source, and the wrappers
    of [lstat] and [fstat].  A [SystemTime] is a number of nanoseconds since the
    epoch; adding a [Duration] that leaves the 64-bit seconds panics, which is
    [None] here. *)
From S2P Require Import Prelude Paths Env.

Local Open Scope Z_scope.

Inductive FileType :=
| RegularFile | Directory | Symlink | BlockDevice | CharDevice | NamedPipe | Socket.

#[global] Instance FileType_eq_dec : EqDecision FileType.
Proof. solve_decision. Defined.

Record FileAttr := mkAttr {
  a_ino : Z;
  a_size : Z;
  a_blocks : Z;
  a_atime : Z;
  a_mtime : Z;
  a_ctime : Z;
  a_crtime : Z;
  a_kind : FileType;
  a_perm : Z;
  a_nlink : Z;
  a_uid : Z;
  a_gid : Z;
  a_rdev : Z;
  a_blksize : Z;
  a_flags : Z
}.

Definition S_IFMT : Z := 61440.      (* 0o170000 *)
Definition S_IFSOCK : Z := 49152.    (* 0o140000 *)
Definition S_IFLNK : Z := 40960.     (* 0o120000 *)
Definition S_IFREG : Z := 32768.     (* 0o100000 *)
Definition S_IFBLK : Z := 24576.     (* 0o060000 *)
Definition S_IFDIR : Z := 16384.     (* 0o040000 *)
Definition S_IFCHR : Z := 8192.      (* 0o020000 *)
Definition S_IFIFO : Z := 4096.      (* 0o010000 *)

Definition mode_to_filetype (mode : Z) : FileType :=
  let fmt := Z.land mode S_IFMT in
  if fmt =? S_IFREG then RegularFile
  else if fmt =? S_IFDIR then Directory
  else if fmt =? S_IFLNK then Symlink
  else if fmt =? S_IFBLK then BlockDevice
  else if fmt =? S_IFCHR then CharDevice
  else if fmt =? S_IFIFO then NamedPipe
  else if fmt =? S_IFSOCK then Socket
  else RegularFile.

(** [UNIX_EPOCH + Duration::new(sec as u64, nsec as u32)]: [Duration::new]
    carries whole seconds out of the nanoseconds, and the sum panics when its
    seconds exceed [i64::MAX]. *)
Definition system_time_from_parts (sec nsec : Z) : option Z :=
  if 0 <=? sec then
    let total := sec * 1000000000 + as_u32 nsec in
    if total / 1000000000 <=? i64_MAX then Some total else None
  else Some 0.

Definition stat_to_file_attr (st : stat) : option FileAttr :=
  atime ← system_time_from_parts (st_atime st) (st_atime_nsec st);
  mtime ← system_time_from_parts (st_mtime st) (st_mtime_nsec st);
  ctime ← system_time_from_parts (st_ctime st) (st_ctime_nsec st);
  crtime ← system_time_from_parts (st_birthtime st) (st_birthtime_nsec st);
  Some {|
    a_ino := st_ino st;
    a_size := as_u64 (st_size st);
    a_blocks := as_u64 (st_blocks st);
    a_atime := atime;
    a_mtime := mtime;
    a_ctime := ctime;
    a_crtime := crtime;
    a_kind := mode_to_filetype (as_u32 (st_mode st));
    a_perm := as_u16 (Z.land (as_u32 (st_mode st)) 4095);
    a_nlink := as_u32 (st_nlink st);
    a_uid := st_uid st;
    a_gid := st_gid st;
    a_rdev := as_u32 (st_rdev st);
    a_blksize := as_u32 (st_blksize st);
    a_flags := st_flags st
  |}.

(** [CString::new(path bytes)]: fails on an interior NUL.  The C string is the
    path itself, with its bytes. *)
Definition path_to_cstring (path : PathBuf) : result PathBuf IoError :=
  if has_nul (render path) then Err InvalidInput else Ok path.

Lemma path_to_cstring_some path c : result_ok (path_to_cstring path) = Some c → c = path.
Proof. unfold path_to_cstring. case_match; simpl; congruence. Qed.

Definition lstat `{Posix} (o : os) (path : PathBuf) : result stat IoError :=
  match path_to_cstring path with
  | Err e => Err e
  | Ok c_path => match sys_lstat o c_path with
                 | Ok st => Ok st
                 | Err code => Err (OsError code)
                 end
  end.

Definition fstat `{Posix} (o : os) (fd : Z) : result stat IoError :=
  match sys_fstat o fd with
  | Ok st => Ok st
  | Err code => Err (OsError code)
  end.

(** ** Properties *)

Lemma system_time_ok sec nsec :
  timespec_ok sec nsec →
  system_time_from_parts sec nsec = Some (if 0 <=? sec then sec * 1000000000 + nsec else 0).
Proof.
  unfold timespec_ok, system_time_from_parts. intros [Hs Hn].
  destruct (Z.leb_spec 0 sec); [|done]. rewrite wrap_u_small by lia.
  rewrite Z.div_add_l, (Z.div_small nsec) by lia.
  destruct (Z.leb_spec (sec + 0) i64_MAX); [done|lia].
Qed.

Lemma stat_to_file_attr_some st :
  stat_ok st → ∃ a, stat_to_file_attr st = Some a ∧ a_ino a = st_ino st.
Proof.
  intros (H1&H2&H3&H4). unfold stat_to_file_attr.
  rewrite !system_time_ok by done. simpl. eauto.
Qed.

Lemma lstat_stat_ok `{PosixLaws} o p st : lstat o p = Ok st → stat_ok st.
Proof.
  unfold lstat. intros Hl. destruct (path_to_cstring p); [|done].
  destruct (sys_lstat o a) eqn:E; simplify_eq. by eapply lstat_ok.
Qed.

Lemma fstat_stat_ok `{PosixLaws} o fd st : fstat o fd = Ok st → stat_ok st.
Proof.
  unfold fstat. intros Hl. destruct (sys_fstat o fd) eqn:E; simplify_eq. by eapply fstat_ok.
Qed.

(** The seven type codes, and what every other code is reported as. *)
Definition kind_of_fmt (fmt : Z) : FileType :=
  match list_find (λ e, e.1 = fmt)
    [(S_IFREG, RegularFile); (S_IFDIR, Directory); (S_IFLNK, Symlink);
     (S_IFBLK, BlockDevice); (S_IFCHR, CharDevice); (S_IFIFO, NamedPipe);
     (S_IFSOCK, Socket)] with
  | Some (_, (_, k)) => k
  | None => RegularFile
  end.

Lemma land_S_IFMT mode : Z.land mode S_IFMT = (mode / 4096) `mod` 16 * 4096.
Proof.
  assert (Z.land mode S_IFMT = Z.shiftl (Z.land (Z.shiftr mode 12) (Z.ones 4)) 12) as ->.
  { unfold S_IFMT. change 61440 with (Z.shiftl (Z.ones 4) 12).
    apply Z.bits_inj'. intros i Hi. rewrite Z.land_spec, !Z.shiftl_spec, Z.land_spec by done.
    destruct (Z.lt_ge_cases i 12).
    - rewrite (Z.testbit_neg_r (Z.ones 4)) by lia. by rewrite !andb_false_r.
    - rewrite Z.shiftr_spec by lia. by replace (i - 12 + 12) with i by lia. }
  rewrite Z.land_ones, Z.shiftr_div_pow2, Z.shiftl_mul_pow2 by lia. done.
Qed.

Lemma mode_to_filetype_kind mode :
  0 <= mode < 2 ^ 16 → mode_to_filetype mode = kind_of_fmt (mode / 4096 * 4096).
Proof.
  intros Hm. unfold mode_to_filetype. rewrite land_S_IFMT.
  assert (0 <= mode / 4096 < 16) as Hf.
  { split; [apply Z.div_pos; lia|]. apply Z.div_lt_upper_bound; lia. }
  rewrite (Z.mod_small (mode / 4096)) by lia. generalize dependent (mode / 4096).
  intros f Hf. assert (f ∈ seqZ 0 16) as Hin by (apply elem_of_seqZ; lia).
  clear Hf Hm. apply list_elem_of_In in Hin. simpl in Hin.
  repeat destruct Hin as [<-|Hin]; try reflexivity. done.
Qed.

(** What a reply should say of a timestamp: nanoseconds since the epoch, and the
    epoch for the times before it. *)
Definition epoch_ns (sec nsec : Z) : Z := if 0 <=? sec then sec * 1000000000 + nsec else 0.

(** The ranges of the fields of a [stat] the kernel fills in, by the C types and
    the meaning of the fields: sizes, block counts and link counts are not
    negative; a device number may use all 32 bits. *)
Record stat_in_range (st : stat) : Prop := {
  sr_size : 0 <= st_size st < 2 ^ 63;
  sr_blocks : 0 <= st_blocks st < 2 ^ 63;
  sr_mode : 0 <= st_mode st < 2 ^ 16;
  sr_nlink : 0 <= st_nlink st < 2 ^ 16;
  sr_rdev : - 2 ^ 31 <= st_rdev st < 2 ^ 31;
  sr_blksize : 0 <= st_blksize st < 2 ^ 31
}.

Lemma as_u32_signed x : - 2 ^ 31 <= x < 2 ^ 31 → as_u32 x = if x <? 0 then x + 2 ^ 32 else x.
Proof.
  intros Hx. destruct (Z.ltb_spec x 0); [|apply wrap_u_small; lia].
  rewrite <-(wrap_u_small 32 (x + 2 ^ 32)) by lia. unfold wrap_u.
  by rewrite <-(Z.mod_add x 1) by lia.
Qed.

(** C40. Attribute conversion is total and exact in all its fifteen fields: for a
    [stat] with well-formed times and fields in range, the reply has the inode,
    size, blocks, link count, owner, group, block size and flags of the [stat];
    access, modification, change and birth time each as nanoseconds since the
    epoch (the epoch itself for earlier times); the kind of the high four mode
    bits and the low twelve as permissions; a negative device number as its
    32-bit pattern. *)
Theorem stat_to_file_attr_spec (st : stat) (Hok : stat_ok st) (Hrange : stat_in_range st) :
  stat_to_file_attr st = Some {|
    a_ino := st_ino st; a_size := st_size st; a_blocks := st_blocks st;
    a_atime := epoch_ns (st_atime st) (st_atime_nsec st);
    a_mtime := epoch_ns (st_mtime st) (st_mtime_nsec st);
    a_ctime := epoch_ns (st_ctime st) (st_ctime_nsec st);
    a_crtime := epoch_ns (st_birthtime st) (st_birthtime_nsec st);
    a_kind := kind_of_fmt (st_mode st / 4096 * 4096);
    a_perm := st_mode st `mod` 4096;
    a_nlink := st_nlink st; a_uid := st_uid st; a_gid := st_gid st;
    a_rdev := if st_rdev st <? 0 then st_rdev st + 2 ^ 32 else st_rdev st;
    a_blksize := st_blksize st; a_flags := st_flags st |}.
Proof.
  destruct Hok as (H1&H2&H3&H4), Hrange. unfold stat_to_file_attr.
  rewrite !system_time_ok by done. cbn [mbind option_bind]. f_equal.
  pose proof (Z.mod_pos_bound (st_mode st) 4096 ltac:(lia)).
  change 4095 with (Z.ones 12).
  rewrite (wrap_u_small 32 (st_mode st)), mode_to_filetype_kind, Z.land_ones by lia.
  change (2 ^ 12) with 4096. rewrite (as_u32_signed (st_rdev st)) by lia.
  rewrite !wrap_u_small by lia. done.
Qed.

Lemma stat_to_file_attr_spec_witness :
  stat_to_file_attr (mkStat 42 5 8 1 2 (-3) 4 5 6 7 8 33188 1 501 20 (-1) 4096 9) =
  Some (mkAttr 42 5 8 1000000002 0 5000000006 7000000008 RegularFile 420 1 501 20 4294967295
    4096 9).
Proof.
  apply (stat_to_file_attr_spec
    (mkStat 42 5 8 1 2 (-3) 4 5 6 7 8 33188 1 501 20 (-1) 4096 9)).
  - repeat split; simpl; unfold i64_MAX; lia.
  - split; simpl; lia.
Defined.
