(* ===== verification/Sample.v ===== *)
(** * Sample: concrete instances of the interfaces of Env

    A small in-memory file system (names, nodes, descriptors), a toy digest, a
    ticking clock and trivial printers, with proofs that they satisfy the laws.
    Nothing in the model of dibs depends on them: they are what the concrete
    evaluations run on, and they show that the laws can be met. *)
From S2P Require Import Prelude Paths Env.

Local Open Scope Z_scope.

Inductive node :=
| NFile (content : list byte)
| NDir
| NLink (target : string).

Record mem_os := mkMem {
  m_names : gmap PathBuf Z;      (* path to node number *)
  m_nodes : gmap Z node;
  m_fds : gmap Z Z;              (* descriptor to node number *)
  m_next : Z                     (* next node number or descriptor *)
}.

Definition mem_init : mem_os := mkMem ∅ ∅ ∅ 3.

Definition mem_lookup (m : mem_os) (p : PathBuf) : option (Z * node) :=
  i ← m_names m !! p; n ← m_nodes m !! i; Some (i, n).

Definition mem_content (m : mem_os) (p : PathBuf) : option (list byte) :=
  match mem_lookup m p with Some (_, NFile c) => Some c | _ => None end.

Definition mem_add (p : PathBuf) (n : node) (m : mem_os) : mem_os :=
  mkMem (<[p := m_next m]> (m_names m)) (<[m_next m := n]> (m_nodes m)) (m_fds m) (m_next m + 1).

Definition mem_set (i : Z) (c : list byte) (m : mem_os) : mem_os :=
  mkMem (m_names m) (<[i := NFile c]> (m_nodes m)) (m_fds m) (m_next m).

Definition mem_fd (i : Z) (m : mem_os) : Z * mem_os :=
  (m_next m, mkMem (m_names m) (m_nodes m) (<[m_next m := i]> (m_fds m)) (m_next m + 1)).

Definition mem_close (m : mem_os) (fd : Z) : mem_os :=
  mkMem (m_names m) (m_nodes m) (delete fd (m_fds m)) (m_next m).

Definition mem_stat (i : Z) (n : node) : stat :=
  let mode := match n with NFile _ => 33188 | NDir => 16877 | NLink _ => 41471 end in
  let size := match n with NFile c => Z.of_nat (length c) | _ => 0 end in
  mkStat (as_u64 i) size 0 0 0 0 0 0 0 0 0 mode 1 0 0 0 4096 0.

Definition mem_lstat (m : mem_os) (p : PathBuf) : result stat Z :=
  match mem_lookup m p with Some (i, n) => Ok (mem_stat i n) | None => Err 2 end.

Definition mem_fstat (m : mem_os) (fd : Z) : result stat Z :=
  match m_fds m !! fd with
  | Some i => match m_nodes m !! i with Some n => Ok (mem_stat i n) | None => Err 9 end
  | None => Err 9
  end.

Definition has_flag (flags f : Z) : bool := negb (Z.land flags f =? 0).

Definition mem_open (m : mem_os) (p : PathBuf) (flags : Z) (mode : option Z)
    : result Z Z * mem_os :=
  match mem_lookup m p with
  | Some (i, NFile _) =>
      let m := if has_flag flags O_TRUNC then mem_set i [] m else m in
      let (fd, m) := mem_fd i m in (Ok fd, m)
  | Some _ => (Err 21, m)
  | None =>
      if has_flag flags O_CREAT then
        let i := m_next m in
        let (fd, m) := mem_fd i (mem_add p (NFile []) m) in (Ok fd, m)
      else (Err 2, m)
  end.

Definition mem_fd_file (m : mem_os) (fd : Z) : option (Z * list byte) :=
  i ← m_fds m !! fd;
  match m_nodes m !! i with Some (NFile c) => Some (i, c) | _ => None end.

Definition mem_pread (m : mem_os) (fd size off : Z) : result (list byte) Z :=
  match mem_fd_file m fd with
  | Some (_, c) => Ok (take (Z.to_nat size) (drop (Z.to_nat off) c))
  | None => Err 9
  end.

(** Exactly [n] bytes: cut, or filled with zeros. *)
Definition resize (n : nat) (c : list byte) : list byte :=
  take n c ++ replicate (n - length c) Byte.x00.

Definition mem_pwrite (m : mem_os) (fd : Z) (data : list byte) (off : Z)
    : result Z Z * mem_os :=
  match mem_fd_file m fd with
  | Some (i, c) =>
      let o := Z.to_nat off in
      (Ok (Z.of_nat (length data)),
       mem_set i (resize o c ++ data ++ drop (o + length data) c) m)
  | None => (Err 9, m)
  end.

Definition mem_ftruncate (m : mem_os) (fd size : Z) : result unit Z * mem_os :=
  match mem_fd_file m fd with
  | Some (i, c) => (Ok tt, mem_set i (resize (Z.to_nat size) c) m)
  | None => (Err 9, m)
  end.

Definition mem_truncate (m : mem_os) (p : PathBuf) (size : Z) : result unit Z * mem_os :=
  match mem_lookup m p with
  | Some (i, NFile c) => (Ok tt, mem_set i (resize (Z.to_nat size) c) m)
  | _ => (Err 2, m)
  end.

Definition mem_exists (m : mem_os) (p : PathBuf) : bool :=
  match mem_lookup m p with Some _ => true | None => false end.

Definition mem_check (m : mem_os) (p : PathBuf) : result unit Z :=
  if mem_exists m p then Ok tt else Err 2.

Definition mem_create (m : mem_os) (p : PathBuf) (n : node) : result unit Z * mem_os :=
  if mem_exists m p then (Err 17, m) else (Ok tt, mem_add p n m).

Definition mem_remove (m : mem_os) (p : PathBuf) : result unit Z * mem_os :=
  if mem_exists m p
  then (Ok tt, mkMem (delete p (m_names m)) (m_nodes m) (m_fds m) (m_next m))
  else (Err 2, m).

Definition mem_rename (m : mem_os) (p q : PathBuf) : result unit Z * mem_os :=
  match m_names m !! p with
  | Some i => (Ok tt, mkMem (<[q := i]> (delete p (m_names m))) (m_nodes m) (m_fds m) (m_next m))
  | None => (Err 2, m)
  end.

Definition mem_opendir (m : mem_os) (p : PathBuf) : result Z Z * mem_os :=
  match mem_lookup m p with
  | Some (i, NDir) => let (fd, m) := mem_fd i m in (Ok fd, m)
  | _ => (Err 2, m)
  end.

Definition mem_read_dir (m : mem_os) (p : PathBuf)
    : result (list (result string IoError)) IoError :=
  Ok (omap (λ e : PathBuf * Z,
        if decide (parent e.1 = Some p) then Ok <$> file_name e.1 else None)
       (map_to_list (m_names m))).

Definition mem_write (m : mem_os) (p : PathBuf) (data : list byte) : result unit IoError * mem_os :=
  match mem_lookup m p with
  | Some (i, NFile _) => (Ok tt, mem_set i data m)
  | Some _ => (Err (OsError 21), m)
  | None => (Ok tt, mem_add p (NFile data) m)
  end.

Definition mem_dup (m : mem_os) (fd : Z) : Z * mem_os :=
  match m_fds m !! fd with Some i => mem_fd i m | None => (-1, m) end.

(** Process 100 is in session 10, process 200 in session 20, other processes
    are their own session leaders; negative numbers are no processes. *)
Definition mem_getsid (pid : Z) : Z :=
  if pid =? 100 then 10 else if pid =? 200 then 20 else if pid <? 0 then -1 else pid.

Definition mem_posix : Posix := {|
  os := mem_os;
  File := list byte;
  sys_getsid := λ _, mem_getsid;
  sys_getuid := λ _, 501;
  sys_getgid := λ _, 20;
  sys_lstat := mem_lstat;
  sys_fstat := mem_fstat;
  sys_open := mem_open;
  sys_close := mem_close;
  sys_pread := mem_pread;
  sys_pwrite := mem_pwrite;
  sys_ftruncate := mem_ftruncate;
  sys_truncate := mem_truncate;
  sys_chmod := λ m p _, (mem_check m p, m);
  sys_chown := λ m p _ _, (mem_check m p, m);
  sys_utimensat := λ m p _ _, (mem_check m p, m);
  sys_chflags := λ m p _, (mem_check m p, m);
  sys_opendir := mem_opendir;
  sys_dirfd := λ _ d, d;
  sys_dup := mem_dup;
  sys_closedir := mem_close;
  sys_mkdir := λ m p _, mem_create m p NDir;
  sys_rmdir := mem_remove;
  sys_unlink := mem_remove;
  sys_rename := mem_rename;
  sys_symlink := λ m t p, mem_create m p (NLink (render t));
  sys_statfs := λ _ _, Ok (mkStatfs 1000 500 500 100 50 4096);
  sys_access := λ m p _, mem_check m p;
  fs_metadata_len := λ m p,
    match mem_lookup m p with
    | Some (_, NFile c) => Ok (Z.of_nat (length c))
    | Some _ => Ok 0
    | None => Err (OsError 2)
    end;
  fs_open_read := λ m p, match mem_content m p with Some c => Ok c | None => Err (OsError 2) end;
  file_read := λ f n, Ok (take (Z.to_nat n) f, drop (Z.to_nat n) f);
  file_rest := λ f, f;
  fs_read_dir := mem_read_dir;
  fs_read_link := λ m p,
    match mem_lookup m p with Some (_, NLink t) => Ok t | _ => Err (OsError 22) end;
  fs_exists := mem_exists;
  fs_write := mem_write;
  fs_create_dir_all := λ m p, (Ok tt, (mem_create m p NDir).2)
|}.

Lemma mem_stat_ok i n : stat_ok (mem_stat i n).
Proof. repeat split; simpl; unfold i64_MAX; lia. Qed.

Lemma mem_posix_laws : @PosixLaws mem_posix.
Proof.
  split; simpl.
  - intros f n c f' [= <- <-]. by rewrite take_drop.
  - intros f n f' Hn [= Ht _]. destruct f as [|b f]; [done|].
    destruct (Z.to_nat n) eqn:E; [lia|done].
  - intros o p st. unfold mem_lstat. destruct (mem_lookup o p) as [[i n]|]; [|done].
    intros [= <-]. apply mem_stat_ok.
  - intros o fd st. unfold mem_fstat. destruct (m_fds o !! fd) as [i|]; [|done].
    destruct (m_nodes o !! i); [|done]. intros [= <-]. apply mem_stat_ok.
Qed.

(** A digest that keeps the length and the first bytes. *)
Definition toy_digest (l : list byte) : list byte :=
  resize 32 (default Byte.x00 (Byte.of_N (N.of_nat (length l) `mod` 256)) :: l).

Definition toy_digests : Digests := {|
  hasher := list byte;
  sha256_new := [];
  sha256_update := λ h c, h ++ c;
  sha256_finalize := toy_digest;
  xxh3_128 := λ l, Z.of_nat (length l) `mod` 2 ^ 128
|}.

Lemma toy_digest_laws : @DigestLaws toy_digests.
Proof.
  split; simpl.
  - intros h a b. by rewrite <-app_assoc.
  - intros h. by rewrite app_nil_r.
  - intros h. unfold toy_digest, resize. rewrite length_app, length_take, length_replicate. lia.
  - intros l. apply Z.mod_pos_bound. lia.
Qed.

(** One nanosecond per reading; durations up to [i64::MAX] milliseconds; dates
    from the year -262143 on. *)
Definition tick_clocks : Clocks := {|
  utc_now := Z.of_nat;
  system_now := Z.of_nat;
  instant_now := Z.of_nat;
  format_ts := pretty;
  to_rfc3339 := pretty;
  chrono_from_std := λ d, if d <=? i64_MAX * 1000000 then Some d else None;
  chrono_sub := λ t d, if -8334601228800000000000 <=? t - d then Some (t - d) else None;
  datetime_min := -8334601228800000000000
|}.

Lemma tick_clock_laws : @ClockLaws tick_clocks.
Proof.
  split; simpl.
  - intros d d'. destruct (d <=? _); congruence.
  - intros d _. destruct (Z.leb_spec d (i64_MAX * 1000000)); [by split; eauto|].
    split; [by intros [? ?]|lia].
  - intros t d t'. destruct (_ <=? t - d); congruence.
  - intros t d _. destruct (Z.leb_spec (-8334601228800000000000) (t - d)); [by split; eauto|].
    split; [by intros [? ?]|lia].
Qed.

(** The first 4096 bytes of a summary of the document. *)
Definition plain_crates : Crates := {|
  json_to_string := λ j,
    String.substring 0 4096 (match j with JObj l => String.concat "," (l.*1) | _ => "" end);
  json_to_string_pretty := λ j,
    Ok (String.substring 0 4096 (match j with JArr l => pretty (length l) | _ => "" end));
  errno_from_io := λ e, match e with OsError c => c | InvalidInput => Errno.EINVAL end
|}.

Definition sample_iter : DashMapIter := canonical_iter.

(** A file system with the given files. *)
Definition mem_with (l : list (string * string)) : mem_os :=
  foldl (λ m e, mem_add (parse e.1) (NFile (list_byte_of_string e.2)) m) mem_init l.
