(* ===== verification/Cas.v ===== *)
(** * Cas: content hashes (src/fs/cas.rs)

    [hash_file] hashes a file with SHA-256 when its size is at most 10 MB and
    with XXH3-128 otherwise, reading it in pieces until end of file.  The read
    loops run on fuel, one unit per read; [S (length (file_rest f))] units are
    enough because every read before the last takes at least one byte.  [None]
    means the loop ran out of fuel. *)
From S2P Require Import Prelude Paths Env Sample.

(** Threshold for switching from SHA-256 to xxHash (10 MB). *)
Definition HASH_THRESHOLD : Z := (10 * 1024 * 1024)%Z.

(** [n.to_be_bytes()] of a [k]-byte number. *)
Fixpoint to_le_bytes (k : nat) (n : Z) : list byte :=
  match k with
  | O => []
  | S k => default Byte.x00 (Byte.of_N (Z.to_N (n `mod` 256))) :: to_le_bytes k (n / 256)%Z
  end.

Definition to_be_bytes (k : nat) (n : Z) : list byte := rev (to_le_bytes k n).

(** Two lower-case hexadecimal digits, [format!("{:02x}", b)]. *)
Definition hex_digit (n : N) : ascii :=
  default "0"%char (String.get (N.to_nat n) "0123456789abcdef").

Definition hex_byte (b : byte) : list ascii :=
  [hex_digit (Byte.to_N b / 16); hex_digit (Byte.to_N b `mod` 16)].

Definition hash_hex (hash : list byte) : string :=
  string_of_list_ascii (hash ≫= hex_byte).

Section hashing.
Context `{Posix} `{Digests}.

Fixpoint hash_sha256_loop (fuel : nat) (file : File) (h : hasher)
    : option (result (list byte) IoError) :=
  match fuel with
  | O => None
  | S fuel =>
      match file_read file 8192 with
      | Err e => Some (Err e)
      | Ok ([], _) => Some (Ok (sha256_finalize h))
      | Ok (chunk, file) => hash_sha256_loop fuel file (sha256_update h chunk)
      end
  end.

Definition hash_sha256 (file : File) : option (result (list byte) IoError) :=
  hash_sha256_loop (S (length (file_rest file))) file sha256_new.

Fixpoint hash_xxh3_loop (fuel : nat) (file : File) (total : list byte)
    : option (result (list byte) IoError) :=
  match fuel with
  | O => None
  | S fuel =>
      match file_read file 65536 with
      | Err e => Some (Err e)
      | Ok ([], _) => Some (Ok (to_be_bytes 16 (xxh3_128 total)))
      | Ok (chunk, file) => hash_xxh3_loop fuel file (total ++ chunk)
      end
  end.

Definition hash_xxh3 (file : File) : option (result (list byte) IoError) :=
  hash_xxh3_loop (S (length (file_rest file))) file [].

Definition hash_file (o : os) (path : PathBuf) : option (result (list byte) IoError) :=
  match fs_metadata_len o path with
  | Err e => Some (Err e)
  | Ok size =>
      match fs_open_read o path with
      | Err e => Some (Err e)
      | Ok file =>
          if (size <=? HASH_THRESHOLD)%Z then hash_sha256 file else hash_xxh3 file
      end
  end.

(** ** Termination and agreement with the one-shot digests *)

Section laws.
Context `{!PosixLaws} `{!DigestLaws}.

Lemma read_shrinks f n b c f' :
  file_read f n = Ok (b :: c, f') → (length (file_rest f') < length (file_rest f))%nat.
Proof. intros ->%file_read_prefix. simpl. rewrite length_app. lia. Qed.

Lemma hash_sha256_loop_total fuel f h :
  (length (file_rest f) < fuel)%nat → is_Some (hash_sha256_loop fuel f h).
Proof.
  revert f h. induction fuel as [|fuel IH]; intros f h Hf; [lia|]. simpl.
  destruct (file_read f 8192) as [[[|b c] f']|e] eqn:E; [by eexists| |by eexists].
  apply IH. apply read_shrinks in E. lia.
Qed.

Lemma hash_xxh3_loop_total fuel f acc :
  (length (file_rest f) < fuel)%nat → is_Some (hash_xxh3_loop fuel f acc).
Proof.
  revert f acc. induction fuel as [|fuel IH]; intros f acc Hf; [lia|]. simpl.
  destruct (file_read f 65536) as [[[|b c] f']|e] eqn:E; [by eexists| |by eexists].
  apply IH. apply read_shrinks in E. lia.
Qed.

Lemma hash_file_some o p : is_Some (hash_file o p).
Proof.
  unfold hash_file. destruct (fs_metadata_len o p); [|by eexists].
  destruct (fs_open_read o p); [|by eexists].
  destruct (_ <=? _)%Z.
  - by apply hash_sha256_loop_total, Nat.lt_succ_diag_r.
  - by apply hash_xxh3_loop_total, Nat.lt_succ_diag_r.
Qed.

Lemma hash_sha256_loop_digest fuel f h d :
  hash_sha256_loop fuel f h = Some (Ok d) →
  d = sha256_finalize (sha256_update h (file_rest f)).
Proof.
  revert f h. induction fuel as [|fuel IH]; intros f h; [done|]. simpl.
  destruct (file_read f 8192) as [[[|b c] f']|e] eqn:E; [| |done].
  - intros [= <-]. by rewrite (file_read_eof f 8192 f'), sha256_update_nil by done.
  - intros ->%IH. by rewrite sha256_update_app, <-(file_read_prefix f 8192).
Qed.

Lemma hash_xxh3_loop_digest fuel f acc d :
  hash_xxh3_loop fuel f acc = Some (Ok d) →
  d = to_be_bytes 16 (xxh3_128 (acc ++ file_rest f)).
Proof.
  revert f acc. induction fuel as [|fuel IH]; intros f acc; [done|]. simpl.
  destruct (file_read f 65536) as [[[|b c] f']|e] eqn:E; [| |done].
  - intros [= <-]. by rewrite (file_read_eof f 65536 f'), app_nil_r by done.
  - intros ->%IH. by rewrite <-app_assoc, <-(file_read_prefix f 65536).
Qed.

Lemma length_to_be_bytes k n : length (to_be_bytes k n) = k.
Proof.
  unfold to_be_bytes. rewrite length_rev. revert n.
  induction k as [|k IH]; intros n; simpl; [done|]. by rewrite IH.
Qed.

(** C21. Hashing terminates and does not depend on how the reads split the file:
    [hash_file] always returns, and a hash it returns is the one-shot digest of
    the bytes of the file, 32 bytes of SHA-256 when the size is at most 10 MB
    and 16 bytes of XXH3-128 above. *)
Theorem hash_file_spec (o : os) (p : PathBuf) :
  is_Some (hash_file o p) ∧
  ∀ size f d, fs_metadata_len o p = Ok size → fs_open_read o p = Ok f →
    hash_file o p = Some (Ok d) →
    if (size <=? HASH_THRESHOLD)%Z
    then d = sha256_finalize (sha256_update sha256_new (file_rest f)) ∧ length d = 32%nat
    else d = to_be_bytes 16 (xxh3_128 (file_rest f)) ∧ length d = 16%nat.
Proof.
  split; [apply hash_file_some|]. intros size f d Hs Hf. unfold hash_file. rewrite Hs, Hf.
  destruct (size <=? HASH_THRESHOLD)%Z.
  - intros ->%hash_sha256_loop_digest. split; [done|]. apply sha256_length.
  - intros ->%hash_xxh3_loop_digest. split; [done|]. apply length_to_be_bytes.
Qed.
End laws.
End hashing.

Lemma hash_file_spec_witness :
  is_Some (@hash_file mem_posix toy_digests (mem_with [("/b/f", "hello")]) (parse "/b/f")).
Proof.
  apply (@hash_file_spec mem_posix toy_digests mem_posix_laws toy_digest_laws).
Defined.

(** ** Hexadecimal form *)

Definition digit_value (a : ascii) : option N :=
  N.of_nat <$> String.index 0 (String a "") "0123456789abcdef".

Fixpoint unhex (s : string) : option (list byte) :=
  match s with
  | EmptyString => Some []
  | String a (String b s) =>
      x ← digit_value a; y ← digit_value b;
      z ← Byte.of_N (x * 16 + y); l ← unhex s; Some (z :: l)
  | _ => None
  end.

Lemma unhex_byte b s :
  unhex (string_of_list_ascii (hex_byte b ++ s)) =
  l ← unhex (string_of_list_ascii s); Some (b :: l).
Proof. destruct b; reflexivity. Qed.

(** The hexadecimal form of a hash loses nothing: it has two digits per byte
    and reading them back gives the hash, so distinct hashes print differently. *)
Theorem hash_hex_roundtrip (h : list byte) :
  unhex (hash_hex h) = Some h ∧ String.length (hash_hex h) = (2 * length h)%nat.
Proof.
  unfold hash_hex. induction h as [|b h [IH1 IH2]]; [done|]. split.
  - rewrite bind_cons, unhex_byte, IH1. done.
  - rewrite bind_cons. cbn [hex_byte app string_of_list_ascii String.length length].
    rewrite IH2. lia.
Qed.
