(* ===== verification/HashTable.v ===== *)
(** * HashTable: the CAS table (src/state/hash_table.rs)

    [entries] records, per path, the handle that owns writing; [reader_hashes]
    records, per session and path, the hash the session last saw (its receipt).
    Operations take the clock readings they make as arguments.  The value
    [None] of [check_and_acquire_write] and [evict_older_than] is a panic of the
    source ([unwrap] on a missing entry, date arithmetic out of range). *)
From S2P Require Import Prelude Paths Env Sample Handles Cas.

Local Open Scope Z_scope.

Record FileState := mkFileState {
  write_owner : option Z;
  last_access : Z
}.

Record ReaderEntry := mkReader {
  r_hash : list byte;
  r_last_access : Z
}.

Record FileStateInfo := mkFileStateInfo {
  fi_path : string;
  fi_write_owner : option Z;
  fi_last_access : string
}.

(** Why a write is refused. *)
Inductive CasError :=
| OwnedBy (path : PathBuf) (owner : Z)
| HandleStale (path : PathBuf) (expected found : list byte)
| ReaderStale (path : PathBuf) (reader current : list byte).

(** The [format!] strings of the three refusals. *)
Definition cas_error_msg (e : CasError) : string :=
  match e with
  | OwnedBy path owner =>
      "Write ownership conflict on " ++ display path ++ ": owned by handle " ++ pretty owner
  | HandleStale path expected found =>
      "CAS conflict on " ++ display path ++ ": expected " ++ hash_hex expected
        ++ ", found " ++ hash_hex found
  | ReaderStale path reader current =>
      "CAS conflict on " ++ display path ++ ": reader hash " ++ hash_hex reader
        ++ ", current " ++ hash_hex current
  end.

Module CasTable.

Record t := mk {
  entries : gmap PathBuf FileState;
  reader_hashes : gmap (Z * PathBuf) ReaderEntry
}.

Definition new : t := mk ∅ ∅.

Definition record_reader (now : Z) (path : PathBuf) (hash : list byte) (sid : Z) (ct : t) : t :=
  mk (entries ct) (<[(sid, path) := mkReader hash now]> (reader_hashes ct)).

Definition ensure_entry (now : Z) (path : PathBuf) (ct : t) : t :=
  match entries ct !! path with
  | Some _ => ct
  | None => mk (<[path := mkFileState None now]> (entries ct)) (reader_hashes ct)
  end.

(** The part of [check_and_acquire_write] that runs under the entry's lock. *)
Definition check_locked (now : Z) (path : PathBuf) (fh sid : Z) (handles : HandleTable.t)
    (actual_hash : list byte) (readers : gmap (Z * PathBuf) ReaderEntry) (state : FileState)
    : result unit CasError * FileState :=
  let acquired := (Ok tt, mkFileState (Some fh) now) in
  match write_owner state with
  | Some owner =>
      if decide (owner = fh) then (Ok tt, mkFileState (write_owner state) now)
      else (Err (OwnedBy path owner), state)
  | None =>
      match HandleTable.get fh handles with
      | Some handle =>
          match h_hash_at_open handle with
          | Some handle_hash =>
              if decide (handle_hash = actual_hash) then acquired
              else (Err (HandleStale path handle_hash actual_hash), state)
          | None =>
              match readers !! (sid, path) with
              | Some reader =>
                  if decide (r_hash reader = actual_hash) then acquired
                  else (Err (ReaderStale path (r_hash reader) actual_hash), state)
              | None => acquired
              end
          end
      | None => acquired
      end
  end.

Definition check_and_acquire_write (now_ensure now : Z) (path : PathBuf) (fh sid : Z)
    (handles : HandleTable.t) (actual_hash : list byte) (ct : t)
    : option (result unit CasError) * t :=
  let ct := ensure_entry now_ensure path ct in
  match entries ct !! path with
  | None => (None, ct)
  | Some state =>
      let (r, state) :=
        check_locked now path fh sid handles actual_hash (reader_hashes ct) state in
      (Some r, mk (<[path := state]> (entries ct)) (reader_hashes ct))
  end.

Definition release_write (path : PathBuf) (fh : Z) (ct : t) : t :=
  match entries ct !! path with
  | Some state =>
      if decide (write_owner state = Some fh)
      then mk (<[path := mkFileState None (last_access state)]> (entries ct)) (reader_hashes ct)
      else ct
  | None => ct
  end.

Definition update_reader (now : Z) (sid : Z) (path : PathBuf) (hash : list byte) (ct : t) : t :=
  mk (entries ct) (<[(sid, path) := mkReader hash now]> (reader_hashes ct)).

Definition get_reader_hash (sid : Z) (path : PathBuf) (ct : t) : option (list byte) :=
  r_hash <$> reader_hashes ct !! (sid, path).

Definition has_active_writer (path : PathBuf) (ct : t) : bool :=
  match entries ct !! path with
  | Some state => bool_decide (is_Some (write_owner state))
  | None => false
  end.

Definition remove (path : PathBuf) (ct : t) : t :=
  mk (delete path (entries ct)) (filter (λ e, e.1.2 ≠ path) (reader_hashes ct)).

(** One step of the loop of [rename] over the collected receipts. *)
Definition move_reader (old_path new_path : PathBuf)
    (m : gmap (Z * PathBuf) ReaderEntry) (e : Z * ReaderEntry) :=
  <[(e.1, new_path) := e.2]> (delete (e.1, old_path) m).

Section iterating.
Context `{DashMapIter} `{Clocks}.

(** The receipts for [old_path], with their sessions. *)
Definition to_move (old_path : PathBuf) (m : gmap (Z * PathBuf) ReaderEntry)
    : list (Z * ReaderEntry) :=
  (λ e : Z * PathBuf * ReaderEntry, (e.1.1, e.2)) <$>
    List.filter (λ e, bool_decide (e.1.2 = old_path)) (dash_iter m).

Definition rename (old_path new_path : PathBuf) (ct : t) : t :=
  let entries' :=
    match entries ct !! old_path with
    | Some state => <[new_path := state]> (delete old_path (entries ct))
    | None => entries ct
    end in
  mk entries' (foldl (move_reader old_path new_path) (reader_hashes ct)
                 (to_move old_path (reader_hashes ct))).

Definition len (ct : t) : nat := size (entries ct).

Definition active_writers (ct : t) : nat :=
  length (List.filter (λ e, bool_decide (is_Some (write_owner e.2))) (dash_iter (entries ct))).

Definition all_entries (ct : t) : list FileStateInfo :=
  (λ e : PathBuf * FileState,
     mkFileStateInfo (display e.1) (write_owner e.2) (to_rfc3339 (last_access e.2))) <$>
    dash_iter (entries ct).

(** The idle, unowned entries collected by an eviction. *)
Definition to_evict (cutoff : Z) (m : gmap PathBuf FileState) : list PathBuf :=
  (List.filter (λ e : PathBuf * FileState,
     bool_decide (write_owner e.2 = None) && (last_access e.2 <? cutoff)) (dash_iter m)).*1.

Definition evict_cutoff (now duration : Z) : option Z :=
  chrono_sub now (default 0 (chrono_from_std duration)).

Definition evict_older_than (now duration : Z) (ct : t) : option t :=
  cutoff ← evict_cutoff now duration;
  Some (mk (delete_all (to_evict cutoff (entries ct)) (entries ct))
           (filter (λ e, cutoff <= r_last_access e.2) (reader_hashes ct))).

End iterating.

(** ** Views of the table *)

Definition owner (path : PathBuf) (ct : t) : option Z :=
  entries ct !! path ≫= write_owner.

(** The CAS test: the hash the writer relies on, if there is one, is the hash
    of the file. *)
Definition fresh_view (path : PathBuf) (fh sid : Z) (handles : HandleTable.t)
    (actual_hash : list byte) (ct : t) : Prop :=
  match HandleTable.get fh handles with
  | None => True
  | Some handle =>
      match h_hash_at_open handle with
      | Some h => h = actual_hash
      | None => ∀ h, get_reader_hash sid path ct = Some h → h = actual_hash
      end
  end.

Lemma ensure_entry_owner now path q ct : owner q (ensure_entry now path ct) = owner q ct.
Proof.
  unfold owner, ensure_entry. destruct (entries ct !! path) eqn:E; [done|]. simpl.
  destruct (decide (q = path)) as [->|]; by simplify_map_eq.
Qed.

Lemma ensure_entry_readers now path ct :
  reader_hashes (ensure_entry now path ct) = reader_hashes ct.
Proof. unfold ensure_entry. by destruct (entries ct !! path). Qed.

Lemma ensure_entry_some now path ct :
  ∃ st, entries (ensure_entry now path ct) !! path = Some st ∧ write_owner st = owner path ct.
Proof.
  unfold owner, ensure_entry. destruct (entries ct !! path) eqn:E; simpl.
  - rewrite E. eauto.
  - rewrite lookup_insert_eq. eauto.
Qed.

Lemma ensure_entry_ne now path q ct :
  q ≠ path → entries (ensure_entry now path ct) !! q = entries ct !! q.
Proof.
  intros. unfold ensure_entry. destruct (entries ct !! path); [done|]. simpl. by simplify_map_eq.
Qed.

Lemma has_active_writer_owner path ct :
  has_active_writer path ct = bool_decide (is_Some (owner path ct)).
Proof.
  unfold has_active_writer, owner. destruct (entries ct !! path); [done|].
  symmetry. apply bool_decide_eq_false. intros [? ?]; done.
Qed.

(** ** Acquiring and releasing *)

Section acquire.
Variables (ne na : Z) (path : PathBuf) (fh sid : Z) (handles : HandleTable.t)
  (actual : list byte).
Implicit Types ct : t.

Abbreviation check := (check_and_acquire_write ne na path fh sid handles actual).

Lemma check_locked_ok readers st :
  (check_locked na path fh sid handles actual readers st).1 = Ok tt ↔
  write_owner st = Some fh ∨
  (write_owner st = None ∧ fresh_view path fh sid handles actual (mk ∅ readers)).
Proof.
  unfold check_locked, fresh_view, get_reader_hash; simpl.
  destruct (write_owner st) as [o|]; simpl.
  { case_decide; simpl; [subst; tauto|]. split; [done|]. intros [[= ->]|[? _]]; done. }
  destruct (HandleTable.get fh handles) as [h|]; simpl; [|tauto].
  destruct (h_hash_at_open h) as [hh|]; simpl; [by case_decide; simpl; intuition congruence|].
  destruct (readers !! (sid, path)) as [r|]; simpl.
  - case_decide; simpl; split; [|done|done|].
    + intros _. right. split; [done|]. by intros ? [= <-].
    + intros [|[_ Hf]]; [done|]. by destruct (Hf _ eq_refl).
  - split; [|done]. intros _. right. by split.
Qed.

Lemma check_locked_owner readers st :
  write_owner (check_locked na path fh sid handles actual readers st).2 =
  match (check_locked na path fh sid handles actual readers st).1 with
  | Ok _ => Some fh
  | Err _ => write_owner st
  end.
Proof.
  unfold check_locked. split_matches.
Qed.

Lemma check_unfold ct :
  ∃ st, entries (ensure_entry ne path ct) !! path = Some st ∧
    write_owner st = owner path ct ∧
    check ct =
      (let (r, st') := check_locked na path fh sid handles actual (reader_hashes ct) st in
       (Some r, mk (<[path := st']> (entries (ensure_entry ne path ct))) (reader_hashes ct))).
Proof.
  destruct (ensure_entry_some ne path ct) as (st&He&Ho). exists st. split; [done|].
  split; [done|]. unfold check_and_acquire_write. by rewrite He, ensure_entry_readers.
Qed.

Lemma check_some ct : is_Some (check ct).1.
Proof.
  destruct (check_unfold ct) as (st&_&_&->).
  destruct (check_locked na path fh sid handles actual (reader_hashes ct) st). by eexists.
Qed.

Lemma check_ok_iff ct :
  (check ct).1 = Some (Ok tt) ↔
  owner path ct = Some fh ∨
  (owner path ct = None ∧ fresh_view path fh sid handles actual ct).
Proof.
  destruct (check_unfold ct) as (st&He&Ho&->). rewrite <-Ho.
  pose proof (check_locked_ok (reader_hashes ct) st) as Hc.
  destruct (check_locked na path fh sid handles actual (reader_hashes ct) st) as [r st'];
    simpl in *. unfold fresh_view, get_reader_hash in *; simpl in *.
  rewrite <-Hc. split; congruence.
Qed.

Lemma check_readers ct : reader_hashes (check ct).2 = reader_hashes ct.
Proof.
  destruct (check_unfold ct) as (st&_&_&->).
  by destruct (check_locked na path fh sid handles actual (reader_hashes ct) st).
Qed.

Lemma check_owner ct :
  owner path (check ct).2 =
  match (check ct).1 with Some (Ok _) => Some fh | _ => owner path ct end.
Proof.
  destruct (check_unfold ct) as (st&_&Ho&->).
  pose proof (check_locked_owner (reader_hashes ct) st) as Hc.
  destruct (check_locked na path fh sid handles actual (reader_hashes ct) st) as [r st'];
    simpl in *. unfold owner at 1; simpl. rewrite lookup_insert_eq; simpl. rewrite Hc.
  by destruct r; rewrite ?Ho.
Qed.

Lemma check_owner_ne ct q : q ≠ path → owner q (check ct).2 = owner q ct.
Proof.
  intros Hq. destruct (check_unfold ct) as (st&_&_&->).
  destruct (check_locked na path fh sid handles actual (reader_hashes ct) st) as [r st'].
  unfold owner; simpl. by rewrite lookup_insert_ne, ensure_entry_ne.
Qed.

(** C8. The decision of [check_and_acquire_write], on every branch: it never
    panics when run on its own; it accepts exactly when the handle already owns
    the path, or nobody owns it and the hash the writer relies on (the handle's
    hash at open, else its session's receipt, else nothing) is the current hash;
    on acceptance the handle owns the path, on refusal the owner is unchanged;
    receipts and the owners of other paths never change. *)
Theorem check_and_acquire_write_spec (ct : t) :
  is_Some (check ct).1 ∧
  ((check ct).1 = Some (Ok tt) ↔
   owner path ct = Some fh ∨
   (owner path ct = None ∧ fresh_view path fh sid handles actual ct)) ∧
  owner path (check ct).2 =
    match (check ct).1 with Some (Ok _) => Some fh | _ => owner path ct end ∧
  (∀ q, q ≠ path → owner q (check ct).2 = owner q ct) ∧
  reader_hashes (check ct).2 = reader_hashes ct.
Proof.
  split; [apply check_some|]. split; [apply check_ok_iff|].
  split; [apply check_owner|]. split; [|apply check_readers]. intros q. apply check_owner_ne.
Qed.
End acquire.

Lemma release_owner path fh q ct :
  owner q (release_write path fh ct) =
  if decide (q = path ∧ owner path ct = Some fh) then None else owner q ct.
Proof.
  unfold owner, release_write. destruct (entries ct !! path) as [st|] eqn:E; simpl.
  - case_decide as Hw; simpl; [|rewrite decide_False; [done|by intros [_ ?]]].
    destruct (decide (q = path)) as [->|]; simplify_map_eq; [done|].
    by rewrite decide_False by (by intros [? _]).
  - by rewrite decide_False by (by intros [_ ?]).
Qed.

Lemma release_readers path fh ct :
  reader_hashes (release_write path fh ct) = reader_hashes ct.
Proof. unfold release_write. destruct (entries ct !! path); [|done]. by case_decide. Qed.

(** Mutual exclusion: once a handle has acquired a path, every request of
    another handle for it is refused with the owner's number, whatever the
    session, the handle table and the hash, and leaves the owner in place; a
    release by another handle changes nothing; after the owner's own release the
    path is free, and a handle with a fresh view acquires it. *)
Theorem write_ownership_exclusive (ct : t) (path : PathBuf) (fh fh' ne na sid : Z)
    (handles : HandleTable.t) (actual : list byte)
    (Howner : owner path ct = Some fh) (Hne : fh' ≠ fh) :
  (check_and_acquire_write ne na path fh' sid handles actual ct).1
    = Some (Err (OwnedBy path fh)) ∧
  owner path (check_and_acquire_write ne na path fh' sid handles actual ct).2 = Some fh ∧
  owner path (release_write path fh' ct) = Some fh ∧
  owner path (release_write path fh ct) = None ∧
  (fresh_view path fh' sid handles actual ct →
   owner path (check_and_acquire_write ne na path fh' sid handles actual
                 (release_write path fh ct)).2 = Some fh').
Proof.
  assert ((check_and_acquire_write ne na path fh' sid handles actual ct).1
    = Some (Err (OwnedBy path fh))) as Hc.
  { destruct (check_unfold ne na path fh' sid handles actual ct) as (st&_&Ho&->).
    unfold check_locked. rewrite Ho, Howner. by rewrite decide_False by done. }
  split; [done|]. split; [by rewrite check_owner, Hc|].
  rewrite !release_owner, Howner. rewrite decide_False by (intros [_ [= ->]]; done).
  rewrite decide_True by done. split; [done|]. split; [done|]. intros Hf.
  rewrite check_owner.
  assert ((check_and_acquire_write ne na path fh' sid handles actual
    (release_write path fh ct)).1 = Some (Ok tt)) as ->; [|done].
  apply check_ok_iff. right. split; [by rewrite release_owner, decide_True|].
  unfold fresh_view, get_reader_hash in *. by rewrite release_readers.
Qed.

Lemma write_ownership_exclusive_witness :
  let ct := (check_and_acquire_write 0 0 (parse "f") 1 7 HandleTable.new [] new).2 in
  (check_and_acquire_write 0 0 (parse "f") 2 8 HandleTable.new [] ct).1
    = Some (Err (OwnedBy (parse "f") 1)).
Proof.
  apply (write_ownership_exclusive _ (parse "f") 1 2 0 0 8 HandleTable.new []).
  - vm_compute; reflexivity.
  - discriminate.
Defined.

(** ** Renaming, removing, evicting *)

Section traversals.
Context `{DashMapIter} `{Clocks}.
Implicit Types (ct : t) (m : gmap (Z * PathBuf) ReaderEntry).

Lemma move_readers_lookup old_path new_path (l : list (Z * ReaderEntry)) m s q :
  NoDup l.*1 →
  foldl (move_reader old_path new_path) m l !! (s, q) =
  match (list_to_map l : gmap Z ReaderEntry) !! s with
  | Some e => if decide (q = new_path) then Some e
              else if decide (q = old_path) then None else m !! (s, q)
  | None => m !! (s, q)
  end.
Proof.
  revert m. induction l as [|[s' e] l IH]; intros m Hnd; [done|].
  apply NoDup_cons in Hnd as [Hs' Hnd]. cbn [foldl]. rewrite IH by done. simpl.
  destruct (decide (s = s')) as [->|Hne].
  - rewrite lookup_insert_eq, not_elem_of_list_to_map_1 by done. unfold move_reader; simpl.
    rewrite lookup_insert, lookup_delete. repeat case_decide; congruence.
  - rewrite lookup_insert_ne by done. unfold move_reader; simpl.
    by rewrite lookup_insert_ne, lookup_delete_ne by congruence.
Qed.

Lemma elem_of_to_move old_path m s e :
  (s, e) ∈ to_move old_path m ↔ m !! (s, old_path) = Some e.
Proof.
  unfold to_move. rewrite list_elem_of_fmap. split.
  - intros ([[s' p] e']&[= -> ->]&Hin). apply list_elem_of_In, filter_In in Hin as [Hin Hp].
    apply list_elem_of_In, elem_of_dash_iter in Hin. simpl in *.
    by apply bool_decide_eq_true in Hp as ->.
  - intros Hm. exists (s, old_path, e). split; [done|].
    apply list_elem_of_In, filter_In. simpl. split; [|by apply bool_decide_eq_true].
    by apply list_elem_of_In, elem_of_dash_iter.
Qed.

Lemma NoDup_to_move_aux (old_path : PathBuf) (l : list (Z * PathBuf * ReaderEntry)) :
  NoDup l.*1 →
  NoDup ((λ e : Z * PathBuf * ReaderEntry, (e.1.1, e.2)) <$>
    List.filter (λ e, bool_decide (e.1.2 = old_path)) l).*1.
Proof.
  induction l as [|[[s p] e] l IH]; intros Hnd; [constructor|].
  apply NoDup_cons in Hnd as [Hn Hnd]. simpl. case_bool_decide as Hp; [|by apply IH].
  simpl. constructor; [|by apply IH]. subst p. intros Hin. apply Hn.
  rewrite list_elem_of_fmap in Hin. destruct Hin as ([s' e'']&Hs&Hin). simpl in Hs. subst s'.
  apply list_elem_of_fmap in Hin as ([[s' p] e']&[= -> ->]&Hin).
  apply list_elem_of_In, filter_In in Hin as [Hin Hp]. apply bool_decide_eq_true in Hp.
  simpl in Hp. subst p. apply list_elem_of_fmap. eexists. split; [|by apply list_elem_of_In]. done.
Qed.

Lemma to_move_map old_path m s :
  (list_to_map (to_move old_path m) : gmap Z ReaderEntry) !! s = m !! (s, old_path).
Proof.
  assert (NoDup (to_move old_path m).*1) as Hnd by apply NoDup_to_move_aux, NoDup_dash_iter.
  destruct (m !! (s, old_path)) as [e|] eqn:E.
  - by apply elem_of_list_to_map_1, elem_of_to_move.
  - apply not_elem_of_list_to_map_1. intros ([s' e]&->&Hin)%list_elem_of_fmap.
    apply elem_of_to_move in Hin. simpl in E. congruence.
Qed.

Lemma rename_readers old_path new_path ct s q :
  reader_hashes (rename old_path new_path ct) !! (s, q) =
  match reader_hashes ct !! (s, old_path) with
  | Some e => if decide (q = new_path) then Some e
              else if decide (q = old_path) then None
              else reader_hashes ct !! (s, q)
  | None => reader_hashes ct !! (s, q)
  end.
Proof.
  unfold rename; simpl. rewrite move_readers_lookup.
  - by rewrite to_move_map.
  - apply NoDup_to_move_aux, NoDup_dash_iter.
Qed.

Lemma rename_entries old_path new_path ct q :
  entries (rename old_path new_path ct) !! q =
  match entries ct !! old_path with
  | Some st => if decide (q = new_path) then Some st
               else if decide (q = old_path) then None else entries ct !! q
  | None => entries ct !! q
  end.
Proof.
  unfold rename; simpl. destruct (entries ct !! old_path); [|done].
  repeat case_decide; subst; by simplify_map_eq.
Qed.

(** C22. Renaming moves a file's tracking as a whole, in whatever order the
    receipts are iterated: every session that held a receipt for the old path
    holds the same receipt for the new one and none for the old one, the write
    owner moves with the file, sessions without a receipt for the old path keep
    the one they had for the new path, and other paths are untouched. *)
Theorem rename_spec ct (old_path new_path : PathBuf) (s : Z) (Hne : old_path ≠ new_path) :
  let ct' := rename old_path new_path ct in
  (∀ h, get_reader_hash s old_path ct = Some h → get_reader_hash s new_path ct' = Some h) ∧
  (get_reader_hash s old_path ct = None →
   get_reader_hash s new_path ct' = get_reader_hash s new_path ct) ∧
  get_reader_hash s old_path ct' = None ∧
  owner old_path ct' = None ∧
  (is_Some (entries ct !! old_path) → owner new_path ct' = owner old_path ct) ∧
  (∀ q, q ≠ old_path → q ≠ new_path →
     get_reader_hash s q ct' = get_reader_hash s q ct ∧ owner q ct' = owner q ct).
Proof.
  intros ct'. unfold ct', get_reader_hash, owner. split_and!.
  - intros h. rewrite rename_readers. destruct (reader_hashes ct !! (s, old_path)); [|done].
    by rewrite decide_True.
  - intros Hn. rewrite rename_readers. by destruct (reader_hashes ct !! (s, old_path)).
  - rewrite rename_readers. destruct (reader_hashes ct !! (s, old_path)) eqn:E; [|done].
    by rewrite decide_False, decide_True by done.
  - rewrite rename_entries. destruct (entries ct !! old_path) eqn:E; [|done].
    by rewrite decide_False, decide_True by done.
  - intros [st E]. rewrite rename_entries, E. by rewrite decide_True.
  - intros q Ho Hn. rewrite rename_readers, rename_entries.
    destruct (reader_hashes ct !! (s, old_path)), (entries ct !! old_path);
      by repeat case_decide.
Qed.

(** Renaming a directory does not carry the tracking of the files below it:
    for a path other than the two renamed ones, receipts and owner stay under the
    old name, so under its new name a file below a renamed directory has no
    receipt, and the next write-only open of it is accepted whatever its hash. *)
Theorem rename_directory_leaves_children ct (old_dir new_dir : PathBuf) (name : string)
    (s fh ne na : Z) (handles : HandleTable.t) (actual : list byte) (h : HandleState)
    (Hname : plain_name name = true)
    (Hold : join old_dir name ≠ new_dir) (Hold' : join old_dir name ≠ old_dir)
    (Hnew : join new_dir name ≠ old_dir) (Hnew' : join new_dir name ≠ new_dir)
    (Hempty : get_reader_hash s (join new_dir name) ct = None)
    (Hfree : owner (join new_dir name) ct = None)
    (Hh : HandleTable.get fh handles = Some h) (Hwo : h_hash_at_open h = None) :
  let ct' := rename old_dir new_dir ct in
  get_reader_hash s (join old_dir name) ct' = get_reader_hash s (join old_dir name) ct ∧
  get_reader_hash s (join new_dir name) ct' = None ∧
  (check_and_acquire_write ne na (join new_dir name) fh s handles actual ct').1 = Some (Ok tt).
Proof.
  intros ct'. unfold ct'.
  assert (∀ q, q ≠ old_dir → q ≠ new_dir →
    get_reader_hash s q (rename old_dir new_dir ct) = get_reader_hash s q ct) as Hq.
  { intros q Ho Hn. unfold get_reader_hash. rewrite rename_readers.
    destruct (reader_hashes ct !! (s, old_dir)); by repeat case_decide. }
  split; [by apply Hq|]. split; [by rewrite Hq|]. apply check_ok_iff. right. split.
  - unfold owner in *. rewrite rename_entries.
    destruct (entries ct !! old_dir); by repeat case_decide.
  - unfold fresh_view. rewrite Hh, Hwo, Hq by done. by rewrite Hempty.
Qed.

Lemma remove_lookup path ct s q :
  get_reader_hash s q (remove path ct) =
    (if decide (q = path) then None else get_reader_hash s q ct) ∧
  owner q (remove path ct) = (if decide (q = path) then None else owner q ct).
Proof.
  unfold get_reader_hash, owner, remove; simpl. rewrite lookup_delete. split.
  - rewrite map_lookup_filter. destruct (reader_hashes ct !! (s, q)); simpl;
      repeat case_decide; simplify_eq; try done; by rewrite option_guard_True || by rewrite option_guard_False.
  - by repeat case_decide; simplify_eq.
Qed.

Lemma remove_eq path ct s :
  get_reader_hash s path (remove path ct) = None ∧ owner path (remove path ct) = None.
Proof. destruct (remove_lookup path ct s path) as [-> ->]. by rewrite !decide_True. Qed.

Lemma remove_ne path ct s q :
  q ≠ path → get_reader_hash s q (remove path ct) = get_reader_hash s q ct ∧
             owner q (remove path ct) = owner q ct.
Proof. intros. destruct (remove_lookup path ct s q) as [-> ->]. by rewrite !decide_False. Qed.

(** After [remove] nothing is left of a path: no session has a receipt for
    it, nobody owns it, and other paths keep both. *)
Theorem remove_forgets_path ct (path : PathBuf) (s : Z) :
  get_reader_hash s path (remove path ct) = None ∧
  owner path (remove path ct) = None ∧
  ∀ q, q ≠ path → get_reader_hash s q (remove path ct) = get_reader_hash s q ct ∧
                  owner q (remove path ct) = owner q ct.
Proof.
  destruct (remove_eq path ct s). split; [done|]. split; [done|]. apply remove_ne.
Qed.

Lemma elem_of_to_evict cutoff (m : gmap PathBuf FileState) p :
  p ∈ to_evict cutoff m ↔
  ∃ st, m !! p = Some st ∧ write_owner st = None ∧ last_access st < cutoff.
Proof.
  unfold to_evict. rewrite list_elem_of_fmap. split.
  - intros ([q st]&->&Hin). apply list_elem_of_In, filter_In in Hin as [Hin Hb].
    apply list_elem_of_In, elem_of_dash_iter in Hin. exists st. simpl in *.
    apply andb_prop in Hb as [Ho%bool_decide_eq_true Hl]. split; [done|]. split; [done|lia].
  - intros (st&Hm&Ho&Hl). exists (p, st). split; [done|].
    apply list_elem_of_In, filter_In. split; [by apply list_elem_of_In, elem_of_dash_iter|].
    simpl. rewrite bool_decide_eq_true_2 by done. simpl. lia.
Qed.

Lemma evict_lookup now d ct ct' cutoff :
  evict_cutoff now d = Some cutoff → evict_older_than now d ct = Some ct' →
  (∀ p, entries ct' !! p =
     match entries ct !! p with
     | Some st => if decide (write_owner st = None ∧ last_access st < cutoff)
                  then None else Some st
     | None => None
     end) ∧
  (∀ k, reader_hashes ct' !! k =
     match reader_hashes ct !! k with
     | Some r => if decide (cutoff <= r_last_access r) then Some r else None
     | None => None
     end).
Proof.
  intros Hc. unfold evict_older_than. rewrite Hc; simpl. intros [= <-]; simpl. split.
  - intros p. rewrite lookup_delete_all. destruct (entries ct !! p) as [st|] eqn:E.
    + case_decide as Hin; case_decide as Hev; try done.
      * apply elem_of_to_evict in Hin as (st'&E'&?&?). destruct Hev. by simplify_eq.
      * destruct Hin. apply elem_of_to_evict. eauto.
    + by case_decide.
  - intros k. rewrite map_lookup_filter. destruct (reader_hashes ct !! k) as [r|]; [|done].
    simpl. by case_decide; [rewrite option_guard_True|rewrite option_guard_False].
Qed.

(** What is left of a table pruned at [cutoff]: the entries that are owned or were
    touched since, and the receipts recorded since. *)
Definition pruned (cutoff : Z) ct ct' : Prop :=
  (∀ q st, entries ct' !! q = Some st ↔
     entries ct !! q = Some st ∧ (is_Some (write_owner st) ∨ cutoff <= last_access st)) ∧
  (∀ k r, reader_hashes ct' !! k = Some r ↔
     reader_hashes ct !! k = Some r ∧ cutoff <= r_last_access r).

Lemma evict_pruned now d ct ct' cutoff :
  evict_cutoff now d = Some cutoff → evict_older_than now d ct = Some ct' → pruned cutoff ct ct'.
Proof.
  intros Hc He. destruct (evict_lookup now d ct ct' cutoff Hc He) as [Hen Hre]. split.
  - intros q st. rewrite Hen. destruct (entries ct !! q) as [st'|]; [|split; [done|by intros [? _]]].
    case_decide as Hx.
    + split; [done|]. intros [[= ->] [[o Ho]|Hl]]; [rewrite (proj1 Hx) in Ho; done|].
      simpl in Hl. lia.
    + split; [|by intros [? _]]. intros [= ->]. split; [done|].
      destruct (write_owner st); [left; eauto|right]. apply Z.nlt_ge. intros ?. by apply Hx.
  - intros k r. rewrite Hre. destruct (reader_hashes ct !! k) as [r'|]; [|split; [done|by intros [? _]]].
    case_decide; (split; [intros [= ->]|intros [[= ->] ?]]); done.
Qed.

(** C23. What an eviction keeps, when the idle window is representable: an entry
    survives exactly when a handle owns it or it was touched within the window, a
    receipt exactly when it was recorded within the window; so no write ownership
    is ever lost to an eviction. *)
Theorem evict_spec `{!ClockLaws} ct ct' (now d : Z)
    (Hd : is_Some (chrono_from_std d)) (He : evict_older_than now d ct = Some ct') :
  (∀ q, owner q ct' = owner q ct) ∧
  (∀ q st, entries ct' !! q = Some st ↔
     entries ct !! q = Some st ∧ (is_Some (write_owner st) ∨ now - d <= last_access st)) ∧
  (∀ k r, reader_hashes ct' !! k = Some r ↔
     reader_hashes ct !! k = Some r ∧ now - d <= r_last_access r).
Proof.
  destruct Hd as [d' Hd]. pose proof (chrono_from_std_exact _ _ Hd) as ->.
  destruct (evict_cutoff now d) as [cutoff|] eqn:Hc;
    [|unfold evict_older_than in He; by rewrite Hc in He].
  destruct (evict_lookup now d ct ct' cutoff Hc He) as [Hen _].
  destruct (evict_pruned now d ct ct' cutoff Hc He) as [Hpe Hpr].
  unfold evict_cutoff in Hc. rewrite Hd in Hc; simpl in Hc. apply chrono_sub_exact in Hc as ->.
  split; [|by split]. intros q. unfold owner. rewrite Hen.
  destruct (entries ct !! q) as [st|]; [|done].
  case_decide as Hx; [|done]. simpl. by rewrite (proj1 Hx).
Qed.

(** When the idle window is too large for [chrono] the conversion error is
    turned into a zero window: the eviction then drops every receipt recorded
    before the current instant, the opposite of an unbounded window. *)
Theorem evict_unrepresentable_window `{!ClockLaws} ct ct' (now d s : Z) (q : PathBuf) (r : ReaderEntry)
    (Hd : chrono_from_std d = None) (He : evict_older_than now d ct = Some ct')
    (Hr : reader_hashes ct !! (s, q) = Some r) (Hold : r_last_access r < now) :
  get_reader_hash s q ct' = None.
Proof.
  destruct (evict_cutoff now d) as [cutoff|] eqn:Hc;
    [|unfold evict_older_than in He; by rewrite Hc in He].
  destruct (evict_lookup now d ct ct' cutoff Hc He) as [_ Hre].
  unfold evict_cutoff in Hc. rewrite Hd in Hc; simpl in Hc. apply chrono_sub_exact in Hc as ->.
  unfold get_reader_hash. rewrite Hre, Hr, decide_False by (simpl; lia). done.
Qed.

Lemma active_writers_size ct :
  active_writers ct = size (filter (λ e : PathBuf * FileState, is_Some (write_owner e.2)) (entries ct)).
Proof.
  apply (count_dash_iter (λ e : PathBuf * FileState, is_Some (write_owner e.2))).
Qed.

(** The status counters agree with the table: the number of active writers is
    the number of paths with an owner, it never exceeds the number of tracked
    files, and the listing has one line per tracked file. *)
Theorem status_counts ct :
  active_writers ct = size (filter (λ e : PathBuf * FileState, is_Some (write_owner e.2)) (entries ct)) ∧
  (active_writers ct <= len ct)%nat ∧
  length (all_entries ct) = len ct.
Proof.
  split; [apply active_writers_size|]. split.
  - unfold active_writers, len. rewrite <-length_dash_iter. apply List.filter_length_le.
  - unfold all_entries, len. by rewrite length_fmap, length_dash_iter.
Qed.
End traversals.

(** ** Owners among the handles already allocated *)

Definition owners_lt (n : Z) (ct : t) : Prop := ∀ p f, owner p ct = Some f → f < n.

Lemma owners_lt_new n : owners_lt n new.
Proof. intros p f. unfold owner, new; simpl. by rewrite lookup_empty. Qed.

Lemma owners_lt_mono n m ct : n <= m → owners_lt n ct → owners_lt m ct.
Proof. intros ? Ho p f Hf%Ho. lia. Qed.

Lemma owners_lt_record n now path hash sid ct :
  owners_lt n ct → owners_lt n (record_reader now path hash sid ct).
Proof. done. Qed.

Lemma owners_lt_update n now sid path hash ct :
  owners_lt n ct → owners_lt n (update_reader now sid path hash ct).
Proof. done. Qed.

Lemma owners_lt_ensure n now path ct : owners_lt n ct → owners_lt n (ensure_entry now path ct).
Proof. intros Ho p f. rewrite ensure_entry_owner. apply Ho. Qed.

Lemma owners_lt_release n path fh ct : owners_lt n ct → owners_lt n (release_write path fh ct).
Proof. intros Ho p f. rewrite release_owner. case_decide; [done|apply Ho]. Qed.

Lemma owners_lt_check n ne na path fh sid handles actual ct r ct' :
  check_and_acquire_write ne na path fh sid handles actual ct = (r, ct') →
  fh < n → owners_lt n ct → owners_lt n ct'.
Proof.
  intros E Hf Ho p f. replace ct' with (check_and_acquire_write ne na path fh sid handles actual ct).2
    by by rewrite E.
  destruct (decide (p = path)) as [->|Hp].
  - rewrite check_owner. destruct (check_and_acquire_write ne na path fh sid handles actual ct).1
      as [[]|]; [intros [= <-]; done|apply Ho..].
  - rewrite check_owner_ne by done. apply Ho.
Qed.

Lemma check_readers_eq ne na path fh sid handles actual ct r ct' :
  check_and_acquire_write ne na path fh sid handles actual ct = (r, ct') →
  reader_hashes ct' = reader_hashes ct.
Proof. intros E. rewrite <-(check_readers ne na path fh sid handles actual ct). by rewrite E. Qed.

Lemma owners_lt_remove n path ct : owners_lt n ct → owners_lt n (remove path ct).
Proof.
  intros Ho p f. unfold owner, remove; simpl. rewrite lookup_delete.
  case_decide; [done|]. apply Ho.
Qed.

Lemma owners_lt_rename `{DashMapIter} n old_path new_path ct :
  owners_lt n ct → owners_lt n (rename old_path new_path ct).
Proof.
  intros Ho p f. unfold owner. rewrite rename_entries.
  destruct (entries ct !! old_path) as [st|] eqn:E; [|apply Ho].
  case_decide; [|case_decide; [done|apply Ho]].
  simpl. intros Hw. apply (Ho old_path). unfold owner. by rewrite E.
Qed.

Lemma evict_owner `{DashMapIter} `{Clocks} now d ct ct' q :
  evict_older_than now d ct = Some ct' → owner q ct' = owner q ct.
Proof.
  intros He. destruct (evict_cutoff now d) as [c|] eqn:Hc;
    [|unfold evict_older_than in He; by rewrite Hc in He].
  destruct (evict_lookup now d ct ct' c Hc He) as [Hen _].
  unfold owner. rewrite Hen. destruct (entries ct !! q) as [st|]; [|done].
  case_decide as Hx; [|done]. simpl. by rewrite (proj1 Hx).
Qed.

Lemma owners_lt_evict `{DashMapIter} `{Clocks} n now d ct ct' :
  evict_older_than now d ct = Some ct' → owners_lt n ct → owners_lt n ct'.
Proof.
  intros He Ho p f. rewrite (evict_owner _ _ _ _ _ He). apply Ho.
Qed.

(** ** Receipts across operations *)

(** The receipt of session [s] for path [p] is the same in both tables. *)
Definition keeps (s : Z) (p : PathBuf) (ct ct' : t) : Prop :=
  reader_hashes ct' !! (s, p) = reader_hashes ct !! (s, p).

Section keeps.
Variables (s : Z) (p : PathBuf).
Implicit Types ct : t.

Lemma keeps_refl ct : keeps s p ct ct.
Proof. done. Qed.

Lemma keeps_record now path hash sid ct ct' :
  (s ≠ sid ∨ p ≠ path) → keeps s p ct ct' → keeps s p ct (record_reader now path hash sid ct').
Proof. intros Hne Hk. unfold keeps; simpl. rewrite lookup_insert_ne; [done|naive_solver]. Qed.

Lemma keeps_update now sid path hash ct ct' :
  (s ≠ sid ∨ p ≠ path) → keeps s p ct ct' → keeps s p ct (update_reader now sid path hash ct').
Proof. intros Hne Hk. unfold keeps; simpl. rewrite lookup_insert_ne; [done|naive_solver]. Qed.

Lemma keeps_ensure now path ct ct' : keeps s p ct ct' → keeps s p ct (ensure_entry now path ct').
Proof. unfold keeps. by rewrite ensure_entry_readers. Qed.

Lemma keeps_release path fh ct ct' : keeps s p ct ct' → keeps s p ct (release_write path fh ct').
Proof. unfold keeps. by rewrite release_readers. Qed.

Lemma keeps_check ne na path fh sid handles actual ct0 ct r ct' :
  check_and_acquire_write ne na path fh sid handles actual ct = (r, ct') →
  keeps s p ct0 ct → keeps s p ct0 ct'.
Proof. unfold keeps. by intros ->%check_readers_eq. Qed.

Lemma keeps_remove path ct ct' : p ≠ path → keeps s p ct ct' → keeps s p ct (remove path ct').
Proof.
  intros Hp Hk. unfold keeps, remove; simpl. rewrite <-Hk, map_lookup_filter.
  destruct (reader_hashes ct' !! (s, p)); [|done]. simpl. by rewrite option_guard_True.
Qed.

Lemma keeps_rename `{DashMapIter} old_path new_path ct ct' :
  p ≠ old_path → p ≠ new_path → keeps s p ct ct' → keeps s p ct (rename old_path new_path ct').
Proof.
  intros Ho Hn Hk. unfold keeps. rewrite rename_readers, <-Hk.
  destruct (reader_hashes ct' !! (s, old_path)); by repeat case_decide.
Qed.
End keeps.

Lemma rename_spec_witness :
  let ct := record_reader 0 (parse "old") [Byte.x01] 7 new in
  get_reader_hash 7 (parse "new") (@rename canonical_iter (parse "old") (parse "new") ct)
    = Some [Byte.x01].
Proof.
  intros ct. destruct (@rename_spec canonical_iter ct (parse "old") (parse "new") 7)
    as [Hm _]; [discriminate|].
  apply Hm. reflexivity.
Defined.

Lemma rename_directory_leaves_children_witness :
  let ct := record_reader 0 (parse "d/f") [Byte.x01] 7 new in
  let handles := (HandleTable.alloc 3 (parse "e/f") O_WRONLY None 7 HandleTable.new).2 in
  (check_and_acquire_write 0 0 (parse "e/f") 1 7 handles [Byte.x02]
     (@rename canonical_iter (parse "d") (parse "e") ct)).1 = Some (Ok tt).
Proof.
  intros ct handles.
  destruct (@rename_directory_leaves_children canonical_iter ct (parse "d") (parse "e") "f"
    7 1 0 0 handles [Byte.x02] (mkHandle 1 3 (parse "e/f") None O_WRONLY false 7))
    as (_&_&Hc); [done|discriminate..| | | | |exact Hc]; reflexivity.
Defined.

Lemma evict_spec_witness :
  let ct := record_reader 5 (parse "f") [Byte.x01] 7
              (check_and_acquire_write 0 0 (parse "f") 1 7 HandleTable.new [] new).2 in
  ∃ ct', @evict_older_than canonical_iter tick_clocks 100 10 ct = Some ct' ∧
    owner (parse "f") ct' = Some 1 ∧ reader_hashes ct' !! (7, parse "f") = None.
Proof.
  intros ct.
  destruct (@evict_older_than canonical_iter tick_clocks 100 10 ct) as [ct'|] eqn:E; [|done].
  exists ct'. split; [done|].
  destruct (@evict_spec canonical_iter tick_clocks tick_clock_laws ct ct' 100 10)
    as (Ho&_&Hr); [by eexists|done|]. split; [by rewrite Ho|].
  destruct (reader_hashes ct' !! (7, parse "f")) as [r|] eqn:Er; [|done].
  apply Hr in Er as [Er Hl]. vm_compute in Er. injection Er as <-. simpl in Hl. lia.
Defined.

Lemma evict_unrepresentable_window_witness :
  ∃ ct', @evict_older_than canonical_iter tick_clocks 100 (2 ^ 90)
           (record_reader 5 (parse "f") [Byte.x01] 7 new) = Some ct' ∧
    get_reader_hash 7 (parse "f") ct' = None.
Proof.
  eexists. split; [reflexivity|].
  eapply (@evict_unrepresentable_window canonical_iter tick_clocks tick_clock_laws
    (record_reader 5 (parse "f") [Byte.x01] 7 new) _ 100 (2 ^ 90) 7 (parse "f")
    (mkReader [Byte.x01] 5)); [reflexivity..|simpl; lia].
Defined.

End CasTable.

#[export] Hint Resolve CasTable.owners_lt_new CasTable.owners_lt_record CasTable.owners_lt_update
  CasTable.owners_lt_ensure CasTable.owners_lt_release CasTable.owners_lt_remove
  CasTable.owners_lt_rename : dibs.
#[export] Hint Resolve CasTable.keeps_refl CasTable.keeps_record CasTable.keeps_update
  CasTable.keeps_ensure CasTable.keeps_release CasTable.keeps_remove
  CasTable.keeps_rename : dibs.
#[export] Hint Extern 2 (CasTable.keeps _ _ _ ?ct) =>
  match goal with
  | E : CasTable.check_and_acquire_write _ _ _ _ _ _ _ _ = (_, ct) |- _ =>
      apply (CasTable.keeps_check _ _ _ _ _ _ _ _ _ _ _ _ _ E)
  end : dibs.
#[export] Hint Extern 2 (CasTable.owners_lt _ ?ct) =>
  match goal with
  | E : CasTable.check_and_acquire_write _ _ _ _ _ _ _ _ = (_, ct) |- _ =>
      apply (CasTable.owners_lt_check _ _ _ _ _ _ _ _ _ _ _ E)
  end : dibs.
