(* ===== verification/Eviction.v ===== *)
(** * Eviction: the background thread (src/state/eviction.rs)

    The thread alternates one-second sleeps with looks at the shutdown flag and
    prunes the table after sixty of them.  Time is the number of seconds slept;
    [flag t] is what a load of the shutdown flag gives after [t] seconds.  The idle
    window is computed once, before the thread is spawned. *)
From S2P Require Import Prelude Paths Env Sample HashTable.

Local Open Scope nat_scope.

(** [Duration::from_secs(60)] and the one-second tick. *)
Definition check_interval : nat := 60.
Definition tick : nat := 1.

(** [eviction_minutes * 60] on [u64]: where it overflows, a build with overflow
    checks (the dev profile of [cargo build]) panics, which is [None], and one
    without them (the release profile) wraps around. *)
Definition eviction_seconds (overflow_checks : bool) (eviction_minutes : Z) : option Z :=
  let product := (eviction_minutes * 60)%Z in
  if overflow_checks && (u64_MAX <? product)%Z then None else Some (as_u64 product).

(** [Duration::from_secs] of it, in nanoseconds, the unit of the table's clock. *)
Definition eviction_duration (overflow_checks : bool) (eviction_minutes : Z) : option Z :=
  seconds ← eviction_seconds overflow_checks eviction_minutes; Some (seconds * 1000000000)%Z.

(** The sleeping loop: the time at which it ends.  [fuel] bounds the number of
    ticks; [check_interval] of them use up [remaining]. *)
Fixpoint sleep_loop (fuel : nat) (flag : nat → bool) (remaining t : nat) : nat :=
  match fuel with
  | O => t
  | S fuel =>
      if 0 <? remaining then
        if flag t then t
        else
          let sleep_time := remaining `min` tick in
          sleep_loop fuel flag (remaining - sleep_time) (t + sleep_time)
      else t
  end.

(** The thread from time [t] on: the times of its evictions and the time it
    ends; [None] when [fuel] rounds are not enough. *)
Fixpoint eviction_thread (fuel : nat) (flag : nat → bool) (t : nat) : option (list nat * nat) :=
  match fuel with
  | O => None
  | S fuel =>
      if flag t then Some ([], t)
      else
        let t := sleep_loop check_interval flag check_interval t in
        if flag t then Some ([], t)
        else
          '(evictions, stop) ← eviction_thread fuel flag t;
          Some (t :: evictions, stop)
  end.

(** What the evictions at the given clock readings make of the table; a panic in
    one of them ends the thread. *)
Fixpoint apply_evictions `{DashMapIter} `{Clocks} (duration : Z) (nows : list Z) (ct : CasTable.t)
    : CasTable.t :=
  match nows with
  | [] => ct
  | now :: nows =>
      match CasTable.evict_older_than now duration ct with
      | Some ct => apply_evictions duration nows ct
      | None => ct
      end
  end.

(** ** Timing *)

Section timing.
Variables (flag : nat → bool) (T : nat).
Hypotheses (Hbefore : ∀ t, t < T → flag t = false) (Hat : flag T = true).

Lemma sleep_loop_end fuel remaining t :
  t <= T → remaining <= fuel →
  sleep_loop fuel flag remaining t = (t + remaining) `min` T.
Proof.
  revert remaining t. induction fuel as [|fuel IH]; intros remaining t Ht Hr; cbn [sleep_loop].
  { lia. }
  destruct (0 <? remaining) eqn:E; [apply Nat.ltb_lt in E|apply Nat.ltb_ge in E; lia].
  destruct (decide (t = T)) as [->|Hne]; [rewrite Hat; lia|].
  rewrite Hbefore by lia. unfold tick. rewrite IH by lia. lia.
Qed.

Lemma eviction_thread_end k t fuel :
  t <= T → T <= t + 60 * k → k <= fuel →
  eviction_thread (S fuel) flag t =
    Some ((λ i, t + 60 * i) <$> seq 1 ((T - t - 1) / 60), T).
Proof.
  revert t fuel. induction k as [|k IH]; intros t fuel Ht HT Hk; cbn [eviction_thread].
  { assert (t = T) as -> by lia. rewrite Hat. by rewrite Nat.sub_diag. }
  destruct (decide (t = T)) as [->|Hne]; [rewrite Hat; by rewrite Nat.sub_diag|].
  rewrite Hbefore by lia. rewrite sleep_loop_end by (unfold check_interval; lia).
  unfold check_interval. destruct (Nat.le_gt_cases T (t + 60)) as [Hle|Hgt].
  - rewrite Nat.min_r, Hat by lia. by rewrite Nat.div_small by lia.
  - rewrite Nat.min_l, Hbefore by lia. destruct fuel as [|fuel]; [lia|].
    assert ((T - t - 1) / 60 = S ((T - (t + 60) - 1) / 60)) as ->.
    { replace (T - t - 1) with ((T - (t + 60) - 1) + 1 * 60) by lia.
      rewrite Nat.div_add by lia. lia. }
    rewrite IH by lia. cbn [mbind option_bind]. do 2 f_equal.
    cbn [seq]. rewrite fmap_cons, <-(fmap_S_seq 1), <-list_fmap_compose.
    apply (f_equal2 cons); [lia|]. apply list_fmap_ext. intros ? i _. unfold compose. lia.
Qed.
End timing.

(** C33. The eviction thread is prompt and regular.  If the shutdown flag becomes
    visible after [T] seconds of sleep, the thread has ended at [T], without
    sleeping another tick, and before that it has pruned the table exactly at the
    multiples of 60 seconds below [T]; one round per minute, plus one, is enough. *)
Theorem eviction_thread_schedule (flag : nat → bool) (T : nat)
    (Hbefore : ∀ t, t < T → flag t = false) (Hat : flag T = true) :
  eviction_thread (S (S (T / 60))) flag 0 = Some ((λ i, 60 * i) <$> seq 1 ((T - 1) / 60), T).
Proof.
  rewrite (eviction_thread_end flag T Hbefore Hat (S (T / 60))).
  - by rewrite Nat.sub_0_r.
  - lia.
  - pose proof (Nat.div_mod_eq T 60). pose proof (Nat.mod_upper_bound T 60). lia.
  - done.
Qed.

Lemma eviction_thread_schedule_witness :
  eviction_thread 4 (λ t, 150 <=? t) 0 = Some ([60; 120], 150).
Proof.
  apply (eviction_thread_schedule (λ t, 150 <=? t) 150).
  - intros t Ht. apply Nat.leb_gt. exact Ht.
  - reflexivity.
Defined.

(** ** The idle window *)

Section window.
Context `{DashMapIter} `{Clocks} `{!ClockLaws}.

(** The nanoseconds an eviction goes back for an idle window of so many seconds:
    a window chrono cannot represent counts as none at all. *)
Definition effective_window (seconds : Z) : Z :=
  (if seconds <=? i64_MAX / 1000 then seconds * 1000000000 else 0)%Z.

(** An eviction at [now]: it prunes the table at [now - window], or panics when
    there is no such date. *)
Definition evicts (d window now : Z) (ct : CasTable.t) : Prop :=
  match CasTable.evict_older_than now d ct with
  | Some ct' => (datetime_min <= now - window)%Z ∧ CasTable.pruned (now - window) ct ct'
  | None => (now - window < datetime_min)%Z
  end.

Lemma evicts_effective seconds now ct :
  (0 <= seconds)%Z → evicts (seconds * 1000000000) (effective_window seconds) now ct.
Proof.
  intros Hs. unfold evicts. set (d := (seconds * 1000000000)%Z).
  assert (default 0%Z (chrono_from_std d) = effective_window seconds) as Hd.
  { unfold effective_window. pose proof (chrono_from_std_some d ltac:(lia)) as Hr.
    change (i64_MAX / 1000)%Z with 9223372036854775%Z. unfold i64_MAX in Hr.
    destruct (chrono_from_std d) as [d'|] eqn:E; simpl.
    - apply chrono_from_std_exact in E. destruct Hr as [Hr _]. specialize (Hr ltac:(eauto)).
      destruct (Z.leb_spec seconds 9223372036854775); lia.
    - destruct (Z.leb_spec seconds 9223372036854775); [|done].
      destruct Hr as [_ [? ?]]; [lia|done]. }
  assert (0 <= effective_window seconds)%Z as Hw by (unfold effective_window; case_match; lia).
  pose proof (chrono_sub_some now _ Hw) as Hsub.
  destruct (CasTable.evict_cutoff now d) as [c|] eqn:Ec.
  - assert (∃ ct', CasTable.evict_older_than now d ct = Some ct') as [ct' He]
      by (unfold CasTable.evict_older_than; rewrite Ec; by eexists).
    rewrite He. pose proof (CasTable.evict_pruned now d ct ct' c Ec He) as Hp.
    unfold CasTable.evict_cutoff in Ec. rewrite Hd in Ec.
    split; [by apply Hsub|]. apply chrono_sub_exact in Ec as ->. exact Hp.
  - assert (CasTable.evict_older_than now d ct = None) as ->
      by (unfold CasTable.evict_older_than; by rewrite Ec).
    unfold CasTable.evict_cutoff in Ec. rewrite Hd in Ec. rewrite Ec in Hsub.
    apply Z.nle_gt. intros Hle%Hsub. by destruct Hle.
Qed.

(** C39. What the configured idle window does, for every number of minutes the
    command line accepts.  Starting the thread panics exactly when the product
    with 60 overflows in a build with overflow checks.  Up to 153722867280912
    minutes, an eviction keeps exactly what is owned or younger than that many
    minutes; from there to 2^64 / 60 minutes it keeps what it would keep with no
    window at all; beyond, without overflow checks, the window is that of the
    product modulo 2^64.  In each case an eviction panics instead, and ends the
    thread, exactly when the window reaches back before the earliest date. *)
Theorem eviction_window (overflow_checks : bool) (minutes now : Z) (ct : CasTable.t)
    (Hm : (0 <= minutes <= u64_MAX)%Z) :
  (eviction_duration overflow_checks minutes = None ↔
     overflow_checks = true ∧ (u64_MAX / 60 < minutes)%Z) ∧
  ∀ d, eviction_duration overflow_checks minutes = Some d →
    ((minutes <= i64_MAX / 60000)%Z → evicts d (minutes * 60 * 1000000000) now ct) ∧
    ((i64_MAX / 60000 < minutes <= u64_MAX / 60)%Z → evicts d 0 now ct) ∧
    ((u64_MAX / 60 < minutes)%Z →
       overflow_checks = false ∧
       evicts d (effective_window ((minutes * 60) `mod` 2 ^ 64)) now ct).
Proof.
  change (u64_MAX / 60)%Z with 307445734561825860%Z.
  change (i64_MAX / 60000)%Z with 153722867280912%Z.
  unfold eviction_duration, eviction_seconds.
  assert (0 <= as_u64 (minutes * 60))%Z as Hpos by (apply Z.mod_pos_bound; lia).
  pose proof (evicts_effective _ now ct Hpos) as He.
  assert (minutes <= 307445734561825860 → as_u64 (minutes * 60) = minutes * 60)%Z as Hsmall
    by (intros ?; apply wrap_u_small; lia).
  split.
  { destruct overflow_checks; cbn [andb]; [|split; [done|by intros [? ?]]].
    destruct (Z.ltb_spec u64_MAX (minutes * 60)); unfold u64_MAX in *; cbn [mbind option_bind];
      (split; [|by try lia]); [intros _; split; [done|lia]|done]. }
  intros d Hd. destruct (overflow_checks && _) eqn:Eo; [done|]. simplify_eq/=. split_and!.
  - intros ?. rewrite Hsmall in * by lia. unfold effective_window in He.
    change (i64_MAX / 1000)%Z with 9223372036854775%Z in He.
    destruct (Z.leb_spec (minutes * 60) 9223372036854775); [exact He|lia].
  - intros ?. rewrite Hsmall in * by lia. unfold effective_window in He.
    change (i64_MAX / 1000)%Z with 9223372036854775%Z in He.
    destruct (Z.leb_spec (minutes * 60) 9223372036854775); [lia|exact He].
  - intros ?. split; [|exact He]. destruct overflow_checks; [|done]. cbn [andb] in Eo.
    apply Z.ltb_ge in Eo. unfold u64_MAX in Eo. lia.
Qed.
End window.

(** A receipt a year old: kept by a window of a million minutes, lost to one of
    10^15 minutes; a release build makes 44 seconds of 2^64 / 60 + 1 minutes. *)
Lemma eviction_window_witness :
  let old := CasTable.record_reader 0 (parse "f") [] 7 CasTable.new in
  let year := (365 * 86400 * 1000000000)%Z in
  @evicts canonical_iter tick_clocks (1000000 * 60 * 1000000000) (1000000 * 60 * 1000000000)
    year old ∧
  @evicts canonical_iter tick_clocks (10 ^ 15 * 60 * 1000000000) 0 year old ∧
  @evicts canonical_iter tick_clocks 44000000000 (effective_window 44) year old ∧
  eviction_duration true (u64_MAX / 60 + 1) = None.
Proof.
  pose proof (@eviction_window canonical_iter tick_clocks tick_clock_laws) as Hw.
  intros old year. split_and!.
  - destruct (Hw true 1000000%Z year old) as [_ Hd]; [unfold u64_MAX; lia|].
    destruct (Hd _ eq_refl) as (Hexact&_&_). apply Hexact. vm_compute. discriminate.
  - destruct (Hw true (10 ^ 15)%Z year old) as [_ Hd]; [unfold u64_MAX; lia|].
    destruct (Hd _ eq_refl) as (_&Hzero&_). apply Hzero. split; [reflexivity|vm_compute; discriminate].
  - destruct (Hw false (u64_MAX / 60 + 1)%Z year old) as [_ Hd]; [split; vm_compute; discriminate|].
    destruct (Hd 44000000000%Z) as (_&_&Hwrap); [reflexivity|]. apply Hwrap. reflexivity.
  - apply (Hw true (u64_MAX / 60 + 1)%Z year old); [split; vm_compute; discriminate|].
    split; reflexivity.
Defined.
