(* ===== verification/Interleave.v ===== *)
(** * Interleave: the eviction thread against the handlers

    [check_and_acquire_write] and [evict_older_than] are not atomic: each takes
    the locks of the concurrent maps several times.  Their atomic pieces, a step
    relation that interleaves them, and what can go wrong in between. *)
From S2P Require Import Prelude Paths Env Sample Handles HashTable.

Local Open Scope Z_scope.

(** ** Atomic pieces *)

(** [entries.get(path).unwrap()] and the rest of the check, under the lock. *)
Definition check_entry (now : Z) (path : PathBuf) (fh sid : Z) (handles : HandleTable.t)
    (actual : list byte) (ct : CasTable.t) : option (result unit CasError) * CasTable.t :=
  match CasTable.entries ct !! path with
  | None => (None, ct)
  | Some state =>
      let (r, state) :=
        CasTable.check_locked now path fh sid handles actual (CasTable.reader_hashes ct) state in
      (Some r, CasTable.mk (<[path := state]> (CasTable.entries ct)) (CasTable.reader_hashes ct))
  end.

(** One iteration of the removal loop of an eviction. *)
Definition evict_remove (path : PathBuf) (ct : CasTable.t) : CasTable.t :=
  CasTable.mk (delete path (CasTable.entries ct)) (CasTable.reader_hashes ct).

(** Its last statement. *)
Definition evict_retain (cutoff : Z) (ct : CasTable.t) : CasTable.t :=
  CasTable.mk (CasTable.entries ct)
    (filter (λ e, cutoff <= r_last_access e.2) (CasTable.reader_hashes ct)).

Record Call := mkCall {
  call_path : PathBuf; call_fh : Z; call_sid : Z; call_actual : list byte; call_now : Z
}.

(** Where a handler is in the check it is making. *)
Inductive CallState :=
| AtEnsure (c : Call)
| AtCheck (c : Call).

(** Where the eviction thread is. *)
Inductive EvictState :=
| Idle
| Removing (todo : list PathBuf)
| Finished.

(** A handler thread with its pending checks, the eviction thread, the table and
    the results so far, oldest first; [None] is a panic, after which the handler
    makes no further step. *)
Record Conf := mkConf {
  calls : list CallState;
  evictor : EvictState;
  table : CasTable.t;
  results : list (option (result unit CasError))
}.

Section steps.
Context `{DashMapIter} (handles : HandleTable.t) (cutoff : Z).

Inductive step : Conf → Conf → Prop :=
| step_ensure c cs e ct rs :
    step (mkConf (AtEnsure c :: cs) e ct rs)
      (mkConf (AtCheck c :: cs) e (CasTable.ensure_entry (call_now c) (call_path c) ct) rs)
| step_check c cs e ct rs r ct' :
    check_entry (call_now c) (call_path c) (call_fh c) (call_sid c) handles (call_actual c) ct
      = (Some r, ct') →
    step (mkConf (AtCheck c :: cs) e ct rs) (mkConf cs e ct' (rs ++ [Some r]))
| step_panic c cs e ct rs ct' :
    check_entry (call_now c) (call_path c) (call_fh c) (call_sid c) handles (call_actual c) ct
      = (None, ct') →
    step (mkConf (AtCheck c :: cs) e ct rs) (mkConf [] e ct' (rs ++ [None]))
| step_collect cs ct rs :
    step (mkConf cs Idle ct rs)
      (mkConf cs (Removing (CasTable.to_evict cutoff (CasTable.entries ct))) ct rs)
| step_remove cs p ps ct rs :
    step (mkConf cs (Removing (p :: ps)) ct rs) (mkConf cs (Removing ps) (evict_remove p ct) rs)
| step_retain cs ct rs :
    step (mkConf cs (Removing []) ct rs) (mkConf cs Finished (evict_retain cutoff ct) rs).

(** ** The pieces make up the operations *)

Lemma check_pieces ne na path fh sid actual ct :
  CasTable.check_and_acquire_write ne na path fh sid handles actual ct =
  check_entry na path fh sid handles actual (CasTable.ensure_entry ne path ct).
Proof. done. Qed.

Lemma removing_steps cs ps ct rs :
  rtc step (mkConf cs (Removing ps) ct rs)
    (mkConf cs (Removing []) (foldl (flip evict_remove) ct ps) rs).
Proof.
  revert ct. induction ps as [|p ps IH]; intros ct; [apply rtc_refl|].
  eapply rtc_l; [constructor|]. apply IH.
Qed.

Lemma removing_entries ps ct :
  foldl (flip evict_remove) ct ps =
  CasTable.mk (delete_all ps (CasTable.entries ct)) (CasTable.reader_hashes ct).
Proof.
  revert ct. induction ps as [|p ps IH]; intros ct; [by destruct ct|].
  cbn [foldl flip]. rewrite IH. done.
Qed.

Lemma evict_pieces `{Clocks} now d ct ct' cs rs :
  CasTable.evict_cutoff now d = Some cutoff → CasTable.evict_older_than now d ct = Some ct' →
  rtc step (mkConf cs Idle ct rs) (mkConf cs Finished ct' rs).
Proof.
  intros Hc He. unfold CasTable.evict_older_than in He. rewrite Hc in He. injection He as <-.
  eapply rtc_l; [constructor|]. etrans; [apply removing_steps|].
  rewrite removing_entries. apply rtc_once. constructor.
Qed.

(** ** The race *)

(** A check by the handle would pass on the table as far as hashes go. *)
Definition view_ok (c : Call) (ct : CasTable.t) : Prop :=
  CasTable.fresh_view (call_path c) (call_fh c) (call_sid c) handles (call_actual c) ct.

Lemma view_ok_readers c ct ct' :
  CasTable.reader_hashes ct' = CasTable.reader_hashes ct → view_ok c ct → view_ok c ct'.
Proof. unfold view_ok, CasTable.fresh_view, CasTable.get_reader_hash. by intros ->. Qed.

(** A check that starts while nobody owns the path is accepted, in two steps. *)
Lemma call_accepted c cs e ct rs :
  CasTable.owner (call_path c) ct = None → view_ok c ct →
  ∃ ct', CasTable.reader_hashes ct' = CasTable.reader_hashes ct ∧
    CasTable.owner (call_path c) ct' = Some (call_fh c) ∧
    rtc step (mkConf (AtEnsure c :: cs) e ct rs) (mkConf cs e ct' (rs ++ [Some (Ok tt)])).
Proof.
  intros Ho Hv.
  pose proof (proj2 (CasTable.check_ok_iff (call_now c) (call_now c) (call_path c) (call_fh c)
    (call_sid c) handles (call_actual c) ct) (or_intror (conj Ho Hv))) as Hok.
  pose proof (CasTable.check_owner (call_now c) (call_now c) (call_path c) (call_fh c)
    (call_sid c) handles (call_actual c) ct) as Hown. rewrite Hok in Hown.
  destruct (CasTable.check_and_acquire_write _ _ _ _ _ _ _ _) as [r ct'] eqn:E. simpl in *. subst r.
  exists ct'. split; [by eapply CasTable.check_readers_eq|]. split; [done|].
  rewrite check_pieces in E. eapply rtc_l; [constructor|]. apply rtc_once. by constructor.
Qed.

(** C37. Eviction races with write ownership.  Take a path whose entry is idle and
    unowned, and two handles with a current view of the file.  Between the moment
    the eviction thread has collected the path and the moment it removes it, the
    first handle can acquire it; the removal then drops the ownership, and the
    second handle acquires the same path although the first never released it.
    With no eviction in between, the second is refused.  The same
    removal between the two halves of a check makes the handler panic. *)
Theorem eviction_race (ct : CasTable.t) (st : FileState) (a b : Call)
    (Hpath : call_path a = call_path b) (Hfh : call_fh a ≠ call_fh b)
    (Hentry : CasTable.entries ct !! call_path a = Some st)
    (Hfree : write_owner st = None) (Hidle : last_access st < cutoff)
    (Ha : view_ok a ct) (Hb : view_ok b ct) :
  let start := mkConf [AtEnsure a; AtEnsure b] Idle ct [] in
  (∃ e ct', rtc step start (mkConf [] e ct' [Some (Ok tt); Some (Ok tt)])) ∧
  (∃ e ct', rtc step start (mkConf [] e ct' [None])) ∧
  (∃ ct', rtc step start
            (mkConf [] Idle ct' [Some (Ok tt); Some (Err (OwnedBy (call_path a) (call_fh a)))])).
Proof.
  intros start. unfold start. set (ps := CasTable.to_evict cutoff (CasTable.entries ct)).
  assert (CasTable.owner (call_path a) ct = None) as Ho
    by (unfold CasTable.owner; by rewrite Hentry).
  assert (call_path a ∈ ps) as Hin by (apply CasTable.elem_of_to_evict; eauto).
  assert (∀ ct', CasTable.entries (foldl (flip evict_remove) ct' ps) !! call_path a = None) as Hgone.
  { intros ct'. rewrite removing_entries. simpl. rewrite lookup_delete_all. by rewrite decide_True. }
  split_and!.
  - destruct (call_accepted a [AtEnsure b] (Removing ps) ct [] Ho Ha) as (ct1&Hr1&_&Hs1).
    destruct (call_accepted b [] (Removing []) (foldl (flip evict_remove) ct1 ps)
      [Some (Ok tt)]) as (ct2&_&_&Hs2).
    { unfold CasTable.owner. by rewrite <-Hpath, Hgone. }
    { eapply view_ok_readers; [|exact Hb]. by rewrite removing_entries. }
    eexists _, ct2. eapply rtc_l; [apply step_collect|]. etrans; [exact Hs1|].
    etrans; [apply removing_steps|exact Hs2].
  - eexists _, _. eapply rtc_l; [apply step_collect|]. eapply rtc_l; [apply step_ensure|].
    etrans; [apply removing_steps|]. apply rtc_once. eapply (step_panic _ _ _ _ []).
    unfold check_entry. rewrite Hgone. done.
  - destruct (call_accepted a [AtEnsure b] Idle ct [] Ho Ha) as (ct1&Hr1&Ho1&Hs1).
    destruct (CasTable.check_unfold (call_now b) (call_now b) (call_path b) (call_fh b)
      (call_sid b) handles (call_actual b) ct1) as (st'&_&Hw&Hc).
    rewrite <-Hpath, Ho1 in Hw. unfold CasTable.check_locked in Hc.
    rewrite Hw, decide_False in Hc by done. rewrite check_pieces in Hc.
    eexists. etrans; [exact Hs1|]. eapply rtc_l; [apply step_ensure|]. apply rtc_once.
    rewrite Hpath. eapply (step_check _ _ _ _ [Some (Ok tt)]). exact Hc.
Qed.
End steps.

Lemma eviction_race_witness :
  let ct := CasTable.ensure_entry 0 (parse "f") CasTable.new in
  let a := mkCall (parse "f") 1 7 [] 10 in
  let b := mkCall (parse "f") 2 8 [] 10 in
  ∃ e ct', rtc (@step canonical_iter HandleTable.new 5)
    (mkConf [AtEnsure a; AtEnsure b] Idle ct []) (mkConf [] e ct' [Some (Ok tt); Some (Ok tt)]).
Proof.
  intros ct a b.
  apply (@eviction_race canonical_iter HandleTable.new 5 ct (mkFileState None 0) a b).
  - reflexivity.
  - discriminate.
  - reflexivity.
  - reflexivity.
  - reflexivity.
  - exact I.
  - exact I.
Defined.
