(* ===== verification/Occ.v ===== *)
(** * Occ: what the CAS table is for

    An abstract specification of optimistic concurrency control that speaks of
    file contents instead of hashes and has no clocks, entries or locks: every
    session has contents it last saw, every tracked path has an owner or none.
    The CAS table refines it, for any hash without a collision among the
    contents that occur. *)
From S2P Require Import Prelude Paths Env Sample Handles HashTable.

Local Open Scope Z_scope.

Abbreviation content := (list byte).

(** What the sessions do to files; the contents are those of the file at the time. *)
Inductive Op :=
| OpRead (s : Z) (p : PathBuf) (c : content)
| OpOpenWrite (s : Z) (p : PathBuf) (fh : Z) (c : content)
| OpOpenReadWrite (s : Z) (p : PathBuf) (fh : Z) (c : content)
| OpCommit (s : Z) (p : PathBuf) (fh : Z) (c : content)
| OpClose (p : PathBuf) (fh : Z)
| OpDelete (p : PathBuf)
| OpMove (p q : PathBuf).

(** ** The specification *)

Module Spec.

Record t := mk {
  seen : Z → PathBuf → option content;
  tracked : PathBuf → option (option Z)
}.

Definition new : t := mk (λ _ _, None) (λ _, None).

Definition see (s : Z) (p : PathBuf) (c : content) (sp : t) : t :=
  mk (λ s' p', if decide (s' = s ∧ p' = p) then Some c else seen sp s' p') (tracked sp).

Definition set_owner (p : PathBuf) (o : option Z) (sp : t) : t :=
  mk (seen sp) (λ p', if decide (p' = p) then Some o else tracked sp p').

Definition owner (p : PathBuf) (sp : t) : option Z := default None (tracked sp p).

Definition drop_owner (p : PathBuf) (fh : Z) (sp : t) : t :=
  if decide (owner p sp = Some fh) then set_owner p None sp else sp.

(** A writer is accepted when it already owns the path, or the path is free and
    what it relies on is what the file contains. *)
Definition acquire (p : PathBuf) (fh : Z) (relies_on : option content) (c : content) (sp : t)
    : bool * t :=
  match owner p sp with
  | Some o => if decide (o = fh) then (true, sp) else (false, sp)
  | None =>
      if decide (relies_on = None ∨ relies_on = Some c)
      then (true, set_owner p (Some fh) sp)
      else (false, set_owner p None sp)
  end.

Definition step (o : Op) (sp : t) : bool * t :=
  match o with
  | OpRead s p c => (true, see s p c sp)
  | OpOpenWrite s p fh c => acquire p fh (seen sp s p) c sp
  | OpOpenReadWrite s p fh c =>
      let (ok, sp) := acquire p fh (Some c) c sp in
      (ok, if ok then see s p c sp else sp)
  | OpCommit s p fh c => (true, drop_owner p fh (see s p c sp))
  | OpClose p fh => (true, drop_owner p fh sp)
  | OpDelete p =>
      (true, mk (λ s p', if decide (p' = p) then None else seen sp s p')
                (λ p', if decide (p' = p) then None else tracked sp p'))
  | OpMove p q =>
      (true,
       mk (λ s x, match seen sp s p with
                  | Some c => if decide (x = q) then Some c
                              else if decide (x = p) then None else seen sp s x
                  | None => seen sp s x
                  end)
          (λ x, match tracked sp p with
                | Some o => if decide (x = q) then Some o
                            else if decide (x = p) then None else tracked sp x
                | None => tracked sp x
                end))
  end.

Fixpoint run (ops : list Op) (sp : t) : list bool * t :=
  match ops with
  | [] => ([], sp)
  | o :: ops =>
      let (ok, sp) := step o sp in
      let (oks, sp) := run ops sp in (ok :: oks, sp)
  end.
End Spec.

(** ** The CAS table, driven the way the handlers drive it *)

Section refinement.
Context `{DashMapIter} (hash_of : content → list byte) (clock : nat → Z).

(** The handle a write-only ([None]) or read-write open checks with. *)
Definition one_handle (fh s : Z) (p : PathBuf) (hash : option (list byte)) : HandleTable.t :=
  HandleTable.mk {[fh := mkHandle fh 0 p hash O_WRONLY false s]} (fh + 1).

Definition accepted (r : option (result unit CasError)) : bool :=
  match r with Some (Ok _) => true | _ => false end.

Definition table_step (now : Z) (o : Op) (ct : CasTable.t) : bool * CasTable.t :=
  match o with
  | OpRead s p c => (true, CasTable.record_reader now p (hash_of c) s ct)
  | OpOpenWrite s p fh c =>
      let (r, ct) := CasTable.check_and_acquire_write now now p fh s (one_handle fh s p None)
                       (hash_of c) ct in (accepted r, ct)
  | OpOpenReadWrite s p fh c =>
      let (r, ct) := CasTable.check_and_acquire_write now now p fh s
                       (one_handle fh s p (Some (hash_of c))) (hash_of c) ct in
      (accepted r, if accepted r then CasTable.record_reader now p (hash_of c) s ct else ct)
  | OpCommit s p fh c =>
      (true, CasTable.release_write p fh (CasTable.update_reader now s p (hash_of c) ct))
  | OpClose p fh => (true, CasTable.release_write p fh ct)
  | OpDelete p => (true, CasTable.remove p ct)
  | OpMove p q => (true, CasTable.rename p q ct)
  end.

Fixpoint table_run (k : nat) (ops : list Op) (ct : CasTable.t) : list bool * CasTable.t :=
  match ops with
  | [] => ([], ct)
  | o :: ops =>
      let (ok, ct) := table_step (clock k) o ct in
      let (oks, ct) := table_run (S k) ops ct in (ok :: oks, ct)
  end.

(** Contents among which the hash has no collision. *)
Variable known : content → Prop.
Hypothesis no_collision : ∀ a b, known a → known b → hash_of a = hash_of b → a = b.

Definition op_content (o : Op) : option content :=
  match o with
  | OpRead _ _ c | OpOpenWrite _ _ _ c | OpOpenReadWrite _ _ _ c | OpCommit _ _ _ c => Some c
  | _ => None
  end.

Definition known_op (o : Op) : Prop := ∀ c, op_content o = Some c → known c.

(** The refinement relation: a receipt is the hash of the contents last seen, an
    entry is a tracked path with its owner. *)
Record refines (sp : Spec.t) (ct : CasTable.t) : Prop := {
  ref_seen : ∀ s p, CasTable.get_reader_hash s p ct = hash_of <$> Spec.seen sp s p;
  ref_owner : ∀ p, write_owner <$> CasTable.entries ct !! p = Spec.tracked sp p;
  ref_known : ∀ s p c, Spec.seen sp s p = Some c → known c
}.

Lemma refines_new : refines Spec.new CasTable.new.
Proof.
  split; [|intros p; simpl; by rewrite lookup_empty|done].
  intros s p. unfold CasTable.get_reader_hash. simpl. by rewrite lookup_empty.
Qed.

Lemma refines_owner sp ct p : refines sp ct → CasTable.owner p ct = Spec.owner p sp.
Proof.
  intros [_ Ho _]. unfold CasTable.owner, Spec.owner. rewrite <-Ho.
  by destruct (CasTable.entries ct !! p).
Qed.

Lemma refines_see now s p c sp ct :
  known c → refines sp ct → refines (Spec.see s p c sp) (CasTable.record_reader now p (hash_of c) s ct).
Proof.
  intros Hc [Hs Ho Hk]. split; simpl; [|done|].
  - intros s' p'. unfold CasTable.get_reader_hash. simpl. case_decide as Hd.
    + destruct Hd as [-> ->]. by rewrite lookup_insert_eq.
    + rewrite lookup_insert_ne by naive_solver. apply Hs.
  - intros s' p' c'. case_decide; [naive_solver|apply Hk].
Qed.

Lemma refines_release p fh sp ct :
  refines sp ct → refines (Spec.drop_owner p fh sp) (CasTable.release_write p fh ct).
Proof.
  intros Hr. pose proof (refines_owner _ _ p Hr) as Hp. destruct Hr as [Hs Ho Hk].
  unfold Spec.drop_owner, CasTable.release_write. unfold CasTable.owner in Hp. rewrite <-Hp.
  destruct (CasTable.entries ct !! p) as [st|] eqn:E; simpl; [|by split].
  case_decide; [|done]. split; simpl; [done| |done].
  intros q. case_decide; subst; by simplify_map_eq.
Qed.

Lemma refines_entry now p st sp sp' ct :
  refines sp ct → Spec.seen sp' = Spec.seen sp →
  Spec.tracked sp' p = Some (write_owner st) →
  (∀ q, q ≠ p → Spec.tracked sp' q = Spec.tracked sp q) →
  refines sp' (CasTable.mk (<[p := st]> (CasTable.entries (CasTable.ensure_entry now p ct)))
                 (CasTable.reader_hashes ct)).
Proof.
  intros [Hs Ho Hk] Hseen Hp Hne. split; simpl; rewrite ?Hseen; [done| |done].
  intros q. destruct (decide (q = p)) as [->|Hq]; [by rewrite lookup_insert_eq, Hp|].
  by rewrite lookup_insert_ne, CasTable.ensure_entry_ne, Hne.
Qed.

(** The check against the specification, for a handle that relies on [rel]. *)
Lemma refines_acquire now p fh s hash relies c sp ct :
  known c → refines sp ct →
  (∀ ct', CasTable.reader_hashes ct' = CasTable.reader_hashes ct →
     CasTable.fresh_view p fh s (one_handle fh s p hash) (hash_of c) ct' ↔
     relies = None ∨ relies = Some c) →
  let '(r, ct') := CasTable.check_and_acquire_write now now p fh s (one_handle fh s p hash)
                     (hash_of c) ct in
  let '(ok, sp') := Spec.acquire p fh relies c sp in
  accepted r = ok ∧ refines sp' ct'.
Proof.
  intros Hc Hr Hview. pose proof (refines_owner _ _ p Hr) as Hp.
  destruct (CasTable.check_unfold now now p fh s (one_handle fh s p hash) (hash_of c) ct)
    as (st&He&Hw&->).
  pose proof (CasTable.check_locked_ok now p fh s (one_handle fh s p hash) (hash_of c)
    (CasTable.reader_hashes ct) st) as Hok.
  pose proof (CasTable.check_locked_owner now p fh s (one_handle fh s p hash) (hash_of c)
    (CasTable.reader_hashes ct) st) as Hown.
  rewrite Hview in Hok by done.
  destruct (CasTable.check_locked _ _ _ _ _ _ _ _) as [r st']. simpl in *.
  unfold Spec.acquire. rewrite <-Hp, <-Hw. destruct (write_owner st) as [o|] eqn:Eo.
  - assert (Spec.tracked sp p = Some (Some o)) as Ht.
    { revert Hp. rewrite <-Hw. unfold Spec.owner. by destruct (Spec.tracked sp p) as [[]|]; intros [= ->]. }
    case_decide as Hd; destruct r as [[]|e]; try (exfalso; destruct Hok as [Hok1 Hok2]; solve
      [assert (Err e = Ok tt) by (apply Hok2; solve [left; congruence|by right]); done
      |destruct (Hok1 eq_refl) as [|[]]; congruence || tauto]);
      (split; [done|]); (apply (refines_entry now p st' sp); [done|done|rewrite Ht, Hown|done]);
      congruence.
  - case_decide as Hd; destruct r as [[]|e]; try (exfalso; destruct Hok as [Hok1 Hok2]; solve
      [assert (Err e = Ok tt) by (apply Hok2; solve [left; congruence|by right]); done
      |destruct (Hok1 eq_refl) as [|[]]; congruence || tauto]);
      (split; [done|]); (apply (refines_entry now p st' sp); [done|done| |]); simpl.
    1,3: by rewrite decide_True by done; rewrite Hown.
    all: intros q Hq; by rewrite decide_False.
Qed.

Lemma fresh_view_write s p fh c sp ct ct' :
  known c → refines sp ct → CasTable.reader_hashes ct' = CasTable.reader_hashes ct →
  CasTable.fresh_view p fh s (one_handle fh s p None) (hash_of c) ct' ↔
  Spec.seen sp s p = None ∨ Spec.seen sp s p = Some c.
Proof.
  intros Hc [Hs _ Hk] Hrd. unfold CasTable.fresh_view, HandleTable.get, one_handle; simpl.
  rewrite lookup_singleton_eq. simpl. unfold CasTable.get_reader_hash. rewrite Hrd.
  fold (CasTable.get_reader_hash s p ct). rewrite Hs.
  destruct (Spec.seen sp s p) as [c'|] eqn:E; simpl; [|naive_solver].
  split; [|naive_solver]. intros Hv. right. f_equal. apply no_collision; [by eapply Hk|done|].
  by apply Hv.
Qed.

Lemma fresh_view_readwrite s p fh c ct :
  CasTable.fresh_view p fh s (one_handle fh s p (Some (hash_of c))) (hash_of c) ct ↔
  Some c = None ∨ Some c = Some c.
Proof.
  unfold CasTable.fresh_view, HandleTable.get, one_handle; simpl.
  rewrite lookup_singleton_eq. simpl. naive_solver.
Qed.

Lemma step_refines now o sp ct :
  known_op o → refines sp ct →
  (table_step now o ct).1 = (Spec.step o sp).1 ∧ refines (Spec.step o sp).2 (table_step now o ct).2.
Proof.
  intros Hk Hr. destruct o as [s p c|s p fh c|s p fh c|s p fh c|p fh|p|p q];
    cbn [table_step Spec.step]; try specialize (Hk c eq_refl).
  - split; [done|]. by apply refines_see.
  - pose proof (refines_acquire now p fh s None (Spec.seen sp s p) c sp ct Hk Hr) as Ha.
    destruct (CasTable.check_and_acquire_write _ _ _ _ _ _ _ _), (Spec.acquire _ _ _ _ _).
    apply Ha. intros ct'. by apply fresh_view_write.
  - pose proof (refines_acquire now p fh s (Some (hash_of c)) (Some c) c sp ct Hk Hr) as Ha.
    destruct (CasTable.check_and_acquire_write _ _ _ _ _ _ _ _) as [r ct'],
      (Spec.acquire _ _ _ _ _) as [ok sp'].
    destruct Ha as [Ha Hr']; [intros; apply fresh_view_readwrite|]. simpl. rewrite Ha.
    split; [done|]. destruct ok; [by apply refines_see|done].
  - split; [done|]. by apply refines_release, (refines_see now).
  - split; [done|]. by apply refines_release.
  - split; [done|]. destruct Hr as [Hs Ho Hkn]. split; simpl.
    + intros s x. rewrite (proj1 (CasTable.remove_lookup p ct s x)). by case_decide.
    + intros x. rewrite lookup_delete. case_decide; [by rewrite decide_True|by rewrite decide_False].
    + intros s x c. case_decide; [done|apply Hkn].
  - split; [done|]. destruct Hr as [Hs Ho Hkn]. split; cbn [fst snd Spec.seen Spec.tracked].
    + intros s x. unfold CasTable.get_reader_hash in *. rewrite CasTable.rename_readers.
      specialize (Hs s) as Hs'. pose proof (Hs' p) as Hp. pose proof (Hs' x) as Hx.
      destruct (CasTable.reader_hashes ct !! (s, p)), (Spec.seen sp s p); simplify_eq/=; [|done].
      by repeat case_decide; simpl; f_equal.
    + intros x. rewrite CasTable.rename_entries. pose proof (Ho p) as Hp. pose proof (Ho x) as Hx.
      destruct (CasTable.entries ct !! p), (Spec.tracked sp p); simplify_eq/=; [|done].
      by repeat case_decide.
    + intros s x c. destruct (Spec.seen sp s p) as [c'|] eqn:E; [|apply Hkn].
      repeat case_decide; [naive_solver|done|apply Hkn].
Qed.

Lemma run_refines k ops sp ct :
  Forall known_op ops → refines sp ct →
  (table_run k ops ct).1 = (Spec.run ops sp).1 ∧
  refines (Spec.run ops sp).2 (table_run k ops ct).2.
Proof.
  intros Hk. revert k sp ct. induction Hk as [|o ops Ho _ IH]; intros k sp ct Hr; [done|].
  destruct (step_refines (clock k) o sp ct Ho Hr) as [Hok Hr']. cbn [table_run Spec.run].
  destruct (table_step (clock k) o ct) as [ok ct'], (Spec.step o sp) as [ok' sp'].
  simpl in *. subst ok'. destruct (IH (S k) sp' ct' Hr') as [Hoks Hrs].
  destruct (table_run (S k) ops ct') as [oks ct''], (Spec.run ops sp') as [oks' sp''].
  simpl in *. by subst oks'.
Qed.

(** C5. The CAS table implements optimistic concurrency control on contents: for
    any sequence of reads, opens for writing, commits, closes, deletions and
    renames by any sessions, any clock and any iteration order, the table accepts
    and refuses exactly the writers the specification does, as long as the hash
    has no collision among the contents that occur; and afterwards each receipt
    is the hash of the contents its session last saw and each owner is the
    specification's. *)
Theorem table_refines_spec (ops : list Op) (Hknown : Forall known_op ops) :
  (table_run 0 ops CasTable.new).1 = (Spec.run ops Spec.new).1 ∧
  refines (Spec.run ops Spec.new).2 (table_run 0 ops CasTable.new).2.
Proof. apply run_refines; [done|apply refines_new]. Qed.
End refinement.

(** Two sessions read a file; the first writes it; the second is refused until it
    has read again. *)
Definition sample_ops : list Op :=
  let f := parse "f" in
  let v0 := list_byte_of_string "v0" in
  let v1 := list_byte_of_string "v1" in
  [OpRead 10 f v0; OpRead 20 f v0; OpOpenWrite 10 f 1 v0; OpOpenWrite 20 f 2 v0;
   OpCommit 10 f 1 v1; OpOpenWrite 20 f 3 v1; OpRead 20 f v1; OpOpenWrite 20 f 4 v1].

Lemma table_refines_spec_witness :
  (@table_run canonical_iter id Z.of_nat 0 sample_ops CasTable.new).1
  = [true; true; true; false; true; false; true; true].
Proof.
  destruct (@table_refines_spec canonical_iter id Z.of_nat (λ _, True) (λ a b _ _ E, E)
    sample_ops) as [Hr _].
  - unfold sample_ops. repeat constructor.
  - rewrite Hr. vm_compute. reflexivity.
Defined.
