(* ===== verification/Config.v ===== *)
(** * Config: command line, configuration and error types
    (src/config.rs, src/error.rs)

    The data types, the defaults of the options, and the text of an error.
    Parsing the command line is code generated by clap from these types. *)
From S2P Require Import Prelude Paths Env.

Local Open Scope Z_scope.

(** The subcommands [clap] parses, with the arguments of each. *)
Inductive Command :=
| Mount (backing mountpoint : PathBuf) (session_id : option string) (log_file : PathBuf)
    (eviction_minutes : Z) (save_conflicts readonly_fallback foreground : bool)
| Unmount (mountpoint : PathBuf).

Record Cli := mkCli { cli_command : Command }.

(** The default values declared for the options. *)
Definition default_log_file : PathBuf := parse "/tmp/dibs.log".
Definition default_eviction_minutes : Z := 60.

(** [dibs mount <backing> <mountpoint>] without options. *)
Definition mount_defaults (backing mountpoint : PathBuf) : Command :=
  Mount backing mountpoint None default_log_file default_eviction_minutes false false false.

Record DibsConfig := mkConfig {
  c_backing : PathBuf;
  c_mountpoint : PathBuf;
  c_session_id : string;
  c_log_file : PathBuf;
  c_eviction_minutes : Z;      (* u64 *)
  c_save_conflicts : bool;
  c_readonly_fallback : bool;
  c_foreground : bool
}.

(** The crate's error type. *)
Inductive DibsError :=
| DIo (e : IoError)
| DCasConflict (path expected actual : string)
| DNotTracked (path : string)
| DWriteOwnership (path : string) (owner : Z)
| DMount (msg : string)
| DConfig (msg : string).

(** Its text; that of an I/O error is the standard library's, a parameter. *)
Definition error_display (io_display : IoError → string) (e : DibsError) : string :=
  match e with
  | DIo e => "IO error: " ++ io_display e
  | DCasConflict path expected actual =>
      "CAS conflict on " ++ path ++ ": expected hash " ++ expected ++ ", found " ++ actual
  | DNotTracked path => "File not tracked: " ++ path
  | DWriteOwnership path owner =>
      "Write ownership conflict on " ++ path ++ ": owned by handle " ++ pretty owner
  | DMount msg => "Mount error: " ++ msg
  | DConfig msg => "Configuration error: " ++ msg
  end.
