(* ===== verification/Fs.v ===== *)
(** * Fs: the state of the mounted file system and the handlers' effects
    (src/fs/mod.rs, [DibsFs] and its helpers)

    A handler is a computation over a [World]: the tables of [DibsFs], the state
    of the kernel and backing file system, and the count of clock readings made
    so far.  It ends with a value, with an early return carrying the reply it
    has sent, or [Stuck] (a panic of the source, or a read loop out of fuel). *)
From S2P Require Import Prelude Paths Env Handles Inodes Passthrough Cas HashTable Config.

Local Open Scope Z_scope.

(** Time to live of the attributes handed to the kernel, in nanoseconds. *)
Definition TTL : Z := 1000000000.

(** Names of the virtual directory (src/fs/virtual_dir.rs). *)
Definition DIBS_DIR_NAME : string := ".dibs".
Definition DIBS_STATUS_NAME : string := "status".
Definition DIBS_LOCKS_NAME : string := "locks".
Definition DIBS_CONFLICTS_NAME : string := "conflicts".

Record DirEntry := mkDirEntry {
  de_ino : Z; de_offset : Z; de_kind : FileType; de_name : string
}.

(** What a handler sends back. *)
Inductive Reply :=
| RError (errno : Z)
| ROk
| REntry (ttl : Z) (attr : FileAttr) (generation : Z)
| RAttr (ttl : Z) (attr : FileAttr)
| ROpened (fh : Z)
| RCreated (ttl : Z) (attr : FileAttr) (generation fh : Z)
| RData (data : list byte)
| RWritten (n : Z)
| RDirectory (entries : list DirEntry)
| RStatfs (blocks bfree bavail files ffree bsize namelen frsize : Z).

Record DibsFs := mkFs {
  config : DibsConfig;
  backing : PathBuf;
  inodes : InodeTable.t;
  file_handles : HandleTable.t;
  dir_handles : DirHandleTable.t;
  cas_table : CasTable.t;
  start_time : Z;
  conflict_dir : option PathBuf
}.

Definition set_inodes (f : InodeTable.t → InodeTable.t) (d : DibsFs) : DibsFs :=
  mkFs (config d) (backing d) (f (inodes d)) (file_handles d) (dir_handles d) (cas_table d)
    (start_time d) (conflict_dir d).

Definition set_handles (f : HandleTable.t → HandleTable.t) (d : DibsFs) : DibsFs :=
  mkFs (config d) (backing d) (inodes d) (f (file_handles d)) (dir_handles d) (cas_table d)
    (start_time d) (conflict_dir d).

Definition set_dirs (f : DirHandleTable.t → DirHandleTable.t) (d : DibsFs) : DibsFs :=
  mkFs (config d) (backing d) (inodes d) (file_handles d) (f (dir_handles d)) (cas_table d)
    (start_time d) (conflict_dir d).

Definition set_cas (f : CasTable.t → CasTable.t) (d : DibsFs) : DibsFs :=
  mkFs (config d) (backing d) (inodes d) (file_handles d) (dir_handles d) (f (cas_table d))
    (start_time d) (conflict_dir d).

(** Convert a relative path to the full backing path. *)
Definition backing_path (d : DibsFs) (rel : PathBuf) : PathBuf := join_path (backing d) rel.

(** An unknown parent inode resolves like the root. *)
Definition resolve_path (d : DibsFs) (parent : Z) (name : string) : PathBuf * PathBuf :=
  let parent_rel :=
    if parent =? 1 then path_empty
    else default path_empty (InodeTable.get_path parent (inodes d)) in
  let rel := join parent_rel name in
  (rel, backing_path d rel).

Definition is_dibs_name (name : string) : bool := String.eqb name DIBS_DIR_NAME.

Definition is_dibs_ino (ino : Z) : bool := InodeTable.is_synthetic ino.

Definition set_ino (ino : Z) (a : FileAttr) : FileAttr :=
  mkAttr ino (a_size a) (a_blocks a) (a_atime a) (a_mtime a) (a_ctime a) (a_crtime a)
    (a_kind a) (a_perm a) (a_nlink a) (a_uid a) (a_gid a) (a_rdev a) (a_blksize a) (a_flags a).

Inductive exit (A : Type) :=
| Val (a : A)
| Return (r : Reply)
| Stuck.
Arguments Val {A} a.
Arguments Return {A} r.
Arguments Stuck {A}.

Section fs.
Context `{Posix} `{Digests} `{Clocks} `{Crates} `{DashMapIter}.

Record World := mkWorld { w_fs : DibsFs; w_os : os; w_clk : nat }.

(** ** The handler monad *)

Definition M (A : Type) : Type := World → exit A * World.

#[global] Instance M_ret : MRet M := λ A a w, (Val a, w).

#[global] Instance M_bind : MBind M := λ A B f m w,
  match m w with
  | (Val a, w) => f a w
  | (Return r, w) => (Return r, w)
  | (Stuck, w) => (Stuck, w)
  end.

(** [reply.error(e); return]. *)
Definition reply_error {A} (errno : Z) : M A := λ w, (Return (RError errno), w).

Definition get_fs : M DibsFs := λ w, (Val (w_fs w), w).

Definition modify_fs (f : DibsFs → DibsFs) : M unit :=
  λ w, (Val tt, mkWorld (f (w_fs w)) (w_os w) (w_clk w)).

(** A call that only looks at the kernel's state, and one that changes it. *)
Definition inspect {A} (f : os → A) : M A := λ w, (Val (f (w_os w)), w).

Definition syscall {A} (f : os → A * os) : M A :=
  λ w, let (a, o) := f (w_os w) in (Val a, mkWorld (w_fs w) o (w_clk w)).

(** Read a clock. *)
Definition read_clock (c : nat → Z) : M Z :=
  λ w, (Val (c (w_clk w)), mkWorld (w_fs w) (w_os w) (S (w_clk w))).

(** Unwrap, or stop. *)
Definition unwrap {A} (o : option A) : M A :=
  λ w, (match o with Some a => Val a | None => Stuck end, w).

(** [match o { Some(x) => x, None => { reply.error(e); return; } }]. *)
Definition require {A} (o : option A) (errno : Z) : M A :=
  match o with Some a => mret a | None => reply_error errno end.

(** [reply.error(Errno::from(e)); return] on an error. *)
Definition require_io {A} (r : result A IoError) : M A :=
  match r with Ok a => mret a | Err e => reply_error (errno_from_io e) end.

(** The same for a system call that reports its error number in [errno]. *)
Definition require_sys {A} (r : result A Z) : M A :=
  match r with Ok a => mret a | Err e => reply_error (errno_from_io (OsError e)) end.

(** ** Table operations *)

Definition inodes_insert (ino : Z) (path : PathBuf) : M unit :=
  modify_fs (set_inodes (InodeTable.insert ino path)).

Definition handles_alloc (fd : Z) (path : PathBuf) (flags : Z) (hash : option (list byte))
    (sid : Z) : M Z := λ w,
  let (fh, ht) := HandleTable.alloc fd path flags hash sid (file_handles (w_fs w)) in
  (Val fh, mkWorld (set_handles (λ _, ht) (w_fs w)) (w_os w) (w_clk w)).

Definition handles_remove (fh : Z) : M (option HandleState) := λ w,
  let (h, ht) := HandleTable.remove fh (file_handles (w_fs w)) in
  (Val h, mkWorld (set_handles (λ _, ht) (w_fs w)) (w_os w) (w_clk w)).

Definition handles_get_mut (fh : Z) (f : HandleState → HandleState) : M unit :=
  modify_fs (set_handles (HandleTable.get_mut fh f)).

Definition dirs_alloc (fd : Z) (path : PathBuf) : M Z := λ w,
  let (fh, dt) := DirHandleTable.alloc fd path (dir_handles (w_fs w)) in
  (Val fh, mkWorld (set_dirs (λ _, dt) (w_fs w)) (w_os w) (w_clk w)).

Definition dirs_remove (fh : Z) : M (option DirHandleState) := λ w,
  let (h, dt) := DirHandleTable.remove fh (dir_handles (w_fs w)) in
  (Val h, mkWorld (set_dirs (λ _, dt) (w_fs w)) (w_os w) (w_clk w)).

Definition record_reader (path : PathBuf) (hash : list byte) (sid : Z) : M unit :=
  now ← read_clock utc_now; modify_fs (set_cas (CasTable.record_reader now path hash sid)).

Definition update_reader (sid : Z) (path : PathBuf) (hash : list byte) : M unit :=
  now ← read_clock utc_now; modify_fs (set_cas (CasTable.update_reader now sid path hash)).

Definition ensure_entry (path : PathBuf) : M unit :=
  now ← read_clock utc_now; modify_fs (set_cas (CasTable.ensure_entry now path)).

Definition release_write (path : PathBuf) (fh : Z) : M unit :=
  modify_fs (set_cas (CasTable.release_write path fh)).

Definition check_at (now_ensure now : Z) (path : PathBuf) (fh sid : Z) (actual : list byte)
    : M (result unit CasError) := λ w,
  let (r, ct) := CasTable.check_and_acquire_write now_ensure now path fh sid
                   (file_handles (w_fs w)) actual (cas_table (w_fs w)) in
  unwrap r (mkWorld (set_cas (λ _, ct) (w_fs w)) (w_os w) (w_clk w)).

Definition check_and_acquire_write (path : PathBuf) (fh sid : Z) (actual : list byte)
    : M (result unit CasError) :=
  now_ensure ← read_clock utc_now; now ← read_clock utc_now;
  check_at now_ensure now path fh sid actual.

(** [cas::hash_file(path)] on the current backing file system. *)
Definition hash_file_m (path : PathBuf) : M (result (list byte) IoError) :=
  r ← inspect (λ o, hash_file o path); unwrap r.

(** Get the session of a process, the process itself on error. *)
Definition session (pid : Z) (o : os) : Z :=
  let sid := sys_getsid o (as_i32 pid) in if sid <? 0 then pid else as_u32 sid.

Definition get_sid (pid : Z) : M Z := inspect (session pid).

(** ** Helpers of [DibsFs] *)

(** [DibsFs::new]. *)
Definition fs_new (cfg : DibsConfig) (o : os) (clk : nat) : World :=
  let dir := join (c_backing cfg) ".dibs-conflicts" in
  let o := if c_save_conflicts cfg then (fs_create_dir_all o dir).2 else o in
  let conflict := if c_save_conflicts cfg then Some dir else None in
  mkWorld (mkFs cfg (c_backing cfg) InodeTable.new HandleTable.new DirHandleTable.new
             CasTable.new (instant_now clk) conflict) o (S clk).

Definition lookup_and_register (rel full : PathBuf) : M (result FileAttr IoError) :=
  r ← inspect (λ o, lstat o full);
  match r with
  | Err e => mret (Err e)
  | Ok st =>
      attr ← unwrap (stat_to_file_attr st);
      if path_is_empty rel then
        inodes_insert 1 path_empty;; mret (Ok (set_ino 1 attr))
      else
        inodes_insert (a_ino attr) rel;; mret (Ok attr)
  end.

Definition synthetic_attr (ino size blocks : Z) (kind : FileType) (perm nlink : Z) : M FileAttr :=
  atime ← read_clock system_now; mtime ← read_clock system_now;
  ctime ← read_clock system_now; crtime ← read_clock system_now;
  uid ← inspect sys_getuid; gid ← inspect sys_getgid;
  mret (mkAttr ino size blocks atime mtime ctime crtime kind perm nlink uid gid 0 512 0).

(** Permissions 0o555 and 0o444. *)
Definition dibs_dir_attr (ino : Z) : M FileAttr := synthetic_attr ino 0 0 Directory 365 2.

Definition dibs_file_attr (ino size : Z) : M FileAttr :=
  synthetic_attr ino size ((size + 511) / 512) RegularFile 292 1.

Definition status_json : M string :=
  d ← get_fs;
  now ← read_clock instant_now;
  let uptime := Z.max 0 (now - start_time d) / 1000000000 in
  mret (json_to_string (JObj
    [("tracked_files", JNum (Z.of_nat (CasTable.len (cas_table d))));
     ("active_locks", JNum (Z.of_nat (CasTable.active_writers (cas_table d))));
     ("uptime_seconds", JNum uptime);
     ("session_id", JStr (c_session_id (config d)))])).

(** The serialized form of a [FileStateInfo]. *)
Definition info_json (i : FileStateInfo) : Json :=
  JObj [("path", JStr (fi_path i));
        ("write_owner", match fi_write_owner i with Some o => JNum o | None => JNull end);
        ("last_access", JStr (fi_last_access i))].

Definition locks_json : M string :=
  d ← get_fs;
  mret (result_unwrap_or "[]"
    (json_to_string_pretty (JArr (info_json <$> CasTable.all_entries (cas_table d))))).

End fs.
