(* ===== verification/FsLogic.v ===== *)
(** * FsLogic: reasoning about handlers

    [wp m Q w] says that running [m] from the world [w] ends in an exit and a
    world satisfying [Q].  There is one rule per primitive of the handler
    monad, and the tactic [wp_run] applies them in the order of the code. *)
From S2P Require Import Prelude Paths Env Handles Inodes Passthrough Cas HashTable Config Fs.

Local Open Scope Z_scope.

Section wp.
Context `{Posix} `{Digests} `{Clocks} `{Crates}.

Definition wp {A} (m : M A) (Q : exit A → World → Prop) (w : World) : Prop :=
  Q (m w).1 (m w).2.

(** Continue with the value, stop on the other exits. *)
Definition cont {A B} (f : A → M B) (Q : exit B → World → Prop) : exit A → World → Prop :=
  λ e w, match e with
         | Val a => wp (f a) Q w
         | Return r => Q (Return r) w
         | Stuck => Q Stuck w
         end.

Implicit Types w : World.

Lemma wp_mono {A} (m : M A) (Q Q' : exit A → World → Prop) w :
  wp m Q w → (∀ e w', Q e w' → Q' e w') → wp m Q' w.
Proof. intros Hm HQ. by apply HQ. Qed.

(** From a run to its result. *)
Lemma wp_let {A} (m : M A) (Q : exit A → World → Prop) w :
  wp m Q w → let (e, w') := m w in Q e w'.
Proof. unfold wp. by destruct (m w). Qed.

Lemma wp_eq {A} (m : M A) e w w' : wp m (λ e' w'', e' = e ∧ w'' = w') w → m w = (e, w').
Proof. unfold wp. destruct (m w). simpl. by intros [-> ->]. Qed.

Lemma wp_and {A} (m : M A) (Q Q' : exit A → World → Prop) w :
  wp m Q w → wp m Q' w → wp m (λ e w', Q e w' ∧ Q' e w') w.
Proof. done. Qed.

Lemma wp_bind {A B} (m : M A) (f : A → M B) Q w : wp m (cont f Q) w → wp (m ≫= f) Q w.
Proof. unfold wp, cont, mbind, M_bind. by destruct (m w) as [[] w']. Qed.

Lemma wp_ret {A} (a : A) Q w : Q (Val a) w → wp (mret a) Q w.
Proof. done. Qed.

Lemma wp_error {A} errno (Q : exit A → World → Prop) w :
  Q (Return (RError errno)) w → wp (reply_error errno) Q w.
Proof. done. Qed.

Lemma wp_get_fs Q w : Q (Val (w_fs w)) w → wp get_fs Q w.
Proof. done. Qed.

Lemma get_fs_bind {A} (f : DibsFs → M A) w : (get_fs ≫= f) w = f (w_fs w) w.
Proof. done. Qed.

Lemma wp_modify_fs f Q w :
  Q (Val tt) (mkWorld (f (w_fs w)) (w_os w) (w_clk w)) → wp (modify_fs f) Q w.
Proof. done. Qed.

Lemma wp_inspect {A} (f : os → A) Q w : Q (Val (f (w_os w))) w → wp (inspect f) Q w.
Proof. done. Qed.

Lemma wp_syscall {A} (f : os → A * os) Q w :
  Q (Val (f (w_os w)).1) (mkWorld (w_fs w) (f (w_os w)).2 (w_clk w)) → wp (syscall f) Q w.
Proof. unfold wp, syscall. by destruct (f (w_os w)). Qed.

Lemma wp_read_clock c Q w :
  Q (Val (c (w_clk w))) (mkWorld (w_fs w) (w_os w) (S (w_clk w))) → wp (read_clock c) Q w.
Proof. done. Qed.

Lemma wp_unwrap {A} (o : option A) Q w :
  match o with Some a => Q (Val a) w | None => Q Stuck w end → wp (unwrap o) Q w.
Proof. by destruct o. Qed.

Lemma wp_require {A} (o : option A) errno Q w :
  (∀ a, o = Some a → Q (Val a) w) → (o = None → Q (Return (RError errno)) w) →
  wp (require o errno) Q w.
Proof. intros HS HN. destruct o; [by apply HS|by apply HN]. Qed.

Lemma wp_require_io {A} (r : result A IoError) Q w :
  (∀ a, r = Ok a → Q (Val a) w) →
  (∀ e, r = Err e → Q (Return (RError (errno_from_io e))) w) →
  wp (require_io r) Q w.
Proof. intros HS HN. destruct r; [by apply HS|by apply HN]. Qed.

Lemma wp_require_sys {A} (r : result A Z) Q w :
  (∀ a, r = Ok a → Q (Val a) w) →
  (∀ e, r = Err e → Q (Return (RError (errno_from_io (OsError e)))) w) →
  wp (require_sys r) Q w.
Proof. intros HS HN. destruct r; [by apply HS|by apply HN]. Qed.

Lemma wp_handles_alloc fd p fl hash sid Q w :
  Q (Val (HandleTable.next_fh (file_handles (w_fs w))))
    (mkWorld (set_handles (λ ht, (HandleTable.alloc fd p fl hash sid ht).2) (w_fs w))
       (w_os w) (w_clk w)) →
  wp (handles_alloc fd p fl hash sid) Q w.
Proof. done. Qed.

Lemma wp_handles_remove fh Q w :
  Q (Val (HandleTable.get fh (file_handles (w_fs w))))
    (mkWorld (set_handles (λ ht, (HandleTable.remove fh ht).2) (w_fs w)) (w_os w) (w_clk w)) →
  wp (handles_remove fh) Q w.
Proof. done. Qed.

Lemma wp_dirs_alloc fd p Q w :
  Q (Val (DirHandleTable.next_fh (dir_handles (w_fs w))))
    (mkWorld (set_dirs (λ dt, (DirHandleTable.alloc fd p dt).2) (w_fs w)) (w_os w) (w_clk w)) →
  wp (dirs_alloc fd p) Q w.
Proof. done. Qed.

Lemma wp_dirs_remove fh Q w :
  Q (Val (DirHandleTable.get fh (dir_handles (w_fs w))))
    (mkWorld (set_dirs (λ dt, (DirHandleTable.remove fh dt).2) (w_fs w)) (w_os w) (w_clk w)) →
  wp (dirs_remove fh) Q w.
Proof. done. Qed.

(** The check is the table's own, at two clock readings; it is never stuck. *)
Lemma wp_check path fh sid actual Q w :
  (∀ ne na r ct,
     CasTable.check_and_acquire_write ne na path fh sid (file_handles (w_fs w)) actual
       (cas_table (w_fs w)) = (Some r, ct) →
     Q (Val r) (mkWorld (set_cas (λ _, ct) (w_fs w)) (w_os w) (S (S (w_clk w))))) →
  wp (check_and_acquire_write path fh sid actual) Q w.
Proof.
  intros HQ. unfold check_and_acquire_write.
  apply wp_bind, wp_read_clock. cbn [cont]. apply wp_bind, wp_read_clock. cbn [cont].
  unfold wp, check_at. cbn [w_fs w_os w_clk].
  destruct (CasTable.check_some (utc_now (w_clk w)) (utc_now (S (w_clk w))) path fh sid
    (file_handles (w_fs w)) actual (cas_table (w_fs w))) as [r Hr].
  destruct (CasTable.check_and_acquire_write _ _ _ _ _ _ _ _) as [r' ct] eqn:E; simpl in Hr.
  subst r'. by apply (HQ _ _ _ _ E).
Qed.

Section hash.
Context `{!PosixLaws}.

Lemma wp_hash_file path Q w :
  (∀ r, hash_file (w_os w) path = Some r → Q (Val r) w) → wp (hash_file_m path) Q w.
Proof.
  intros HQ. unfold hash_file_m. apply wp_bind, wp_inspect. cbn [cont].
  destruct (hash_file_some (w_os w) path) as [r Hr]. rewrite Hr. apply wp_unwrap. by apply HQ.
Qed.

Lemma wp_stat_attr o path st Q w :
  lstat o path = Ok st → (∀ a, stat_to_file_attr st = Some a → Q (Val a) w) →
  wp (unwrap (stat_to_file_attr st)) Q w.
Proof.
  intros Hl HQ. destruct (stat_to_file_attr_some st) as (a&Ha&_);
    [by eapply lstat_stat_ok|]. rewrite Ha. apply wp_unwrap. by apply HQ.
Qed.

Lemma wp_fstat_attr o fd st Q w :
  fstat o fd = Ok st → (∀ a, stat_to_file_attr st = Some a → Q (Val a) w) →
  wp (unwrap (stat_to_file_attr st)) Q w.
Proof.
  intros Hl HQ. destruct (stat_to_file_attr_some st) as (a&Ha&_);
    [by eapply fstat_stat_ok|]. rewrite Ha. apply wp_unwrap. by apply HQ.
Qed.
End hash.

End wp.

(** One step of symbolic execution; [split_match] style case analysis when the
    code branches. *)
Ltac wp_prim :=
  lazymatch goal with
  | |- wp (mbind _ _) _ _ => apply wp_bind
  | |- wp (mret _) _ _ => apply wp_ret
  | |- wp (reply_error _) _ _ => apply wp_error
  | |- wp get_fs _ _ => apply wp_get_fs
  | |- wp (modify_fs _) _ _ => apply wp_modify_fs
  | |- wp (inspect _) _ _ => apply wp_inspect
  | |- wp (syscall _) _ _ => apply wp_syscall
  | |- wp (read_clock _) _ _ => apply wp_read_clock
  | |- wp (require _ _) _ _ => apply wp_require; [intros ? ?|intros ?]
  | |- wp (require_io _) _ _ => apply wp_require_io; [intros ? ?|intros ? ?]
  | |- wp (require_sys _) _ _ => apply wp_require_sys; [intros ? ?|intros ? ?]
  | |- wp (handles_alloc _ _ _ _ _) _ _ => apply wp_handles_alloc
  | |- wp (handles_remove _) _ _ => apply wp_handles_remove
  | |- wp (dirs_alloc _ _) _ _ => apply wp_dirs_alloc
  | |- wp (dirs_remove _) _ _ => apply wp_dirs_remove
  | |- wp (check_and_acquire_write _ _ _ _) _ _ => apply wp_check; intros ? ? ? ? ?
  | |- wp (hash_file_m _) _ _ => apply wp_hash_file; intros ? ?
  | |- wp (unwrap (stat_to_file_attr _)) _ _ =>
      first [eapply wp_stat_attr; [eassumption|intros ? ?]
            |eapply wp_fstat_attr; [eassumption|intros ? ?]]
  | |- wp (record_reader _ _ _) _ _ => unfold record_reader
  | |- wp (update_reader _ _ _) _ _ => unfold update_reader
  | |- wp (ensure_entry _) _ _ => unfold ensure_entry
  | |- wp (release_write _ _) _ _ => unfold release_write
  | |- wp (inodes_insert _ _) _ _ => unfold inodes_insert
  | |- wp (handles_get_mut _ _) _ _ => unfold handles_get_mut
  | |- wp (get_sid _) _ _ => unfold get_sid
  | |- wp (match ?x with _ => _ end) _ _ => destruct x eqn:?
  | |- wp (let '(_, _) := ?x in _) _ _ => destruct x eqn:?
  end;
  cbn beta iota zeta delta [cont w_fs w_os w_clk].

Ltac wp_run := repeat wp_prim.
