(* ===== verification/FsFile.v ===== *)
(** * FsFile: the FUSE handlers on open files (src/fs/mod.rs)

    [open], [create], [read], [write], [flush], [release] and [setattr], each
    the whole handler: its early returns are [reply_error], [require] and the
    like, in the order of the source. *)
From S2P Require Import Prelude Paths Env Handles Inodes Passthrough Cas HashTable Config Fs.

Local Open Scope Z_scope.

Section handlers.
Context `{Posix} `{Digests} `{Clocks} `{Crates} `{DashMapIter}.

(** The part of [open] after the descriptor is open, for a read-only file. *)
Definition open_readonly (rel full : PathBuf) (flags sid fd : Z) : M Reply :=
  r ← hash_file_m full;
  let h := result_ok r in
  match h with
  | Some h => record_reader rel h sid
  | None => mret tt
  end;;
  fh ← handles_alloc fd rel flags h sid;
  mret (ROpened fh).

(** The same for O_WRONLY and O_RDWR: CAS check on the hash taken before the
    descriptor was opened. *)
Definition open_write (rel : PathBuf) (flags sid fd : Z) (pre_open_hash : option (list byte))
    : M Reply :=
  let access_mode := Z.land flags O_ACCMODE in
  let handle_hash := if access_mode =? O_RDWR then pre_open_hash else None in
  fh ← handles_alloc fd rel flags handle_hash sid;
  match pre_open_hash with
  | Some actual =>
      r ← check_and_acquire_write rel fh sid actual;
      match r with
      | Err _ =>
          handles_remove fh;;
          syscall (λ o, (tt, sys_close o fd));;
          reply_error Errno.EIO
      | Ok _ => mret tt
      end
  | None => ensure_entry rel
  end;;
  (if access_mode =? O_RDWR then
     match pre_open_hash with
     | Some h => record_reader rel h sid
     | None => mret tt
     end
   else mret tt);;
  mret (ROpened fh).

Definition open (pid ino flags : Z) : M Reply :=
  if (ino =? DIBS_STATUS_INO) || (ino =? DIBS_LOCKS_INO) then
    fh ← handles_alloc (-1) (parse ".dibs/virtual") flags None 0;
    mret (ROpened fh)
  else if is_dibs_ino ino then reply_error Errno.EACCES
  else
    d ← get_fs;
    rel ← require (InodeTable.get_path ino (inodes d)) Errno.ENOENT;
    let full := backing_path d rel in
    c_path ← require (result_ok (path_to_cstring full)) Errno.EINVAL;
    let access_mode := Z.land flags O_ACCMODE in
    sid ← get_sid pid;
    pre_open_hash ←
      (if negb (access_mode =? O_RDONLY) then
         r ← hash_file_m full; mret (result_ok r)
       else mret None);
    r ← syscall (λ o, sys_open o c_path flags None);
    fd ← require_sys r;
    if access_mode =? O_RDONLY then open_readonly rel full flags sid fd
    else open_write rel flags sid fd pre_open_hash.

(** The slice of a virtual file's contents: [start + size] cannot overflow
    because [start] is below the length of a string in memory. *)
Definition read_virtual (content : string) (offset size : Z) : Reply :=
  let bytes := list_byte_of_string content in
  let start := offset in
  if Z.of_nat (length bytes) <=? start then RData []
  else
    let stop := Z.min (start + size) (Z.of_nat (length bytes)) in
    RData (take (Z.to_nat (stop - start)) (drop (Z.to_nat start) bytes)).

Definition read (ino fh offset size : Z) : M Reply :=
  if ino =? DIBS_STATUS_INO then
    content ← status_json; mret (read_virtual content offset size)
  else if ino =? DIBS_LOCKS_INO then
    content ← locks_json; mret (read_virtual content offset size)
  else
    d ← get_fs;
    handle ← require (HandleTable.get fh (file_handles d)) Errno.EBADF;
    r ← inspect (λ o, sys_pread o (h_real_fd handle) size (as_i64 offset));
    buf ← require_sys r;
    mret (RData buf).

(** Saving rejected data, when configured: the write's result is ignored. *)
Definition save_conflict (rel_path : PathBuf) (data : list byte) : M unit :=
  d ← get_fs;
  match conflict_dir d with
  | Some dir =>
      now ← read_clock utc_now;
      let fname := match file_name rel_path with
                   | Some n => to_string_lossy n
                   | None => "unknown"
                   end in
      let conflict_path := join dir (format_ts now ++ "_" ++ fname)%string in
      syscall (λ o, fs_write o conflict_path data);; mret tt
  | None => mret tt
  end.

Definition set_has_written (h : HandleState) : HandleState :=
  mkHandle (h_fh h) (h_real_fd h) (h_path h) (h_hash_at_open h) (h_flags h) true (h_sid h).

Definition write (ino fh offset : Z) (data : list byte) : M Reply :=
  if is_dibs_ino ino then reply_error Errno.EACCES
  else
    d ← get_fs;
    handle ← require (HandleTable.get fh (file_handles d)) Errno.EBADF;
    let real_fd := h_real_fd handle in
    let rel_path := h_path handle in
    let sid := h_sid handle in
    (if negb (CasTable.has_active_writer rel_path (cas_table d)) then
       let full := backing_path d rel_path in
       h ← hash_file_m full;
       let actual_hash := result_unwrap_or [] h in
       r ← check_and_acquire_write rel_path fh sid actual_hash;
       match r with
       | Err _ => save_conflict rel_path data;; reply_error Errno.EIO
       | Ok _ => mret tt
       end
     else mret tt);;
    handles_get_mut fh set_has_written;;
    r ← syscall (λ o, sys_pwrite o real_fd data (as_i64 offset));
    n ← require_sys r;
    mret (RWritten (as_u32 n)).

Definition set_flushed (hash : list byte) (h : HandleState) : HandleState :=
  mkHandle (h_fh h) (h_real_fd h) (h_path h) (Some hash) (h_flags h) false (h_sid h).

Definition flush (ino fh : Z) : M Reply :=
  if is_dibs_ino ino then mret ROk
  else
    d ← get_fs;
    match HandleTable.get fh (file_handles d) with
    | None => mret ROk
    | Some handle =>
        let rel_path := h_path handle in
        (if h_has_written handle then
           let full := backing_path d rel_path in
           r ← hash_file_m full;
           match r with
           | Ok new_hash =>
               update_reader (h_sid handle) rel_path new_hash;;
               handles_get_mut fh (set_flushed new_hash)
           | Err _ => mret tt
           end;;
           release_write rel_path fh
         else mret tt);;
        mret ROk
    end.

Definition release (fh : Z) : M Reply :=
  h ← handles_remove fh;
  match h with
  | Some handle =>
      release_write (h_path handle) fh;;
      if 0 <=? h_real_fd handle then syscall (λ o, (tt, sys_close o (h_real_fd handle)))
      else mret tt
  | None => mret tt
  end;;
  mret ROk.

Definition create (pid parent : Z) (name : string) (mode flags : Z) : M Reply :=
  if is_dibs_ino parent then reply_error Errno.EACCES
  else
    d ← get_fs;
    let '(rel, full) := resolve_path d parent name in
    c_path ← require (result_ok (path_to_cstring full)) Errno.EINVAL;
    r ← syscall (λ o, sys_open o c_path (Z.lor flags O_CREAT) (Some mode));
    fd ← require_sys r;
    st ← inspect (λ o, fstat o fd);
    match st with
    | Err e =>
        syscall (λ o, (tt, sys_close o fd));; reply_error (errno_from_io e)
    | Ok st =>
        attr ← unwrap (stat_to_file_attr st);
        inodes_insert (a_ino attr) rel;;
        sid ← get_sid pid;
        h ← hash_file_m full;
        let hash := result_unwrap_or [] h in
        record_reader rel hash sid;;
        ensure_entry rel;;
        fh ← handles_alloc fd rel flags (Some hash) sid;
        mret (RCreated TTL attr 0 fh)
    end.

(** ** [setattr], one definition per block of the source *)

Inductive TimeOrNow :=
| SpecificTime (t : Z)      (* nanoseconds since the epoch *)
| Now.

Definition to_timespec (t : option TimeOrNow) : timespec :=
  match t with
  | Some (SpecificTime st) =>
      let d := Z.max 0 st in
      mkTimespec (as_i64 (d / 1000000000)) (d `mod` 1000000000)
  | Some Now => mkTimespec 0 UTIME_NOW
  | None => mkTimespec 0 UTIME_OMIT
  end.

Definition setattr_truncate (rel full c_path : PathBuf) (size fh : option Z) : M unit :=
  match size with
  | None => mret tt
  | Some new_size =>
      match fh with
      | Some handle_fh =>
          d ← get_fs;
          let sid := default 0 (h_sid <$> HandleTable.get handle_fh (file_handles d)) in
          h ← hash_file_m full;
          let actual_hash := result_unwrap_or [] h in
          r ← check_and_acquire_write rel handle_fh sid actual_hash;
          match r with
          | Err _ => reply_error Errno.EIO
          | Ok _ => mret tt
          end
      | None => mret tt
      end;;
      d ← get_fs;
      let fd := handle_fh ← fh; h_real_fd <$> HandleTable.get handle_fh (file_handles d) in
      rc ← match fd with
           | Some fd => syscall (λ o, sys_ftruncate o fd (as_i64 new_size))
           | None => syscall (λ o, sys_truncate o c_path (as_i64 new_size))
           end;
      require_sys rc
  end.

Definition setattr_mode (c_path : PathBuf) (mode : option Z) : M unit :=
  match mode with
  | Some mode => rc ← syscall (λ o, sys_chmod o c_path (as_u16 mode)); require_sys rc
  | None => mret tt
  end.

Definition setattr_owner (c_path : PathBuf) (uid gid : option Z) : M unit :=
  if bool_decide (is_Some uid) || bool_decide (is_Some gid) then
    rc ← syscall (λ o, sys_chown o c_path (default u32_MAX uid) (default u32_MAX gid));
    require_sys rc
  else mret tt.

Definition setattr_times (c_path : PathBuf) (atime mtime : option TimeOrNow) : M unit :=
  if bool_decide (is_Some atime) || bool_decide (is_Some mtime) then
    rc ← syscall (λ o, sys_utimensat o c_path (to_timespec atime) (to_timespec mtime));
    require_sys rc
  else mret tt.

Definition setattr_flags (c_path : PathBuf) (flags : option Z) : M unit :=
  match flags with
  | Some flags => rc ← syscall (λ o, sys_chflags o c_path flags); require_sys rc
  | None => mret tt
  end.

(** [lstat] and reply with the attributes, the inode number being the caller's. *)
Definition reply_attr (ino : Z) (full : PathBuf) : M Reply :=
  r ← inspect (λ o, lstat o full);
  st ← require_io r;
  attr ← unwrap (stat_to_file_attr st);
  mret (RAttr TTL (set_ino ino attr)).

Definition setattr (ino : Z) (mode uid gid size : option Z) (atime mtime : option TimeOrNow)
    (fh flags : option Z) : M Reply :=
  if is_dibs_ino ino then reply_error Errno.EACCES
  else
    d ← get_fs;
    rel ← require (InodeTable.get_path ino (inodes d)) Errno.ENOENT;
    let full := backing_path d rel in
    c_path ← require (result_ok (path_to_cstring full)) Errno.EINVAL;
    setattr_truncate rel full c_path size fh;;
    setattr_mode c_path mode;;
    setattr_owner c_path uid gid;;
    setattr_times c_path atime mtime;;
    setattr_flags c_path flags;;
    reply_attr ino full.

End handlers.
