(* ===== verification/FsDir.v ===== *)
(** * FsDir: the FUSE handlers on names, directories and the mount
    (src/fs/mod.rs)

    [lookup], [getattr], [opendir], [readdir], [releasedir], [mkdir], [unlink],
    [rmdir], [rename], [symlink], [readlink], [link], [statfs], [access],
    [init] and [destroy].  The buffer of a directory reply is a parameter of
    [readdir]: [full acc e] tells that the entry [e] no longer fits behind the
    entries [acc] already added. *)
From S2P Require Import Prelude Paths Env Handles Inodes Passthrough Cas HashTable Config Fs.
From S2P Require Import FsFile.

Local Open Scope Z_scope.

Section handlers.
Context `{Posix} `{Digests} `{Clocks} `{Crates} `{DashMapIter}.

Definition init : M unit := inodes_insert 1 path_empty.

Definition destroy : M unit := mret tt.

Definition lookup (parent : Z) (name : string) : M Reply :=
  if (parent =? 1) && is_dibs_name name then
    a ← dibs_dir_attr DIBS_DIR_INO; mret (REntry TTL a 0)
  else if parent =? DIBS_DIR_INO then
    if String.eqb name DIBS_STATUS_NAME then
      content ← status_json;
      a ← dibs_file_attr DIBS_STATUS_INO (Z.of_nat (String.length content));
      mret (REntry TTL a 0)
    else if String.eqb name DIBS_LOCKS_NAME then
      content ← locks_json;
      a ← dibs_file_attr DIBS_LOCKS_INO (Z.of_nat (String.length content));
      mret (REntry TTL a 0)
    else if String.eqb name DIBS_CONFLICTS_NAME then
      a ← dibs_dir_attr DIBS_CONFLICTS_DIR_INO; mret (REntry TTL a 0)
    else reply_error Errno.ENOENT
  else
    d ← get_fs;
    let '(rel, full) := resolve_path d parent name in
    r ← lookup_and_register rel full;
    attr ← require_io r;
    mret (REntry TTL attr 0).

Definition getattr (ino : Z) : M Reply :=
  d ← get_fs;
  if ino =? 1 then reply_attr 1 (backing d)
  else if ino =? DIBS_DIR_INO then
    a ← dibs_dir_attr DIBS_DIR_INO; mret (RAttr TTL a)
  else if ino =? DIBS_STATUS_INO then
    content ← status_json;
    a ← dibs_file_attr DIBS_STATUS_INO (Z.of_nat (String.length content));
    mret (RAttr TTL a)
  else if ino =? DIBS_LOCKS_INO then
    content ← locks_json;
    a ← dibs_file_attr DIBS_LOCKS_INO (Z.of_nat (String.length content));
    mret (RAttr TTL a)
  else if ino =? DIBS_CONFLICTS_DIR_INO then
    a ← dibs_dir_attr DIBS_CONFLICTS_DIR_INO; mret (RAttr TTL a)
  else
    rel ← require (InodeTable.get_path ino (inodes d)) Errno.ENOENT;
    reply_attr ino (backing_path d rel).

(** The path of a directory inode: the root, or a registered inode. *)
Definition dir_path (d : DibsFs) (ino : Z) : option PathBuf :=
  if ino =? 1 then Some path_empty else InodeTable.get_path ino (inodes d).

Definition opendir (ino : Z) : M Reply :=
  if (ino =? DIBS_DIR_INO) || (ino =? DIBS_CONFLICTS_DIR_INO) then
    fh ← dirs_alloc (-1) (parse ".dibs"); mret (ROpened fh)
  else
    d ← get_fs;
    rel ← require (dir_path d ino) Errno.ENOENT;
    let full := backing_path d rel in
    c_path ← require (result_ok (path_to_cstring full)) Errno.EINVAL;
    r ← syscall (λ o, sys_opendir o c_path);
    dp ← require_sys r;
    fd ← inspect (λ o, sys_dirfd o dp);
    real_fd ← syscall (λ o, sys_dup o fd);
    syscall (λ o, (tt, sys_closedir o dp));;
    fh ← dirs_alloc real_fd rel;
    mret (ROpened fh).

(** ** Listing *)

Definition raw_entry : Type := Z * FileType * string.

(** Add entries from index [i] on until one does not fit. *)
Fixpoint add_entries (full : list DirEntry → DirEntry → bool) (i : Z) (es : list raw_entry)
    (acc : list DirEntry) : list DirEntry :=
  match es with
  | [] => acc
  | (ino, kind, name) :: es =>
      let e := mkDirEntry ino (i + 1) kind name in
      if full acc e then acc else add_entries full (i + 1) es (acc ++ [e])
  end.

(** [entries.iter().enumerate().skip(offset)] into the reply. *)
Definition reply_entries (full : list DirEntry → DirEntry → bool) (offset : Z)
    (es : list raw_entry) : Reply :=
  RDirectory (add_entries full offset (drop (Z.to_nat offset) es) []).

Definition dibs_dir_entries : list raw_entry :=
  [(DIBS_DIR_INO, Directory, "."%string);
   (1, Directory, ".."%string);
   (DIBS_STATUS_INO, RegularFile, DIBS_STATUS_NAME);
   (DIBS_LOCKS_INO, RegularFile, DIBS_LOCKS_NAME);
   (DIBS_CONFLICTS_DIR_INO, Directory, DIBS_CONFLICTS_NAME)].

Definition conflicts_dir_entries : list raw_entry :=
  [(DIBS_CONFLICTS_DIR_INO, Directory, "."%string);
   (DIBS_DIR_INO, Directory, ".."%string)].

(** The loop over the names of the backing directory: each one that can be
    stat'ed is registered in the inode table and listed. *)
Fixpoint list_children (rel : PathBuf) (names : list (result string IoError))
    : M (list raw_entry) :=
  match names with
  | [] => mret []
  | Err _ :: names => list_children rel names
  | Ok raw :: names =>
      let name := to_string_lossy raw in
      if String.eqb name ".dibs-conflicts" then list_children rel names
      else
        d ← get_fs;
        let child_rel := join rel name in
        r ← inspect (λ o, lstat o (backing_path d child_rel));
        match r with
        | Ok st =>
            attr ← unwrap (stat_to_file_attr st);
            inodes_insert (a_ino attr) child_rel;;
            es ← list_children rel names;
            mret ((a_ino attr, a_kind attr, name) :: es)
        | Err _ => list_children rel names
        end
  end.

Definition parent_ino (d : DibsFs) (ino : Z) (rel : PathBuf) : Z :=
  if ino =? 1 then 1
  else
    let parent_path := default path_empty (parent rel) in
    if path_is_empty parent_path then 1
    else default 1 (InodeTable.get_ino parent_path (inodes d)).

Definition readdir (full : list DirEntry → DirEntry → bool) (ino offset : Z) : M Reply :=
  if ino =? DIBS_DIR_INO then mret (reply_entries full offset dibs_dir_entries)
  else if ino =? DIBS_CONFLICTS_DIR_INO then
    mret (reply_entries full offset conflicts_dir_entries)
  else
    d ← get_fs;
    rel ← require (dir_path d ino) Errno.ENOENT;
    r ← inspect (λ o, fs_read_dir o (backing_path d rel));
    names ← require_io r;
    let dots := [(ino, Directory, "."%string); (parent_ino d ino rel, Directory, ".."%string)] in
    let dibs := if ino =? 1 then [(DIBS_DIR_INO, Directory, DIBS_DIR_NAME)] else [] in
    children ← list_children rel names;
    mret (reply_entries full offset (dots ++ dibs ++ children)).

Definition releasedir (fh : Z) : M Reply :=
  h ← dirs_remove fh;
  match h with
  | Some handle =>
      if 0 <=? d_real_fd handle then syscall (λ o, (tt, sys_close o (d_real_fd handle)))
      else mret tt
  | None => mret tt
  end;;
  mret ROk.

(** ** Names *)

Definition reply_entry (rel full : PathBuf) : M Reply :=
  r ← lookup_and_register rel full;
  attr ← require_io r;
  mret (REntry TTL attr 0).

Definition mkdir (parent : Z) (name : string) (mode : Z) : M Reply :=
  if is_dibs_ino parent then reply_error Errno.EACCES
  else
    d ← get_fs;
    let '(rel, full) := resolve_path d parent name in
    c_path ← require (result_ok (path_to_cstring full)) Errno.EINVAL;
    rc ← syscall (λ o, sys_mkdir o c_path (as_u16 mode));
    require_sys rc;;
    reply_entry rel full.

(** The CAS check of [unlink] and [rename]: refuse when the session holds a
    receipt and the file can be hashed to something else. *)
Definition check_unchanged (sid : Z) (rel full : PathBuf) : M unit :=
  d ← get_fs;
  match CasTable.get_reader_hash sid rel (cas_table d) with
  | Some reader_hash =>
      r ← hash_file_m full;
      match r with
      | Ok actual_hash =>
          if decide (reader_hash = actual_hash) then mret tt else reply_error Errno.EIO
      | Err _ => mret tt
      end
  | None => mret tt
  end.

Definition unlink (pid parent : Z) (name : string) : M Reply :=
  if is_dibs_ino parent then reply_error Errno.EACCES
  else
    d ← get_fs;
    let '(rel, full) := resolve_path d parent name in
    sid ← get_sid pid;
    check_unchanged sid rel full;;
    c_path ← require (result_ok (path_to_cstring full)) Errno.EINVAL;
    rc ← syscall (λ o, sys_unlink o c_path);
    require_sys rc;;
    modify_fs (set_cas (CasTable.remove rel));;
    modify_fs (set_inodes (InodeTable.remove_by_path rel));;
    mret ROk.

Definition rmdir (parent : Z) (name : string) : M Reply :=
  if is_dibs_ino parent then reply_error Errno.EACCES
  else
    d ← get_fs;
    let '(rel, full) := resolve_path d parent name in
    c_path ← require (result_ok (path_to_cstring full)) Errno.EINVAL;
    rc ← syscall (λ o, sys_rmdir o c_path);
    require_sys rc;;
    modify_fs (set_inodes (InodeTable.remove_by_path rel));;
    mret ROk.

Definition rename (pid parent : Z) (name : string) (newparent : Z) (newname : string) : M Reply :=
  if is_dibs_ino parent || is_dibs_ino newparent then reply_error Errno.EACCES
  else
    d ← get_fs;
    let '(old_rel, old_full) := resolve_path d parent name in
    let '(new_rel, new_full) := resolve_path d newparent newname in
    sid ← get_sid pid;
    check_unchanged sid old_rel old_full;;
    ex ← inspect (λ o, fs_exists o new_full);
    (if ex : bool then check_unchanged sid new_rel new_full else mret tt);;
    old_c ← require (result_ok (path_to_cstring old_full)) Errno.EINVAL;
    new_c ← require (result_ok (path_to_cstring new_full)) Errno.EINVAL;
    rc ← syscall (λ o, sys_rename o old_c new_c);
    require_sys rc;;
    modify_fs (set_inodes (InodeTable.rename old_rel new_rel));;
    modify_fs (set_cas (CasTable.rename old_rel new_rel));;
    mret ROk.

Definition symlink (parent : Z) (link_name : string) (target : PathBuf) : M Reply :=
  if is_dibs_ino parent then reply_error Errno.EACCES
  else
    d ← get_fs;
    let '(rel, full) := resolve_path d parent link_name in
    c_target ← require (result_ok (path_to_cstring target)) Errno.EINVAL;
    c_link ← require (result_ok (path_to_cstring full)) Errno.EINVAL;
    rc ← syscall (λ o, sys_symlink o c_target c_link);
    require_sys rc;;
    reply_entry rel full.

Definition readlink (ino : Z) : M Reply :=
  d ← get_fs;
  rel ← require (InodeTable.get_path ino (inodes d)) Errno.ENOENT;
  r ← inspect (λ o, fs_read_link o (backing_path d rel));
  target ← require_io r;
  mret (RData (list_byte_of_string target)).

Definition link : M Reply := reply_error Errno.ENOTSUP.

Definition statfs : M Reply :=
  d ← get_fs;
  c_path ← require (result_ok (path_to_cstring (backing d))) Errno.EINVAL;
  r ← inspect (λ o, sys_statfs o c_path);
  st ← require_sys r;
  mret (RStatfs (f_blocks st) (f_bfree st) (f_bavail st) (f_files st) (f_ffree st)
          (as_u32 (f_bsize st)) 255 (as_u32 (f_bsize st))).

Definition access (ino mask : Z) : M Reply :=
  if is_dibs_ino ino then mret ROk
  else if ino =? 1 then mret ROk
  else
    d ← get_fs;
    rel ← require (InodeTable.get_path ino (inodes d)) Errno.ENOENT;
    c_path ← require (result_ok (path_to_cstring (backing_path d rel))) Errno.EINVAL;
    r ← inspect (λ o, sys_access o c_path mask);
    require_sys r;;
    mret ROk.

End handlers.
