(* ===== verification/FsTrace.v ===== *)
(** * FsTrace: requests, events and invariants of the running file system

    The requests the kernel sends, dispatched to the handlers; the events of a
    run (requests, evictions, changes made behind dibs' back to the backing
    files); and what holds along every run. *)
From S2P Require Import Prelude Paths Env Handles Inodes Passthrough Cas HashTable Config Fs.
From S2P Require Import FsLogic FsFile FsDir Sample.

Local Open Scope Z_scope.

Section trace.
Context `{Posix} `{Digests} `{Clocks} `{Crates} `{DashMapIter}.

Inductive Request :=
| ReqLookup (parent : Z) (name : string)
| ReqGetattr (ino : Z)
| ReqSetattr (ino : Z) (mode uid gid size : option Z) (atime mtime : option TimeOrNow)
    (fh flags : option Z)
| ReqOpen (pid ino flags : Z)
| ReqRead (ino fh offset size : Z)
| ReqWrite (ino fh offset : Z) (data : list byte)
| ReqFlush (ino fh : Z)
| ReqRelease (fh : Z)
| ReqOpendir (ino : Z)
| ReqReaddir (full : list DirEntry → DirEntry → bool) (ino offset : Z)
| ReqReleasedir (fh : Z)
| ReqCreate (pid parent : Z) (name : string) (mode flags : Z)
| ReqMkdir (parent : Z) (name : string) (mode : Z)
| ReqUnlink (pid parent : Z) (name : string)
| ReqRmdir (parent : Z) (name : string)
| ReqRename (pid parent : Z) (name : string) (newparent : Z) (newname : string)
| ReqSymlink (parent : Z) (name : string) (target : PathBuf)
| ReqReadlink (ino : Z)
| ReqLink
| ReqStatfs
| ReqAccess (ino mask : Z).

Definition handle (r : Request) : M Reply :=
  match r with
  | ReqLookup parent name => lookup parent name
  | ReqGetattr ino => getattr ino
  | ReqSetattr ino mode uid gid size atime mtime fh flags =>
      setattr ino mode uid gid size atime mtime fh flags
  | ReqOpen pid ino flags => open pid ino flags
  | ReqRead ino fh offset size => read ino fh offset size
  | ReqWrite ino fh offset data => write ino fh offset data
  | ReqFlush ino fh => flush ino fh
  | ReqRelease fh => release fh
  | ReqOpendir ino => opendir ino
  | ReqReaddir full ino offset => readdir full ino offset
  | ReqReleasedir fh => releasedir fh
  | ReqCreate pid parent name mode flags => create pid parent name mode flags
  | ReqMkdir parent name mode => mkdir parent name mode
  | ReqUnlink pid parent name => unlink pid parent name
  | ReqRmdir parent name => rmdir parent name
  | ReqRename pid parent name newparent newname => rename pid parent name newparent newname
  | ReqSymlink parent name target => symlink parent name target
  | ReqReadlink ino => readlink ino
  | ReqLink => link
  | ReqStatfs => statfs
  | ReqAccess ino mask => access ino mask
  end.

(** ** Handlers always reply *)

Section total.
Context `{!PosixLaws}.

(** The listing loop only registers inodes: a property of the world stable
    under registration carries over to the end of the loop. *)
Lemma wp_list_children (R : World → Prop) rel names Q w :
  (∀ ino p w, R w → R (mkWorld (set_inodes (InodeTable.insert ino p) (w_fs w)) (w_os w) (w_clk w))) →
  R w → (∀ es w', R w' → Q (Val es) w') → wp (list_children rel names) Q w.
Proof.
  intros HR. revert Q w. induction names as [|[raw|e] names IH]; intros Q w Hw HQ;
    cbn [list_children].
  - apply wp_ret. by apply HQ.
  - wp_prim; [by apply IH|]. wp_run; [|by apply IH].
    apply IH; [by apply HR|]. intros. cbn [cont]. apply wp_ret. by apply HQ.
  - by apply IH.
Qed.

(** The session holds a receipt for the path that the file no longer matches. *)
Definition stale_receipt (sid : Z) (rel full : PathBuf) (w : World) : Prop :=
  ∃ h actual, CasTable.get_reader_hash sid rel (cas_table (w_fs w)) = Some h ∧
    hash_file (w_os w) full = Some (Ok actual) ∧ h ≠ actual.

Lemma wp_check_unchanged sid rel full Q w :
  (stale_receipt sid rel full w → Q (Return (RError Errno.EIO)) w) →
  (¬ stale_receipt sid rel full w → Q (Val tt) w) →
  wp (check_unchanged sid rel full) Q w.
Proof.
  intros HE HV. unfold check_unchanged. wp_prim. wp_prim.
  destruct (CasTable.get_reader_hash sid rel (cas_table (w_fs w))) as [h|] eqn:Eh.
  - wp_prim. wp_prim. destruct r as [actual|e].
    + case_decide as Hd; wp_prim.
      * apply HV. intros (h'&a'&?&?&?). congruence.
      * apply HE. exists h, actual. done.
    + wp_prim. apply HV. intros (h'&a'&?&?&?). congruence.
  - wp_prim. apply HV. intros (h'&a'&?&_). congruence.
Qed.
End total.
End trace.

(** Unfold the helpers of the handlers down to the primitives that have a rule. *)
Ltac handler_unfold :=
  unfold lookup, getattr, setattr, setattr_truncate, setattr_mode, setattr_owner, setattr_times,
    setattr_flags, reply_attr, open, open_readonly, open_write, read, write, save_conflict,
    flush, release, opendir, readdir, releasedir, create, mkdir, unlink,
    rmdir, rename, symlink, readlink, link, statfs, access, reply_entry,
    lookup_and_register, status_json, locks_json, dibs_dir_attr, dibs_file_attr, synthetic_attr.

(** [wp_run] with the rule of the CAS check of [unlink] and [rename]. *)
Ltac wp_go :=
  repeat (wp_prim ||
    lazymatch goal with
    | |- wp (check_unchanged _ _ _) _ _ =>
        apply wp_check_unchanged; intros ?; cbn beta iota zeta delta [cont w_fs w_os w_clk]
    end).

(** Reduce the projections of an updated world, and nothing else. *)
Ltac fs_proj :=
  cbn beta iota delta [w_fs w_os w_clk set_handles set_dirs set_inodes set_cas file_handles
    dir_handles inodes cas_table backing config conflict_dir start_time].

(** Run one request, leaving the goals at its exits. *)
Ltac run_request r := destruct r; cbn [handle]; handler_unfold; wp_go.

Section runs.
Context `{Posix} `{Digests} `{Clocks} `{Crates} `{DashMapIter} `{!PosixLaws}.

Definition not_stuck {A} (e : exit A) (w : World) : Prop := e ≠ Stuck.

Lemma handle_not_stuck r w : wp (handle r) not_stuck w.
Proof.
  run_request r; try done.
  apply (wp_list_children (λ _, True)); [done..|]. intros es w' _. by wp_go.
Qed.

(** C11. Every request gets a reply: from any state of the tables and of the
    backing file system, no handler panics (the [unwrap] on the ownership entry,
    the attribute arithmetic) or reads forever; it ends with a reply. *)
Theorem every_request_replied (r : Request) (w : World) :
  ∃ reply, (handle r w).1 = Val reply ∨ (handle r w).1 = Return reply.
Proof.
  pose proof (handle_not_stuck r w) as Hn. unfold wp, not_stuck in Hn.
  destruct (handle r w).1; eauto. done.
Qed.

(** ** The table invariant *)

(** [inv n]: the tables are well formed, no counter is past [n], and owners are
    handles that were allocated. *)
Record inv (n : Z) (w : World) : Prop := {
  inv_handles : HandleTable.wf (file_handles (w_fs w));
  inv_room : HandleTable.next_fh (file_handles (w_fs w)) <= n;
  inv_dirs : DirHandleTable.wf (dir_handles (w_fs w));
  inv_dir_room : DirHandleTable.next_fh (dir_handles (w_fs w)) <= n;
  inv_inodes : InodeTable.consistent (inodes (w_fs w));
  inv_owners : CasTable.owners_lt (HandleTable.next_fh (file_handles (w_fs w)))
                 (cas_table (w_fs w))
}.

(** The kernel only passes to [setattr] handle numbers it was given. *)
Definition valid_request (r : Request) (w : World) : Prop :=
  match r with
  | ReqSetattr _ _ _ _ _ _ _ (Some fh) _ => fh < HandleTable.next_fh (file_handles (w_fs w))
  | _ => True
  end.

Lemma handle_inv n r w :
  n < u64_MAX → inv n w → valid_request r w → wp (handle r) (λ _ w', inv (n + 1) w') w.
Proof.
  intros Hn [Hh Hr Hd Hdr Hi Ho] Hv.
  assert (HandleTable.has_room (file_handles (w_fs w))) as Hroom by (red; lia).
  assert (DirHandleTable.has_room (dir_handles (w_fs w))) as Hdroom by (red; lia).
  assert (as_u64 (HandleTable.next_fh (file_handles (w_fs w)) + 1)
    = HandleTable.next_fh (file_handles (w_fs w)) + 1) as Hnx.
  { destruct Hh. unfold u64_MAX in Hn. rewrite wrap_u_small; lia. }
  assert (as_u64 (DirHandleTable.next_fh (dir_handles (w_fs w)) + 1) <= n + 1) as Hdnx.
  { destruct Hd. unfold u64_MAX in Hn. rewrite wrap_u_small; lia. }
  assert (CasTable.owners_lt (HandleTable.next_fh (file_handles (w_fs w)) + 1)
    (cas_table (w_fs w))) as Ho1 by (eapply CasTable.owners_lt_mono; [|exact Ho]; lia).
  assert (∀ fh h, HandleTable.get fh (file_handles (w_fs w)) = Some h →
    fh < HandleTable.next_fh (file_handles (w_fs w))) as Hlive.
  { intros fh h Hg. apply HandleTable.wf_lt; eauto. }
  run_request r; try (split; fs_proj; solve
    [auto with dibs
    |cbn; rewrite ?Hnx; lia
    |rewrite ?HandleTable.remove_next, ?HandleTable.alloc_room_next by done;
       eauto 8 with dibs lia]).
  apply (wp_list_children (inv (n + 1))).
  - intros ino' p w' []. split; fs_proj; auto with dibs.
  - split; auto; lia.
  - intros es w' Hw'. by wp_go.
Qed.

(** ** Receipts along requests *)

(** The process is in another session when the handler asks for it: [open] asks
    first, [create] after it created the file. *)
Definition foreign (s pid : Z) (o : os) : Prop := session pid o ≠ s.

Definition after_create (parent : Z) (name : string) (mode flags : Z) (w : World) : os :=
  (sys_open (w_os w) (resolve_path (w_fs w) parent name).2 (Z.lor flags O_CREAT) (Some mode)).2.

(** A request that neither renews nor drops the receipt of session [s] for the
    path [p]: not an open, a creation or a flush of [p] by [s], not an unlink of
    [p], and not a rename from or onto [p], by anyone. *)
Definition quiet_request (s : Z) (p : PathBuf) (r : Request) (w : World) : Prop :=
  match r with
  | ReqOpen pid ino _ => foreign s pid (w_os w) ∨ InodeTable.get_path ino (inodes (w_fs w)) ≠ Some p
  | ReqCreate pid parent name mode flags =>
      foreign s pid (after_create parent name mode flags w) ∨
      (resolve_path (w_fs w) parent name).1 ≠ p
  | ReqFlush _ fh =>
      ∀ h, HandleTable.get fh (file_handles (w_fs w)) = Some h → h_sid h ≠ s ∨ h_path h ≠ p
  | ReqUnlink _ parent name => (resolve_path (w_fs w) parent name).1 ≠ p
  | ReqRename _ parent name newparent newname =>
      (resolve_path (w_fs w) parent name).1 ≠ p ∧
      (resolve_path (w_fs w) newparent newname).1 ≠ p
  | _ => True
  end.

Lemma handle_keeps s p r w :
  quiet_request s p r w →
  wp (handle r) (λ _ w', CasTable.keeps s p (cas_table (w_fs w)) (cas_table (w_fs w'))) w.
Proof.
  intros Hq. unfold quiet_request, foreign, after_create in Hq.
  run_request r; fs_proj; try solve [auto with dibs];
    try match goal with
    | |- wp (list_children _ _) _ _ =>
        apply (wp_list_children (λ w', cas_table (w_fs w') = cas_table (w_fs w)));
          [done..|intros es w' Hw'; cbn beta iota delta [cont]; wp_go;
           rewrite Hw'; auto with dibs]
    end.
  all: repeat match goal with
    | E : resolve_path _ _ _ = _ |- _ => rewrite E in Hq; clear E
    end; simpl in Hq.
  all: try solve [destruct Hq; auto with dibs].
  all: repeat match goal with
    | |- CasTable.keeps _ _ _ (CasTable.ensure_entry _ _ _) => apply CasTable.keeps_ensure
    | |- CasTable.keeps _ _ _ (CasTable.release_write _ _ _) => apply CasTable.keeps_release
    | |- CasTable.keeps _ _ _ (CasTable.record_reader _ _ _ _ _) => apply CasTable.keeps_record
    | |- CasTable.keeps _ _ _ (CasTable.update_reader _ _ _ _ _) => apply CasTable.keeps_update
    end; auto with dibs.
  3: destruct (Hq h) as [Hq'|Hq']; [done|by left|by right].
  all: repeat match goal with
    | E : result_ok (path_to_cstring _) = Some _ |- _ => apply path_to_cstring_some in E as ->
    end.
  all: destruct Hq as [Hq|Hq]; [left; congruence|right; congruence].
Qed.

(** ** Runs *)

(** An eviction by the background thread: it reads the clock and prunes the
    table; when the date arithmetic panics the table is left as it was. *)
Definition evict (duration : Z) : M unit :=
  now ← read_clock utc_now;
  d ← get_fs;
  match CasTable.evict_older_than now duration (cas_table d) with
  | Some ct => modify_fs (set_cas (λ _, ct))
  | None => mret tt
  end.

(** [EvExternal]: the kernel and the backing files are in a new state, for
    whatever reason outside dibs. *)
Inductive Event :=
| EvRequest (r : Request)
| EvEvict (duration : Z)
| EvExternal (o : os).

Inductive step (w : World) : Event → World → Prop :=
| step_request r : valid_request r w → step w (EvRequest r) (handle r w).2
| step_evict d : step w (EvEvict d) (evict d w).2
| step_external o : step w (EvExternal o) (mkWorld (w_fs w) o (w_clk w)).

Inductive trace : World → list Event → World → Prop :=
| trace_nil w : trace w [] w
| trace_cons w e w' es w'' : step w e w' → trace w' es w'' → trace w (e :: es) w''.

(** The state after mounting. *)
Definition mounted (cfg : DibsConfig) (o : os) (clk : nat) : World :=
  (init (fs_new cfg o clk)).2.

Lemma trace_app w es w' es' w'' : trace w es w' → trace w' es' w'' → trace w (es ++ es') w''.
Proof. induction 1; [done|]. intros. econstructor; eauto. Qed.

Lemma inv_mounted cfg o clk : inv 1 (mounted cfg o clk).
Proof.
  split; [apply HandleTable.wf_new|done|apply DirHandleTable.dir_wf_new|done| |].
  - apply InodeTable.insert_consistent, InodeTable.bijective_consistent, InodeTable.bijective_new.
  - apply CasTable.owners_lt_new.
Qed.

Lemma inv_le n m w : n <= m → inv n w → inv m w.
Proof. intros ? []. split; auto; lia. Qed.

Lemma evict_inv n d w : inv n w → wp (evict d) (λ _ w', inv n w') w.
Proof.
  intros []. unfold evict. wp_go; split; fs_proj; eauto using CasTable.owners_lt_evict.
Qed.

Lemma step_inv n w e w' : n < u64_MAX → inv n w → step w e w' → inv (n + 1) w'.
Proof.
  intros Hn Hi []; [by apply (handle_inv n)| |].
  - apply (inv_le n); [lia|]. by apply (evict_inv n).
  - destruct Hi. split; auto; simpl; lia.
Qed.

Lemma trace_inv n w es w' :
  n + Z.of_nat (length es) <= u64_MAX → inv n w → trace w es w' →
  inv (n + Z.of_nat (length es)) w'.
Proof.
  intros Hn Hi Ht. revert n Hn Hi. induction Ht as [w|w e w' es w'' Hs Ht IH];
    intros n Hn Hi; cbn [length] in *; [by rewrite Z.add_0_r|].
  replace (n + Z.of_nat (S (length es))) with ((n + 1) + Z.of_nat (length es)) by lia.
  apply IH; [lia|]. eapply step_inv; eauto. lia.
Qed.

(** C9. The tables stay well formed along every run: from mounting on, through
    fewer than 2^64 - 2 events in any order (requests, evictions, changes to the
    backing files behind dibs' back), handle numbers are unique and below their
    counter, each entry carries its own number, the inode of a registered path leads back to that path, and
    every write owner is a handle number that was handed out. *)
Theorem reachable_tables_wf (cfg : DibsConfig) (o : os) (clk : nat) (es : list Event) (w : World)
    (Hlen : Z.of_nat (length es) < u64_MAX - 1) (Ht : trace (mounted cfg o clk) es w) :
  HandleTable.wf (file_handles (w_fs w)) ∧ DirHandleTable.wf (dir_handles (w_fs w)) ∧
  InodeTable.consistent (inodes (w_fs w)) ∧
  (∀ p fh, CasTable.owner p (cas_table (w_fs w)) = Some fh →
     fh < HandleTable.next_fh (file_handles (w_fs w))).
Proof.
  destruct (trace_inv 1 (mounted cfg o clk) es w) as [? _ ? _ ? ?];
    [lia|apply inv_mounted|done|]. done.
Qed.
End runs.

(** ** A concrete run

    A file system over [/b] with one file [f]; process 100 (session 10) looks the
    file up: its inode is 3, its path [f]. *)
Definition sample_config : DibsConfig :=
  mkConfig (parse "/b") (parse "/m") "dibs-1" (parse "/tmp/log") 60 false false true.

Abbreviation s_handle := (@handle mem_posix toy_digests tick_clocks plain_crates canonical_iter).
Abbreviation s_trace := (@trace mem_posix toy_digests tick_clocks plain_crates canonical_iter).

Definition sample_mounted : @World mem_posix :=
  @mounted mem_posix tick_clocks sample_config (mem_with [("/b/f", "one")%string]) 0.

Definition sample_world : @World mem_posix := (s_handle (ReqLookup 1 "f") sample_mounted).2.

Lemma sample_trace : s_trace sample_mounted [EvRequest (ReqLookup 1 "f")] sample_world.
Proof. econstructor; [by constructor|constructor]. Qed.

Lemma every_request_replied_witness :
  ∃ reply, (s_handle (ReqOpen 100 3 O_WRONLY) sample_world).1 = Val reply ∨
           (s_handle (ReqOpen 100 3 O_WRONLY) sample_world).1 = Return reply.
Proof.
  exact (@every_request_replied mem_posix toy_digests tick_clocks plain_crates canonical_iter
    mem_posix_laws (ReqOpen 100 3 O_WRONLY) sample_world).
Defined.

Lemma reachable_tables_wf_witness :
  InodeTable.get_path 3 (inodes (w_fs sample_world)) = Some (parse "f") ∧
  InodeTable.consistent (inodes (w_fs sample_world)).
Proof.
  split; [vm_compute; reflexivity|].
  apply (@reachable_tables_wf mem_posix toy_digests tick_clocks plain_crates canonical_iter
    mem_posix_laws sample_config (mem_with [("/b/f", "one")%string]) 0
    [EvRequest (ReqLookup 1 "f")] sample_world).
  - vm_compute. reflexivity.
  - exact sample_trace.
Defined.
