(* ===== verification/Refine.v ===== *)
(** * Refine: the running file system implements the protocol

    The protocol of optimistic concurrency control as a transition system on
    receipts and owners, without clocks, handles or files: sessions see
    contents, handles claim free paths on a view that is current, owners drop
    what they own, paths are forgotten, moved, or age out.  Every request and
    every eviction of the running file system is a sequence of protocol actions
    that this request may take; what holds of the protocol then holds of every
    run.  The tables' own operations (src/state/hash_table.rs) refine the actions
    one by one; the handlers (src/fs/mod.rs) are composed from them. *)
From S2P Require Import Prelude Paths Env Handles Inodes Passthrough Cas HashTable Config Fs.
From S2P Require Import FsLogic FsFile FsDir Sample FsTrace.

Local Open Scope Z_scope.

Abbreviation hash := (list byte).

(** ** The protocol *)

Module Protocol.

(** [tracked p = Some None]: known, and nobody writes. *)
Record state := mk {
  receipts : gmap (Z * PathBuf) hash;
  tracked : gmap PathBuf (option Z)
}.

Definition initial : state := mk ∅ ∅.

Definition owner (p : PathBuf) (st : state) : option Z := default None (tracked st !! p).

Inductive action :=
| Track (p : PathBuf)
| See (s : Z) (p : PathBuf) (h : hash)
| Claim (s : Z) (p : PathBuf) (fh : Z) (relies : option hash) (actual : hash)
| Drop (p : PathBuf) (fh : Z)
| Forget (p : PathBuf)
| Move (p q : PathBuf)
| Age.

Inductive step (st : state) : action → state → Prop :=
| step_track p :
    tracked st !! p = None →
    step st (Track p) (mk (receipts st) (<[p := None]> (tracked st)))
| step_see s p h :
    step st (See s p h) (mk (<[(s, p) := h]> (receipts st)) (tracked st))
| step_claim s p fh relies actual :
    tracked st !! p = Some None → relies = None ∨ relies = Some actual →
    step st (Claim s p fh relies actual) (mk (receipts st) (<[p := Some fh]> (tracked st)))
| step_drop p fh :
    tracked st !! p = Some (Some fh) →
    step st (Drop p fh) (mk (receipts st) (<[p := None]> (tracked st)))
| step_forget p :
    step st (Forget p)
      (mk (filter (λ e, e.1.2 ≠ p) (receipts st)) (delete p (tracked st)))
| step_move p q rs :
    (∀ s x, rs !! (s, x) =
       match receipts st !! (s, p) with
       | Some h => if decide (x = q) then Some h
                   else if decide (x = p) then None else receipts st !! (s, x)
       | None => receipts st !! (s, x)
       end) →
    step st (Move p q)
      (mk rs (match tracked st !! p with
              | Some o => <[q := o]> (delete p (tracked st))
              | None => tracked st
              end))
| step_age rs ts :
    rs ⊆ receipts st → ts ⊆ tracked st →
    (∀ p fh, tracked st !! p = Some (Some fh) → ts !! p = Some (Some fh)) →
    step st Age (mk rs ts).

Inductive steps : state → list action → state → Prop :=
| steps_nil st : steps st [] st
| steps_cons st a st' l st'' : step st a st' → steps st' l st'' → steps st (a :: l) st''.

Lemma steps_app st l st' l' st'' : steps st l st' → steps st' l' st'' → steps st (l ++ l') st''.
Proof. induction 1; [done|]. intros. econstructor; eauto. Qed.

Lemma steps_one st a st' : step st a st' → steps st [a] st'.
Proof. intros. econstructor; [done|constructor]. Qed.

(** ** What the protocol guarantees *)

(** Actions that can take the path [p] from its owner [fh]. *)
Definition takes (p : PathBuf) (fh : Z) (a : action) : Prop :=
  match a with
  | Drop p' fh' => p' = p ∧ fh' = fh
  | Forget p' => p' = p
  | Move p' q => p' = p ∨ q = p
  | _ => False
  end.

Lemma step_keeps_owner st a st' p fh :
  step st a st' → ¬ takes p fh a →
  tracked st !! p = Some (Some fh) → tracked st' !! p = Some (Some fh).
Proof.
  intros [] Ht Hp; simpl in *; try done.
  - rewrite lookup_insert_ne; congruence.
  - rewrite lookup_insert_ne; congruence.
  - rewrite lookup_insert_ne; [done|]. naive_solver congruence.
  - rewrite lookup_delete_ne; congruence.
  - destruct (tracked st !! p0) eqn:E; [|done].
    rewrite lookup_insert_ne, lookup_delete_ne; tauto.
  - eauto.
Qed.

Lemma steps_keep_owner st l st' p fh :
  steps st l st' → (∀ a, a ∈ l → ¬ takes p fh a) →
  tracked st !! p = Some (Some fh) → tracked st' !! p = Some (Some fh).
Proof.
  induction 1 as [|st a st' l st'' Hs _ IH]; intros Hl Hp; [done|].
  apply IH; [intros; apply Hl; by right|]. eapply step_keeps_owner; eauto. apply Hl. by left.
Qed.

(** A path changes hands only through a claim on a current view. *)
Lemma step_claimed st a st' p fh :
  step st a st' → tracked st !! p ≠ Some (Some fh) → tracked st' !! p = Some (Some fh) →
  (∃ s relies actual, a = Claim s p fh relies actual ∧ (relies = None ∨ relies = Some actual)) ∨
  (∃ q, a = Move q p ∧ tracked st !! q = Some (Some fh)).
Proof.
  intros [] Hn Hp; simpl in *; try done.
  - destruct (decide (p0 = p)) as [->|]; simplify_map_eq.
  - destruct (decide (p0 = p)) as [->|]; simplify_map_eq. left; eauto.
  - destruct (decide (p0 = p)) as [->|]; simplify_map_eq.
  - apply lookup_delete_Some in Hp as [_ ?]. done.
  - destruct (tracked st !! p0) as [o|] eqn:E; [|done].
    destruct (decide (q = p)) as [->|]; [simplify_map_eq; right; eauto|].
    rewrite lookup_insert_ne in Hp by done. apply lookup_delete_Some in Hp as [_ ?]. done.
  - exfalso. apply Hn. eapply lookup_weaken; eauto.
Qed.
End Protocol.

(** ** The abstraction *)

Definition abs (ct : CasTable.t) : Protocol.state :=
  Protocol.mk (r_hash <$> CasTable.reader_hashes ct) (write_owner <$> CasTable.entries ct).

(** [sim ok ct ct']: the tables are related by protocol actions that satisfy [ok]. *)
Definition sim (ok : Protocol.action → Prop) (ct ct' : CasTable.t) : Prop :=
  ∃ l, Forall ok l ∧ Protocol.steps (abs ct) l (abs ct').

Section table.
Implicit Types (ok : Protocol.action → Prop) (ct : CasTable.t).

Lemma sim_refl ok ct : sim ok ct ct.
Proof. exists []. split; constructor. Qed.

#[global] Instance sim_preorder ok : PreOrder (sim ok).
Proof.
  split; [intros ct; apply sim_refl|]. intros ct ct' ct'' (l&Hl&Hs) (l'&Hl'&Hs').
  exists (l ++ l'). split; [by apply Forall_app|by eapply Protocol.steps_app].
Qed.

Lemma sim_one ok ct ct' a : ok a → Protocol.step (abs ct) a (abs ct') → sim ok ct ct'.
Proof. intros Ha Hs. exists [a]. split; [by constructor|by apply Protocol.steps_one]. Qed.

(** No action at all where the tables only differ in times. *)
Lemma sim_abs ok ct ct' : abs ct = abs ct' → sim ok ct ct'.
Proof. intros E. exists []. rewrite E. split; constructor. Qed.

Lemma sim_record ok now p h s ct :
  ok (Protocol.See s p h) → sim ok ct (CasTable.record_reader now p h s ct).
Proof.
  intros Hok. eapply sim_one; [exact Hok|]. unfold abs. cbn. rewrite fmap_insert. constructor.
Qed.

Lemma sim_ensure ok now p ct :
  ok (Protocol.Track p) → sim ok ct (CasTable.ensure_entry now p ct).
Proof.
  intros Hok. unfold CasTable.ensure_entry.
  destruct (CasTable.entries ct !! p) eqn:E; [reflexivity|].
  eapply sim_one; [exact Hok|]. unfold abs. cbn. rewrite fmap_insert. constructor.
  cbn. by rewrite lookup_fmap, E.
Qed.

Lemma sim_release ok p fh ct :
  ok (Protocol.Drop p fh) → sim ok ct (CasTable.release_write p fh ct).
Proof.
  intros Hok. unfold CasTable.release_write.
  destruct (CasTable.entries ct !! p) as [st|] eqn:E; [|reflexivity].
  case_decide as Hd; [|reflexivity].
  eapply sim_one; [exact Hok|]. unfold abs. cbn. rewrite fmap_insert. constructor.
  cbn. by rewrite lookup_fmap, E, <-Hd.
Qed.

Lemma sim_remove ok p ct : ok (Protocol.Forget p) → sim ok ct (CasTable.remove p ct).
Proof.
  intros Hok. eapply sim_one; [exact Hok|]. unfold abs. cbn.
  replace (r_hash <$> filter _ _) with
    (filter (λ e : Z * PathBuf * hash, e.1.2 ≠ p) (r_hash <$> CasTable.reader_hashes ct))
    by (by rewrite map_filter_fmap).
  rewrite fmap_delete. constructor.
Qed.

Lemma sim_rename `{DashMapIter} ok p q ct :
  ok (Protocol.Move p q) → sim ok ct (CasTable.rename p q ct).
Proof.
  intros Hok. eapply sim_one; [exact Hok|]. unfold abs.
  replace (write_owner <$> CasTable.entries (CasTable.rename p q ct)) with
    (match (write_owner <$> CasTable.entries ct) !! p with
     | Some o => <[q := o]> (delete p (write_owner <$> CasTable.entries ct))
     | None => write_owner <$> CasTable.entries ct
     end).
  - apply Protocol.step_move. intros s x. cbn [Protocol.receipts].
    rewrite !lookup_fmap, CasTable.rename_readers.
    destruct (CasTable.reader_hashes ct !! (s, p)); [|done]. cbn. by repeat case_decide.
  - apply map_eq. intros x. rewrite !lookup_fmap, CasTable.rename_entries.
    destruct (CasTable.entries ct !! p) as [st|]; cbn; [|by rewrite lookup_fmap].
    destruct (decide (x = q)) as [->|]; [by rewrite lookup_insert_eq|].
    rewrite lookup_insert_ne by done. rewrite lookup_delete. repeat case_decide; subst; try done.
    by rewrite lookup_fmap.
Qed.

Lemma sim_evict `{DashMapIter} `{Clocks} ok now d ct ct' :
  ok Protocol.Age → CasTable.evict_older_than now d ct = Some ct' → sim ok ct ct'.
Proof.
  intros Hok He. destruct (CasTable.evict_cutoff now d) as [c|] eqn:Hc;
    [|unfold CasTable.evict_older_than in He; by rewrite Hc in He].
  destruct (CasTable.evict_lookup now d ct ct' c Hc He) as [Hen Hre].
  eapply sim_one; [exact Hok|]. unfold abs. apply Protocol.step_age; cbn.
  - apply map_subseteq_spec. intros k h. rewrite !lookup_fmap, Hre. split_matches.
  - apply map_subseteq_spec. intros p o. rewrite !lookup_fmap, Hen. split_matches.
  - intros p fh. rewrite !lookup_fmap, Hen. destruct (CasTable.entries ct !! p) as [st|]; [|done].
    cbn. intros [= Hw]. rewrite decide_False; [by rewrite <-Hw|]. intros [? _]. congruence.
Qed.

(** What a check relies on: the handle's hash at open, else the receipt. *)
Definition relied (p : PathBuf) (fh s : Z) (handles : HandleTable.t) (ct : CasTable.t)
    : option hash :=
  handle ← HandleTable.get fh handles;
  match h_hash_at_open handle with
  | Some h => Some h
  | None => CasTable.get_reader_hash s p ct
  end.

Lemma relied_fresh p fh s handles actual ct :
  CasTable.fresh_view p fh s handles actual ct ↔
  relied p fh s handles ct = None ∨ relied p fh s handles ct = Some actual.
Proof.
  unfold CasTable.fresh_view, relied. destruct (HandleTable.get fh handles) as [h|]; cbn; [|tauto].
  destruct (h_hash_at_open h); cbn; [naive_solver|].
  destruct (CasTable.get_reader_hash s p ct); naive_solver.
Qed.

Lemma sim_check ok ne na p fh s handles actual ct r ct' :
  CasTable.check_and_acquire_write ne na p fh s handles actual ct = (r, ct') →
  ok (Protocol.Track p) →
  ok (Protocol.Claim s p fh (relied p fh s handles ct) actual) → sim ok ct ct'.
Proof.
  intros E Ht Hc. destruct (CasTable.check_unfold ne na p fh s handles actual ct)
    as (st&He&Hw&E'). rewrite E' in E. clear E'.
  etransitivity; [by apply (sim_ensure ok ne p)|].
  pose proof (CasTable.check_locked_ok na p fh s handles actual (CasTable.reader_hashes ct) st) as Hok.
  pose proof (CasTable.check_locked_owner na p fh s handles actual (CasTable.reader_hashes ct) st) as Ho.
  destruct (CasTable.check_locked _ _ _ _ _ _ _ _) as [res st']. simplify_eq. cbn [fst snd] in *.
  assert (abs (CasTable.mk (<[p := st']> (CasTable.entries (CasTable.ensure_entry ne p ct)))
                 (CasTable.reader_hashes ct)) =
    Protocol.mk (Protocol.receipts (abs (CasTable.ensure_entry ne p ct)))
      (<[p := write_owner st']> (Protocol.tracked (abs (CasTable.ensure_entry ne p ct))))) as Habs.
  { unfold abs. cbn. by rewrite fmap_insert, CasTable.ensure_entry_readers. }
  assert (Protocol.tracked (abs (CasTable.ensure_entry ne p ct)) !! p = Some (write_owner st)) as Hp.
  { cbn. by rewrite lookup_fmap, He. }
  destruct (decide (write_owner st' = write_owner st)) as [Heq|Hne].
  { apply sim_abs. rewrite Habs, Heq, insert_id by done. by destruct (abs _). }
  destruct res as [[]|e]; [|done]. destruct (proj1 Hok eq_refl) as [Hw'|[Hw' Hf]]; [congruence|].
  eapply sim_one; [exact Hc|]. rewrite Habs, Ho. constructor; [by rewrite Hp, Hw'|].
  by apply relied_fresh.
Qed.
End table.

(** ** The handlers *)

(** Peel the operations off the final table, one action each. *)
Ltac sim_go :=
  repeat match goal with
  | |- sim _ ?ct ?ct => reflexivity
  | E : CasTable.check_and_acquire_write _ _ _ _ _ _ _ ?c = (_, ?ct) |- sim _ ?c ?ct =>
      eapply sim_check; [exact E| |]
  | |- sim _ _ (CasTable.record_reader _ _ _ _ ?ct) => transitivity ct; [|apply sim_record]
  | |- sim _ _ (CasTable.update_reader _ _ _ _ ?ct) => transitivity ct; [|apply sim_record]
  | |- sim _ _ (CasTable.ensure_entry _ _ ?ct) => transitivity ct; [|apply sim_ensure]
  | |- sim _ _ (CasTable.release_write _ _ ?ct) => transitivity ct; [|apply sim_release]
  | |- sim _ _ (CasTable.remove _ ?ct) => transitivity ct; [|apply sim_remove]
  | |- sim _ _ (CasTable.rename _ _ ?ct) => transitivity ct; [|apply sim_rename]
  end.

Section handlers.
Context `{Posix} `{Digests} `{Clocks} `{Crates} `{DashMapIter} `{!PosixLaws}.

(** The hash a write or a creation works with: that of the file, or nothing. *)
Definition hash_or_empty (o : os) (full : PathBuf) : hash :=
  default [] (r ← hash_file o full; result_ok r).

(** The actions a request may take, given the worlds before and after it. *)
Definition may (r : Request) (w w' : World) (a : Protocol.action) : Prop :=
  let d := w_fs w in
  let open_handle fh hd := HandleTable.get fh (file_handles d) = Some hd in
  match r, a with
  | ReqOpen _ ino flags, Protocol.Track p =>
      InodeTable.get_path ino (inodes d) = Some p ∧ Z.land flags O_ACCMODE ≠ O_RDONLY
  | ReqOpen pid ino flags, Protocol.See s p h =>
      InodeTable.get_path ino (inodes d) = Some p ∧ s = session pid (w_os w) ∧
      hash_file (if Z.land flags O_ACCMODE =? O_RDONLY then w_os w' else w_os w)
        (backing_path d p) = Some (Ok h)
  | ReqOpen pid ino flags, Protocol.Claim s p fh relies actual =>
      InodeTable.get_path ino (inodes d) = Some p ∧ s = session pid (w_os w) ∧
      Z.land flags O_ACCMODE ≠ O_RDONLY ∧
      fh = HandleTable.next_fh (file_handles d) ∧
      hash_file (w_os w) (backing_path d p) = Some (Ok actual) ∧
      relies = (if Z.land flags O_ACCMODE =? O_RDWR then Some actual
                else CasTable.get_reader_hash s p (cas_table d))
  | ReqCreate _ parent name _ _, Protocol.Track p => p = (resolve_path d parent name).1
  | ReqCreate pid parent name _ _, Protocol.See s p h =>
      p = (resolve_path d parent name).1 ∧ s = session pid (w_os w') ∧
      h = hash_or_empty (w_os w') (resolve_path d parent name).2
  | ReqWrite _ fh _ _, Protocol.Track p => ∃ hd, open_handle fh hd ∧ p = h_path hd
  | ReqWrite _ fh _ _, Protocol.Claim s p fh' relies actual =>
      fh' = fh ∧ actual = hash_or_empty (w_os w) (backing_path d p) ∧
      relies = relied p fh s (file_handles d) (cas_table d) ∧
      ∃ hd, open_handle fh hd ∧ p = h_path hd ∧ s = h_sid hd
  | ReqSetattr ino _ _ _ (Some _) _ _ (Some _) _, Protocol.Track p =>
      InodeTable.get_path ino (inodes d) = Some p
  | ReqSetattr ino _ _ _ (Some _) _ _ (Some fh) _, Protocol.Claim s p fh' relies actual =>
      fh' = fh ∧ actual = hash_or_empty (w_os w) (backing_path d p) ∧
      relies = relied p fh s (file_handles d) (cas_table d) ∧
      InodeTable.get_path ino (inodes d) = Some p ∧
      s = default 0 (h_sid <$> HandleTable.get fh (file_handles d))
  | ReqFlush _ fh, Protocol.See s p h =>
      hash_file (w_os w) (backing_path d p) = Some (Ok h) ∧
      ∃ hd, open_handle fh hd ∧ h_has_written hd = true ∧ p = h_path hd ∧ s = h_sid hd
  | ReqFlush _ fh, Protocol.Drop p fh' =>
      fh' = fh ∧ ∃ hd, open_handle fh hd ∧ h_has_written hd = true ∧ p = h_path hd
  | ReqRelease fh, Protocol.Drop p fh' => fh' = fh ∧ ∃ hd, open_handle fh hd ∧ p = h_path hd
  | ReqUnlink _ parent name, Protocol.Forget p => p = (resolve_path d parent name).1
  | ReqRename _ parent name newparent newname, Protocol.Move p q =>
      p = (resolve_path d parent name).1 ∧ q = (resolve_path d newparent newname).1
  | _, _ => False
  end.

Definition simulates (r : Request) (w w' : World) : Prop :=
  sim (may r w w') (cas_table (w_fs w)) (cas_table (w_fs w')).

Lemma hash_or_empty_eq o full r :
  hash_file o full = Some r → hash_or_empty o full = result_unwrap_or [] r.
Proof. unfold hash_or_empty. intros ->. by destruct r. Qed.

Lemma relied_new p s fd flags h ht ct :
  relied p (HandleTable.next_fh ht) s (HandleTable.alloc fd p flags h s ht).2 ct =
  match h with Some x => Some x | None => CasTable.get_reader_hash s p ct end.
Proof. unfold relied. by rewrite HandleTable.get_alloc_next. Qed.

Lemma handle_simulates r w : wp (handle r) (λ _ w', simulates r w w') w.
Proof.
  run_request r; unfold simulates; fs_proj; try reflexivity.
  all: try match goal with
    | |- wp (list_children _ _) _ _ =>
        apply (wp_list_children (λ w', cas_table (w_fs w') = cas_table (w_fs w)));
          [done..|intros es w' Hw'; cbn beta iota delta [cont]; wp_go; by rewrite Hw']
    end.
  all: sim_go; cbn beta iota zeta delta [may w_fs w_os].
  all: rewrite ?relied_new; repeat match goal with
       | E : hash_file ?o ?p = Some ?r |- _ =>
           lazymatch goal with
           | _ : hash_or_empty o p = _ |- _ => fail
           | _ => pose proof (hash_or_empty_eq o p r E)
           end
       | E : resolve_path _ _ _ = _ |- _ => rewrite E; clear E
       end.
  all: try solve [split_and?; eauto using eq_sym].
  all: unfold set_handles; cbn [file_handles]; rewrite ?relied_new; simplify_eq/=.
  all: repeat match goal with
       | E : result_ok ?r = Some _ |- _ => destruct r; simplify_eq/=
       | E : (Z.land _ _ =? _) = _ |- _ => rewrite ?E; apply Z.eqb_neq in E || clear E
       end.
  all: split_and?; eauto. by destruct (_ =? O_RDWR).
Qed.

(** What an event may do to the protocol's state. *)
Definition may_event (e : Event) (w w' : World) (a : Protocol.action) : Prop :=
  match e with
  | EvRequest r => may r w w' a
  | EvEvict _ => a = Protocol.Age
  | EvExternal _ => False
  end.

Lemma evict_simulates d w :
  wp (evict d) (λ _ w', sim (λ a, a = Protocol.Age) (cas_table (w_fs w)) (cas_table (w_fs w'))) w.
Proof.
  unfold evict. wp_go; fs_proj; [|reflexivity]. by eapply sim_evict.
Qed.

Lemma step_simulates w e w' :
  step w e w' → sim (may_event e w w') (cas_table (w_fs w)) (cas_table (w_fs w')).
Proof.
  intros [r _|d|o].
  - exact (handle_simulates r w).
  - exact (evict_simulates d w).
  - reflexivity.
Qed.

(** A run of the protocol that follows a run of the file system: each event with
    the actions it took. *)
Inductive follows : World → list Event → World → Protocol.state → list Protocol.action →
    Protocol.state → Prop :=
| follows_nil w : follows w [] w (abs (cas_table (w_fs w))) [] (abs (cas_table (w_fs w)))
| follows_cons w e w' es w'' st' l l' st'' :
    step w e w' → Forall (may_event e w w') l →
    Protocol.steps (abs (cas_table (w_fs w))) l st' →
    follows w' es w'' st' l' st'' →
    follows w (e :: es) w'' (abs (cas_table (w_fs w))) (l ++ l') st''.

Lemma trace_follows w es w' :
  trace w es w' →
  ∃ l, follows w es w' (abs (cas_table (w_fs w))) l (abs (cas_table (w_fs w'))).
Proof.
  induction 1 as [w|w e w' es w'' Hs _ [l' IH]]; [eexists; constructor|].
  destruct (step_simulates w e w' Hs) as (l&Hl&Hst). eexists. by econstructor.
Qed.

Lemma follows_steps w es w' st l st' : follows w es w' st l st' → Protocol.steps st l st'.
Proof. induction 1; [constructor|]. by eapply Protocol.steps_app. Qed.

(** C3. The running file system implements the protocol.  Every run, from mounting
    on and through any events, is matched by a run of the protocol from its empty
    state to the receipts and owners of the table at the end, in which every
    event takes only actions it may take: only opens, creations and flushes renew
    receipts, with the session of the process and the hash of the file; only an
    open for writing, a write or a truncation of an open file claims a path, for
    its handle, and only a free path on a view that is current; only a flush or
    release by the owner drops it; only unlinks forget a path, only renames move
    it; evictions never touch an owned path; nothing else changes anything. *)
Theorem runs_refine_protocol (cfg : DibsConfig) (o : os) (clk : nat) (es : list Event) (w : World)
    (Ht : trace (mounted cfg o clk) es w) :
  ∃ l, follows (mounted cfg o clk) es w Protocol.initial l (abs (cas_table (w_fs w))) ∧
       Protocol.steps Protocol.initial l (abs (cas_table (w_fs w))).
Proof.
  destruct (trace_follows _ _ _ Ht) as [l Hl]. exists l.
  change (abs (cas_table (w_fs (mounted cfg o clk)))) with Protocol.initial in Hl.
  split; [done|]. by eapply follows_steps.
Qed.

(** ** Ownership along runs *)

(** A request that can take the path [p] from the handle [fh]: a flush or release
    of the handle, an unlink of the path, a rename from or onto it. *)
Definition takes_from (p : PathBuf) (fh : Z) (r : Request) (w : World) : Prop :=
  match r with
  | ReqFlush _ fh' | ReqRelease fh' => fh' = fh
  | ReqUnlink _ parent name => (resolve_path (w_fs w) parent name).1 = p
  | ReqRename _ parent name newparent newname =>
      (resolve_path (w_fs w) parent name).1 = p ∨
      (resolve_path (w_fs w) newparent newname).1 = p
  | _ => False
  end.

(** Runs in which no request takes [p] from [fh]. *)
Inductive undisturbed (p : PathBuf) (fh : Z) : World → list Event → World → Prop :=
| undisturbed_nil w : undisturbed p fh w [] w
| undisturbed_cons w e w' es w'' :
    step w e w' → (∀ r, e = EvRequest r → ¬ takes_from p fh r w) →
    undisturbed p fh w' es w'' → undisturbed p fh w (e :: es) w''.

Lemma may_takes p fh e w w' a :
  may_event e w w' a → Protocol.takes p fh a → ∃ r, e = EvRequest r ∧ takes_from p fh r w.
Proof.
  destruct e as [r|d|o]; simpl; [|by intros ->|done].
  intros Hm Ht. exists r. split; [done|].
  destruct r, a; simpl in *; try done; try (by repeat case_match); intuition congruence.
Qed.

Lemma tracked_owner p fh ct :
  Protocol.tracked (abs ct) !! p = Some (Some fh) ↔ CasTable.owner p ct = Some fh.
Proof.
  unfold abs, CasTable.owner. cbn. rewrite lookup_fmap.
  destruct (CasTable.entries ct !! p); simpl; split; congruence.
Qed.

(** C4. An owner keeps its path.  Once a handle owns a path, it owns it after any
    run in which the handle is not flushed or released and the path is not
    unlinked, renamed or renamed over: no request of another handle or session,
    no eviction and no change behind dibs' back takes it away, and no other
    handle is accepted for it meanwhile. *)
Theorem owner_keeps_path (p : PathBuf) (fh : Z) (es : list Event) (w w' : World)
    (Hown : CasTable.owner p (cas_table (w_fs w)) = Some fh)
    (Hrun : undisturbed p fh w es w') :
  CasTable.owner p (cas_table (w_fs w')) = Some fh ∧
  ∀ ne na fh' s actual, fh' ≠ fh →
    (CasTable.check_and_acquire_write ne na p fh' s (file_handles (w_fs w')) actual
       (cas_table (w_fs w'))).1 ≠ Some (Ok tt).
Proof.
  assert (CasTable.owner p (cas_table (w_fs w')) = Some fh) as Ho.
  { revert Hown. rewrite <-!tracked_owner.
    induction Hrun as [|w e w1 es w2 Hs Hq _ IH]; [done|]. intros Hp. apply IH.
    destruct (step_simulates _ _ _ Hs) as (l&Hl&Hst).
    eapply Protocol.steps_keep_owner; [exact Hst| |done].
    intros a Ha Ht. rewrite Forall_forall in Hl.
    destruct (may_takes _ _ _ _ _ _ (Hl a Ha) Ht) as (r&Hr&Htk). by eapply Hq. }
  split; [done|]. intros ne na fh' s actual Hne. rewrite CasTable.check_ok_iff, Ho.
  naive_solver.
Qed.
End handlers.

Lemma runs_refine_protocol_witness :
  ∃ l, @follows mem_posix toy_digests tick_clocks plain_crates canonical_iter
         sample_mounted [EvRequest (ReqLookup 1 "f")] sample_world Protocol.initial l
         (abs (cas_table (w_fs sample_world))) ∧
       Protocol.steps Protocol.initial l (abs (cas_table (w_fs sample_world))).
Proof.
  exact (@runs_refine_protocol mem_posix toy_digests tick_clocks plain_crates canonical_iter
    mem_posix_laws sample_config (mem_with [("/b/f", "one")%string]) 0
    [EvRequest (ReqLookup 1 "f")] sample_world sample_trace).
Defined.

(** A writer, then an open by another session and an eviction of everything. *)
Definition sample_owned : @World mem_posix := (s_handle (ReqOpen 100 3 O_WRONLY) sample_world).2.

Definition sample_contended : @World mem_posix :=
  (@evict mem_posix tick_clocks canonical_iter 0
     (s_handle (ReqOpen 200 3 O_WRONLY) sample_owned).2).2.

Lemma owner_keeps_path_witness :
  CasTable.owner (parse "f") (cas_table (w_fs sample_contended)) = Some 1.
Proof.
  apply (@owner_keeps_path mem_posix toy_digests tick_clocks plain_crates canonical_iter
    mem_posix_laws (parse "f") 1 [EvRequest (ReqOpen 200 3 O_WRONLY); EvEvict 0] sample_owned
    sample_contended).
  - vm_compute. reflexivity.
  - apply (undisturbed_cons (parse "f") 1 _ _ (s_handle (ReqOpen 200 3 O_WRONLY) sample_owned).2);
      [apply step_request; exact I|intros r [= <-] []|].
    apply (undisturbed_cons (parse "f") 1 _ _ sample_contended);
      [apply step_evict|done|constructor].
Defined.
