(* ===== verification/FsTypes.v ===== *)
(** * FsTypes: replies of the right kind, in the range of their types

    The handlers of the source answer through reply objects whose types fix the
    kind of the answer and the width of its fields.  The model's handlers return
    a common type of replies and integers of [Z]; here they are shown to answer
    each request with its own kind of reply, every field in the range of the
    Rust type that holds it. *)
From S2P Require Import Prelude Paths Env Handles Inodes Passthrough Cas HashTable Config Fs.
From S2P Require Import FsLogic FsFile FsDir Sample FsTrace.

Local Open Scope Z_scope.

(** The values of a [w]-bit unsigned type. *)
Definition unsigned (w z : Z) : Prop := 0 <= z < 2 ^ w.

Lemma unsigned_wrap w z : 0 <= w → unsigned w (wrap_u w z).
Proof. apply wrap_u_range. Qed.

(** ** What the C and Rust types of the calls guarantee *)

Definition stat_typed (st : stat) : Prop :=
  unsigned 64 (st_ino st) ∧ unsigned 32 (st_uid st) ∧ unsigned 32 (st_gid st) ∧
  unsigned 32 (st_flags st).

Definition statfs_typed (st : statfs_t) : Prop :=
  Forall (unsigned 64) [f_blocks st; f_bfree st; f_bavail st; f_files st; f_ffree st].

(** Results fit their types; [pread] and [pwrite] return at most the number of
    bytes asked for. *)
Class PosixTypes `{Posix} := {
  lstat_typed : ∀ o p st, sys_lstat o p = Ok st → stat_typed st;
  fstat_typed : ∀ o fd st, sys_fstat o fd = Ok st → stat_typed st;
  statfs_fields_typed : ∀ o p st, sys_statfs o p = Ok st → statfs_typed st;
  getuid_typed : ∀ o, unsigned 32 (sys_getuid o);
  getgid_typed : ∀ o, unsigned 32 (sys_getgid o);
  pread_length : ∀ o fd size off data, 0 <= size →
    sys_pread o fd size off = Ok data → Z.of_nat (length data) <= size;
  pwrite_length : ∀ o fd data off n,
    (sys_pwrite o fd data off).1 = Ok n → 0 <= n <= Z.of_nat (length data)
}.

(** A Rust [String] has fewer than 2^63 bytes. *)
Class CratesTypes `{Crates} := {
  json_length : ∀ j, Z.of_nat (String.length (json_to_string j)) < 2 ^ 63;
  json_pretty_length : ∀ j s, json_to_string_pretty j = Ok s → Z.of_nat (String.length s) < 2 ^ 63
}.

(** ** Typed requests, replies and worlds *)

Definition attr_typed (a : FileAttr) : Prop :=
  unsigned 64 (a_ino a) ∧ unsigned 64 (a_size a) ∧ unsigned 64 (a_blocks a) ∧
  unsigned 16 (a_perm a) ∧
  Forall (unsigned 32) [a_nlink a; a_uid a; a_gid a; a_rdev a; a_blksize a; a_flags a].

Definition entry_typed (offset : Z) (e : DirEntry) : Prop :=
  unsigned 64 (de_ino e) ∧ offset < de_offset e.

Section types.
Context `{Posix} `{Digests} `{Clocks} `{Crates} `{DashMapIter}.

Definition request_typed (r : Request) : Prop :=
  match r with
  | ReqGetattr ino => unsigned 64 ino
  | ReqSetattr ino _ _ _ _ _ _ _ _ => unsigned 64 ino
  | ReqRead _ _ offset size => unsigned 64 offset ∧ unsigned 32 size
  | ReqReaddir _ ino offset => unsigned 64 ino ∧ unsigned 64 offset
  | _ => True
  end.

Definition reply_typed (r : Request) (x : Reply) : Prop :=
  match r, x with
  | _, RError _ => True
  | ReqLookup _ _, REntry _ a _ | ReqMkdir _ _ _, REntry _ a _
  | ReqSymlink _ _ _, REntry _ a _ => attr_typed a
  | ReqGetattr ino, RAttr _ a | ReqSetattr ino _ _ _ _ _ _ _ _, RAttr _ a =>
      attr_typed a ∧ a_ino a = ino
  | ReqOpen _ _ _, ROpened fh | ReqOpendir _, ROpened fh => unsigned 64 fh
  | ReqCreate _ _ _ _ _, RCreated _ a _ fh => attr_typed a ∧ unsigned 64 fh
  | ReqRead _ _ _ size, RData data => Z.of_nat (length data) <= size
  | ReqReadlink _, RData _ => True
  | ReqWrite _ _ _ data, RWritten n => unsigned 32 n ∧ n <= Z.of_nat (length data)
  | ReqReaddir _ _ offset, RDirectory es => Forall (entry_typed offset) es
  | ReqStatfs, RStatfs blocks bfree bavail files ffree bsize namelen frsize =>
      Forall (unsigned 64) [blocks; bfree; bavail; files; ffree] ∧
      Forall (unsigned 32) [bsize; namelen; frsize]
  | ReqFlush _ _, ROk | ReqRelease _, ROk | ReqReleasedir _, ROk | ReqUnlink _ _ _, ROk
  | ReqRmdir _ _, ROk | ReqRename _ _ _ _ _, ROk | ReqAccess _ _, ROk => True
  | _, _ => False
  end.

Definition inos_typed (it : InodeTable.t) : Prop :=
  ∀ p i, InodeTable.get_ino p it = Some i → unsigned 64 i.

(** The counters and registered inodes are 64-bit numbers. *)
Record world_typed (w : World) : Prop := {
  wt_fh : unsigned 64 (HandleTable.next_fh (file_handles (w_fs w)));
  wt_dir_fh : unsigned 64 (DirHandleTable.next_fh (dir_handles (w_fs w)));
  wt_inodes : inos_typed (inodes (w_fs w))
}.

(** A request ends with a typed reply in a typed world. *)
Definition answers_typed (r : Request) (e : exit Reply) (w : World) : Prop :=
  match e with
  | Val x | Return x => reply_typed r x
  | Stuck => False
  end ∧ world_typed w.

(** ** Attributes *)

Section laws.
Context `{!PosixLaws} `{!PosixTypes} `{!CratesTypes}.

Lemma attr_of_stat st a : stat_to_file_attr st = Some a → stat_typed st → attr_typed a.
Proof.
  unfold stat_to_file_attr. intros Ha (Hi&Hu&Hg&Hf). simplify_option_eq.
  unfold attr_typed. cbn. repeat split_and; try (by apply unsigned_wrap); [apply Hi|].
  repeat constructor; try (by apply unsigned_wrap); done || apply Hu || apply Hg || apply Hf.
Qed.

Lemma attr_of_lstat o p st a : lstat o p = Ok st → stat_to_file_attr st = Some a → attr_typed a.
Proof.
  intros Hl Ha. apply (attr_of_stat st); [done|]. unfold lstat in Hl.
  destruct (path_to_cstring p) as [c|]; [|done]. destruct (sys_lstat o c) eqn:E; simplify_eq.
  by eapply lstat_typed.
Qed.

Lemma attr_of_fstat o fd st a : fstat o fd = Ok st → stat_to_file_attr st = Some a → attr_typed a.
Proof.
  intros Hl Ha. apply (attr_of_stat st); [done|]. unfold fstat in Hl.
  destruct (sys_fstat o fd) eqn:E; simplify_eq. by eapply fstat_typed.
Qed.

Lemma attr_ino_typed a : attr_typed a → unsigned 64 (a_ino a).
Proof. by intros [? _]. Qed.

Lemma set_ino_typed ino a : unsigned 64 ino → attr_typed a → attr_typed (set_ino ino a).
Proof. intros Hi (_&Ha). by split. Qed.

(** ** The virtual files *)

Lemma dir_attr_typed o ino t1 t2 t3 t4 :
  unsigned 64 ino →
  attr_typed (mkAttr ino 0 0 t1 t2 t3 t4 Directory 365 2 (sys_getuid o) (sys_getgid o) 0 512 0).
Proof.
  intros Hi. pose proof (getuid_typed o) as Hu. pose proof (getgid_typed o) as Hg.
  unfold attr_typed. cbn. repeat split_and; try done.
  repeat (constructor; [first [done|exact Hu|exact Hg]|]). constructor.
Qed.

Lemma file_attr_typed o ino size t1 t2 t3 t4 :
  unsigned 64 ino → 0 <= size < 2 ^ 63 →
  attr_typed (mkAttr ino size ((size + 511) / 512) t1 t2 t3 t4 RegularFile 292 1
                (sys_getuid o) (sys_getgid o) 0 512 0).
Proof.
  intros Hi Hs. pose proof (getuid_typed o) as Hu. pose proof (getgid_typed o) as Hg.
  unfold attr_typed. cbn. repeat split_and; try done.
  - unfold unsigned. lia.
  - unfold unsigned. split; [apply Z.div_pos; lia|]. apply Z.div_lt_upper_bound; lia.
  - repeat (constructor; [first [done|exact Hu|exact Hg]|]). constructor.
Qed.

Lemma json_size_typed j : 0 <= Z.of_nat (String.length (json_to_string j)) < 2 ^ 63.
Proof. pose proof (json_length j). lia. Qed.

Lemma locks_size_typed j :
  0 <= Z.of_nat (String.length (result_unwrap_or "[]" (json_to_string_pretty j))) < 2 ^ 63.
Proof.
  destruct (json_to_string_pretty j) as [s|] eqn:E; simpl; [|lia].
  apply json_pretty_length in E. lia.
Qed.

Lemma read_virtual_length content offset size data :
  0 <= size → read_virtual content offset size = RData data → Z.of_nat (length data) <= size.
Proof.
  unfold read_virtual. intros Hs. case_match; intros [= <-]; [done|].
  rewrite length_take. lia.
Qed.

Lemma read_virtual_shape content offset size :
  0 <= size → ∃ data, read_virtual content offset size = RData data ∧ Z.of_nat (length data) <= size.
Proof.
  intros Hs. destruct (read_virtual content offset size) eqn:E;
    try (unfold read_virtual in E; by case_match). eexists. split; [done|].
  by eapply read_virtual_length.
Qed.

(** ** Tables *)

Lemma inos_subset it it' :
  InodeTable.path_to_ino it' ⊆ InodeTable.path_to_ino it → inos_typed it → inos_typed it'.
Proof. intros Hs Hi p i Hp. apply (Hi p). unfold InodeTable.get_ino. by eapply lookup_weaken. Qed.

Lemma inos_insert ino p it : unsigned 64 ino → inos_typed it → inos_typed (InodeTable.insert ino p it).
Proof.
  intros Hino Hi q i. unfold InodeTable.get_ino, InodeTable.insert. simpl.
  intros [[_ <-]|[_ Hq]]%lookup_insert_Some; [done|]. revert q i Hq.
  change (inos_typed (InodeTable.forget_path ino p (InodeTable.forget_ino ino it))).
  eapply inos_subset; [|exact Hi]. unfold InodeTable.forget_path, InodeTable.forget_ino.
  repeat case_match; simpl; rewrite ?delete_subseteq; done.
Qed.

Lemma inos_insert_root p it : inos_typed it → inos_typed (InodeTable.insert 1 p it).
Proof. by apply inos_insert. Qed.

Lemma inos_remove p it : inos_typed it → inos_typed (InodeTable.remove_by_path p it).
Proof.
  apply inos_subset. unfold InodeTable.remove_by_path. case_match; [|done]. apply delete_subseteq.
Qed.

Lemma inos_rename p q it : inos_typed it → inos_typed (InodeTable.rename p q it).
Proof.
  intros Hi. unfold InodeTable.rename. destruct (InodeTable.path_to_ino it !! p) as [j|] eqn:E; [|done].
  intros x i. unfold InodeTable.get_ino. simpl.
  intros [[_ <-]|[_ [_ Hx]%lookup_delete_Some]]%lookup_insert_Some; [by apply (Hi p)|by apply (Hi x)].
Qed.
End laws.
End types.

#[export] Hint Resolve inos_insert inos_insert_root inos_remove inos_rename attr_ino_typed set_ino_typed
  json_size_typed locks_size_typed : dibs.

(** ** The handlers *)

(** Exits with an error, [ROk] or a handle number. *)
Ltac typed_world := split; fs_proj; eauto with dibs; first [done|by apply unsigned_wrap].

Ltac typed_exit :=
  solve [split; [first [exact I|assumption]|typed_world]].

(** The attributes converted on the way are typed. *)
Ltac show_typed_attrs :=
  repeat match goal with
  | Ha : stat_to_file_attr _ = Some ?a |- _ =>
      lazymatch goal with _ : attr_typed a |- _ => fail | _ => idtac end;
      assert (attr_typed a) by
        (first [eapply attr_of_lstat; eassumption|eapply attr_of_fstat; eassumption])
  end.

(** A reply carrying attributes. *)
Ltac typed_reply :=
  cbn beta iota delta [reply_typed];
  first [assumption
        |apply set_ino_typed; [done|assumption]
        |split; [apply set_ino_typed; [done|assumption]|done]
        |split; [solve [eauto with dibs]|first [done|assumption]]
        |apply dir_attr_typed; done
        |apply file_attr_typed; [done|auto with dibs]
        |split; [apply dir_attr_typed; done|done]
        |split; [apply file_attr_typed; [done|auto with dibs]|done]].

Section handlers.
Context `{Posix} `{Digests} `{Clocks} `{Crates} `{DashMapIter}.
Context `{!PosixLaws} `{!PosixTypes} `{!CratesTypes}.

Definition raw_typed (e : raw_entry) : Prop := unsigned 64 e.1.1.

Lemma add_entries_typed full i es acc offset :
  offset <= i → Forall raw_typed es → Forall (entry_typed offset) acc →
  Forall (entry_typed offset) (add_entries full i es acc).
Proof.
  intros Hi Hes. revert i acc Hi. induction Hes as [|[[ino kind] name] es He _ IH];
    intros i acc Hi Hacc; cbn [add_entries]; [done|].
  case_match; [done|]. apply IH; [lia|]. apply Forall_app. split; [done|].
  constructor; [|constructor]. split; [exact He|simpl; lia].
Qed.

Lemma reply_entries_typed full ino offset es :
  Forall raw_typed es → reply_typed (ReqReaddir full ino offset) (reply_entries full offset es).
Proof. intros Hes. apply add_entries_typed; [lia|by apply Forall_drop|constructor]. Qed.

Lemma list_children_typed rel names w :
  world_typed w →
  wp (list_children rel names) (λ e w', world_typed w' ∧
    match e with Val es => Forall raw_typed es | _ => False end) w.
Proof.
  revert w. induction names as [|[raw|e] names IH]; intros w Hw; cbn [list_children].
  - apply wp_ret. done.
  - wp_prim; [by apply IH|]. wp_run; [|by apply IH].
    eapply wp_mono; [apply IH|].
    + destruct Hw. split; fs_proj; try done. apply inos_insert; [|done].
      by eapply attr_ino_typed, attr_of_lstat.
    + intros [es| |] w' [Hw' Hes]; cbn [cont]; [|done|done]. wp_run. split; [done|].
      constructor; [|done]. by eapply attr_ino_typed, attr_of_lstat.
  - by apply IH.
Qed.

Lemma parent_ino_typed w ino rel :
  world_typed w → unsigned 64 (parent_ino (w_fs w) ino rel).
Proof.
  intros [_ _ Hi]. unfold parent_ino. case_match; [done|]. case_match; [done|].
  destruct (InodeTable.get_ino _ _) eqn:E; [by eapply Hi|done].
Qed.

Lemma read_virtual_typed content ino fh offset size :
  0 <= size → reply_typed (ReqRead ino fh offset size) (read_virtual content offset size).
Proof.
  intros Hs. destruct (read_virtual_shape content offset size Hs) as (d&->&Hd). exact Hd.
Qed.

Lemma pwrite_typed ino fh offset data o fd off n :
  (sys_pwrite o fd data off).1 = Ok n →
  reply_typed (ReqWrite ino fh offset data) (RWritten (as_u32 n)).
Proof.
  intros Hn%pwrite_length. split; [by apply unsigned_wrap|].
  assert (as_u32 n <= n) by (apply Z.mod_le; lia). lia.
Qed.

Lemma statfs_reply_typed o p st :
  sys_statfs o p = Ok st →
  reply_typed ReqStatfs (RStatfs (f_blocks st) (f_bfree st) (f_bavail st) (f_files st) (f_ffree st)
    (as_u32 (f_bsize st)) 255 (as_u32 (f_bsize st))).
Proof.
  intros Hs. split; [by eapply statfs_fields_typed|].
  repeat constructor; first [done|by apply unsigned_wrap|apply wrap_u_range; done].
Qed.

Lemma handle_typed r w :
  request_typed r → world_typed w → wp (handle r) (answers_typed r) w.
Proof.
  intros Hr [Hfh Hdfh Hino].
  assert (∀ f : Z, unsigned 64 (as_u64 f)) as Hwrap by (intros; by apply unsigned_wrap).
  run_request r; try typed_exit.
  all: simplify_eq; repeat match goal with E : (_ =? _) = true |- _ => apply Z.eqb_eq in E end.
  all: show_typed_attrs; try (split; [solve [subst; typed_reply]|typed_world]).
  1-2: (split; [|typed_world]); by apply (read_virtual_typed _ ino fh); destruct Hr as [_ [? _]].
  - split; [|typed_world]. by eapply pread_length; [apply Hr|].
  - split; [|typed_world]. by eapply pwrite_typed.
  - split; [|typed_world]. by eapply pwrite_typed.
  - split; [|typed_world]. apply reply_entries_typed. repeat constructor; done.
  - split; [|typed_world]. apply reply_entries_typed. repeat constructor; done.
  - eapply wp_mono; [by apply list_children_typed|].
    intros [es| |] w' [Hw' Hes]; cbn [cont]; [|done|done]. apply wp_ret. split; [|done].
    apply reply_entries_typed. constructor; [apply Hr|].
    constructor; [by apply parent_ino_typed|]. apply Forall_app. split; [|done].
    case_match; repeat constructor; done.
  - split; [|typed_world]. by eapply statfs_reply_typed.
Qed.
End handlers.

(** ** Runs *)

Section runs.
Context `{Posix} `{Digests} `{Clocks} `{Crates} `{DashMapIter}.
Context `{!PosixLaws} `{!PosixTypes} `{!CratesTypes}.

Definition event_typed (e : Event) : Prop :=
  match e with EvRequest r => request_typed r | _ => True end.

Lemma mounted_typed cfg o clk : world_typed (mounted cfg o clk).
Proof.
  split; [done|done|]. apply inos_insert; [done|]. intros p i.
  unfold InodeTable.get_ino. simpl. by rewrite lookup_empty.
Qed.

Lemma evict_typed d w : world_typed w → world_typed (evict d w).2.
Proof.
  intros []. assert (wp (evict d) (λ _ w', world_typed w') w) as Hw; [|exact Hw].
  unfold evict. wp_go; split; fs_proj; done.
Qed.

Lemma step_typed w e w' : event_typed e → world_typed w → step w e w' → world_typed w'.
Proof.
  intros He Hw Hs. destruct Hs as [r _|d|o].
  - by destruct (handle_typed r w He Hw).
  - by apply evict_typed.
  - by destruct Hw.
Qed.

Lemma trace_typed w es w' : Forall event_typed es → world_typed w → trace w es w' → world_typed w'.
Proof.
  intros Hes Hw Ht. revert Hes Hw. induction Ht as [|w e w' es w'' Hs _ IH]; [done|].
  intros [He Hes]%Forall_cons Hw. apply IH; [done|]. by eapply step_typed.
Qed.

(** C12. Replies are well typed.  After any run of requests with arguments in the
    range of their types, from mounting on, every further such request is
    answered with the kind of reply its FUSE reply object allows (an entry for
    a lookup, a handle for an open, data for a read, and so on, or an error),
    and every field is in the range of its Rust type: attributes, also those of
    the virtual files, inode and handle numbers, counts of a file system; data
    is no longer than asked for, no more bytes are reported as written than were
    sent, directory entries carry offsets past the one asked for, and the
    attributes of [getattr] and [setattr] carry the inode number asked about. *)
Theorem replies_well_typed (cfg : DibsConfig) (o : os) (clk : nat) (es : list Event) (w : World)
    (r : Request) (Hes : Forall event_typed es) (Ht : trace (mounted cfg o clk) es w)
    (Hr : request_typed r) :
  ∃ x, ((handle r w).1 = Val x ∨ (handle r w).1 = Return x) ∧ reply_typed r x.
Proof.
  destruct (handle_typed r w Hr (trace_typed _ _ _ Hes (mounted_typed cfg o clk) Ht)) as [Hx _].
  destruct (handle r w).1 as [x|x|]; [eauto..|done].
Qed.
End runs.

(** ** The concrete file system is typed *)

Lemma mem_stat_typed i n : stat_typed (mem_stat i n).
Proof. repeat split; try done; apply wrap_u_range; done. Qed.

Lemma mem_posix_types : @PosixTypes mem_posix.
Proof.
  split; simpl; try done.
  - intros o p st. unfold mem_lstat. destruct (mem_lookup o p) as [[i n]|]; [|done].
    intros [= <-]. apply mem_stat_typed.
  - intros o fd st. unfold mem_fstat. destruct (m_fds o !! fd) as [i|]; [|done].
    destruct (m_nodes o !! i); [|done]. intros [= <-]. apply mem_stat_typed.
  - intros o p st [= <-]. by repeat constructor.
  - intros o fd size off data Hs. unfold mem_pread.
    destruct (mem_fd_file o fd) as [[]|]; [|done]. intros [= <-]. rewrite length_take. lia.
  - intros o fd data off n. unfold mem_pwrite.
    destruct (mem_fd_file o fd) as [[]|]; [|done]. intros [= <-]. lia.
Qed.

Lemma substring_length n s : (String.length (String.substring 0 n s) <= n)%nat.
Proof.
  revert s. induction n as [|n IH]; intros s; destruct s; simpl; try lia.
  specialize (IH s). lia.
Qed.

Lemma plain_crates_types : @CratesTypes plain_crates.
Proof.
  split; simpl.
  - intros j. pose proof (substring_length 4096
      (match j with JObj l => String.concat "," (l.*1) | _ => "" end)). lia.
  - intros j s [= <-]. pose proof (substring_length 4096
      (match j with JArr l => pretty (length l) | _ => "" end)). lia.
Qed.

Lemma replies_well_typed_witness :
  ∃ x, ((s_handle (ReqGetattr 3) sample_world).1 = Val x ∨
        (s_handle (ReqGetattr 3) sample_world).1 = Return x) ∧ reply_typed (ReqGetattr 3) x.
Proof.
  apply (@replies_well_typed mem_posix toy_digests tick_clocks plain_crates canonical_iter
    mem_posix_laws mem_posix_types plain_crates_types sample_config
    (mem_with [("/b/f", "one")%string]) 0 [EvRequest (ReqLookup 1 "f")] sample_world).
  - by repeat constructor.
  - exact sample_trace.
  - split; [discriminate|reflexivity].
Defined.
