(* ===== verification/FsEquiv.v ===== *)
(** * FsEquiv: the iteration order of the concurrent maps does not matter

    [DashMap] does not specify the order in which it yields its entries, and the
    code iterates over its tables when it renames a path, evicts idle entries
    and reports the state.  The model leaves the order open ([DashMapIter]);
    here any two orders are shown to be indistinguishable, but for the order of
    the lines of the virtual file that lists the table. *)
From S2P Require Import Prelude Paths Env Handles Inodes Passthrough Cas HashTable Config Fs.
From S2P Require Import FsLogic FsFile FsDir Sample FsTrace.

Local Open Scope Z_scope.

Section two_orders.
Context `{Posix} `{Digests} `{Clocks} `{Crates}.
Variables I J : DashMapIter.

(** ** Tables *)

Lemma table_eq (ct ct' : CasTable.t) :
  (∀ p, CasTable.entries ct !! p = CasTable.entries ct' !! p) →
  (∀ k, CasTable.reader_hashes ct !! k = CasTable.reader_hashes ct' !! k) → ct = ct'.
Proof. destruct ct, ct'; simpl. intros He Hr. f_equal; by apply map_eq. Qed.

Lemma rename_order p q ct : @CasTable.rename I p q ct = @CasTable.rename J p q ct.
Proof.
  apply table_eq; [intros x|intros [s x]].
  - by rewrite !CasTable.rename_entries.
  - by rewrite !CasTable.rename_readers.
Qed.

Lemma evict_order now d ct :
  @CasTable.evict_older_than I _ now d ct = @CasTable.evict_older_than J _ now d ct.
Proof.
  destruct (CasTable.evict_cutoff now d) as [c|] eqn:Hc;
    [|unfold CasTable.evict_older_than; by rewrite Hc].
  unfold CasTable.evict_older_than. rewrite Hc. cbn. f_equal.
  apply table_eq; [intros p|done]. cbn. rewrite !lookup_delete_all.
  assert ((p ∈ @CasTable.to_evict I c (CasTable.entries ct)) ↔
          (p ∈ @CasTable.to_evict J c (CasTable.entries ct))) as Hp
    by by rewrite !CasTable.elem_of_to_evict.
  repeat case_decide; tauto.
Qed.

Lemma active_writers_order ct : @CasTable.active_writers I ct = @CasTable.active_writers J ct.
Proof. by rewrite !CasTable.active_writers_size. Qed.

Lemma all_entries_order ct : @CasTable.all_entries I _ ct ≡ₚ @CasTable.all_entries J _ ct.
Proof.
  unfold CasTable.all_entries. apply fmap_Permutation.
  by rewrite (@dash_iter_perm I), (@dash_iter_perm J).
Qed.

(** ** Handlers *)

Lemma bind_ext {A B} (m m' : M A) (f f' : A → M B) w :
  m w = m' w → (∀ a w', f a w' = f' a w') → (m ≫= f) w = (m' ≫= f') w.
Proof. intros Hm Hf. unfold mbind, M_bind. rewrite Hm. by destruct (m' w) as [[]]. Qed.

Lemma status_order w : @status_json _ _ _ I w = @status_json _ _ _ J w.
Proof.
  unfold status_json. rewrite !get_fs_bind. apply bind_ext; [done|]. intros now w'.
  by rewrite active_writers_order.
Qed.

(** Requests whose answer shows the list of entries. *)
Definition reads_locks (r : Request) : bool :=
  match r with
  | ReqLookup parent name => (parent =? DIBS_DIR_INO) && String.eqb name DIBS_LOCKS_NAME
  | ReqGetattr ino | ReqRead ino _ _ _ => ino =? DIBS_LOCKS_INO
  | _ => false
  end.

Abbreviation handle_in I := (@handle _ _ _ _ I).

Lemma lookup_order parent name w :
  reads_locks (ReqLookup parent name) = false →
  @lookup _ _ _ I parent name w = @lookup _ _ _ J parent name w.
Proof.
  cbn [reads_locks]. unfold lookup. intros Hr. case_match; [done|].
  case_match; [|done]. cbn [andb] in Hr. rewrite Hr.
  case_match; [|done]. apply bind_ext; [apply status_order|done].
Qed.

Lemma getattr_order ino w :
  reads_locks (ReqGetattr ino) = false → @getattr _ _ _ I ino w = @getattr _ _ _ J ino w.
Proof.
  cbn [reads_locks]. unfold getattr. intros Hr. rewrite !get_fs_bind, Hr.
  do 2 (case_match; [done|]). case_match; [|done]. apply bind_ext; [apply status_order|done].
Qed.

Lemma read_order ino fh offset size w :
  reads_locks (ReqRead ino fh offset size) = false →
  @read _ _ _ I ino fh offset size w = @read _ _ _ J ino fh offset size w.
Proof.
  cbn [reads_locks]. unfold read. intros Hr. rewrite Hr.
  case_match; [|done]. apply bind_ext; [apply status_order|done].
Qed.

Lemma rename_handler_order pid parent name newparent newname w :
  @rename _ _ _ I pid parent name newparent newname w =
  @rename _ _ _ J pid parent name newparent newname w.
Proof.
  unfold rename. case_match; [done|]. rewrite !get_fs_bind.
  destruct (resolve_path (w_fs w) parent name) as [p fp].
  destruct (resolve_path (w_fs w) newparent newname) as [q fq].
  repeat (apply bind_ext; [done|]; intros ? ?).
  apply bind_ext; [|done]. unfold modify_fs, set_cas. by rewrite rename_order.
Qed.

Lemma handle_order r w :
  reads_locks r = false → handle_in I r w = handle_in J r w.
Proof.
  intros Hr. destruct r; cbn [handle]; try reflexivity.
  - by apply lookup_order.
  - by apply getattr_order.
  - by apply read_order.
  - by apply rename_handler_order.
Qed.

(** Reading the list changes nothing but the number of clock readings. *)
Lemma handle_order_world r w : (handle_in I r w).2 = (handle_in J r w).2.
Proof.
  destruct (reads_locks r) eqn:Hr; [|by rewrite handle_order].
  destruct r; try discriminate; cbn [handle reads_locks] in *.
  - apply andb_prop in Hr as [Hp Hn]. apply Z.eqb_eq in Hp as ->.
    apply String.eqb_eq in Hn as ->. reflexivity.
  - apply Z.eqb_eq in Hr as ->. reflexivity.
  - apply Z.eqb_eq in Hr as ->. reflexivity.
Qed.

Lemma evict_handler_order d w : @evict _ _ I d w = @evict _ _ J d w.
Proof.
  unfold evict. apply bind_ext; [done|]. intros now w1. rewrite !get_fs_bind.
  by rewrite evict_order.
Qed.

Lemma trace_order w es w' : @trace _ _ _ _ I w es w' → @trace _ _ _ _ J w es w'.
Proof.
  induction 1 as [|w e w' es w'' Hs _ IH]; [constructor|]. econstructor; [|exact IH].
  destruct Hs as [r Hv|d|o].
  - rewrite handle_order_world. by constructor.
  - rewrite evict_handler_order. constructor.
  - constructor.
Qed.
End two_orders.

(** C18. The iteration order of the concurrent maps does not matter.  Whatever two
    orders are used, every run under one is a run under the other, through the
    same worlds, and every request is answered the same in both, except for
    those that show the virtual file listing the table, where the lists have the
    same entries in another order. *)
Theorem iteration_order_irrelevant `{Posix} `{Digests} `{Clocks} `{Crates} (I J : DashMapIter)
    (w : World) (es : list Event) (w' : World) :
  (@trace _ _ _ _ I w es w' ↔ @trace _ _ _ _ J w es w') ∧
  (∀ r, reads_locks r = false → (@handle _ _ _ _ I r w') = (@handle _ _ _ _ J r w')) ∧
  @CasTable.all_entries I _ (cas_table (w_fs w')) ≡ₚ @CasTable.all_entries J _ (cas_table (w_fs w')).
Proof.
  split; [split; apply trace_order|]. split; [|apply all_entries_order].
  intros r. apply handle_order.
Qed.

(** The opposite of the order the evaluations use. *)
Definition reverse_iter : DashMapIter.
Proof.
  refine {| dash_iter := λ K V _ _ m, reverse (map_to_list m) |}.
  intros. apply reverse_Permutation.
Defined.

Lemma iteration_order_irrelevant_witness :
  @trace mem_posix toy_digests tick_clocks plain_crates reverse_iter
    sample_mounted [EvRequest (ReqLookup 1 "f")] sample_world ∧
  s_handle (ReqGetattr 3) sample_world =
    @handle mem_posix toy_digests tick_clocks plain_crates reverse_iter (ReqGetattr 3) sample_world.
Proof.
  destruct (@iteration_order_irrelevant mem_posix toy_digests tick_clocks plain_crates canonical_iter
    reverse_iter sample_mounted [EvRequest (ReqLookup 1 "f")] sample_world) as [Ht [Hr _]].
  split; [apply Ht, sample_trace|apply Hr; reflexivity].
Defined.
