(* ===== verification/FsOwners.v ===== *)
(** * FsOwners: owners are open handles

    Along runs without renames, in which a truncation through a handle names the
    file the handle was opened on, the owner of a path is an open handle of that
    path: ownership is never left behind by a handle that was released.  Both
    conditions are needed: FsLimits has a run for each that breaks the claim. *)
From S2P Require Import Prelude Paths Env Handles Inodes Passthrough Cas HashTable Config Fs.
From S2P Require Import FsLogic FsFile FsDir FsTrace Sample.

Local Open Scope Z_scope.

(** Every owner is an open handle of the path it owns. *)
Definition live (ht : HandleTable.t) (ct : CasTable.t) : Prop :=
  ∀ p fh, CasTable.owner p ct = Some fh →
    ∃ h, HandleTable.get fh ht = Some h ∧ h_path h = p.

Section live.
Implicit Types (ht : HandleTable.t) (ct : CasTable.t).

Lemma live_new ht : live ht CasTable.new.
Proof. intros p fh. unfold CasTable.owner. simpl. by rewrite lookup_empty. Qed.

Lemma live_same_owners ht ct ct' :
  (∀ p, CasTable.owner p ct' = CasTable.owner p ct) → live ht ct → live ht ct'.
Proof. intros Ho Hl p fh. rewrite Ho. apply Hl. Qed.

Lemma live_record ht now path hash sid ct :
  live ht ct → live ht (CasTable.record_reader now path hash sid ct).
Proof. by apply live_same_owners. Qed.

Lemma live_update ht now sid path hash ct :
  live ht ct → live ht (CasTable.update_reader now sid path hash ct).
Proof. by apply live_same_owners. Qed.

Lemma live_ensure ht now path ct : live ht ct → live ht (CasTable.ensure_entry now path ct).
Proof. apply live_same_owners. intros p. apply CasTable.ensure_entry_owner. Qed.

Lemma live_remove_path ht path ct : live ht ct → live ht (CasTable.remove path ct).
Proof.
  intros Hl p fh. rewrite (proj2 (CasTable.remove_lookup path ct 0 p)). case_decide; [done|].
  apply Hl.
Qed.

Lemma live_release_path ht path fh ct : live ht ct → live ht (CasTable.release_write path fh ct).
Proof. intros Hl p f. rewrite CasTable.release_owner. case_decide; [done|apply Hl]. Qed.

Lemma live_alloc ht ct fd p flags hash sid :
  HandleTable.wf ht → live ht ct → live (HandleTable.alloc fd p flags hash sid ht).2 ct.
Proof.
  intros Hwf Hl q fh (h&Hh&<-)%Hl. exists h. split; [|done].
  rewrite HandleTable.get_alloc_ne; [done|]. intros ->.
  pose proof (HandleTable.alloc_fresh ht fd p flags hash sid Hwf) as Hf. simpl in Hf. congruence.
Qed.

Lemma live_get_mut ht ct fh f :
  (∀ h, h_path (f h) = h_path h) → live ht ct → live (HandleTable.get_mut fh f ht) ct.
Proof.
  intros Hf Hl q g (h&Hh&<-)%Hl. rewrite HandleTable.get_get_mut. case_decide; subst.
  - exists (f h). by rewrite Hh.
  - by exists h.
Qed.

(** Releasing a handle together with the path it was opened under. *)
Lemma live_release ht ct fh h :
  HandleTable.get fh ht = Some h → live ht ct →
  live (HandleTable.remove fh ht).2 (CasTable.release_write (h_path h) fh ct).
Proof.
  intros Hh Hl q g. rewrite CasTable.release_owner. case_decide as Hd; [done|]. intros Hg.
  destruct (Hl q g Hg) as (h'&Hh'&<-). rewrite HandleTable.get_remove. case_decide; subst.
  - simplify_eq. destruct Hd. done.
  - by exists h'.
Qed.

Lemma live_remove_unknown ht ct fh :
  HandleTable.get fh ht = None → live ht ct → live (HandleTable.remove fh ht).2 ct.
Proof.
  intros Hn Hl q g (h&Hh&<-)%Hl. rewrite HandleTable.get_remove. case_decide; subst;
    [congruence|by exists h].
Qed.

Lemma live_check ne na path fh sid handles actual ht h ct r ct' :
  CasTable.check_and_acquire_write ne na path fh sid handles actual ct = (r, ct') →
  HandleTable.get fh ht = Some h → h_path h = path → live ht ct → live ht ct'.
Proof.
  intros E Hh Hp Hl q g.
  pose proof (CasTable.check_owner ne na path fh sid handles actual ct) as Ho.
  pose proof (CasTable.check_owner_ne ne na path fh sid handles actual ct q) as Hne.
  rewrite E in Ho, Hne. simpl in *. destruct (decide (q = path)) as [->|Hq].
  - rewrite Ho. destruct r as [[[]|]|]; [intros [= <-]; eauto|apply Hl..].
  - rewrite Hne by done. apply Hl.
Qed.

(** A refused open: the handle just allocated is taken back. *)
Lemma live_refused ne na p sid actual ht fd flags hash ct e ct' :
  HandleTable.wf ht → live ht ct →
  CasTable.check_and_acquire_write ne na p (HandleTable.next_fh ht) sid
    (HandleTable.alloc fd p flags hash sid ht).2 actual ct = (Some (Err e), ct') →
  live (HandleTable.remove (HandleTable.next_fh ht)
          (HandleTable.alloc fd p flags hash sid ht).2).2 ct'.
Proof.
  intros Hwf Hl E q g.
  pose proof (CasTable.check_owner ne na p (HandleTable.next_fh ht) sid
    (HandleTable.alloc fd p flags hash sid ht).2 actual ct) as Ho.
  pose proof (CasTable.check_owner_ne ne na p (HandleTable.next_fh ht) sid
    (HandleTable.alloc fd p flags hash sid ht).2 actual ct q) as Hne.
  rewrite E in Ho, Hne. cbn [fst snd] in *.
  assert (CasTable.owner q ct' = CasTable.owner q ct) as ->.
  { destruct (decide (q = p)) as [->|]; [done|by apply Hne]. }
  intros (h&Hh&<-)%Hl. exists h. split; [|done].
  assert (g ≠ HandleTable.next_fh ht).
  { intros ->. pose proof (HandleTable.wf_lt ht _ Hwf (mk_is_Some _ _ Hh)). lia. }
  by rewrite HandleTable.get_remove, decide_False, HandleTable.get_alloc_ne.
Qed.
End live.

#[export] Hint Resolve live_new live_record live_update live_ensure live_remove_path
  live_release_path live_alloc live_release live_remove_unknown live_refused : dibs.
#[export] Hint Extern 2 (live (HandleTable.get_mut _ _ _) _) => apply live_get_mut; [done|] : dibs.
#[export] Hint Extern 3 (live _ ?ct) =>
  match goal with
  | E : CasTable.check_and_acquire_write _ _ _ _ _ _ _ _ = (_, ct) |- _ =>
      eapply (live_check _ _ _ _ _ _ _ _ _ _ _ _ E);
        [first [apply HandleTable.get_alloc_next|eassumption]|done|]
  end : dibs.

Section runs.
Context `{Posix} `{Digests} `{Clocks} `{Crates} `{DashMapIter} `{!PosixLaws}.

(** Not a rename; and a truncation that passes a handle passes an open handle,
    and its inode is registered under the path that handle was opened under. *)
Definition tame_request (r : Request) (w : World) : Prop :=
  match r with
  | ReqRename _ _ _ _ _ => False
  | ReqSetattr ino _ _ _ (Some _) _ _ (Some fh) _ =>
      ∃ h, HandleTable.get fh (file_handles (w_fs w)) = Some h ∧
           InodeTable.get_path ino (inodes (w_fs w)) = Some (h_path h)
  | _ => True
  end.

Definition live_world (w : World) : Prop := live (file_handles (w_fs w)) (cas_table (w_fs w)).

Lemma handle_live r w :
  HandleTable.wf (file_handles (w_fs w)) → tame_request r w → live_world w →
  wp (handle r) (λ _ w', live_world w') w.
Proof.
  intros Hwf Ht Hl. unfold live_world in *.
  run_request r; fs_proj; try solve [eauto 6 with dibs]; try done.
  all: lazymatch goal with
    | |- wp (list_children _ _) _ _ =>
        apply (wp_list_children (λ w', file_handles (w_fs w') = file_handles (w_fs w) ∧
          cas_table (w_fs w') = cas_table (w_fs w)));
          [done..|intros es w' [Hh Hc]; cbn beta iota delta [cont]; wp_go; by rewrite Hh, Hc]
    | |- _ => destruct Ht as (h&Hh&Hp); simplify_eq; eauto with dibs
    end.
Qed.

(** ** Tame runs *)

Definition tame (e : Event) (w : World) : Prop :=
  match e with EvRequest r => tame_request r w | _ => True end.

Inductive tame_trace : World → list Event → World → Prop :=
| tame_nil w : tame_trace w [] w
| tame_cons w e w' es w'' :
    tame e w → step w e w' → tame_trace w' es w'' → tame_trace w (e :: es) w''.

Lemma evict_live d w : live_world w → wp (evict d) (λ _ w', live_world w') w.
Proof.
  intros Hl. unfold live_world, evict in *. wp_go; fs_proj; [|done].
  eapply live_same_owners; [|exact Hl]. intros p. by eapply CasTable.evict_owner.
Qed.

Lemma tame_step_live w e w' :
  HandleTable.wf (file_handles (w_fs w)) → tame e w → step w e w' → live_world w → live_world w'.
Proof.
  intros Hwf Ht Hs Hl. revert Ht. destruct Hs as [r Hv|d|o]; intros Ht;
    [by apply (handle_live r w)|by apply (evict_live d w)|done].
Qed.

Lemma tame_trace_live n w es w' :
  n + Z.of_nat (length es) <= u64_MAX → inv n w → live_world w → tame_trace w es w' →
  live_world w'.
Proof.
  intros Hn Hi Hl Ht. revert n Hn Hi Hl. induction Ht as [w|w e w' es w'' Ht Hs _ IH];
    intros n Hn Hi Hl; [done|]. cbn [length] in Hn.
  apply (IH (n + 1)); [lia|eapply step_inv; eauto; lia|].
  by eapply tame_step_live; [apply Hi|..].
Qed.

(** C10. No write ownership outlives its handle in a run from mounting on in which
    nothing is renamed and every truncation through a handle is of an inode
    registered, at that moment, under the path the handle was opened under: every
    owned path is owned by a handle that is open for that very path, so when no
    file is open nothing is owned.  Evictions and changes of the backing files
    from outside may come in between. *)
Theorem owners_are_open (cfg : DibsConfig) (o : os) (clk : nat) (es : list Event) (w : World)
    (Hlen : Z.of_nat (length es) < u64_MAX - 1) (Ht : tame_trace (mounted cfg o clk) es w) :
  (∀ p fh, CasTable.owner p (cas_table (w_fs w)) = Some fh →
     ∃ h, HandleTable.get fh (file_handles (w_fs w)) = Some h ∧ h_path h = p) ∧
  (HandleTable.count (file_handles (w_fs w)) = 0%nat →
   ∀ p, CasTable.owner p (cas_table (w_fs w)) = None).
Proof.
  assert (live_world w) as Hl.
  { eapply (tame_trace_live 1); [|apply inv_mounted|apply live_new|exact Ht]. lia. }
  split; [exact Hl|]. intros Hc p.
  destruct (CasTable.owner p (cas_table (w_fs w))) as [fh|] eqn:E; [|done].
  destruct (Hl p fh E) as (h&Hh&_). unfold HandleTable.count in Hc.
  apply map_size_empty_inv in Hc. unfold HandleTable.get in Hh. by rewrite Hc, lookup_empty in Hh.
Qed.
End runs.

(** Session 10 opens the file for writing, and closes it again. *)
Lemma owners_are_open_witness :
  let w1 := (s_handle (ReqOpen 100 3 O_WRONLY) sample_world).2 in
  let w2 := (s_handle (ReqRelease 1) w1).2 in
  CasTable.owner (parse "f") (cas_table (w_fs w1)) = Some 1 ∧
  CasTable.owner (parse "f") (cas_table (w_fs w2)) = None.
Proof.
  intros w1 w2. split; [vm_compute; reflexivity|].
  apply (@owners_are_open mem_posix toy_digests tick_clocks plain_crates canonical_iter
    mem_posix_laws sample_config (mem_with [("/b/f", "one")%string]) 0
    [EvRequest (ReqLookup 1 "f"); EvRequest (ReqOpen 100 3 O_WRONLY); EvRequest (ReqRelease 1)] w2).
  - vm_compute. reflexivity.
  - eapply tame_cons; [exact I|by apply step_request|].
    eapply tame_cons; [exact I|by apply step_request|].
    eapply tame_cons; [exact I|by apply step_request|]. apply tame_nil.
  - vm_compute. reflexivity.
Defined.
