(* ===== verification/FsProps.v ===== *)
(** * FsProps: what the handlers guarantee

    Optimistic concurrency control end to end: a session that read a file and
    then opens it for writing is refused when the file has changed since, along
    any run in between; the behaviour of each handler of the read/write cycle;
    and the places where the protection does not hold. *)
From S2P Require Import Prelude Paths Env Handles Inodes Passthrough Cas HashTable Config Fs.
From S2P Require Import FsLogic FsFile FsDir FsTrace Sample.

Local Open Scope Z_scope.

Section props.
Context `{Posix} `{Digests} `{Clocks} `{Crates} `{DashMapIter} `{!PosixLaws}.
Implicit Types (w : World) (p : PathBuf).

(** The receipt a session holds, the owner of a path, the hash of its file. *)
Definition receipt (s : Z) p w : option (list byte) :=
  CasTable.get_reader_hash s p (cas_table (w_fs w)).

Definition owner_of p w : option Z := CasTable.owner p (cas_table (w_fs w)).

Definition file_hash p w : option (result (list byte) IoError) :=
  hash_file (w_os w) (backing_path (w_fs w) p).

Lemma receipt_eq s q w w' :
  CasTable.reader_hashes (cas_table (w_fs w')) = CasTable.reader_hashes (cas_table (w_fs w)) →
  receipt s q w' = receipt s q w.
Proof. unfold receipt, CasTable.get_reader_hash. by intros ->. Qed.

(** The request names a regular file of the backing directory, by an inode
    known under the path. *)
Definition names_file (ino : Z) p w : Prop :=
  is_dibs_ino ino = false ∧ InodeTable.get_path ino (inodes (w_fs w)) = Some p.

(** The backing file can be opened with these flags. *)
Definition opens p (flags : Z) w : Prop :=
  ∃ c fd, path_to_cstring (backing_path (w_fs w) p) = Ok c ∧
          (sys_open (w_os w) c flags None).1 = Ok fd.

Lemma virtual_is_dibs ino :
  (ino =? DIBS_STATUS_INO) || (ino =? DIBS_LOCKS_INO) = true → is_dibs_ino ino = true.
Proof.
  intros [->%Z.eqb_eq| ->%Z.eqb_eq]%orb_true_iff; reflexivity.
Qed.

(** The world with the kernel's state changed. *)
Definition with_os (w : World) (o : os) : World := mkWorld (w_fs w) o (w_clk w).

(** ** The two ways of opening a file *)

Section open.
Variables (pid ino flags : Z) (p : PathBuf) (Q : exit Reply → World → Prop) (w : World).
Hypothesis (Hino : names_file ino p w).

Abbreviation full := (backing_path (w_fs w) p).

Lemma wp_open_file :
  (result_ok (path_to_cstring full) = None → Q (Return (RError Errno.EINVAL)) w) →
  (∀ c e, result_ok (path_to_cstring full) = Some c → (sys_open (w_os w) c flags None).1 = Err e →
     Q (Return (RError (errno_from_io (OsError e)))) (with_os w (sys_open (w_os w) c flags None).2)) →
  (∀ c fd, result_ok (path_to_cstring full) = Some c → (sys_open (w_os w) c flags None).1 = Ok fd →
     Z.land flags O_ACCMODE = O_RDONLY →
     wp (open_readonly p full flags (session pid (w_os w)) fd) Q
       (with_os w (sys_open (w_os w) c flags None).2)) →
  (∀ c fd r, result_ok (path_to_cstring full) = Some c →
     (sys_open (w_os w) c flags None).1 = Ok fd →
     Z.land flags O_ACCMODE ≠ O_RDONLY → hash_file (w_os w) full = Some r →
     wp (open_write p flags (session pid (w_os w)) fd (result_ok r)) Q
       (with_os w (sys_open (w_os w) c flags None).2)) →
  wp (open pid ino flags) Q w.
Proof.
  destruct Hino as [Hi Hp]. intros HE HF HR HW. unfold open.
  destruct ((ino =? DIBS_STATUS_INO) || _) eqn:Ev; [apply virtual_is_dibs in Ev; congruence|].
  rewrite Hi. do 2 wp_prim. rewrite Hp. wp_prim. cbn [require]. do 3 wp_prim; [|by apply HE].
  do 3 wp_prim. destruct (Z.land flags O_ACCMODE =? O_RDONLY) eqn:Em; cbn [negb].
  - apply Z.eqb_eq in Em. do 6 wp_prim; [by eapply HR|by eapply HF].
  - apply Z.eqb_neq in Em. do 8 wp_prim; [by eapply HW|by eapply HF].
Qed.
End open.

(** ** Opening for reading *)

Lemma open_read_receipt pid ino flags p w h :
  names_file ino p w → Z.land flags O_ACCMODE = O_RDONLY →
  wp (open pid ino flags) (λ e w',
    (∃ fh, e = Val (ROpened fh)) → file_hash p w' = Some (Ok h) →
    receipt (session pid (w_os w)) p w' = Some h) w.
Proof.
  intros Hn Hm. apply (wp_open_file _ _ _ p); [done|intros; naive_solver..| |done].
  intros c fd _ _ _. unfold open_readonly. wp_run; intros _ Hh;
    unfold file_hash, receipt, CasTable.get_reader_hash, backing_path in *; simpl in *;
    simplify_eq/=.
  by rewrite lookup_insert_eq.
Qed.

(** ** Opening for writing *)

(** What a refused request leaves behind: the handles, owners and receipts it
    found. *)
Record same_tables (w w' : World) : Prop := {
  same_handles : HandleTable.handles (file_handles (w_fs w')) =
                 HandleTable.handles (file_handles (w_fs w));
  same_owners : ∀ q, owner_of q w' = owner_of q w;
  same_receipts : ∀ s q, receipt s q w' = receipt s q w
}.

Abbreviation next w := (HandleTable.next_fh (file_handles (w_fs w))).

(** When a handle may write: it owns the path, or nobody does and the hash it
    relies on is the current one. *)
Definition may_write p (fh sid : Z) (actual : list byte) w : Prop :=
  owner_of p w = Some fh ∨
  (owner_of p w = None ∧
   CasTable.fresh_view p fh sid (file_handles (w_fs w)) actual (cas_table (w_fs w))).

(** The check, by its outcome: all it changes is the owner of the path, on
    acceptance. *)
Lemma wp_check_spec p fh sid actual Q w :
  (∀ ct, may_write p fh sid actual w →
     CasTable.reader_hashes ct = CasTable.reader_hashes (cas_table (w_fs w)) →
     CasTable.owner p ct = Some fh →
     (∀ q, q ≠ p → CasTable.owner q ct = owner_of q w) →
     Q (Val (Ok tt)) (mkWorld (set_cas (λ _, ct) (w_fs w)) (w_os w) (S (S (w_clk w))))) →
  (∀ e ct, ¬ may_write p fh sid actual w →
     CasTable.reader_hashes ct = CasTable.reader_hashes (cas_table (w_fs w)) →
     (∀ q, CasTable.owner q ct = owner_of q w) →
     Q (Val (Err e)) (mkWorld (set_cas (λ _, ct) (w_fs w)) (w_os w) (S (S (w_clk w))))) →
  wp (check_and_acquire_write p fh sid actual) Q w.
Proof.
  intros HO HE. apply wp_check. intros ne na r ct E.
  pose proof (CasTable.check_ok_iff ne na p fh sid (file_handles (w_fs w)) actual
    (cas_table (w_fs w))) as Hok.
  pose proof (CasTable.check_owner ne na p fh sid (file_handles (w_fs w)) actual
    (cas_table (w_fs w))) as Hown.
  pose proof (λ q, CasTable.check_owner_ne ne na p fh sid (file_handles (w_fs w)) actual
    (cas_table (w_fs w)) q) as Hne.
  pose proof (CasTable.check_readers_eq _ _ _ _ _ _ _ _ _ _ E) as Hrd.
  rewrite E in Hok, Hown, Hne. simpl in *. destruct r as [[]|e].
  - apply HO; [by apply Hok|done..].
  - apply HE; [|done|].
    + intros Hm. apply Hok in Hm. congruence.
    + intros q. destruct (decide (q = p)) as [->|Hq]; [done|by apply Hne].
Qed.

Lemma alloc_may_write p flags hash sid fd actual w :
  owner_of p w ≠ Some (next w) →
  may_write p (next w) sid actual
    (mkWorld (set_handles (λ ht, (HandleTable.alloc fd p flags hash sid ht).2) (w_fs w))
       (w_os w) (w_clk w)) ↔
  owner_of p w = None ∧
  match hash with
  | Some h => h = actual
  | None => ∀ h, receipt sid p w = Some h → h = actual
  end.
Proof.
  intros Ho. unfold may_write, CasTable.fresh_view. fs_proj.
  rewrite HandleTable.get_alloc_next. simpl.
  change (owner_of p (mkWorld _ _ _)) with (owner_of p w). unfold receipt. tauto.
Qed.

Lemma open_write_stale p flags sid fd h0 h1 w :
  Z.land flags O_ACCMODE = O_WRONLY → receipt sid p w = Some h0 → h0 ≠ h1 →
  HandleTable.wf (file_handles (w_fs w)) → owner_of p w ≠ Some (next w) →
  wp (open_write p flags sid fd (Some h1)) (λ e w',
    e = Return (RError Errno.EIO) ∧ w_os w' = sys_close (w_os w) fd ∧ same_tables w w') w.
Proof.
  intros Hm Hr Hne Hwf Ho. unfold open_write. rewrite Hm. do 4 wp_prim.
  apply wp_check_spec; fs_proj.
  - intros ct Hw. exfalso. apply alloc_may_write in Hw as [_ Hf]; [|done]. by apply Hne, Hf.
  - intros e ct _ Hrd Hown. wp_run. split; [done|]. split; [done|]. split; fs_proj.
    + cbn. apply delete_insert_id.  by apply (HandleTable.alloc_fresh _ fd p flags None sid).
    + exact Hown.
    + intros s q. by apply receipt_eq.
Qed.

Lemma open_write_fresh p flags sid fd h w :
  Z.land flags O_ACCMODE = O_WRONLY → (∀ h', receipt sid p w = Some h' → h' = h) →
  owner_of p w = None →
  wp (open_write p flags sid fd (Some h)) (λ e w',
    e = Val (ROpened (next w)) ∧ w_os w' = w_os w ∧ owner_of p w' = Some (next w) ∧
    HandleTable.get (next w) (file_handles (w_fs w')) =
      Some (mkHandle (next w) fd p None flags false sid)) w.
Proof.
  intros Hm Hr Ho. unfold open_write. rewrite Hm. do 4 wp_prim.
  assert (owner_of p w ≠ Some (next w)) by by rewrite Ho.
  apply wp_check_spec; fs_proj.
  - intros ct _ _ Hown _. wp_run. split; [done|]. split; [done|]. split; [exact Hown|].
    fs_proj. apply HandleTable.get_alloc_next.
  - intros e ct Hn. exfalso. apply Hn, alloc_may_write; [done|]. split; [done|]. exact Hr.
Qed.

(** ** Reading, then writing *)

(** Events that leave the receipt of session [s] for [p] alone: quiet requests,
    evictions whose window still covers the receipt, anything done to the
    backing files. *)
Definition quiet (s : Z) p (e : Event) w : Prop :=
  match e with
  | EvRequest r => quiet_request s p r w
  | EvEvict d =>
      ∀ r cutoff, CasTable.reader_hashes (cas_table (w_fs w)) !! (s, p) = Some r →
        CasTable.evict_cutoff (utc_now (w_clk w)) d = Some cutoff → cutoff <= r_last_access r
  | EvExternal _ => True
  end.

Inductive quiet_trace (s : Z) p : World → list Event → World → Prop :=
| quiet_nil w : quiet_trace s p w [] w
| quiet_cons w e w' es w'' :
    quiet s p e w → step w e w' → quiet_trace s p w' es w'' → quiet_trace s p w (e :: es) w''.

Lemma quiet_trace_trace s p w es w' : quiet_trace s p w es w' → trace w es w'.
Proof. induction 1; econstructor; eauto. Qed.

Lemma evict_keeps s p d w :
  quiet s p (EvEvict d) w →
  wp (evict d) (λ _ w', CasTable.keeps s p (cas_table (w_fs w)) (cas_table (w_fs w'))) w.
Proof.
  intros Hq. unfold evict. wp_go; fs_proj; [|auto with dibs].
  rename select (CasTable.evict_older_than _ _ _ = Some _) into E.
  destruct (CasTable.evict_cutoff (utc_now (w_clk w)) d) as [c|] eqn:Hc;
    [|unfold CasTable.evict_older_than in E; by rewrite Hc in E].
  unfold CasTable.keeps. destruct (CasTable.evict_lookup _ _ _ _ _ Hc E) as [_ ->].
  destruct (CasTable.reader_hashes (cas_table (w_fs w)) !! (s, p)) as [r|] eqn:Er; [|done].
  rewrite decide_True; [done|]. by apply Hq.
Qed.

Lemma quiet_step s p w e w' : quiet s p e w → step w e w' → receipt s p w' = receipt s p w.
Proof.
  intros Hq Hs. unfold receipt, CasTable.get_reader_hash. f_equal.
  destruct Hs as [r _|d|o]; [by apply (handle_keeps s p r w)|by apply (evict_keeps s p d w)|done].
Qed.

Lemma quiet_trace_receipt s p w es w' :
  quiet_trace s p w es w' → receipt s p w' = receipt s p w.
Proof. induction 1 as [|???? ? Hq Hs _ ->]; [done|]. by eapply quiet_step. Qed.

(** A session has read [p] with contents of hash [h0] after a run from mounting,
    and [w2] is reached from there by events quiet for its receipt. *)
Inductive read_before (s : Z) p (h0 : list byte) (w2 : World) : Prop :=
| read_before_intro cfg o clk es w pid ino flags fh es'
    (Hrun : trace (mounted cfg o clk) es w)
    (Hsession : session pid (w_os w) = s)
    (Hnames : names_file ino p w)
    (Hmode : Z.land flags O_ACCMODE = O_RDONLY)
    (Hreply : (handle (ReqOpen pid ino flags) w).1 = Val (ROpened fh))
    (Hhash : file_hash p (handle (ReqOpen pid ino flags) w).2 = Some (Ok h0))
    (Hquiet : quiet_trace s p (handle (ReqOpen pid ino flags) w).2 es' w2)
    (Hlen : Z.of_nat (length es) + Z.of_nat (length es') < u64_MAX - 2).

Lemma read_before_receipt s p h0 w2 : read_before s p h0 w2 → receipt s p w2 = Some h0.
Proof.
  intros [cfg o clk es w pid ino flags fh es']. erewrite quiet_trace_receipt by done. subst s.
  apply (open_read_receipt pid ino flags p w h0); eauto.
Qed.

Lemma read_before_inv s p h0 w2 : read_before s p h0 w2 → ∃ n, inv n w2.
Proof.
  intros [cfg o clk es w pid ino flags fh es' Hrun _ _ _ _ _ Hq Hl].
  exists (1 + Z.of_nat (length (es ++ EvRequest (ReqOpen pid ino flags) :: es'))).
  assert (Z.of_nat (length (es ++ EvRequest (ReqOpen pid ino flags) :: es')) =
    Z.of_nat (length es) + Z.of_nat (length es') + 1) by (rewrite length_app; simpl; lia).
  eapply trace_inv; [lia|apply inv_mounted|]. eapply trace_app; [exact Hrun|].
  econstructor; [by constructor|]. by eapply quiet_trace_trace.
Qed.

Lemma inv_not_owner n w p : inv n w → owner_of p w ≠ Some (next w).
Proof. intros [_ _ _ _ _ Ho] Hn%Ho. lia. Qed.

(** C1. No lost update.  A session read a file when its hash was [h0]; then came
    any run of events, by any sessions, evictions and outside changes, that did
    not renew or drop its receipt; now the file hashes to [h1], different from
    [h0].  When the session opens the file write-only, the reply is an error,
    [EIO] if the backing file could be opened, and no handle, owner or receipt
    has changed. *)
Theorem no_lost_update (s : Z) p (h0 h1 : list byte) (w : World) (pid ino flags : Z)
    (Hread : read_before s p h0 w) (Hfile : names_file ino p w)
    (Hmode : Z.land flags O_ACCMODE = O_WRONLY) (Hsession : session pid (w_os w) = s)
    (Hnow : file_hash p w = Some (Ok h1)) (Hchanged : h0 ≠ h1) :
  let (reply, w') := handle (ReqOpen pid ino flags) w in
  ∃ e, reply = Return (RError e) ∧ (opens p flags w → e = Errno.EIO) ∧ same_tables w w'.
Proof.
  destruct (read_before_inv _ _ _ _ Hread) as [n Hinv].
  apply read_before_receipt in Hread as Hr. pose proof (inv_not_owner n w p Hinv) as Ho.
  apply wp_let, (wp_open_file _ _ _ p); [done|..].
  - intros Hc. eexists. split; [done|]. split; [|by split].
    intros (c&fd&Hc'&_). by rewrite Hc' in Hc.
  - intros c e Hc He. eexists. split; [done|]. split; [|by split].
    intros (c'&fd&Hc'&Hfd). rewrite Hc' in Hc. simplify_eq/=. congruence.
  - intros ????. by rewrite Hmode.
  - intros c fd r Hc Hfd _ Hh. unfold file_hash in Hnow. rewrite Hh in Hnow. simplify_eq/=.
    eapply wp_mono; [by apply (open_write_stale p flags _ fd h0 h1); [..|apply Hinv|]|].
    simpl. intros e w' (->&_&Hs). eexists. split; [done|]. split; [done|]. by destruct Hs; split.
Qed.

(** C2. Optimistic concurrency does not refuse a writer whose view is current:
    after the same kind of run, if the file still has the hash the session read,
    no handle owns it and the backing file can be opened, the write-only open
    succeeds and its handle owns the path. *)
Theorem fresh_writer_accepted (s : Z) p (h0 : list byte) (w : World) (pid ino flags : Z)
    (Hread : read_before s p h0 w) (Hfile : names_file ino p w)
    (Hmode : Z.land flags O_ACCMODE = O_WRONLY) (Hsession : session pid (w_os w) = s)
    (Hnow : file_hash p w = Some (Ok h0)) (Hfree : owner_of p w = None)
    (Hopens : opens p flags w) :
  let (reply, w') := handle (ReqOpen pid ino flags) w in
  ∃ fh, reply = Val (ROpened fh) ∧ owner_of p w' = Some fh ∧
    HandleTable.get fh (file_handles (w_fs w)) = None ∧
    (∃ h, HandleTable.get fh (file_handles (w_fs w')) = Some h ∧ h_path h = p ∧ h_sid h = s).
Proof.
  destruct (read_before_inv _ _ _ _ Hread) as [n Hinv].
  apply read_before_receipt in Hread as Hr. destruct Hopens as (c0&fd0&Hc0&Hfd0).
  apply wp_let, (wp_open_file _ _ _ p); [done|..]; rewrite Hc0; [done| |intros ????; by rewrite Hmode|].
  - intros c e [= <-] He. congruence.
  - intros c fd r [= <-] Hfd _ Hh. unfold file_hash in Hnow. rewrite Hh in Hnow. simplify_eq/=.
    eapply wp_mono; [apply (open_write_fresh p flags _ fd h0)|]; [done| |done|].
    { intros h'. change (receipt ?s p (with_os w _)) with (receipt s p w). congruence. }
    simpl. intros e w' (->&_&Ho&Hg). eexists. split; [done|]. split; [done|]. split; [|by eauto].
    by apply (HandleTable.alloc_fresh _ fd p flags None 0), Hinv.
Qed.

(** ** Writing through a handle *)

Section write.
Variables (ino fh offset : Z) (data : list byte) (h : HandleState) (w : World).
Hypotheses (Hino : is_dibs_ino ino = false)
  (Hh : HandleTable.get fh (file_handles (w_fs w)) = Some h).

(** The bytes the handler takes as the file's hash: none when it cannot be read. *)
Definition actual_hash (r : result (list byte) IoError) : list byte := result_unwrap_or [] r.

(** Where rejected data goes. *)
Definition conflict_file (dir : PathBuf) (now : Z) p : PathBuf :=
  join dir (format_ts now ++ "_" ++ default "unknown" (to_string_lossy <$> file_name p))%string.

(** The end of [write], once the check has passed. *)
Abbreviation do_write :=
  (handles_get_mut fh set_has_written;;
   r ← syscall (λ o, sys_pwrite o (h_real_fd h) data (as_i64 offset));
   n ← require_sys r;
   mret (RWritten (as_u32 n))).

Abbreviation after_check w ct := (mkWorld (set_cas (λ _, ct) (w_fs w)) (w_os w) (S (S (w_clk w)))).

Lemma save_conflict_val p w0 : wp (save_conflict p data) (λ e _, e = Val tt) w0.
Proof. unfold save_conflict. by wp_run. Qed.

Lemma wp_write Q :
  (is_Some (owner_of (h_path h) w) → wp do_write Q w) →
  (∀ r ct, owner_of (h_path h) w = None → file_hash (h_path h) w = Some r →
     may_write (h_path h) fh (h_sid h) (actual_hash r) w →
     CasTable.reader_hashes ct = CasTable.reader_hashes (cas_table (w_fs w)) →
     CasTable.owner (h_path h) ct = Some fh →
     (∀ q, q ≠ h_path h → CasTable.owner q ct = owner_of q w) →
     wp do_write Q (after_check w ct)) →
  (∀ r ct, owner_of (h_path h) w = None → file_hash (h_path h) w = Some r →
     ¬ may_write (h_path h) fh (h_sid h) (actual_hash r) w →
     CasTable.reader_hashes ct = CasTable.reader_hashes (cas_table (w_fs w)) →
     (∀ q, CasTable.owner q ct = owner_of q w) →
     wp (save_conflict (h_path h) data) (λ e w', Q (Return (RError Errno.EIO)) w')
       (after_check w ct)) →
  wp (write ino fh offset data) Q w.
Proof.
  intros HO HA HR. unfold write. rewrite Hino. do 3 wp_prim. rewrite Hh. cbn [require].
  do 2 wp_prim. rewrite CasTable.has_active_writer_owner.
  case_bool_decide as Hown; cbn [negb]; [by wp_prim; apply HO|].
  assert (owner_of (h_path h) w = None) as Hnone by by apply eq_None_not_Some.
  do 2 wp_prim. wp_prim. apply wp_check_spec.
  - intros ct Hw Hrd Ho Hne. cbn beta iota delta [cont]. wp_prim. by eapply HA.
  - intros e ct Hw Hrd Ho. cbn beta iota delta [cont]. wp_prim.
    eapply wp_mono; [apply wp_and; [by eapply HR|apply save_conflict_val]|].
    simpl. by intros ? w' [HQ ->].
Qed.

(** C7. A write refused by the check (nobody owns the path and the hash the
    handle relies on is not the file's) is answered with [EIO] and never reaches
    the file: no handle, owner or receipt changes, and the backing file system is
    the same, except for a copy of the rejected data in the conflict directory
    when that is configured. *)
Theorem refused_write_harmless (r : result (list byte) IoError)
    (Hr : file_hash (h_path h) w = Some r) (Hfree : owner_of (h_path h) w = None)
    (Hstale : ¬ may_write (h_path h) fh (h_sid h) (actual_hash r) w) :
  let (reply, w') := handle (ReqWrite ino fh offset data) w in
  reply = Return (RError Errno.EIO) ∧ same_tables w w' ∧
  w_os w' = match conflict_dir (w_fs w) with
            | None => w_os w
            | Some dir =>
                (fs_write (w_os w) (conflict_file dir (utc_now (2 + w_clk w)) (h_path h)) data).2
            end.
Proof.
  apply wp_let, wp_write.
  - rewrite Hfree. by intros [].
  - intros r' ct _ Hr'. simplify_eq. done.
  - intros r' ct _ Hr' _ Hrd Hown. unfold save_conflict.
    wp_run; rename select (conflict_dir _ = _) into Hd; simpl in Hd; rewrite Hd;
      (split; [done|]); (split; [split; fs_proj; [done|exact Hown|by intros; apply receipt_eq]|]).
    + unfold conflict_file. by destruct (file_name (h_path h)).
    + done.
Qed.

Lemma write_accepted r :
  file_hash (h_path h) w = Some r → may_write (h_path h) fh (h_sid h) (actual_hash r) w →
  wp (write ino fh offset data) (λ e w',
    w_os w' = (sys_pwrite (w_os w) (h_real_fd h) data (as_i64 offset)).2 ∧
    backing (w_fs w') = backing (w_fs w) ∧
    (∀ n, (sys_pwrite (w_os w) (h_real_fd h) data (as_i64 offset)).1 = Ok n →
       e = Val (RWritten (as_u32 n))) ∧
    owner_of (h_path h) w' = Some fh ∧
    HandleTable.get fh (file_handles (w_fs w')) = Some (set_has_written h)) w.
Proof.
  intros Hr Hm. apply wp_write.
  - intros [o Ho]. assert (o = fh) as -> by (destruct Hm as [|[]]; congruence).
    wp_run; fs_proj; (split; [done|]); (split; [done|]); (split; [intros; congruence|]);
      (split; [exact Ho|]); by rewrite HandleTable.get_get_mut, decide_True, Hh.
  - intros r' ct _ _ _ _ Ho _.
    wp_run; fs_proj; (split; [done|]); (split; [done|]); (split; [intros; congruence|]);
      (split; [exact Ho|]); by rewrite HandleTable.get_get_mut, decide_True, Hh.
  - intros r' ct _ Hr' Hn. exfalso. simplify_eq. done.
Qed.
End write.
(** ** Flushing and releasing *)

Lemma flush_written ino fh h w :
  is_dibs_ino ino = false → HandleTable.get fh (file_handles (w_fs w)) = Some h →
  h_has_written h = true →
  wp (flush ino fh) (λ e w',
    e = Val ROk ∧ w_os w' = w_os w ∧
    owner_of (h_path h) w' =
      (if decide (owner_of (h_path h) w = Some fh) then None else owner_of (h_path h) w) ∧
    ∀ hn, file_hash (h_path h) w = Some (Ok hn) →
      receipt (h_sid h) (h_path h) w' = Some hn ∧
      HandleTable.get fh (file_handles (w_fs w')) = Some (set_flushed hn h)) w.
Proof.
  intros Hi Hh Hw. unfold flush. rewrite Hi. do 2 wp_prim. rewrite Hh, Hw. wp_run; fs_proj;
    (split; [done|]); (split; [done|]); unfold owner_of; fs_proj; rewrite CasTable.release_owner;
    (split; [by repeat case_decide; naive_solver|]);
    rename select (hash_file _ _ = _) into Hf; unfold file_hash; rewrite Hf;
    intros hn [= <-]; split.
  - unfold receipt, CasTable.get_reader_hash; fs_proj. rewrite CasTable.release_readers. simpl.
    by rewrite lookup_insert_eq.
  - by rewrite HandleTable.get_get_mut, decide_True, Hh.
Qed.

(** C6. The write and flush of a handle that may write: the data reach the file
    through its descriptor, the handle owns the path in between, and the flush
    gives the path back, renews the session's receipt with the hash of what was
    written and makes that hash the one the handle relies on, so that its next
    write is accepted if nobody changed the file. *)
Theorem write_flush_cycle (ino fh offset n : Z) (data hn : list byte) (h : HandleState) (w : World)
    (r : result (list byte) IoError)
    (Hino : is_dibs_ino ino = false)
    (Hh : HandleTable.get fh (file_handles (w_fs w)) = Some h)
    (Hr : file_hash (h_path h) w = Some r)
    (Hm : may_write (h_path h) fh (h_sid h) (actual_hash r) w)
    (Hn : (sys_pwrite (w_os w) (h_real_fd h) data (as_i64 offset)).1 = Ok n)
    (Hnew : hash_file (sys_pwrite (w_os w) (h_real_fd h) data (as_i64 offset)).2
              (backing_path (w_fs w) (h_path h)) = Some (Ok hn)) :
  let (e1, w1) := handle (ReqWrite ino fh offset data) w in
  let (e2, w2) := handle (ReqFlush ino fh) w1 in
  e1 = Val (RWritten (as_u32 n)) ∧ owner_of (h_path h) w1 = Some fh ∧
  e2 = Val ROk ∧ w_os w2 = (sys_pwrite (w_os w) (h_real_fd h) data (as_i64 offset)).2 ∧
  owner_of (h_path h) w2 = None ∧ receipt (h_sid h) (h_path h) w2 = Some hn ∧
  may_write (h_path h) fh (h_sid h) hn w2.
Proof.
  apply (wp_let (handle (ReqWrite ino fh offset data))).
  eapply wp_mono; [by apply (write_accepted ino fh offset data h w Hino Hh r)|].
  simpl. intros e1 w1 (Hos&Hb&He1&Ho1&Hg1). apply (wp_let (flush ino fh)).
  eapply wp_mono; [by apply (flush_written ino fh _ w1 Hino Hg1)|].
  simpl. intros e2 w2 (He2&Hos2&Ho2&Hrec). rewrite Ho1, decide_True in Ho2 by done.
  destruct (Hrec hn) as [Hrc Hg2]; [unfold file_hash, backing_path; by rewrite Hos, Hb|].
  split_and!; try done; [by apply He1|congruence|]. right. split; [done|].
  unfold CasTable.fresh_view. by rewrite Hg2.
Qed.

Lemma wp_release fh w :
  wp (release fh) (λ e w',
    e = Val ROk ∧
    file_handles (w_fs w') = (HandleTable.remove fh (file_handles (w_fs w))).2 ∧
    (∀ s q, receipt s q w' = receipt s q w) ∧
    match HandleTable.get fh (file_handles (w_fs w)) with
    | Some h =>
        cas_table (w_fs w') = CasTable.release_write (h_path h) fh (cas_table (w_fs w)) ∧
        w_os w' = if 0 <=? h_real_fd h then sys_close (w_os w) (h_real_fd h) else w_os w
    | None => w_os w' = w_os w
    end) w.
Proof.
  unfold release. wp_run; fs_proj; (split; [done|]); (split; [done|]);
    (split; [by intros; apply receipt_eq; fs_proj; rewrite ?CasTable.release_readers|]); done.
Qed.

(** C20. Releasing a handle always succeeds and forgets it, whatever its state:
    the handle is gone, the others are untouched, the path it was opened under is
    no longer owned by it, the owners of other paths and all receipts are as
    before, and the descriptor is closed when it is a real one. *)
Theorem release_frees (fh : Z) (w : World) :
  let (e, w') := handle (ReqRelease fh) w in
  e = Val ROk ∧
  HandleTable.get fh (file_handles (w_fs w')) = None ∧
  (∀ g, g ≠ fh →
     HandleTable.get g (file_handles (w_fs w')) = HandleTable.get g (file_handles (w_fs w))) ∧
  (∀ s q, receipt s q w' = receipt s q w) ∧
  ∀ h, HandleTable.get fh (file_handles (w_fs w)) = Some h →
    owner_of (h_path h) w' ≠ Some fh ∧
    (∀ q, q ≠ h_path h → owner_of q w' = owner_of q w) ∧
    w_os w' = if 0 <=? h_real_fd h then sys_close (w_os w) (h_real_fd h) else w_os w.
Proof.
  apply (wp_let (handle (ReqRelease fh))). eapply wp_mono; [apply (wp_release fh w)|].
  cbn beta. intros e w' (->&->&Hr&Hh). rewrite HandleTable.get_remove, decide_True by done.
  split; [done|]. split; [done|].
  split; [by intros g Hg; rewrite HandleTable.get_remove, decide_False|].
  split; [done|]. intros h E. rewrite E in Hh. destruct Hh as [Hct Hos]. unfold owner_of.
  rewrite Hct. split_and!; [| |done].
  - rewrite CasTable.release_owner. case_decide; naive_solver.
  - intros q Hq. by rewrite CasTable.release_owner, decide_False by naive_solver.
Qed.
End props.

(** ** Concrete runs

    Session 10 reads [f]; later the file may change behind its back. *)
Definition sample_read : @World mem_posix := (s_handle (ReqOpen 100 3 O_RDONLY) sample_world).2.

Definition sample_changed : @World mem_posix :=
  @mkWorld mem_posix (w_fs sample_read) (mem_with [("/b/f", "two")%string]) (w_clk sample_read).

Definition sample_hash (s : string) : list byte := toy_digest (list_byte_of_string s).

Abbreviation s_read_before :=
  (@read_before mem_posix toy_digests tick_clocks plain_crates canonical_iter).

Lemma sample_read_before es w :
  @quiet_trace mem_posix toy_digests tick_clocks plain_crates canonical_iter 10 (parse "f")
    sample_read es w →
  Z.of_nat (length es) < 100 → s_read_before 10 (parse "f") (sample_hash "one") w.
Proof.
  intros Hq Hl. eapply (@read_before_intro mem_posix toy_digests tick_clocks plain_crates
    canonical_iter 10 (parse "f") (sample_hash "one") w sample_config
    (mem_with [("/b/f", "one")%string]) 0 [EvRequest (ReqLookup 1 "f")] sample_world 100 3
    O_RDONLY 1 es); [exact sample_trace|reflexivity|split; vm_compute; reflexivity|reflexivity|
    vm_compute; reflexivity|vm_compute; reflexivity|exact Hq|].
  unfold u64_MAX. simpl. lia.
Qed.

(** After session 10 read [f], session 20 writes it through the mount: it opens
    it, writes, flushes and releases. *)
Definition sample_foreign : list Request :=
  [ReqOpen 200 3 O_RDWR; ReqWrite 3 2 0 (list_byte_of_string "new"); ReqFlush 3 2; ReqRelease 2].

Definition sample_overwritten : @World mem_posix :=
  foldl (λ w r, (s_handle r w).2) sample_read sample_foreign.

Lemma sample_foreign_quiet :
  @quiet_trace mem_posix toy_digests tick_clocks plain_crates canonical_iter 10 (parse "f")
    sample_read (@EvRequest mem_posix <$> sample_foreign) sample_overwritten.
Proof.
  unfold sample_overwritten, sample_foreign. cbn [fmap list_fmap foldl].
  eapply quiet_cons; [left; vm_compute; discriminate|by apply step_request|].
  eapply quiet_cons; [exact I|by apply step_request|].
  eapply quiet_cons; [|by apply step_request|].
  { intros h Hh. left. vm_compute in Hh. injection Hh as <-. discriminate. }
  eapply quiet_cons; [exact I|by apply step_request|]. constructor.
Qed.

Lemma no_lost_update_witness :
  (s_handle (ReqOpen 100 3 O_WRONLY) sample_overwritten).1 = Return (RError Errno.EIO).
Proof.
  pose proof (@no_lost_update mem_posix toy_digests tick_clocks plain_crates canonical_iter
    mem_posix_laws 10 (parse "f") (sample_hash "one") (sample_hash "new") sample_overwritten 100 3
    O_WRONLY) as Hn.
  destruct (s_handle (ReqOpen 100 3 O_WRONLY) sample_overwritten) as [reply w'].
  destruct Hn as (e&->&He&_).
  - apply (sample_read_before (@EvRequest mem_posix <$> sample_foreign));
      [exact sample_foreign_quiet|reflexivity].
  - split; vm_compute; reflexivity.
  - reflexivity.
  - vm_compute; reflexivity.
  - vm_compute; reflexivity.
  - vm_compute; discriminate.
  - simpl. rewrite He; [done|]. eexists _, _. split; vm_compute; reflexivity.
Defined.

Lemma fresh_writer_accepted_witness :
  ∃ fh, (s_handle (ReqOpen 100 3 O_WRONLY) sample_read).1 = Val (ROpened fh).
Proof.
  pose proof (@fresh_writer_accepted mem_posix toy_digests tick_clocks plain_crates canonical_iter
    mem_posix_laws 10 (parse "f") (sample_hash "one") sample_read 100 3 O_WRONLY) as Hn.
  destruct (s_handle (ReqOpen 100 3 O_WRONLY) sample_read) as [reply w'].
  destruct Hn as (fh&->&_); [..|by exists fh].
  - apply (sample_read_before []); [constructor|vm_compute; reflexivity].
  - split; vm_compute; reflexivity.
  - reflexivity.
  - reflexivity.
  - vm_compute; reflexivity.
  - vm_compute; reflexivity.
  - eexists _, _. split; vm_compute; reflexivity.
Defined.

Lemma refused_write_harmless_witness :
  (s_handle (ReqWrite 3 1 0 [Byte.x41]) sample_changed).1 = Return (RError Errno.EIO) ∧
  w_os (s_handle (ReqWrite 3 1 0 [Byte.x41]) sample_changed).2 = w_os sample_changed.
Proof.
  destruct (HandleTable.get 1 (file_handles (w_fs sample_changed))) as [h|] eqn:Hh;
    [|vm_compute in Hh; discriminate].
  pose proof (@refused_write_harmless mem_posix toy_digests tick_clocks plain_crates canonical_iter
    mem_posix_laws 3 1 0 [Byte.x41] h sample_changed eq_refl Hh (Ok (sample_hash "two"))) as Hn.
  destruct (s_handle (ReqWrite 3 1 0 [Byte.x41]) sample_changed) as [reply w'].
  vm_compute in Hh. injection Hh as <-. cbn [fst snd]. destruct Hn as (->&_&->).
  - vm_compute; reflexivity.
  - vm_compute; reflexivity.
  - intros [Ho|[_ Hf]]; [vm_compute in Ho|vm_compute in Hf]; discriminate.
  - split; reflexivity.
Defined.

(** Session 10 opens [f] for reading and writing. *)
Definition sample_rdwr : @World mem_posix := (s_handle (ReqOpen 100 3 O_RDWR) sample_world).2.

Lemma write_flush_cycle_witness :
  let w1 := (s_handle (ReqWrite 3 1 0 (list_byte_of_string "two")) sample_rdwr).2 in
  let w2 := (s_handle (ReqFlush 3 1) w1).2 in
  @receipt mem_posix 10 (parse "f") w2 = Some (sample_hash "two").
Proof.
  destruct (HandleTable.get 1 (file_handles (w_fs sample_rdwr))) as [h|] eqn:Hh;
    [|vm_compute in Hh; discriminate].
  pose proof (@write_flush_cycle mem_posix toy_digests tick_clocks plain_crates canonical_iter
    mem_posix_laws 3 1 0 3 (list_byte_of_string "two") (sample_hash "two") h sample_rdwr
    (Ok (sample_hash "one")) eq_refl Hh) as Hc.
  vm_compute in Hh. injection Hh as <-.
  destruct (s_handle (ReqWrite 3 1 0 (list_byte_of_string "two")) sample_rdwr) as [e1 w1].
  cbv zeta. cbn [snd]. destruct (s_handle (ReqFlush 3 1) w1) as [e2 w2]. apply Hc.
  - vm_compute; reflexivity.
  - left. vm_compute; reflexivity.
  - vm_compute; reflexivity.
  - vm_compute; reflexivity.
Defined.
