(* ===== verification/FsNames.v ===== *)
(** * FsNames: what the handlers on names and directories guarantee

    The virtual directory is read-only; deleting and renaming respect the
    receipts; a listing holds the backing directory's names; clients that read a
    directory or a virtual file in pieces get all of it; a name found by [lookup]
    and asked for by inode is the same file. *)
From S2P Require Import Prelude Paths Env Handles Inodes Passthrough Cas HashTable Config Fs.
From S2P Require Import FsLogic FsFile FsDir FsTrace FsProps Sample.

Local Open Scope Z_scope.

Section names.
Context `{Posix} `{Digests} `{Clocks} `{Crates} `{DashMapIter}.
Implicit Types (w : World) (p : PathBuf).

(** ** The virtual directory *)

(** A request that would change something at, or below, a virtual inode. *)
Definition targets_virtual (r : Request) : bool :=
  match r with
  | ReqSetattr ino _ _ _ _ _ _ _ _ | ReqWrite ino _ _ _ => is_dibs_ino ino
  | ReqOpen _ ino _ =>
      is_dibs_ino ino && negb ((ino =? DIBS_STATUS_INO) || (ino =? DIBS_LOCKS_INO))
  | ReqCreate _ parent _ _ _ | ReqMkdir parent _ _ | ReqUnlink _ parent _ | ReqRmdir parent _
  | ReqSymlink parent _ _ => is_dibs_ino parent
  | ReqRename _ parent _ newparent _ => is_dibs_ino parent || is_dibs_ino newparent
  | _ => false
  end.

(** C31. The virtual directory cannot be changed through the mount: every request
    that would write, truncate, create, delete or rename at or below a virtual
    inode is answered with [EACCES] and changes nothing, neither the tables nor
    the backing files. *)
Theorem virtual_read_only (r : Request) (w : World) (Hr : targets_virtual r = true) :
  handle r w = (Return (RError Errno.EACCES), w).
Proof.
  destruct r; cbn [targets_virtual] in Hr; try discriminate; cbn [handle];
    unfold setattr, open, write, create, mkdir, unlink, rmdir, rename, symlink;
    try by rewrite Hr.
  apply andb_prop in Hr as [Hd Hn%negb_true_iff]. by rewrite Hn, Hd.
Qed.

Lemma read_virtual_data content offset size :
  0 <= offset → 0 < size →
  read_virtual content offset size =
  RData (take (Z.to_nat size) (drop (Z.to_nat offset) (list_byte_of_string content))).
Proof.
  intros Ho Hs. unfold read_virtual. case_match eqn:Hl.
  - apply Z.leb_le in Hl. by rewrite drop_ge, take_nil by lia.
  - apply Z.leb_gt in Hl. f_equal.
    destruct (Z.min_spec (offset + size) (Z.of_nat (length (list_byte_of_string content))))
      as [[? ->]|[? ->]].
    + f_equal. lia.
    + rewrite !take_ge; [done|rewrite length_drop; lia..].
Qed.

(** The client of [read]: ask for [size] bytes, continue where the answer stopped,
    stop at an empty answer; the requests run one after the other, each in the
    world the previous one left.  [None] is an error or not enough rounds. *)
Fixpoint read_file (ino fh size : Z) (fuel : nat) (offset : Z) (w : World)
    : option (list byte) * World :=
  match fuel with
  | O => (None, w)
  | S fuel =>
      match handle (ReqRead ino fh offset size) w with
      | (Val (RData []), w) => (Some [], w)
      | (Val (RData d), w) =>
          let '(rest, w) := read_file ino fh size fuel (offset + Z.of_nat (length d)) w in
          (app d <$> rest, w)
      | (_, w) => (None, w)
      end
  end.

(** When every answer is a piece of one text, the client gets the text.  [I n]
    holds in the worlds in which [n] more requests are known to do so. *)
Lemma read_file_drop (I : nat → World → Prop) content ino fh size fuel offset w :
  (∀ n o w, I (S n) w →
     ∃ w', handle (ReqRead ino fh o size) w = (Val (read_virtual content o size), w') ∧ I n w') →
  0 <= offset → 0 < size → I fuel w →
  (Z.to_nat offset <= length (list_byte_of_string content) < Z.to_nat offset + fuel)%nat →
  ∃ n w', I n w' ∧ read_file ino fh size fuel offset w =
    (Some (drop (Z.to_nat offset) (list_byte_of_string content)), w').
Proof.
  intros HI. revert offset w. induction fuel as [|fuel IH]; intros offset w Ho Hs Hw Hl.
  { lia. }
  cbn [read_file]. destruct (HI _ offset _ Hw) as (w1&->&Hw1). rewrite read_virtual_data by done.
  destruct (take (Z.to_nat size) (drop (Z.to_nat offset) (list_byte_of_string content)))
    as [|b d] eqn:E; pose proof (f_equal length E) as El; rewrite length_take, length_drop in El;
    cbn [length] in El.
  { exists fuel, w1. split; [done|]. rewrite drop_ge by lia. done. }
  destruct (IH (offset + Z.of_nat (length (b :: d))) w1) as (n&w2&Hw2&->);
    [cbn [length]; lia|done|done|cbn [length]; lia|].
  exists n, w2. split; [done|]. cbn [fmap option_fmap option_map]. do 2 f_equal.
  rewrite <-E. rewrite length_take, Z2Nat.inj_add, Nat2Z.id, <-drop_drop by lia.
  apply take_drop_min.
Qed.

(** What the generators of the two files make of a world, as a function of the
    tables and, for [status], of the clock reading [now]. *)
Definition locks_text (w : World) : string :=
  result_unwrap_or "[]"
    (json_to_string_pretty (JArr (info_json <$> CasTable.all_entries (cas_table (w_fs w))))).

Definition uptime_at (w : World) (now : Z) : Z :=
  Z.max 0 (now - start_time (w_fs w)) / 1000000000.

Definition status_text (w : World) : string :=
  json_to_string (JObj
    [("tracked_files", JNum (Z.of_nat (CasTable.len (cas_table (w_fs w)))));
     ("active_locks", JNum (Z.of_nat (CasTable.active_writers (cas_table (w_fs w)))));
     ("uptime_seconds", JNum (uptime_at w (instant_now (w_clk w))));
     ("session_id", JStr (c_session_id (config (w_fs w))))]).

Lemma handle_read_locks fh offset size w :
  handle (ReqRead DIBS_LOCKS_INO fh offset size) w =
  (Val (read_virtual (locks_text w) offset size), w).
Proof. by destruct w. Qed.

Lemma handle_read_status fh offset size w :
  handle (ReqRead DIBS_STATUS_INO fh offset size) w =
  (Val (read_virtual (status_text w) offset size), mkWorld (w_fs w) (w_os w) (S (w_clk w))).
Proof. done. Qed.

(** C30. A virtual file read through the [read] handler in pieces of any positive
    size, each request from where the last answer stopped, until an empty answer,
    is read completely and in order, in at most as many requests as it has bytes,
    plus one, and reading changes no table and no backing file.  For [locks] this
    holds in every world.  [status] is generated anew for each request, with the
    uptime in it: its pieces form the text of the first request when the clock
    shows the same second of uptime at all of them. *)
Theorem virtual_read_complete (fh size : Z) (w : World) (Hsize : 0 < size) :
  (let text := list_byte_of_string (locks_text w) in
   read_file DIBS_LOCKS_INO fh size (S (length text)) 0 w = (Some text, w)) ∧
  (let text := list_byte_of_string (status_text w) in
   (∀ k, (k <= length text)%nat →
      uptime_at w (instant_now (w_clk w + k)) = uptime_at w (instant_now (w_clk w))) →
   ∃ clk, read_file DIBS_STATUS_INO fh size (S (length text)) 0 w =
     (Some text, mkWorld (w_fs w) (w_os w) clk)).
Proof.
  split; intros text; [|intros Hclk].
  - destruct (read_file_drop (λ _ w', w' = w) (locks_text w) DIBS_LOCKS_INO fh size
      (S (length text)) 0 w) as (n&w'&->&->); [|lia|done|done|fold text; lia|by rewrite drop_0].
    intros n o w1 ->. exists w. split; [apply handle_read_locks|done].
  - destruct (read_file_drop (λ n w', ∃ k, w' = mkWorld (w_fs w) (w_os w) (w_clk w + k) ∧
        (k + n <= S (length text))%nat) (status_text w) DIBS_STATUS_INO fh size
      (S (length text)) 0 w) as (n&w'&(k&->&_)&->);
      [|lia|done|exists 0%nat; rewrite Nat.add_0_r; by destruct w|fold text; lia|].
    + intros n o w1 (k&->&Hk). eexists. rewrite handle_read_status. split.
      * do 3 f_equal. unfold status_text. cbn [w_fs w_clk]. unfold uptime_at at 1.
        cbn [w_fs]. fold (uptime_at w (instant_now (w_clk w + k))). by rewrite Hclk by lia.
      * exists (S k). cbn [w_fs w_os w_clk]. split; [by rewrite Nat.add_succ_r|lia].
    + exists (w_clk w + k)%nat. by rewrite drop_0.
Qed.

(** ** Listing a directory in pages *)

(** The entries as the kernel sees them: each with the offset of the next one. *)
Fixpoint number (i : Z) (es : list raw_entry) : list DirEntry :=
  match es with
  | [] => []
  | (ino, kind, name) :: es => mkDirEntry ino (i + 1) kind name :: number (i + 1) es
  end.

Lemma number_app i l k : number i (l ++ k) = number i l ++ number (i + Z.of_nat (length l)) k.
Proof.
  revert i. induction l as [|[[ino kind] name] l IH]; intros i; simpl; [by rewrite Z.add_0_r|].
  f_equal. rewrite IH. do 2 f_equal. lia.
Qed.

Lemma length_number i l : length (number i l) = length l.
Proof. revert i. induction l as [|[[ino kind] name] l IH]; intros i; simpl; auto. Qed.

Lemma number_last i l e : last (number i l) = Some e → de_offset e = i + Z.of_nat (length l).
Proof.
  destruct l as [|[[ino kind] name] l _] using rev_ind; [done|].
  rewrite number_app, last_app. simpl. intros [= <-]. rewrite length_app. simpl. lia.
Qed.

(** A page is a run of the numbered entries; with an empty buffer it takes at
    least one entry if the buffer has room for it. *)
Lemma add_entries_spec full i es acc :
  ∃ l k, es = l ++ k ∧ add_entries full i es acc = acc ++ number i l ∧
    ((∀ e, full acc e = false) → es ≠ [] → l ≠ []).
Proof.
  revert i acc. induction es as [|[[ino kind] name] es IH]; intros i acc; cbn [add_entries].
  { exists [], []. simpl. by rewrite app_nil_r. }
  destruct (full acc (mkDirEntry ino (i + 1) kind name)) eqn:E.
  - exists [], ((ino, kind, name) :: es). simpl. rewrite app_nil_r. split; [done|]. split; [done|].
    intros Hf. by rewrite Hf in E.
  - destruct (IH (i + 1) (acc ++ [mkDirEntry ino (i + 1) kind name])) as (l&k&->&->&_).
    exists ((ino, kind, name) :: l), k. split; [done|]. split; [|done].
    by rewrite <-app_assoc.
Qed.

(** The client of [readdir]: ask for a page, continue from the offset of its last
    entry, stop at an empty page; the requests run one after the other, each in
    the world the previous one left.  [None] is an error or not enough rounds. *)
Fixpoint read_directory (full : list DirEntry → DirEntry → bool) (ino : Z) (fuel : nat)
    (offset : Z) (w : World) : option (list DirEntry) * World :=
  match fuel with
  | O => (None, w)
  | S fuel =>
      match handle (ReqReaddir full ino offset) w with
      | (Val (RDirectory page), w) =>
          match last page with
          | None => (Some [], w)
          | Some e =>
              let '(rest, w) := read_directory full ino fuel (de_offset e) w in
              (app page <$> rest, w)
          end
      | (_, w) => (None, w)
      end
  end.

(** When every answer pages through one list, in worlds satisfying [I], the
    client gets the list. *)
Lemma read_directory_drop (I : World → Prop) full ino es fuel offset w :
  (∀ e, full [] e = false) →
  (∀ o w, I w →
     ∃ w', handle (ReqReaddir full ino o) w = (Val (reply_entries full o es), w') ∧ I w') →
  0 <= offset → I w → (Z.to_nat offset <= length es < Z.to_nat offset + fuel)%nat →
  ∃ w', I w' ∧
    read_directory full ino fuel offset w = (Some (number offset (drop (Z.to_nat offset) es)), w').
Proof.
  intros Hf HI. revert offset w. induction fuel as [|fuel IH]; intros offset w Ho Hw Hl; [lia|].
  cbn [read_directory]. destruct (HI offset _ Hw) as (w1&->&Hw1). unfold reply_entries.
  destruct (add_entries_spec full offset (drop (Z.to_nat offset) es) []) as (l&k&Hd&->&Hne).
  pose proof (f_equal length Hd) as Hlen. rewrite length_drop, length_app in Hlen.
  rewrite app_nil_l. destruct (last (number offset l)) as [e|] eqn:E.
  - pose proof (number_last _ _ _ E) as ->. assert (l ≠ []) as Hl0 by by intros ->.
    destruct l as [|x l]; [done|]. cbn [length] in *.
    destruct (IH (offset + Z.of_nat (S (length l))) w1) as (w2&Hw2&->); [lia|done|lia|].
    exists w2. split; [done|]. cbn [fmap option_fmap option_map]. do 2 f_equal.
    rewrite Hd, number_app, Z2Nat.inj_add, Nat2Z.id, <-drop_drop, Hd by lia.
    by rewrite (drop_app_length' (x :: l)).
  - exists w1. split; [done|]. apply last_None in E. assert (l = []) as ->.
    { apply length_zero_iff_nil. by rewrite <-(length_number offset l), E. }
    simpl in Hd. subst k. destruct (drop (Z.to_nat offset) es); [done|]. by destruct Hne.
Qed.

(** ** Deleting and renaming *)

Section changes.
Context `{!PosixLaws}.

(** C13. A session cannot delete, move away or overwrite a file that changed
    since it read it: when its receipt for a name no longer matches the file,
    [unlink] of the name, [rename] from it, and [rename] onto it when it exists,
    are answered with [EIO] and change nothing. *)
Theorem stale_names_refused (pid parent : Z) (name : string) (w : World)
    (Hparent : is_dibs_ino parent = false)
    (Hstale : stale_receipt (session pid (w_os w)) (resolve_path (w_fs w) parent name).1
                (resolve_path (w_fs w) parent name).2 w) :
  handle (ReqUnlink pid parent name) w = (Return (RError Errno.EIO), w) ∧
  (∀ newparent newname, is_dibs_ino newparent = false →
     handle (ReqRename pid parent name newparent newname) w = (Return (RError Errno.EIO), w)) ∧
  (∀ oldparent oldname, is_dibs_ino oldparent = false →
     fs_exists (w_os w) (resolve_path (w_fs w) parent name).2 = true →
     handle (ReqRename pid oldparent oldname parent name) w = (Return (RError Errno.EIO), w)).
Proof.
  destruct (resolve_path (w_fs w) parent name) as [rel full] eqn:Er. simpl in Hstale.
  split_and!; [|intros np nn Hnp|intros op on Hop Hex]; cbn [handle]; apply wp_eq.
  - unfold unlink. rewrite Hparent. do 2 wp_prim. rewrite Er. wp_go; done.
  - unfold rename. rewrite Hparent, Hnp. cbn [orb]. do 2 wp_prim. rewrite Er.
    destruct (resolve_path (w_fs w) np nn). wp_go; done.
  - unfold rename. rewrite Hparent, Hop. cbn [orb]. do 2 wp_prim.
    destruct (resolve_path (w_fs w) op on). rewrite Er. simpl in Hex.
    wp_go; try done; congruence.
Qed.

(** C19. A deletion that goes through leaves nothing of the name: no session has a
    receipt for it, nobody owns it, it has no inode any more, and other paths keep
    their receipts and owners. *)
Theorem unlink_forgets (pid parent : Z) (name : string) (c : PathBuf) (w : World)
    (Hparent : is_dibs_ino parent = false)
    (Hfresh : ¬ stale_receipt (session pid (w_os w)) (resolve_path (w_fs w) parent name).1
                  (resolve_path (w_fs w) parent name).2 w)
    (Hc : path_to_cstring (resolve_path (w_fs w) parent name).2 = Ok c)
    (Hok : (sys_unlink (w_os w) c).1 = Ok tt) :
  let rel := (resolve_path (w_fs w) parent name).1 in
  let (e, w') := handle (ReqUnlink pid parent name) w in
  e = Val ROk ∧ w_os w' = (sys_unlink (w_os w) c).2 ∧
  InodeTable.get_ino rel (inodes (w_fs w')) = None ∧
  (∀ s, receipt s rel w' = None) ∧ owner_of rel w' = None ∧
  (∀ s q, q ≠ rel → receipt s q w' = receipt s q w ∧ owner_of q w' = owner_of q w).
Proof.
  intros rel. unfold rel. clear rel.
  destruct (resolve_path (w_fs w) parent name) as [rel full] eqn:Er. simpl in *.
  apply (wp_let (unlink pid parent name)). unfold unlink. rewrite Hparent. do 2 wp_prim. rewrite Er.
  rewrite Hc. wp_go; simplify_eq/=; try done; try congruence.
  split; [done|]. split; [done|]. split; [apply InodeTable.get_ino_remove|].
  split; [|split].
  - intros s. by apply CasTable.remove_eq.
  - by apply (CasTable.remove_eq rel _ 0).
  - intros s q Hq. by apply CasTable.remove_ne.
Qed.

(** ** From a name to an inode and back *)

Lemma not_dibs_ino ino :
  is_dibs_ino ino = false →
  (ino =? DIBS_DIR_INO) = false ∧ (ino =? DIBS_STATUS_INO) = false ∧
  (ino =? DIBS_LOCKS_INO) = false ∧ (ino =? DIBS_CONFLICTS_DIR_INO) = false.
Proof.
  intros Hi. split_and!; apply Z.eqb_neq; intros ->; discriminate Hi.
Qed.

Lemma set_own_ino a : set_ino (a_ino a) a = a.
Proof. by destruct a. Qed.

Lemma lookup_registers parent name w :
  (parent =? 1) && is_dibs_name name = false → parent ≠ DIBS_DIR_INO →
  wp (lookup parent name) (λ e w', ∀ ttl a gen, e = Val (REntry ttl a gen) → a_ino a ≠ 1 →
    ∃ st rel, InodeTable.get_path (a_ino a) (inodes (w_fs w')) = Some rel ∧
      lstat (w_os w') (backing_path (w_fs w') rel) = Ok st ∧ stat_to_file_attr st = Some a) w.
Proof.
  intros Hv Hp. unfold lookup, lookup_and_register. rewrite Hv.
  rewrite (proj2 (Z.eqb_neq _ _) Hp). do 2 wp_prim. wp_prim.
  wp_go; intros ttl a' gen [= <- <- <-]; simplify_eq/=; try done. intros _.
  unfold resolve_path in *. simplify_eq/=. eexists _, _. split_and!; [|done|done].
  apply InodeTable.get_path_insert.
Qed.

(** C27. A file found by name is the file its inode stands for: after a successful
    [lookup] outside the virtual directory, [getattr] of the inode number handed
    to the kernel returns the very same attributes and changes nothing. *)
Theorem lookup_then_getattr (parent ttl gen : Z) (name : string) (a : FileAttr) (w w' : World)
    (Hvirtual : (parent =? 1) && is_dibs_name name = false) (Hparent : parent ≠ DIBS_DIR_INO)
    (Hlookup : handle (ReqLookup parent name) w = (Val (REntry ttl a gen), w'))
    (Hroot : a_ino a ≠ 1) (Hreal : is_dibs_ino (a_ino a) = false) :
  handle (ReqGetattr (a_ino a)) w' = (Val (RAttr TTL a), w').
Proof.
  pose proof (lookup_registers parent name w Hvirtual Hparent) as Hl. unfold wp in Hl.
  cbn [handle] in Hlookup. rewrite Hlookup in Hl.
  destruct (Hl ttl a gen eq_refl Hroot) as (st&rel&Hp&Hst&Ha). simpl in Hp, Hst.
  destruct (not_dibs_ino _ Hreal) as (H1'&H2'&H3'&H4'). cbn [handle]. apply wp_eq.
  unfold getattr. do 2 wp_prim. rewrite (proj2 (Z.eqb_neq _ _) Hroot), H1', H2', H3', H4', Hp.
  wp_prim. cbn [require]. wp_prim. unfold reply_attr. do 2 wp_prim. rewrite Hst.
  wp_prim. cbn [require_io]. do 2 wp_prim. rewrite Ha. apply wp_unwrap. cbn [cont].
  apply wp_ret. by rewrite set_own_ino.
Qed.

(** ** What a listing contains *)

(** The entry of a name of the backing directory, if it is listed. *)
Definition child_entry (o : os) (dir rel : PathBuf) (raw : result string IoError)
    : option raw_entry :=
  match raw with
  | Err _ => None
  | Ok raw =>
      let name := to_string_lossy raw in
      if String.eqb name ".dibs-conflicts" then None
      else
        match lstat o (join_path dir (join rel name)) with
        | Ok st => a ← stat_to_file_attr st; Some (a_ino a, a_kind a, name)
        | Err _ => None
        end
  end.

(** Only the inode table differs. *)
Record only_inodes (w w' : World) : Prop := {
  oi_os : w_os w' = w_os w;
  oi_backing : backing (w_fs w') = backing (w_fs w);
  oi_handles : file_handles (w_fs w') = file_handles (w_fs w);
  oi_dirs : dir_handles (w_fs w') = dir_handles (w_fs w);
  oi_cas : cas_table (w_fs w') = cas_table (w_fs w)
}.

#[local] Instance only_inodes_preorder : PreOrder only_inodes.
Proof.
  split; [by intros w; split|]. intros w1 w2 w3 [] []. split; congruence.
Qed.

Lemma only_inodes_insert ino p w :
  only_inodes w (mkWorld (set_inodes (InodeTable.insert ino p) (w_fs w)) (w_os w) (w_clk w)).
Proof. by split. Qed.

Lemma list_children_spec rel names w :
  wp (list_children rel names) (λ e w',
    e = Val (omap (child_entry (w_os w) (backing (w_fs w)) rel) names) ∧ only_inodes w w') w.
Proof.
  revert w. induction names as [|[raw|e] names IH]; intros w; cbn [list_children omap list_omap
    child_entry]; [by apply wp_ret| |apply IH].
  wp_prim; [apply IH|]. do 2 wp_prim. do 2 wp_prim. unfold backing_path in *.
  wp_prim; [|apply IH].
  do 2 wp_prim. rename select (stat_to_file_attr _ = _) into Ha. rewrite Ha. cbn [mbind option_bind].
  do 3 wp_prim. wp_prim. eapply wp_mono; [apply IH|]. fs_proj. intros e w' [-> Hoi].
  cbn [cont]. apply wp_ret. split; [done|]. etrans; [apply only_inodes_insert|exact Hoi].
Qed.

(** C28. What [readdir] lists: for a registered real directory, the reply pages
    through its own entry, its parent's, the virtual directory at the root, and
    then every name of the backing directory that can be stat'ed, in the order
    of the backing directory, with the inode and kind of its [lstat]; the
    conflict directory of dibs is left out.  Nothing but the inode table
    changes. *)
Theorem readdir_lists (full : list DirEntry → DirEntry → bool) (ino offset : Z) (rel : PathBuf)
    (names : list (result string IoError)) (w : World)
    (Hreal : is_dibs_ino ino = false) (Hdir : dir_path (w_fs w) ino = Some rel)
    (Hnames : fs_read_dir (w_os w) (backing_path (w_fs w) rel) = Ok names) :
  let (e, w') := handle (ReqReaddir full ino offset) w in
  e = Val (reply_entries full offset
        ([(ino, Directory, "."%string); (parent_ino (w_fs w) ino rel, Directory, ".."%string)] ++
         (if ino =? 1 then [(DIBS_DIR_INO, Directory, DIBS_DIR_NAME)] else []) ++
         omap (child_entry (w_os w) (backing (w_fs w)) rel) names)) ∧
  only_inodes w w'.
Proof.
  destruct (not_dibs_ino _ Hreal) as (H1'&_&_&H4').
  apply (wp_let (handle (ReqReaddir full ino offset))). cbn [handle]. unfold readdir.
  rewrite H1', H4'. do 3 wp_prim. rewrite Hdir. cbn [require]. do 3 wp_prim. wp_prim.
  rewrite Hnames. cbn [require_io]. do 2 wp_prim.
  eapply wp_mono; [apply list_children_spec|]. intros e w' [-> Hoi]. cbn [cont]. by apply wp_ret.
Qed.
(** ** Listing a directory in pages *)

(** What one [readdir] of [ino], registered as [rel], lists: [readdir_lists]. *)
Definition directory_entries (w : World) (ino : Z) (rel : PathBuf)
    (names : list (result string IoError)) : list raw_entry :=
  [(ino, Directory, "."%string); (parent_ino (w_fs w) ino rel, Directory, ".."%string)] ++
  (if ino =? 1 then [(DIBS_DIR_INO, Directory, DIBS_DIR_NAME)] else []) ++
  omap (child_entry (w_os w) (backing (w_fs w)) rel) names.

Lemma list_children_keeps (P : InodeTable.t → Prop) rel names w :
  (∀ name i k it, Ok name ∈ names →
     child_entry (w_os w) (backing (w_fs w)) rel (Ok name) = Some (i, k, to_string_lossy name) →
     P it → P (InodeTable.insert i (join rel (to_string_lossy name)) it)) →
  P (inodes (w_fs w)) →
  wp (list_children rel names) (λ _ w', P (inodes (w_fs w'))) w.
Proof.
  revert w. induction names as [|[raw|e] names IH]; intros w HP Hw; cbn [list_children];
    [by apply wp_ret| |apply IH; [|done]; intros; apply (HP _ _ k); [by right|done..]].
  assert (∀ name i k it, Ok name ∈ names →
    child_entry (w_os w) (backing (w_fs w)) rel (Ok name) = Some (i, k, to_string_lossy name) →
    P it → P (InodeTable.insert i (join rel (to_string_lossy name)) it)) as HP'
    by (intros; apply (HP _ _ k); [by right|done..]).
  wp_prim; [by apply IH|]. do 2 wp_prim. do 2 wp_prim. unfold backing_path in *.
  wp_prim; [|by apply IH].
  do 2 wp_prim. rename select (stat_to_file_attr _ = _) into Ha. do 3 wp_prim. wp_prim.
  eapply wp_mono; [apply IH; fs_proj; [done|]|intros [] ? ?; cbn [cont]; done].
  eapply HP; [by left| |done]. unfold child_entry.
  repeat match goal with H : ?x = _ |- context [?x] => rewrite H end.
  reflexivity.
Qed.

(** No listed file has the inode number under which the directory itself, or the
    directory above, is registered. *)
Definition no_alias (it : InodeTable.t) (rel : PathBuf) (children : list raw_entry) : Prop :=
  ∀ c, c ∈ children →
    InodeTable.get_path c.1.1 it ≠ Some rel ∧
    InodeTable.get_path c.1.1 it ≠ Some (default path_empty (parent rel)).

(** The names are single components other than [.], as [read_dir] gives them. *)
Definition plain_names (names : list (result string IoError)) : Prop :=
  ∀ raw, Ok raw ∈ names → plain_name (to_string_lossy raw) = true.

(** What the entries of a directory depend on in the inode table. *)
Record dir_registered (ino : Z) (rel : PathBuf) (up : option Z) (children : list raw_entry)
    (it : InodeTable.t) : Prop := {
  dr_consistent : InodeTable.consistent it;
  dr_path : InodeTable.get_path ino it = Some rel;
  dr_parent : InodeTable.get_ino (default path_empty (parent rel)) it = up;
  dr_alias : no_alias it rel children
}.

Lemma dir_registered_insert ino rel up children it c name :
  plain_name name = true → c ∈ children →
  dir_registered ino rel up children it →
  dir_registered ino rel up children (InodeTable.insert c.1.1 (join rel name) it).
Proof.
  intros [Hj1 Hj2]%(join_ne rel) Hc [Hcons Hp Hup Ha]. destruct (Ha c Hc) as [Ha1 Ha2]. split.
  - by apply InodeTable.insert_consistent.
  - apply InodeTable.get_path_insert_ne; [done| |done|done]. intros ->. done.
  - by rewrite InodeTable.get_ino_insert_ne.
  - intros d Hd. destruct (Ha d Hd). split; intros [[_ ?]|?]%InodeTable.get_path_insert_inv;
      congruence.
Qed.

(** One [readdir] answers from [directory_entries] and keeps what they depend on. *)
Lemma readdir_run full ino offset rel names w :
  is_dibs_ino ino = false → dir_path (w_fs w) ino = Some rel →
  fs_read_dir (w_os w) (backing_path (w_fs w) rel) = Ok names →
  let children := omap (child_entry (w_os w) (backing (w_fs w)) rel) names in
  wp (handle (ReqReaddir full ino offset)) (λ e w',
    e = Val (reply_entries full offset (directory_entries w ino rel names)) ∧ only_inodes w w' ∧
    ∀ up, plain_names names → dir_registered ino rel up children (inodes (w_fs w)) →
      dir_registered ino rel up children (inodes (w_fs w'))) w.
Proof.
  intros Hreal Hdir Hnames children. destruct (not_dibs_ino _ Hreal) as (H1'&_&_&H4').
  cbn [handle]. unfold readdir. rewrite H1', H4'. do 3 wp_prim. rewrite Hdir. cbn [require].
  do 3 wp_prim. wp_prim. rewrite Hnames. cbn [require_io]. do 2 wp_prim.
  eapply wp_mono; [apply wp_and; [apply list_children_spec|
    apply (list_children_keeps (λ it, ∀ up, plain_names names →
      dir_registered ino rel up children (inodes (w_fs w)) →
      dir_registered ino rel up children it)); [|done]]|].
  - intros name i k it Hin Hce Hit up Hplain Hup.
    apply (dir_registered_insert _ _ _ _ _ (i, k, to_string_lossy name));
      [by apply Hplain|by apply list_elem_of_omap; eauto|by apply Hit].
  - intros e w' [[-> Hoi] Hk]. cbn [cont]. by apply wp_ret.
Qed.

(** C29. A directory read in pages through the [readdir] handler is complete:
    whatever the size of the kernel's buffer, as long as one entry fits, asking
    again from the offset of the last entry until an empty page returns every
    entry of the directory once, in order, numbered from 1, in at most as many
    requests as entries, plus one, although each request reads the directory
    anew and registers the files it lists.  For the root nothing else is needed;
    for another directory, that its names are plain, that the inode table is
    consistent ([reachable_consistent]), and that no file in it is registered as
    that directory or as the one above. *)
Theorem listing_pages_complete (full : list DirEntry → DirEntry → bool) (ino : Z) (rel : PathBuf)
    (names : list (result string IoError)) (w : World) (Hfits : ∀ e, full [] e = false)
    (Hreal : is_dibs_ino ino = false) (Hdir : dir_path (w_fs w) ino = Some rel)
    (Hnames : fs_read_dir (w_os w) (backing_path (w_fs w) rel) = Ok names)
    (Halias : ino ≠ 1 → plain_names names ∧ InodeTable.consistent (inodes (w_fs w)) ∧
       no_alias (inodes (w_fs w)) rel (omap (child_entry (w_os w) (backing (w_fs w)) rel) names)) :
  let es := directory_entries w ino rel names in
  ∃ w', read_directory full ino (S (length es)) 0 w = (Some (number 0 es), w') ∧ only_inodes w w'.
Proof.
  intros es. set (children := omap _ _) in Halias.
  destruct (read_directory_drop (λ w', only_inodes w w' ∧ (ino ≠ 1 →
      dir_registered ino rel (InodeTable.get_ino (default path_empty (parent rel)) (inodes (w_fs w)))
        children (inodes (w_fs w')))) full ino es (S (length es)) 0 w)
    as (w'&[Hoi _]&Hr); [done| |done| |lia|exists w'; by rewrite drop_0 in Hr].
  - intros o w1 [Hoi Hdr]. destruct Hoi as [Eo Eb Eh Ed Ec].
    assert (dir_path (w_fs w1) ino = Some rel) as Hdir1.
    { unfold dir_path in *. destruct (Z.eqb_spec ino 1) as [->|Hne]; [exact Hdir|].
      apply (dr_path _ _ _ _ _ (Hdr Hne)). }
    assert (parent_ino (w_fs w1) ino rel = parent_ino (w_fs w) ino rel) as Hpar.
    { unfold parent_ino. destruct (Z.eqb_spec ino 1); [done|].
      destruct (Hdr ltac:(done)) as [_ _ Hup _]. by rewrite Hup. }
    assert (directory_entries w1 ino rel names = es) as <-.
    { unfold es, directory_entries. by rewrite Hpar, Eo, Eb. }
    pose proof (readdir_run full ino o rel names w1 Hreal Hdir1) as Hrun.
    cbv zeta in Hrun. unfold wp, backing_path in Hrun. rewrite Eo, Eb in Hrun.
    destruct (Hrun Hnames) as (He&Hoi1&Hk).
    exists (handle (ReqReaddir full ino o) w1).2. rewrite <-He. split; [by destruct (handle _ w1)|].
    split; [etrans; [|exact Hoi1]; by split|]. intros Hne. apply Hk, Hdr, Hne. by apply Halias.
  - split; [done|]. intros Hne. destruct (Halias Hne) as (_&?&?). split; [done| |done|done].
    unfold dir_path in Hdir. by rewrite (proj2 (Z.eqb_neq _ _) Hne) in Hdir.
Qed.
End changes.
End names.

#[local] Abbreviation s_read_file :=
  (@read_file mem_posix toy_digests tick_clocks plain_crates canonical_iter).
#[local] Abbreviation s_read_directory :=
  (@read_directory mem_posix toy_digests tick_clocks plain_crates canonical_iter).

Lemma virtual_read_only_witness :
  @handle mem_posix toy_digests tick_clocks plain_crates canonical_iter
    (ReqUnlink 100 DIBS_DIR_INO "status") sample_world
  = (Return (RError Errno.EACCES), sample_world).
Proof.
  exact (@virtual_read_only mem_posix toy_digests tick_clocks plain_crates canonical_iter
    (ReqUnlink 100 DIBS_DIR_INO "status") sample_world eq_refl).
Defined.

(** The sample world's [locks], two bytes at a time, and its [status]: the sample
    clock advances by a nanosecond per reading. *)
Lemma virtual_read_complete_witness :
  let locks := list_byte_of_string (@locks_text mem_posix tick_clocks plain_crates canonical_iter sample_read) in
  let status := list_byte_of_string (@status_text mem_posix tick_clocks plain_crates canonical_iter sample_read) in
  s_read_file DIBS_LOCKS_INO 0 2 (S (length locks)) 0 sample_read = (Some locks, sample_read) ∧
  (s_read_file DIBS_STATUS_INO 0 2 (S (length status)) 0 sample_read).1 = Some status.
Proof.
  destruct (@virtual_read_complete mem_posix toy_digests tick_clocks plain_crates canonical_iter
    0 2 sample_read eq_refl) as [Hl Hs].
  split; [exact Hl|]. destruct Hs as [clk Hs]; [|exact (f_equal fst Hs)].
  intros k Hk. revert Hk.
  replace (length _) with 52%nat by (vm_compute; reflexivity).
  replace (w_clk sample_read) with 2%nat by (vm_compute; reflexivity). intros Hk.
  unfold uptime_at. replace (start_time (w_fs sample_read)) with 0 by (vm_compute; reflexivity).
  cbn [instant_now tick_clocks]. rewrite !Z.div_small by lia. reflexivity.
Defined.

Lemma stale_names_refused_witness :
  (s_handle (ReqUnlink 100 1 "f") sample_changed).1 = Return (RError Errno.EIO).
Proof.
  destruct (@stale_names_refused mem_posix toy_digests tick_clocks plain_crates canonical_iter
    mem_posix_laws 100 1 "f" sample_changed) as [Hu _]; [reflexivity| |by rewrite Hu].
  exists (sample_hash "one"), (sample_hash "two").
  split_and!; [vm_compute; reflexivity..|vm_compute; discriminate].
Defined.

Lemma unlink_forgets_witness :
  (s_handle (ReqUnlink 100 1 "f") sample_read).1 = Val ROk ∧
  @receipt mem_posix 10 (parse "f") (s_handle (ReqUnlink 100 1 "f") sample_read).2 = None.
Proof.
  pose proof (@unlink_forgets mem_posix toy_digests tick_clocks plain_crates canonical_iter
    mem_posix_laws 100 1 "f" (parse "/b/f") sample_read) as Hu. cbv zeta in Hu.
  destruct (s_handle (ReqUnlink 100 1 "f") sample_read) as [e w']. cbn [fst snd].
  destruct Hu as (->&_&_&Hr&_); [reflexivity| |vm_compute; reflexivity..|split; [done|apply Hr]].
  intros (h&actual&Hh&Ha&Hne). vm_compute in Hh, Ha. injection Hh as <-. injection Ha as <-.
  by apply Hne.
Defined.

Lemma lookup_then_getattr_witness :
  ∃ a, (s_handle (ReqGetattr 3) sample_world).1 = Val (RAttr TTL a).
Proof.
  destruct (s_handle (ReqLookup 1 "f") sample_mounted) as [e w'] eqn:E.
  assert (w' = sample_world) as -> by (unfold sample_world; by rewrite E).
  assert ((s_handle (ReqLookup 1 "f") sample_mounted).1 = e) as He by by rewrite E.
  vm_compute in He. subst e.
  pose proof (@lookup_then_getattr mem_posix toy_digests tick_clocks plain_crates canonical_iter
    mem_posix_laws 1 _ _ "f" _ _ _ eq_refl ltac:(discriminate) E) as Hg.
  eexists. change 3 with (a_ino (mkAttr 3 3 0 0 0 0 0 RegularFile 420 1 0 0 0 4096 0)).
  rewrite Hg; [reflexivity|discriminate|reflexivity].
Defined.

(** The root of the sample file system holds one file. *)
Lemma readdir_lists_witness :
  (s_handle (ReqReaddir (λ _ _, false) 1 0) sample_world).1 =
  Val (RDirectory [mkDirEntry 1 1 Directory "."; mkDirEntry 1 2 Directory "..";
                   mkDirEntry DIBS_DIR_INO 3 Directory ".dibs"; mkDirEntry 3 4 RegularFile "f"]).
Proof.
  pose proof (@readdir_lists mem_posix toy_digests tick_clocks plain_crates canonical_iter
    mem_posix_laws (λ _ _, false) 1 0 path_empty [Ok "f"%string] sample_world) as Hr.
  destruct (s_handle (ReqReaddir (λ _ _, false) 1 0) sample_world) as [e w'].
  destruct Hr as [-> _]; vm_compute; reflexivity.
Defined.

(** A directory [d] with a link in it, made through the mount, read in pages of
    at most two entries. *)
Definition sample_dir : World :=
  (s_handle (ReqSymlink 4 "l" (parse "x")) (s_handle (ReqMkdir 1 "d" 493) sample_world).2).2.

Lemma listing_pages_complete_witness :
  (s_read_directory (λ acc _, (2 <=? length acc)%nat) 4 4 0 sample_dir).1 =
  Some [mkDirEntry 4 1 Directory "."; mkDirEntry 1 2 Directory "..";
        mkDirEntry 5 3 Symlink "l"].
Proof.
  pose proof (@listing_pages_complete mem_posix toy_digests tick_clocks plain_crates canonical_iter
    mem_posix_laws (λ acc _, (2 <=? length acc)%nat) 4 (parse "d") [Ok "l"%string] sample_dir
    (λ _, eq_refl)) as Hr.
  destruct Hr as (w'&Hw&_); [vm_compute; reflexivity..| |exact (f_equal fst Hw)].
  intros _. split_and!.
  - intros raw [= ->]%list_elem_of_singleton. reflexivity.
  - assert (map_Forall (λ p i, InodeTable.ino_to_path (inodes (w_fs sample_dir)) !! i = Some p)
      (InodeTable.path_to_ino (inodes (w_fs sample_dir)))) as Hc; [|exact Hc].
    apply (bool_decide_eq_true_1 _). vm_compute. reflexivity.
  - assert (omap (@child_entry mem_posix (w_os sample_dir) (backing (w_fs sample_dir)) (parse "d"))
      [Ok "l"%string] = [(5, Symlink, "l"%string)]) as -> by (vm_compute; reflexivity).
    intros c ->%list_elem_of_singleton. split; vm_compute; discriminate.
Defined.
