(* ===== verification/FsLimits.v ===== *)
(** * FsLimits: where the protection does not hold

    Behaviours of the handlers that let a change slip past the check, or keep a
    path locked after its writer is gone, each proved of the handlers for every
    state and shown on a concrete run. *)
From S2P Require Import Prelude Paths Env Handles Inodes Passthrough Cas HashTable Config Fs.
From S2P Require Import FsLogic FsFile FsDir FsTrace FsProps FsNames Sample.

Local Open Scope Z_scope.

Section limits.
Context `{Posix} `{Digests} `{Clocks} `{Crates} `{DashMapIter} `{!PosixLaws}.
Implicit Types (w : World) (p : PathBuf).

(** C35. The check before a write asks whether some handle owns the path, not
    whether this one does: while another handle owns the path, a write through
    any handle of it goes to the file with no check at all, however stale the
    hash the handle relies on. *)
Theorem foreign_owner_write_unchecked (ino fh offset other : Z) (data : list byte)
    (h : HandleState) (w : World)
    (Hino : is_dibs_ino ino = false)
    (Hh : HandleTable.get fh (file_handles (w_fs w)) = Some h)
    (Howner : owner_of (h_path h) w = Some other) (Hother : other ≠ fh) :
  let (e, w') := handle (ReqWrite ino fh offset data) w in
  w_os w' = (sys_pwrite (w_os w) (h_real_fd h) data (as_i64 offset)).2 ∧
  (∀ n, (sys_pwrite (w_os w) (h_real_fd h) data (as_i64 offset)).1 = Ok n →
     e = Val (RWritten (as_u32 n))) ∧
  owner_of (h_path h) w' = Some other.
Proof.
  apply (wp_let (handle (ReqWrite ino fh offset data))), (wp_write ino fh offset data h w Hino Hh).
  - intros _. wp_run; (split; [done|]); (split; [intros; congruence|]); exact Howner.
  - intros r ct Ho. congruence.
  - intros r ct Ho. congruence.
Qed.

(** A write-only open refused because the session's view is stale has already
    performed the backing [open] with the caller's flags: the backing file system
    afterwards is the one after that [open] and its [close], so an [O_TRUNC]
    passed along has emptied the file whose contents the refusal protects. *)
Theorem refused_open_has_opened (pid ino flags fd : Z) p (c : PathBuf) (h0 h1 : list byte)
    (n : Z) (w : World)
    (Hinv : inv n w) (Hfile : names_file ino p w)
    (Hmode : Z.land flags O_ACCMODE = O_WRONLY)
    (Hreceipt : receipt (session pid (w_os w)) p w = Some h0)
    (Hnow : file_hash p w = Some (Ok h1)) (Hchanged : h0 ≠ h1)
    (Hc : path_to_cstring (backing_path (w_fs w) p) = Ok c)
    (Hfd : (sys_open (w_os w) c flags None).1 = Ok fd) :
  let (e, w') := handle (ReqOpen pid ino flags) w in
  e = Return (RError Errno.EIO) ∧ w_os w' = sys_close (sys_open (w_os w) c flags None).2 fd.
Proof.
  apply (wp_let (handle (ReqOpen pid ino flags))), (wp_open_file _ _ _ p); [done|..];
    rewrite Hc; [done| |intros ????; by rewrite Hmode|].
  - intros c' e [= <-]. congruence.
  - intros c' fd' r [= <-] Hfd' _ Hh. unfold file_hash in Hnow. rewrite Hh in Hnow. simplify_eq/=.
    assert (fd' = fd) as -> by congruence.
    eapply wp_mono; [apply (open_write_stale p flags (session pid (w_os w)) fd h0 h1
      (with_os w _) Hmode Hreceipt Hchanged (inv_handles n w Hinv) (inv_not_owner n w p Hinv))|].
    simpl. by intros e w' (->&->&_).
Qed.

(** Truncating a path without a handle is never checked: whatever receipts
    and owners there are, the file is truncated and the tables are unchanged. *)
Theorem truncate_without_handle_unchecked (ino size : Z) p (c : PathBuf) (w : World)
    (Hfile : names_file ino p w) (Hc : path_to_cstring (backing_path (w_fs w) p) = Ok c)
    (Hok : (sys_truncate (w_os w) c (as_i64 size)).1 = Ok tt) :
  let (e, w') := handle (ReqSetattr ino None None None (Some size) None None None None) w in
  w_os w' = (sys_truncate (w_os w) c (as_i64 size)).2 ∧ w_fs w' = w_fs w.
Proof.
  destruct Hfile as [Hi Hp].
  apply (wp_let (handle (ReqSetattr ino None None None (Some size) None None None None))).
  cbn [handle]. unfold setattr. rewrite Hi. do 3 wp_prim. rewrite Hp. cbn [require].
  do 2 wp_prim. rewrite Hc. cbn [result_ok require]. wp_prim.
  unfold setattr_truncate, setattr_mode, setattr_owner, setattr_times, setattr_flags, reply_attr.
  rewrite bool_decide_eq_false_2 by by intros [? ?]. wp_go; by simplify_eq/=.
Qed.

(** A request that names a parent inode dibs does not know is carried out in
    the root of the mount: a [lookup], deletion or creation of [name] under a
    forgotten parent acts on the file [name] of the root directory.  The virtual
    conflicts directory is such a parent for [lookup]. *)
Theorem unknown_parent_is_root (pid parent mode flags : Z) (name : string) (w : World)
    (Hunknown : InodeTable.get_path parent (inodes (w_fs w)) = None) :
  resolve_path (w_fs w) parent name = resolve_path (w_fs w) 1 name ∧
  (parent ≠ DIBS_DIR_INO → is_dibs_name name = false →
   handle (ReqLookup parent name) w = handle (ReqLookup 1 name) w) ∧
  (is_dibs_ino parent = false →
   handle (ReqUnlink pid parent name) w = handle (ReqUnlink pid 1 name) w ∧
   handle (ReqCreate pid parent name mode flags) w = handle (ReqCreate pid 1 name mode flags) w).
Proof.
  assert (resolve_path (w_fs w) parent name = resolve_path (w_fs w) 1 name) as Hr.
  { unfold resolve_path. rewrite Hunknown. by destruct (parent =? 1). }
  split; [done|]. split.
  - intros Hp Hn. cbn [handle]. unfold lookup. rewrite Hn, !andb_false_r.
    rewrite (proj2 (Z.eqb_neq _ _) Hp). change (1 =? DIBS_DIR_INO) with false. cbv iota.
    by rewrite !get_fs_bind, Hr.
  - intros Hp. cbn [handle]. unfold unlink, create. rewrite Hp.
    change (is_dibs_ino 1) with false. cbv iota. by rewrite !get_fs_bind, Hr.
Qed.

Lemma rename_moves_tracking pid parent name newparent newname w :
  wp (rename pid parent name newparent newname) (λ e w', e = Val ROk →
    file_handles (w_fs w') = file_handles (w_fs w) ∧
    cas_table (w_fs w') = CasTable.rename (resolve_path (w_fs w) parent name).1
      (resolve_path (w_fs w) newparent newname).1 (cas_table (w_fs w))) w.
Proof. unfold rename. wp_go; try done. Qed.

(** C36. Renaming a file that is open for writing locks it for good: the ownership
    moves to the new name but the handle keeps the old one, so releasing the
    handle does not give the new name back.  Afterwards the handle is gone, the
    new name is owned by it, and every write check of another handle for the new
    name is refused. *)
Theorem rename_leaks_ownership (pid parent newparent fh : Z) (name newname : string)
    (h : HandleState) (w : World)
    (Hh : HandleTable.get fh (file_handles (w_fs w)) = Some h)
    (Hold : (resolve_path (w_fs w) parent name).1 = h_path h)
    (Hne : (resolve_path (w_fs w) newparent newname).1 ≠ h_path h)
    (Howner : owner_of (h_path h) w = Some fh)
    (Hok : (handle (ReqRename pid parent name newparent newname) w).1 = Val ROk) :
  let w1 := (handle (ReqRename pid parent name newparent newname) w).2 in
  let w2 := (handle (ReqRelease fh) w1).2 in
  let new := (resolve_path (w_fs w) newparent newname).1 in
  HandleTable.get fh (file_handles (w_fs w2)) = None ∧ owner_of new w2 = Some fh ∧
  ∀ fh' sid actual, fh' ≠ fh → ¬ may_write new fh' sid actual w2.
Proof.
  intros w1 w2 new.
  destruct (rename_moves_tracking pid parent name newparent newname w Hok) as [Hfh Hct].
  pose proof (wp_release fh w1) as (_&Hfh2&_&Hrel). 
  change (rename pid parent name newparent newname w).2 with w1 in Hfh, Hct.
  change (release fh w1).2 with w2 in Hfh2, Hrel.
  rewrite Hfh in Hfh2, Hrel. rewrite Hh in Hrel. destruct Hrel as [Hct2 _].
  assert (owner_of new w2 = Some fh) as Hnew.
  { unfold owner_of. rewrite Hct2, CasTable.release_owner, decide_False by naive_solver.
    rewrite Hct, Hold. unfold CasTable.owner. rewrite CasTable.rename_entries.
    unfold owner_of, CasTable.owner in Howner.
    destruct (CasTable.entries (cas_table (w_fs w)) !! h_path h) as [st|]; [|done].
    by rewrite decide_True by done. }
  split; [by rewrite Hfh2, HandleTable.get_remove, decide_True|]. split; [done|].
  intros fh' sid actual Hf [Ho|[Ho _]]; congruence.
Qed.

(** A truncation that goes through makes its handle the owner of the path the
    inode is registered under, whatever path the handle was opened under. *)
Lemma truncate_acquires ino fh size mode uid gid atime mtime flags q w :
  names_file ino q w →
  wp (handle (ReqSetattr ino mode uid gid (Some size) atime mtime (Some fh) flags))
    (λ e w', ∀ r, e = Val r →
       owner_of q w' = Some fh ∧ file_handles (w_fs w') = file_handles (w_fs w)) w.
Proof.
  intros [Hi Hp]. cbn [handle]. unfold setattr. rewrite Hi. do 3 wp_prim. rewrite Hp.
  cbn [require]. do 2 wp_prim.
  unfold setattr_truncate, setattr_mode, setattr_owner, setattr_times, setattr_flags, reply_attr.
  wp_go; intros ? [= <-]; fs_proj.
  all: match goal with E : CasTable.check_and_acquire_write ?ne ?na ?q ?f ?s ?ht ?a ?ct = _ |- _ =>
         pose proof (CasTable.check_owner ne na q f s ht a ct) as Ho; rewrite E in Ho end.
  all: unfold owner_of; fs_proj; done.
Qed.

(** Truncating through a handle an inode registered under another path than the
    handle's (a hard link made outside the mount and looked up while the file is
    open under its first name) makes the handle the owner of that other path;
    releasing it gives back only the path it was opened under.  Afterwards the
    handle is gone and the other path is refused to every writer. *)
Theorem truncate_alias_leaks_ownership (ino fh size : Z) (q : PathBuf) (h : HandleState) (r : Reply)
    (mode uid gid flags : option Z) (atime mtime : option TimeOrNow) (w : World)
    (Hfile : names_file ino q w) (Hh : HandleTable.get fh (file_handles (w_fs w)) = Some h)
    (Hne : q ≠ h_path h) :
  let (e, w1) := handle (ReqSetattr ino mode uid gid (Some size) atime mtime (Some fh) flags) w in
  e = Val r →
  let w2 := (handle (ReqRelease fh) w1).2 in
  HandleTable.get fh (file_handles (w_fs w2)) = None ∧ owner_of q w2 = Some fh ∧
  ∀ fh' sid actual, fh' ≠ fh → ¬ may_write q fh' sid actual w2.
Proof.
  apply (wp_let (handle _)). eapply wp_mono; [by apply (truncate_acquires _ _ _ _ _ _ _ _ _ q)|].
  intros e w1 Hw1 He w2. destruct (Hw1 r He) as [Ho Hfh].
  pose proof (wp_release fh w1) as (_&Hfh2&_&Hrel). change (release fh w1).2 with w2 in Hfh2, Hrel.
  rewrite Hfh in Hfh2, Hrel. rewrite Hh in Hrel. destruct Hrel as [Hct2 _].
  assert (owner_of q w2 = Some fh) as Hq.
  { unfold owner_of. rewrite Hct2, CasTable.release_owner, decide_False by naive_solver. exact Ho. }
  split; [by rewrite Hfh2, HandleTable.get_remove, decide_True|]. split; [done|].
  intros fh' sid actual Hf [Ho'|[Ho' _]]; congruence.
Qed.
End limits.

(** ** Concrete runs *)

Definition sample_run (rs : list Request) (w : @World mem_posix) : @World mem_posix :=
  foldl (λ w r, (s_handle r w).2) w rs.

(** Session 10 writes [f] through handle 1 and flushes; session 20 opens it for
    writing as handle 2, writes, and has not closed it yet. *)
Definition sample_two_writers : @World mem_posix :=
  sample_run [ReqOpen 100 3 O_RDWR; ReqWrite 3 1 0 (list_byte_of_string "two"); ReqFlush 3 1;
              ReqOpen 200 3 O_WRONLY; ReqWrite 3 2 0 (list_byte_of_string "six")] sample_world.

Lemma foreign_owner_write_unchecked_witness :
  let w' := (s_handle (ReqWrite 3 1 0 (list_byte_of_string "old")) sample_two_writers).2 in
  mem_content (w_os sample_two_writers) (parse "/b/f") = Some (list_byte_of_string "six") ∧
  mem_content (w_os w') (parse "/b/f") = Some (list_byte_of_string "old").
Proof.
  split; [vm_compute; reflexivity|].
  destruct (HandleTable.get 1 (file_handles (w_fs sample_two_writers))) as [h|] eqn:Hh;
    [|vm_compute in Hh; discriminate].
  pose proof (@foreign_owner_write_unchecked mem_posix toy_digests tick_clocks plain_crates
    canonical_iter mem_posix_laws 3 1 0 2 (list_byte_of_string "old") h sample_two_writers
    eq_refl Hh) as Hw.
  destruct (s_handle (ReqWrite 3 1 0 (list_byte_of_string "old")) sample_two_writers) as [e w'].
  vm_compute in Hh. injection Hh as <-. cbn [snd].
  destruct Hw as (->&_); [vm_compute; reflexivity|discriminate|vm_compute; reflexivity].
Defined.

Lemma refused_open_has_opened_witness :
  let (e, w') := s_handle (ReqOpen 100 3 (Z.lor O_WRONLY O_TRUNC)) sample_changed in
  e = Return (RError Errno.EIO) ∧
  mem_content (w_os sample_changed) (parse "/b/f") = Some (list_byte_of_string "two") ∧
  mem_content (w_os w') (parse "/b/f") = Some [].
Proof.
  destruct (@read_before_inv mem_posix toy_digests tick_clocks plain_crates canonical_iter
    mem_posix_laws 10 (parse "f") (sample_hash "one") sample_changed) as [n Hn].
  { apply (sample_read_before [@EvExternal mem_posix (mem_with [("/b/f", "two")%string])]);
      [|vm_compute; reflexivity].
    eapply quiet_cons; [exact I|by constructor|constructor]. }
  pose proof (@refused_open_has_opened mem_posix toy_digests tick_clocks plain_crates
    canonical_iter mem_posix_laws 100 3 (Z.lor O_WRONLY O_TRUNC) 4 (parse "f") (parse "/b/f")
    (sample_hash "one") (sample_hash "two") n sample_changed Hn) as Hr.
  destruct (s_handle (ReqOpen 100 3 (Z.lor O_WRONLY O_TRUNC)) sample_changed) as [e w'].
  destruct Hr as [-> ->].
  - split; vm_compute; reflexivity.
  - reflexivity.
  - vm_compute; reflexivity.
  - vm_compute; reflexivity.
  - vm_compute; discriminate.
  - vm_compute; reflexivity.
  - vm_compute; reflexivity.
  - split_and!; vm_compute; reflexivity.
Defined.

Lemma truncate_without_handle_unchecked_witness :
  let w' := (s_handle (ReqSetattr 3 None None None (Some 0) None None None None)
               sample_two_writers).2 in
  mem_content (w_os w') (parse "/b/f") = Some [] ∧
  @owner_of mem_posix (parse "f") w' = Some 2.
Proof.
  pose proof (@truncate_without_handle_unchecked mem_posix toy_digests tick_clocks plain_crates
    canonical_iter mem_posix_laws 3 0 (parse "f") (parse "/b/f") sample_two_writers) as Ht.
  destruct (s_handle (ReqSetattr 3 None None None (Some 0) None None None None)
    sample_two_writers) as [e w']. cbn [snd].
  destruct Ht as [Hos Hfs]; [split; vm_compute; reflexivity|vm_compute; reflexivity..|].
  unfold owner_of. rewrite Hos, Hfs. split; vm_compute; reflexivity.
Defined.

Lemma unknown_parent_is_root_witness :
  mem_content (w_os (s_handle (ReqUnlink 100 99 "f") sample_world).2) (parse "/b/f") = None.
Proof.
  destruct (@unknown_parent_is_root mem_posix toy_digests tick_clocks plain_crates
    canonical_iter 100 99 0 0 "f" sample_world) as (_&_&Hu); [vm_compute; reflexivity|].
  destruct Hu as [Hu _]; [reflexivity|]. rewrite Hu. vm_compute. reflexivity.
Defined.

(** Session 10 opens [f] for writing as handle 1. *)
Definition sample_writer : @World mem_posix := sample_run [ReqOpen 100 3 O_WRONLY] sample_world.

Lemma rename_leaks_ownership_witness :
  let w' := sample_run [ReqRename 100 1 "f" 1 "g"; ReqRelease 1] sample_writer in
  @owner_of mem_posix (parse "g") w' = Some 1 ∧
  (s_handle (ReqOpen 200 3 O_WRONLY) w').1 = Return (RError Errno.EIO).
Proof.
  destruct (HandleTable.get 1 (file_handles (w_fs sample_writer))) as [h|] eqn:Hh;
    [|vm_compute in Hh; discriminate].
  pose proof (@rename_leaks_ownership mem_posix toy_digests tick_clocks plain_crates
    canonical_iter mem_posix_laws 100 1 1 1 "f" "g" h sample_writer Hh) as Hl.
  vm_compute in Hh. injection Hh as <-. split; [|vm_compute; reflexivity].
  apply Hl; [vm_compute; reflexivity|vm_compute; discriminate|vm_compute; reflexivity..].
Defined.

(** Session 10 opens [f] for writing as handle 1; a second name [g] of the file
    appears in the backing directory and is looked up; the file is truncated
    through the handle, and the handle released: nothing is open, [g] is owned. *)
Definition mem_link (p : PathBuf) (i : Z) (m : mem_os) : mem_os :=
  mkMem (<[p := i]> (m_names m)) (m_nodes m) (m_fds m) (m_next m).

Definition sample_alias : @World mem_posix :=
  let w := sample_writer in
  (s_handle (ReqLookup 1 "g")
     (mkWorld (w_fs w) (mem_link (parse "/b/g") 3 (w_os w) : @os mem_posix) (w_clk w))).2.

Example truncate_alias_run :
  let w := sample_run [ReqSetattr 3 None None None (Some 1) None None (Some 1) None; ReqRelease 1]
             sample_alias in
  HandleTable.count (file_handles (w_fs w)) = 0%nat ∧
  CasTable.owner (parse "g") (cas_table (w_fs w)) = Some 1 ∧
  (s_handle (ReqOpen 200 3 O_WRONLY) w).1 = Return (RError Errno.EIO).
Proof. split_and!; vm_compute; reflexivity. Qed.
