(* ===== verification/FsAttr.v ===== *)
(** * FsAttr: what setattr does (src/fs/mod.rs)

    [setattr] bundles up to five system calls.  The reference is a list of
    calls, in order, run until the first one fails; the handler is shown to do
    just that, with the check of the CAS table in front of a truncation through
    an open handle. *)
From S2P Require Import Prelude Paths Env Handles Inodes Passthrough Cas HashTable Config Fs.
From S2P Require Import FsLogic FsFile FsDir Sample FsTrace FsProps.

Local Open Scope Z_scope.

Section setattr.
Context `{Posix} `{Digests} `{Clocks} `{Crates}.

(** ** The reference *)

Abbreviation syscalls := (list (os → result unit Z * os)).

(** Run the calls up to the first that fails: its error number, and the state. *)
Fixpoint run_calls (o : os) (cs : syscalls) : option Z * os :=
  match cs with
  | [] => (None, o)
  | c :: cs =>
      match (c o).1 with
      | Ok _ => run_calls (c o).2 cs
      | Err e => (Some e, (c o).2)
      end
  end.

Definition given {A} (a : option A) : bool := bool_decide (is_Some a).

(** The calls the arguments ask for. *)
Definition truncate_calls (ht : HandleTable.t) (full : PathBuf) (size fh : option Z) : syscalls :=
  match size with
  | None => []
  | Some n =>
      match (fh ← fh; HandleTable.get fh ht) with
      | Some h => [λ o, sys_ftruncate o (h_real_fd h) (as_i64 n)]
      | None => [λ o, sys_truncate o full (as_i64 n)]
      end
  end.

Definition attr_calls (full : PathBuf) (mode uid gid : option Z) (atime mtime : option TimeOrNow)
    (flags : option Z) : syscalls :=
  match mode with Some m => [λ o, sys_chmod o full (as_u16 m)] | None => [] end ++
  (if given uid || given gid
   then [λ o, sys_chown o full (default u32_MAX uid) (default u32_MAX gid)] else []) ++
  (if given atime || given mtime
   then [λ o, sys_utimensat o full (to_timespec atime) (to_timespec mtime)] else []) ++
  match flags with Some f => [λ o, sys_chflags o full f] | None => [] end.

(** The reply after the calls. *)
Definition attr_reply (ino : Z) (full : PathBuf) (r : option Z * os) (x : Reply) : Prop :=
  match r.1 with
  | Some e => x = RError (errno_from_io (OsError e))
  | None =>
      match lstat r.2 full with
      | Err e => x = RError (errno_from_io e)
      | Ok st => ∃ a, stat_to_file_attr st = Some a ∧ x = RAttr TTL (set_ino ino a)
      end
  end.

(** The check in front of a truncation through a handle refuses it. *)
Definition truncate_refused (rel : PathBuf) (size fh : option Z) (w : World) : Prop :=
  is_Some size ∧ ∃ h, fh = Some h ∧
    ¬ may_write rel h (default 0 (h_sid <$> HandleTable.get h (file_handles (w_fs w))))
        (default [] (r ← file_hash rel w; result_ok r)) w.

(** ** The handler *)

Context `{DashMapIter} `{!PosixLaws}.

Lemma run_calls_app o cs cs' :
  run_calls o (cs ++ cs') =
  match run_calls o cs with
  | (None, o') => run_calls o' cs'
  | r => r
  end.
Proof.
  revert o. induction cs as [|c cs IH]; intros o; [done|]. cbn [app run_calls].
  by destruct (c o).1.
Qed.

(** Everything behind the truncation. *)
Definition set_attributes (ino : Z) (full : PathBuf) (mode uid gid : option Z)
    (atime mtime : option TimeOrNow) (flags : option Z) : M Reply :=
  setattr_mode full mode;;
  setattr_owner full uid gid;;
  setattr_times full atime mtime;;
  setattr_flags full flags;;
  reply_attr ino full.

(** The run of a list of calls that the handler makes, with the reply to it. *)
Definition made_calls (ino : Z) (full : PathBuf) (cs : syscalls) (w : World) (e : exit Reply)
    (w' : World) : Prop :=
  w_os w' = (run_calls (w_os w) cs).2 ∧
  ∃ x, (e = Val x ∨ e = Return x) ∧ attr_reply ino full (run_calls (w_os w) cs) x.

Lemma set_attributes_spec ino full mode uid gid atime mtime flags w :
  wp (set_attributes ino full mode uid gid atime mtime flags)
    (λ e w', w_fs w' = w_fs w ∧
       made_calls ino full (attr_calls full mode uid gid atime mtime flags) w e w') w.
Proof.
  unfold set_attributes, setattr_mode, setattr_owner, setattr_times, setattr_flags, reply_attr,
    made_calls, attr_calls, given.
  wp_run; (split; [done|]); cbn [w_os].
  all: repeat match goal with E : _ || _ = _ |- _ => rewrite E; clear E end.
  all: cbn [app run_calls].
  all: repeat match goal with E : (_ _).1 = _ |- _ => rewrite E; clear E; cbn [app run_calls] end.
  all: (split; [done|]); eexists; (split; [by auto|]).
  all: unfold attr_reply; cbn [fst snd]; repeat match goal with
       E : lstat _ _ = _ |- _ => rewrite E; clear E end; eauto.
Qed.

(** All the calls a request asks for, in order. *)
Definition setattr_calls (rel : PathBuf) (mode uid gid size : option Z)
    (atime mtime : option TimeOrNow) (fh flags : option Z) (w : World) : syscalls :=
  let full := backing_path (w_fs w) rel in
  truncate_calls (file_handles (w_fs w)) full size fh ++
  attr_calls full mode uid gid atime mtime flags.

(** The truncation: refused with nothing done, or made as the first call. *)
Lemma setattr_truncate_spec rel full size fh w :
  full = backing_path (w_fs w) rel →
  wp (setattr_truncate rel full full size fh) (λ e w',
    (truncate_refused rel size fh w ∧ e = Return (RError Errno.EIO) ∧ w_os w' = w_os w ∧
       ∀ q, owner_of q w' = owner_of q w) ∨
    (¬ truncate_refused rel size fh w ∧
     let r := run_calls (w_os w) (truncate_calls (file_handles (w_fs w)) full size fh) in
     w_os w' = r.2 ∧ inodes (w_fs w') = inodes (w_fs w) ∧
     e = match r.1 with
         | Some n => Return (RError (errno_from_io (OsError n)))
         | None => Val tt
         end)) w.
Proof.
  intros ->. unfold setattr_truncate. destruct size as [n|].
  2:{ wp_run. right. split; [by intros [[? [=]] _]|done]. }
  assert (∀ w0 : World, file_handles (w_fs w0) = file_handles (w_fs w) →
    wp (rc ← match (h ← fh; h_real_fd <$> HandleTable.get h (file_handles (w_fs w0))) with
             | Some fd => syscall (λ o, sys_ftruncate o fd (as_i64 n))
             | None => syscall (λ o, sys_truncate o (backing_path (w_fs w) rel) (as_i64 n))
             end; require_sys rc)
       (λ e w', let r := run_calls (w_os w0) (truncate_calls (file_handles (w_fs w))
                           (backing_path (w_fs w) rel) (Some n) fh) in
          w_os w' = r.2 ∧ w_fs w' = w_fs w0 ∧
          e = match r.1 with
              | Some n => Return (RError (errno_from_io (OsError n)))
              | None => Val tt
              end) w0) as Htr.
  { intros w0 Hw0. unfold truncate_calls. rewrite Hw0.
    destruct fh as [h|]; cbn [mbind option_bind];
      [destruct (HandleTable.get h (file_handles (w_fs w))); cbn [fmap option_fmap option_map]|];
      wp_run; cbn [run_calls w_os w_fs];
      match goal with E : (_ _).1 = _ |- _ => rewrite E end; try destruct a; done. }
  destruct fh as [h|].
  - do 4 wp_prim. apply wp_hash_file. intros r Hr. cbn [cont]. apply wp_bind.
    assert (default [] (r ← file_hash rel w; result_ok r) = result_unwrap_or [] r) as Hh.
    { unfold file_hash. rewrite Hr. by destruct r. }
    assert (truncate_refused rel (Some n) (Some h) w ↔
      ¬ may_write rel h (default 0 (h_sid <$> HandleTable.get h (file_handles (w_fs w))))
          (result_unwrap_or [] r) w) as Href.
    { unfold truncate_refused. rewrite Hh. split; [by intros (_&?&[= <-]&?)|by eauto]. }
    apply wp_check_spec.
    + intros ct Hm _ _ _. cbn [cont]. wp_prim. cbn [cont]. do 2 wp_prim.
      eapply wp_mono; [exact (Htr (mkWorld (set_cas (λ _, ct) (w_fs w)) (w_os w) _) eq_refl)|].
      intros e w' (Ho&Hf&->). right. split; [by intros Hn%Href|]. cbn [w_os]. rewrite Hf. done.
    + intros e ct Hm _ Hown. cbn [cont]. wp_prim. cbn [cont]. left.
      split; [by apply Href|]. done.
  - do 4 wp_prim. eapply wp_mono; [exact (Htr w eq_refl)|]. intros e w' (Ho&Hf&->). right.
    split; [by intros (_&?&[=]&_)|]. rewrite Hf. done.
Qed.

(** C17. What [setattr] does.  On a registered inode it runs the calls its
    arguments ask for, in a fixed order (truncation, mode, owner, times, flags),
    up to the first that fails, and replies with that error, or with the
    attributes of the file afterwards under the inode number asked about.  Only
    a truncation through an open handle is checked first: when the table would
    refuse the write, the reply is [EIO], no call is made and no owner changes. *)
Theorem setattr_spec (ino : Z) (rel : PathBuf) (mode uid gid size : option Z)
    (atime mtime : option TimeOrNow) (fh flags : option Z) (w : World)
    (Hname : names_file ino rel w) (Hnul : has_nul (render (backing_path (w_fs w) rel)) = false) :
  let full := backing_path (w_fs w) rel in
  let cs := setattr_calls rel mode uid gid size atime mtime fh flags w in
  let (e, w') := handle (ReqSetattr ino mode uid gid size atime mtime fh flags) w in
  (truncate_refused rel size fh w ∧ e = Return (RError Errno.EIO) ∧ w_os w' = w_os w ∧
     ∀ q, owner_of q w' = owner_of q w) ∨
  (¬ truncate_refused rel size fh w ∧ made_calls ino full cs w e w').
Proof.
  destruct Hname as [Hd Hp]. intros full cs. apply wp_let. cbn [handle]. unfold setattr.
  rewrite Hd. do 2 wp_prim. cbn [cont]. apply wp_bind. rewrite Hp. cbn [require]. apply wp_ret.
  cbn beta iota delta [cont]. fold full. apply wp_bind. unfold path_to_cstring. fold full in Hnul.
  rewrite Hnul. cbn [result_ok require]. apply wp_ret. cbn beta iota delta [cont].
  apply wp_bind. eapply wp_mono; [by apply setattr_truncate_spec|].
  intros e w' [(Href&->&Ho&Hq)|(Hn&Ho&_&->)]; [by left|].
  unfold cs, setattr_calls. fold full. unfold made_calls. rewrite run_calls_app.
  destruct (run_calls (w_os w) (truncate_calls _ _ _ _)) as [[n|] o1]; cbn [fst snd cont] in *.
  - right. split; [done|]. split; [done|]. eexists. split; [by right|done].
  - change (wp (set_attributes ino full mode uid gid atime mtime flags) (λ e w'',
      (truncate_refused rel size fh w ∧ e = Return (RError Errno.EIO) ∧ w_os w'' = w_os w ∧
        ∀ q, owner_of q w'' = owner_of q w) ∨
      (¬ truncate_refused rel size fh w ∧
        w_os w'' = (run_calls o1 (attr_calls full mode uid gid atime mtime flags)).2 ∧
        ∃ x, (e = Val x ∨ e = Return x) ∧
          attr_reply ino full (run_calls o1 (attr_calls full mode uid gid atime mtime flags)) x)) w').
    eapply wp_mono; [apply set_attributes_spec|]. unfold made_calls. rewrite Ho.
    intros e w'' (_&Ho'&x&Hx&Hr). right. eauto.
Qed.
End setattr.

(** Truncating the sample file by path, and changing its mode. *)
Lemma setattr_spec_witness :
  let '(e, w') := s_handle (ReqSetattr 3 (Some 384) None None (Some 1) None None None None)
                    sample_world in
  (@truncate_refused mem_posix toy_digests (parse "f") (Some 1) None sample_world ∧
     e = Return (RError Errno.EIO) ∧ w_os w' = w_os sample_world ∧
     ∀ q, owner_of q w' = owner_of q sample_world) ∨
  (¬ @truncate_refused mem_posix toy_digests (parse "f") (Some 1) None sample_world ∧
   @made_calls mem_posix plain_crates 3 (parse "/b/f")
     (@setattr_calls mem_posix (parse "f") (Some 384) None None (Some 1) None None None None
        sample_world) sample_world e w').
Proof.
  apply (@setattr_spec mem_posix toy_digests tick_clocks plain_crates canonical_iter mem_posix_laws
    3 (parse "f") (Some 384) None None (Some 1) None None None None sample_world).
  - split; vm_compute; reflexivity.
  - vm_compute. reflexivity.
Defined.
