(* ===== verification/Shutdown.v ===== *)
(** * Shutdown: waiting for the end (src/main.rs)

    The wait for shutdown as a state machine fed with what each round observes:
    the result of [poll], whether the FUSE thread has finished, whether a plain
    [umount] succeeds.  The signal pipe connects the observations with the
    signals delivered.  [Main] runs the same rounds as a program, which asks for
    the [umount] only when the round does ([asks]). *)
From S2P Require Import Prelude Paths Handles.
From stdpp Require Import pretty.

Local Open Scope Z_scope.

Inductive ShutdownAction :=
| ForceUnmount
| ExternalUnmount.

(** ** The signal pipe *)

(** [SIGNAL_PIPE] holds the write end, or -1; a signal writes one byte. *)
Record SignalPipe := mkPipe { sp_fd : Z; sp_bytes : nat }.

Definition signal_handler (sp : SignalPipe) : SignalPipe :=
  if 0 <=? sp_fd sp then mkPipe (sp_fd sp) (S (sp_bytes sp)) else sp.

Definition drain (sp : SignalPipe) : SignalPipe := mkPipe (sp_fd sp) (pred (sp_bytes sp)).

(** ** Waiting *)

(** One round of the loop: what [poll] returned, and the answers the round gets
    if it asks. *)
Record Observation := mkObs {
  o_ret : Z;              (* result of poll: > 0 when the pipe is readable *)
  o_finished : bool;      (* guard.is_finished() *)
  o_umount : bool;        (* try_unmount(mountpoint) *)
  o_files : list OpenFileInfo    (* file_handles.list_open() *)
}.

Record WaitState := mkWait { first_signal_received : bool; poll_ticks : Z }.

Definition wait_start : WaitState := mkWait false 0.

(** The lines of the busy warning; at most ten files are named. *)
Definition display_cap : nat := 10.

Definition busy_warning (files : list OpenFileInfo) : list string :=
  (match files with
   | [] => ["dibs: mount is busy — processes are using the mountpoint"%string]
   | _ =>
       ["dibs: mount is busy — " ++ pretty (length files) ++ " open file(s):"]%string ++
       ((λ i, "  " ++ display (i_path i) ++ "  (SID " ++ pretty (i_sid i) ++ ")")%string <$>
          take display_cap files) ++
       (if (display_cap <? length files)%nat
        then ["  and " ++ pretty (length files - display_cap)%nat ++ " more..."]%string else [])
   end) ++
  ["Close open files to unmount cleanly, or press ctrl-C again to force unmount."%string].

(** One round: the action that ends the loop or the next state, and the lines
    printed. *)
Definition wait_round (o : Observation) (st : WaitState)
    : (ShutdownAction + WaitState) * list string :=
  if 0 <? o_ret o then
    if first_signal_received st then (inl ForceUnmount, ["dibs: force unmounting..."%string])
    else if o_finished o then (inl ExternalUnmount, [])
    else if o_umount o then (inl ExternalUnmount, ["dibs: unmounting (received signal)..."%string])
    else (inr (mkWait true (poll_ticks st)), busy_warning (o_files o))
  else if o_finished o then (inl ExternalUnmount, [])
  else if first_signal_received st then
    let ticks := as_u32 (poll_ticks st + 1) in
    if (ticks mod 5 =? 0) && o_umount o
    then (inl ExternalUnmount, ["dibs: all clear, unmounting..."%string])
    else (inr (mkWait true ticks), [])
  else (inr st, []).

(** The loop over the rounds observed: the action and how many rounds it took,
    or the state in which it still waits. *)
Fixpoint wait_loop (os : list Observation) (st : WaitState) : (ShutdownAction * nat) + WaitState :=
  match os with
  | [] => inr st
  | o :: os =>
      match (wait_round o st).1 with
      | inl a => inl (a, 1%nat)
      | inr st =>
          match wait_loop os st with
          | inl (a, n) => inl (a, S n)
          | inr st => inr st
          end
      end
  end.

Definition wait_for_shutdown (os : list Observation) : (ShutdownAction * nat) + WaitState :=
  wait_loop os wait_start.

(** Does the round probe the mount with a plain [umount]? *)
Definition asks (ret : Z) (finished : bool) (st : WaitState) : bool :=
  negb finished &&
  (if 0 <? ret then negb (first_signal_received st)
   else first_signal_received st && (as_u32 (poll_ticks st + 1) mod 5 =? 0)).

(** What happens around one call of [poll]: the signals delivered since the last
    one, whether the call itself is interrupted by one (it then returns -1),
    whether the session is finished, and the files that are open. *)
Record Tick := mkTick {
  k_signals : nat;
  k_eintr : bool;
  k_finished : bool;
  k_files : list OpenFileInfo
}.

(** [poll] on the read end of the pipe, and the [read] of one byte after it. *)
Definition poll (k : Tick) (sp : SignalPipe) : Z * SignalPipe :=
  let sp := Nat.iter (k_signals k) signal_handler sp in
  let ret := if k_eintr k then -1 else if (0 <? sp_bytes sp)%nat then 1 else 0 in
  (ret, if 0 <? ret then drain sp else sp).

Definition observation (ret : Z) (k : Tick) (u : bool) : Observation :=
  mkObs ret (k_finished k) u (k_files k).

(** The rounds, with the answers to the probes. *)
Fixpoint observe (ks : list (Tick * bool)) (sp : SignalPipe) : list Observation :=
  match ks with
  | [] => []
  | (k, u) :: ks => let (ret, sp) := poll k sp in observation ret k u :: observe ks sp
  end.

(** Signals delivered, and calls of [poll] that were not interrupted. *)
Definition delivered (ks : list Tick) : nat := sum_list_with k_signals ks.

Definition uninterrupted (ks : list Tick) : nat :=
  length (List.filter (λ k, negb (k_eintr k)) ks).

(** Rounds in which a signal was seen. *)
Definition signals (os : list Observation) : nat :=
  length (List.filter (λ o, 0 <? o_ret o) os).

(** The signals a state has seen. *)
Definition seen (st : WaitState) : nat := if first_signal_received st then 1 else 0.

(** ** What the wait guarantees *)

(** A round that does not ask does not depend on the answer. *)
Lemma wait_round_unasked ret k st u u' :
  asks ret (k_finished k) st = false →
  wait_round (observation ret k u) st = wait_round (observation ret k u') st.
Proof.
  unfold asks, wait_round, observation. cbn [o_ret o_finished o_umount o_files].
  destruct (k_finished k); [by repeat case_match|]. cbn [negb andb].
  destruct (0 <? ret), (first_signal_received st); try done. cbn [andb]. by intros ->.
Qed.

Lemma wait_loop_app os os' st :
  wait_loop (os ++ os') st =
  match wait_loop os st with
  | inl r => inl r
  | inr st' =>
      match wait_loop os' st' with
      | inl (a, n) => inl (a, (length os + n)%nat)
      | inr st'' => inr st''
      end
  end.
Proof.
  revert st. induction os as [|o os IH]; intros st; cbn [app wait_loop length].
  { by destruct (wait_loop os' st) as [[]|]. }
  destruct (wait_round o st).1 as [a|st']; [done|]. rewrite IH.
  destruct (wait_loop os st') as [[]|st'']; [done|].
  by destruct (wait_loop os' st'') as [[]|].
Qed.

(** The wait has seen a signal exactly when the state says so. *)
Lemma wait_loop_signals os st :
  match wait_loop os st with
  | inl (ForceUnmount, n) =>
      (2 <= seen st + signals (take n os))%nat
  | inl (ExternalUnmount, _) => True
  | inr st' => seen st' = (seen st + signals os)%nat
  end.
Proof.
  revert st. induction os as [|o os IH]; intros st; cbn [wait_loop].
  { unfold signals. simpl. lia. }
  unfold signals, seen. cbn [List.filter]. unfold wait_round.
  destruct (0 <? o_ret o) eqn:Er.
  - destruct (first_signal_received st) eqn:Ef; cbn [fst].
    { cbn [take List.filter]. rewrite Er. simpl. lia. }
    destruct (o_finished o); [done|]. destruct (o_umount o); [done|]. cbn [fst].
    specialize (IH (mkWait true (poll_ticks st))). unfold signals, seen in IH.
    destruct (wait_loop os (mkWait true (poll_ticks st))) as [[[] n]|st']; try done;
      cbn [first_signal_received take List.filter] in *; rewrite ?Er; simpl; lia.
  - destruct (o_finished o); [done|].
    destruct (first_signal_received st) eqn:Ef; cbn [fst].
    + destruct ((as_u32 (poll_ticks st + 1) mod 5 =? 0) && o_umount o); [done|]. cbn [fst].
      specialize (IH (mkWait true (as_u32 (poll_ticks st + 1)))). unfold signals, seen in IH.
      destruct (wait_loop os _) as [[[] n]|st']; try done;
        cbn [first_signal_received take List.filter] in *; rewrite ?Er; simpl; lia.
    + specialize (IH st). unfold signals, seen in IH. rewrite Ef in IH.
      destruct (wait_loop os st) as [[[] n]|st']; try done;
        cbn [take List.filter] in *; rewrite ?Er; simpl; lia.
Qed.

Lemma wait_round_finished o st :
  o_finished o = true → ∃ a, (wait_round o st).1 = inl a.
Proof.
  intros Hf. unfold wait_round. rewrite Hf.
  destruct (0 <? o_ret o), (first_signal_received st); eauto.
Qed.

Lemma wait_loop_finished os st st' o :
  wait_loop os st = inr st' → o ∈ os → o_finished o = false.
Proof.
  revert st. induction os as [|o' os IH]; intros st; cbn [wait_loop];
    [intros _ Hin; by apply elem_of_nil in Hin|].
  destruct (wait_round o' st).1 as [a|st1] eqn:E; [done|].
  destruct (wait_loop os st1) as [[]|] eqn:E'; [done|]. intros [= ->] [->|Hin]%elem_of_cons.
  - destruct (o_finished o') eqn:Ef; [|done].
    destruct (wait_round_finished o' st Ef) as [a Ha]. congruence.
  - by eapply IH.
Qed.

(** Five timeouts reach a multiple of five, also when the counter wraps. *)
Lemma wait_loop_probe os st st' :
  first_signal_received st = true → 0 <= poll_ticks st < 2 ^ 32 →
  (∀ o, o ∈ os → o_umount o = true) →
  wait_loop os st = inr st' → Z.of_nat (length os) < 5 - poll_ticks st mod 5.
Proof.
  revert st. induction os as [|o os IH]; intros st Hf Ht Hu; cbn [wait_loop].
  { intros _. simpl. pose proof (Z.mod_pos_bound (poll_ticks st) 5). lia. }
  unfold wait_round. rewrite Hf, (Hu o) by (by left). destruct (0 <? o_ret o); [done|].
  destruct (o_finished o); [done|]. rewrite andb_true_r.
  destruct (as_u32 (poll_ticks st + 1) mod 5 =? 0) eqn:E; [done|]. apply Z.eqb_neq in E.
  destruct (decide (poll_ticks st + 1 = 2 ^ 32)) as [Heq|Hne]; [by rewrite Heq in E|].
  rewrite wrap_u_small in * by lia. cbn [fst].
  destruct (wait_loop os _) as [[]|st1] eqn:El; [done|]. intros [= ->].
  apply IH in El; [|done|simpl; lia|intros o' Ho'; apply Hu; by right]. simpl in El.
  cbn [length]. rewrite Nat2Z.inj_succ.
  pose proof (Z.div_mod (poll_ticks st) 5). pose proof (Z.mod_pos_bound (poll_ticks st) 5).
  pose proof (Z.div_mod (poll_ticks st + 1) 5). pose proof (Z.mod_pos_bound (poll_ticks st + 1) 5).
  lia.
Qed.

Lemma wait_ticks_range os st st' :
  0 <= poll_ticks st < 2 ^ 32 → wait_loop os st = inr st' → 0 <= poll_ticks st' < 2 ^ 32.
Proof.
  revert st. induction os as [|o os IH]; intros st Ht; cbn [wait_loop]; [by intros [= <-]|].
  destruct (wait_round o st).1 as [a|st1] eqn:E; [done|].
  destruct (wait_loop os st1) as [[]|] eqn:E'; [done|]. intros [= <-]. apply (IH st1); [|done].
  revert E. unfold wait_round. split_matches; simpl; intros; simplify_eq; try done; simpl.
  all: apply wrap_u_range; lia.
Qed.

(** ** Signals reach the wait

    A byte in the pipe waits until some [poll] is not interrupted, so no signal
    is lost. *)

Section pipe.
Implicit Types (sp : SignalPipe) (ks : list (Tick * bool)).

Lemma iter_signal_handler n sp :
  0 <= sp_fd sp → Nat.iter n signal_handler sp = mkPipe (sp_fd sp) (n + sp_bytes sp).
Proof.
  intros Hfd. induction n as [|n IH]; [by destruct sp|]. rewrite Nat.iter_succ, IH.
  unfold signal_handler. simpl. by rewrite (proj2 (Z.leb_le _ _) Hfd).
Qed.

Lemma poll_unfold k sp :
  0 <= sp_fd sp →
  let bytes := (k_signals k + sp_bytes sp)%nat in
  let seen := negb (k_eintr k) && (0 <? bytes)%nat in
  (0 <? (poll k sp).1) = seen ∧
  (poll k sp).2 = mkPipe (sp_fd sp) (if seen then pred bytes else bytes).
Proof.
  intros Hfd. unfold poll. rewrite iter_signal_handler by done. cbn [sp_bytes].
  destruct (k_eintr k); [done|]. cbn [negb andb].
  by destruct (0 <? k_signals k + sp_bytes sp)%nat.
Qed.

Lemma observe_signals ks sp :
  0 <= sp_fd sp →
  ((sp_bytes sp `min` uninterrupted ks.*1) <= signals (observe ks sp))%nat ∧
  (signals (observe ks sp) <= sp_bytes sp + delivered ks.*1)%nat.
Proof.
  revert sp. induction ks as [|[k u] ks IH]; intros sp Hfd; [unfold uninterrupted, signals; simpl; lia|].
  destruct (poll_unfold k sp Hfd) as [Hret Hsp]. cbn [observe].
  destruct (poll k sp) as [ret sp']. cbn [fst snd] in *. subst sp'.
  unfold signals, uninterrupted, delivered in *. rewrite fmap_cons.
  cbn [List.filter sum_list_with fst observation o_ret]. rewrite Hret.
  specialize (IH (mkPipe (sp_fd sp) (if negb (k_eintr k) && (0 <? k_signals k + sp_bytes sp)%nat
    then pred (k_signals k + sp_bytes sp) else k_signals k + sp_bytes sp))%nat Hfd).
  cbn [sp_bytes] in IH. fold delivered in *.
  destruct (k_eintr k); cbn [negb andb] in *; [lia|].
  destruct (Nat.ltb_spec 0 (k_signals k + sp_bytes sp)); cbn [length]; lia.
Qed.

(** The pipe after the rounds. *)
Definition pipe_after ks sp : SignalPipe := foldl (λ sp k, (poll k.1 sp).2) sp ks.

Lemma observe_app ks ks' sp :
  observe (ks ++ ks') sp = observe ks sp ++ observe ks' (pipe_after ks sp).
Proof.
  revert sp. induction ks as [|[k u] ks IH]; intros sp; [done|]. cbn [app observe].
  rewrite (surjective_pairing (poll k sp)). cbn [fst snd]. by rewrite IH.
Qed.

(** No signal is lost: what was not seen yet is in the pipe. *)
Lemma pipe_after_bytes ks sp :
  0 <= sp_fd sp →
  sp_fd (pipe_after ks sp) = sp_fd sp ∧
  (sp_bytes (pipe_after ks sp) + signals (observe ks sp) = sp_bytes sp + delivered ks.*1)%nat.
Proof.
  revert sp. induction ks as [|[k u] ks IH]; intros sp Hfd; [unfold signals; simpl; lia|].
  destruct (poll_unfold k sp Hfd) as [Hret Hsp].
  destruct (IH (poll k sp).2) as [Hfd' Hb]; [by rewrite Hsp|].
  change (pipe_after ((k, u) :: ks) sp) with (pipe_after ks (poll k sp).2). split.
  { by rewrite Hfd', Hsp. }
  cbn [observe]. rewrite (surjective_pairing (poll k sp)). cbn [fst snd].
  unfold signals in *. cbn [List.filter observation o_ret]. rewrite Hret. rewrite Hsp in *.
  clear Hret Hsp. unfold delivered in *. rewrite fmap_cons. cbn [sum_list_with fst]. cbn [sp_bytes] in Hb.
  destruct (k_eintr k); cbn [negb andb] in *; [lia|].
  destruct (Nat.ltb_spec 0 (k_signals k + sp_bytes sp)); cbn [length]; lia.
Qed.

Lemma signals_app os os' : signals (os ++ os') = (signals os + signals os')%nat.
Proof. unfold signals. by rewrite List.filter_app, length_app. Qed.

Lemma two_signals_seen ks ks' sp :
  0 <= sp_fd sp → (2 <= delivered ks.*1)%nat → (2 <= uninterrupted ks'.*1)%nat →
  (2 <= signals (observe (ks ++ ks') sp))%nat.
Proof.
  intros Hfd Hd Hu. rewrite observe_app, signals_app.
  destruct (pipe_after_bytes ks sp Hfd) as [Hfd' Hb].
  destruct (observe_signals ks' (pipe_after ks sp)) as [Hs _]; [by rewrite Hfd'|]. lia.
Qed.

Lemma wait_two_signals os :
  (2 <= signals os)%nat → ∃ a n, wait_for_shutdown os = inl (a, n).
Proof.
  intros H2. unfold wait_for_shutdown. pose proof (wait_loop_signals os wait_start) as Hs.
  destruct (wait_loop os wait_start) as [[a n]|st]; [eauto|]. exfalso.
  revert Hs. unfold seen. simpl. destruct (first_signal_received st); lia.
Qed.

Lemma wait_finished os o :
  o ∈ os → o_finished o = true → ∃ a n, wait_for_shutdown os = inl (a, n).
Proof.
  intros Ho Hf. unfold wait_for_shutdown.
  destruct (wait_loop os wait_start) as [[a n]|st] eqn:E; [eauto|].
  by rewrite (wait_loop_finished _ _ _ _ E Ho) in Hf.
Qed.

Lemma observe_finished ks sp k :
  k ∈ ks.*1 → k_finished k = true → ∃ o, o ∈ observe ks sp ∧ o_finished o = true.
Proof.
  intros Hk Hf. apply list_elem_of_fmap in Hk as ([k' u]&->&Hk).
  apply list_elem_of_split in Hk as (ks1&ks2&->). rewrite observe_app.
  cbn [observe]. rewrite (surjective_pairing (poll k' _)). 
  exists (observation (poll k' (pipe_after ks1 sp)).1 k' u). split; [|exact Hf].
  apply elem_of_app. right. by left.
Qed.

Lemma signals_take n os : (signals (take n os) <= signals os)%nat.
Proof. rewrite <-(take_drop n os) at 2. rewrite signals_app. lia. Qed.

Lemma wait_forced os n :
  wait_for_shutdown os = inl (ForceUnmount, n) → (2 <= signals os)%nat.
Proof.
  intros E. pose proof (wait_loop_signals os wait_start) as Hs.
  unfold wait_for_shutdown in E. rewrite E in Hs. pose proof (signals_take n os).
  cbn [seen first_signal_received wait_start] in Hs. lia.
Qed.
End pipe.

(** C32. The two-phase ctrl-C.  The mount is never forced before a second signal
    was seen.  And the wait ends whenever it should: when two signals were seen,
    when the FUSE session was found finished in some round, or when after a first
    signal five more rounds went by in which the mount was no longer busy.  (This
    is what the code, its comments and tests/scenarios.rs do; SCENARIOS.md wants
    the first ctrl-C to end a busy mount within a second.) *)
Theorem shutdown_two_phase (os : list Observation) :
  (∀ n, wait_for_shutdown os = inl (ForceUnmount, n) → (2 <= signals (take n os))%nat) ∧
  ((2 <= signals os)%nat ∨
   (∃ o, o ∈ os ∧ o_finished o = true) ∨
   (∃ os1 os2, os = os1 ++ os2 ∧ (1 <= signals os1)%nat ∧ (5 <= length os2)%nat ∧
      ∀ o, o ∈ os2 → o_umount o = true) →
   ∃ a n, wait_for_shutdown os = inl (a, n)).
Proof.
  split.
  { intros n E. pose proof (wait_loop_signals os wait_start) as Hs.
    unfold wait_for_shutdown in E. rewrite E in Hs. exact Hs. }
  intros [H2|[(o&Ho&Hf)|(os1&os2&->&H1&H5&Hu)]].
  - by apply wait_two_signals.
  - by eapply wait_finished.
  - unfold wait_for_shutdown.
    destruct (wait_loop (os1 ++ os2) wait_start) as [[a n]|st] eqn:E; [eauto|]. exfalso.
    rewrite wait_loop_app in E. pose proof (wait_loop_signals os1 wait_start) as Hs.
    destruct (wait_loop os1 wait_start) as [[]|st1] eqn:E1; [done|].
    destruct (wait_loop os2 st1) as [[]|st2] eqn:E2; [done|].
    assert (first_signal_received st1 = true) as Hf.
    { revert Hs. unfold seen. simpl. destruct (first_signal_received st1); [done|lia]. }
    apply wait_loop_probe in E2; [|done|by eapply wait_ticks_range; [|exact E1]|done].
    pose proof (Z.mod_pos_bound (poll_ticks st1) 5). lia.
Qed.
