(* ===== verification/Main.v ===== *)
(** * Main: the program (src/main.rs)

    [main] as a program over the state of the process: the kernel, the signal
    pipe and a log of what the program does to the world (commands run, threads
    started and joined, messages printed).  [std::process::exit] stops it, and so
    does a wait that the given sequence of rounds does not end.  Starting and
    ending a FUSE session and external commands are parameters ([Host]). *)
From S2P Require Import Prelude Paths Env Sample Handles HashTable Eviction Config Fs Shutdown.

Local Open Scope Z_scope.

(** [str::contains]. *)
Definition contains (s pat : string) : bool :=
  match String.index 0 pat s with Some _ => true | None => false end.

(** [std::process::Output]; [None] where the command cannot be started. *)
Record Output := mkOutput { out_success : bool; out_stdout : string; out_stderr : string }.

(** The error of [spawn_mount2]: [raw_os_error()] and [to_string()]. *)
Record MountError := mkMountError { me_errno : option Z; me_text : string }.

(** [EPERM]. *)
Definition EPERM : Z := 1.

(** The parts of [fuser::Config] that are set. *)
Inductive SessionACL := AclAll | AclOwner.

Inductive MountOption := FSName (name : string) | AutoUnmount | DefaultPermissions.

Record FuseConfig := mkFuse { mount_options : list MountOption; acl : SessionACL }.

(** ** What the program prints

    Messages that print a path with its debugging format are kept as data. *)
Inductive Message :=
| MsgBacking (p : PathBuf) (e : IoError)
| MsgNotDir (p : PathBuf)
| MsgCreate (p : PathBuf) (e : IoError)
| MsgMountpoint (p : PathBuf) (e : IoError)
| MsgStale (p : string)
| MsgLine (s : string).

(** ** What the program does

    Instances of the file system are numbered in the order of their creation:
    the number stands for the shared tables that [Arc] pointers name. *)
Inductive Act :=
| ARun (argv : list string)
| ACreateDir (p : PathBuf)
| AEprint (m : Message)
| ALogTo (dir : PathBuf) (name : string)
| ANewFs (k : nat) (cfg : DibsConfig)
| AStartEviction (k : nat) (minutes : Z)
| ASpawnMount (k : nat) (mountpoint : PathBuf) (fc : FuseConfig)
| AWaited (k : nat) (a : ShutdownAction)
| AStopEviction
| AJoinEviction
| AUmountAndJoin
| AJoinSession.

(** ** The host

    [overflow_checks]: was the program compiled with checks of arithmetic
    overflow, as by the dev profile of [cargo build]? *)
Class Host `{Posix} := {
  overflow_checks : bool;
  canonicalize : os → PathBuf → result PathBuf IoError;
  is_dir : os → PathBuf → bool;
  process_id : os → Z;
  run_command : os → list string → option Output * os;
  spawn_mount2 : os → DibsFs → PathBuf → FuseConfig → result unit MountError * os;
  make_pipe : os → option Z;                   (* the write end *)
  umount_and_join : os → result unit IoError * os;
  join_session : os → result unit IoError * os
}.

(** The descriptors of a new pipe are not negative. *)
Class HostLaws `{Host} := {
  make_pipe_fd : ∀ o fd, make_pipe o = Some fd → 0 <= fd
}.

(** How a run ends early: with an exit code, in a panic, or still waiting. *)
Inductive Stop :=
| Exit (code : Z)
| Panicked
| Waiting (st : WaitState).

Section main.
Context `{Posix} `{Clocks} `{!Host}.

Record Proc := mkProc {
  pr_os : os;
  pr_clk : nat;
  pr_made : nat;             (* instances of the file system made so far *)
  pr_pipe : SignalPipe;
  pr_handler : bool;         (* are SIGINT and SIGTERM handled? *)
  pr_log : list Act
}.

Definition P (A : Type) : Type := Proc → (Stop + A) * Proc.

#[global] Instance P_ret : MRet P := λ A a p, (inr a, p).

#[global] Instance P_bind : MBind P := λ A B f m p,
  match m p with
  | (inr a, p) => f a p
  | (inl s, p) => (inl s, p)
  end.

Definition stop {A} (s : Stop) : P A := λ p, (inl s, p).

Definition act (a : Act) : P unit := λ p,
  (inr tt, mkProc (pr_os p) (pr_clk p) (pr_made p) (pr_pipe p) (pr_handler p) (pr_log p ++ [a])).

Definition ask {A} (f : os → A) : P A := λ p, (inr (f (pr_os p)), p).

Definition call {A} (f : os → A * os) : P A := λ p,
  let (a, o) := f (pr_os p) in
  (inr a, mkProc o (pr_clk p) (pr_made p) (pr_pipe p) (pr_handler p) (pr_log p)).

Definition set_pipe (sp : SignalPipe) (handled : bool) : P unit := λ p,
  (inr tt, mkProc (pr_os p) (pr_clk p) (pr_made p) sp (handled || pr_handler p) (pr_log p)).

(** [Command::new(..)..output()] or [.status()]. *)
Definition command (argv : list string) : P (option Output) :=
  act (ARun argv);; call (λ o, run_command o argv).

Definition eprintln (m : Message) : P unit := act (AEprint m).

(** [eprintln!(..); std::process::exit(1)]. *)
Definition fail {A} (m : Message) : P A := eprintln m;; stop (Exit 1).

(** [r.unwrap_or_else(|e| { eprintln!(..); exit(1) })]. *)
Definition or_fail {A} (r : result A IoError) (m : IoError → Message) : P A :=
  match r with Ok a => mret a | Err e => fail (m e) end.

(** [if !b { eprintln!(..); exit(1) }]. *)
Definition ensure (b : bool) (m : Message) : P unit := if b then mret tt else fail m.

(** [DibsFs::new]: the instance and its number. *)
Definition make_fs (cfg : DibsConfig) : P (nat * DibsFs) := λ p,
  let w := fs_new cfg (pr_os p) (pr_clk p) in
  (inr (pr_made p, w_fs w),
   mkProc (w_os w) (w_clk w) (S (pr_made p)) (pr_pipe p) (pr_handler p)
     (pr_log p ++ [ANewFs (pr_made p) cfg])).

Definition succeeded (o : option Output) : bool :=
  match o with Some o => out_success o | None => false end.

(** ** Stale mounts *)

(** Does a line of [mount]'s output name the path as a FUSE mount? *)
Definition listed_as_fuse (path line : string) : bool :=
  contains line path && (contains line "fuse" || contains line "macfuse").

(** Drop one carriage return at the end. *)
Fixpoint strip_cr (s : string) : string :=
  match s with
  | EmptyString => EmptyString
  | String a EmptyString => if Ascii.eqb a "013"%char then EmptyString else s
  | String a s => String a (strip_cr s)
  end.

(** [str::lines]: the pieces that end in a newline, with its optional carriage
    return dropped, and a last piece that is not empty. *)
Definition lines (s : string) : list string :=
  let ls := split_on "010"%char s in
  (strip_cr <$> removelast ls) ++
  match last ls with None | Some EmptyString => [] | Some l => [l] end.

Definition is_stale_fuse_mount (path : PathBuf) : P bool :=
  output ← command ["mount"];
  match output with
  | None => mret false
  | Some out =>
      let stdout := to_string_lossy (out_stdout out) in
      if existsb (listed_as_fuse (display path)) (lines stdout) then
        r ← ask (λ o, fs_read_dir o path);
        mret (match r with Ok _ => false | Err _ => true end)
      else mret false
  end.

(** ** Mounting *)

(** Create the mount point unless it exists. *)
Definition create_mountpoint (exists_ : bool) (mountpoint : PathBuf) : P unit :=
  if exists_ then mret tt
  else
    act (ACreateDir mountpoint);;
    c ← call (λ o, fs_create_dir_all o mountpoint);
    or_fail c (MsgCreate mountpoint).

(** The checks on the two directories: their canonical paths. *)
Definition check_directories (backing mountpoint : PathBuf) : P (PathBuf * PathBuf) :=
  r ← ask (λ o, canonicalize o backing);
  b ← or_fail r (MsgBacking backing);
  d ← ask (λ o, is_dir o b);
  ensure d (MsgNotDir b);;
  e ← ask (λ o, fs_exists o mountpoint);
  create_mountpoint e mountpoint;;
  r ← ask (λ o, canonicalize o mountpoint);
  mp ← or_fail r (MsgMountpoint mountpoint);
  stale ← is_stale_fuse_mount mp;
  ensure (negb stale) (MsgStale (display mp));;
  mret (b, mp).

(** The session id of the command line, or [dibs-<pid>]. *)
Definition session_name (session_id : option string) (pid : Z) : string :=
  match session_id with Some s => s | None => "dibs-" ++ pretty pid end.

(** The directory and the name of the log file. *)
Definition log_target (log_file : PathBuf) : PathBuf * string :=
  (default (parse "/tmp") (parent log_file), default "dibs.log"%string (file_name log_file)).

(** The mount options, and first of all access for everybody. *)
Definition fuse_config : FuseConfig :=
  mkFuse [FSName "dibs"; AutoUnmount; DefaultPermissions] AclAll.

Definition set_acl (a : SessionACL) (fc : FuseConfig) : FuseConfig :=
  mkFuse (mount_options fc) a.

(** Retry without [allow_other]? *)
Definition wants_retry (e : MountError) : bool :=
  bool_decide (me_errno e = Some EPERM) || contains (me_text e) "allow_other".

(** Whose tables each part of the running program works on. *)
Record Running := mkRunning {
  run_served : nat;      (* the instance moved into the FUSE session *)
  run_evicted : nat;     (* the CAS table the eviction thread got *)
  run_listed : nat       (* the handle table listed while waiting *)
}.

Definition spawn (k : nat) (d : DibsFs) (mp : PathBuf) (fc : FuseConfig)
    : P (result unit MountError) :=
  act (ASpawnMount k mp fc);; call (λ o, spawn_mount2 o d mp fc).

(** [start_eviction_thread]: the window is computed before the thread is spawned,
    so an overflow there is a panic of the program itself. *)
Definition start_eviction_thread (k : nat) (minutes : Z) : P unit :=
  match eviction_duration overflow_checks minutes with
  | Some _ => act (AStartEviction k minutes)
  | None => stop Panicked
  end.

(** From the first instance to the session: the eviction thread is started before
    the first attempt. *)
Definition mount (cfg : DibsConfig) : P Running :=
  '(k, d) ← make_fs cfg;
  start_eviction_thread k (c_eviction_minutes cfg);;
  r ← spawn k d (c_mountpoint cfg) fuse_config;
  match r with
  | Ok _ => mret (mkRunning k k k)
  | Err e =>
      if wants_retry e then
        '(k', d') ← make_fs cfg;
        r ← spawn k' d' (c_mountpoint cfg) (set_acl AclOwner fuse_config);
        match r with
        | Ok _ => mret (mkRunning k' k k')
        | Err _ => stop (Exit 1)
        end
      else stop (Exit 1)
  end.

(** ** Waiting and shutting down *)

(** A plain [umount]: did it work? *)
Definition try_unmount (mp : PathBuf) : P bool :=
  o ← command ["umount"; render mp]; mret (succeeded o).

(** [poll] and the [read] after it. *)
Definition poll_pipe (k : Tick) : P Z := λ p,
  let (ret, sp) := poll k (pr_pipe p) in
  (inr ret, mkProc (pr_os p) (pr_clk p) (pr_made p) sp (pr_handler p) (pr_log p)).

Definition eprint_lines (l : list string) : P (list unit) := mapM (λ s, eprintln (MsgLine s)) l.

(** One round: [poll], the probe when the round asks for it, what is printed, and
    the decision ([wait_round]). *)
Definition wait_step (k : Tick) (st : WaitState) (mp : PathBuf) : P (ShutdownAction + WaitState) :=
  ret ← poll_pipe k;
  u ← (if asks ret (k_finished k) st then try_unmount mp else mret false);
  let round := wait_round (observation ret k u) st in
  eprint_lines round.2;;
  mret round.1.

Fixpoint wait_rounds (ks : list Tick) (st : WaitState) (mp : PathBuf) : P ShutdownAction :=
  match ks with
  | [] => stop (Waiting st)
  | k :: ks =>
      r ← wait_step k st mp;
      match r with
      | inl a => mret a
      | inr st => wait_rounds ks st mp
      end
  end.

(** [wait_for_shutdown] with its pipe: it is made, signals are routed to it, and
    in the end it is closed. *)
Definition wait_signals (ks : list Tick) (listed : nat) (mp : PathBuf) : P ShutdownAction :=
  fd ← ask make_pipe;
  match fd with
  | None => stop Panicked
  | Some fd =>
      set_pipe (mkPipe fd 0) true;;
      a ← wait_rounds ks wait_start mp;
      set_pipe (mkPipe (-1) 0) true;;
      act (AWaited listed a);;
      mret a
  end.

(** After the wait: the eviction thread first, then the session. *)
Definition shut_down (a : ShutdownAction) (mp : PathBuf) : P unit :=
  act AStopEviction;;
  act AJoinEviction;;
  match a with
  | ForceUnmount =>
      act AUmountAndJoin;;
      r ← call umount_and_join;
      match r with
      | Ok _ => mret tt
      | Err _ => command ["umount"; "-f"; display mp];; mret tt
      end
  | ExternalUnmount => act AJoinSession;; call join_session;; mret tt
  end;;
  eprintln (MsgLine ("dibs: unmounted " ++ display mp)).

Definition mount_command (ks : list Tick) (backing mountpoint : PathBuf)
    (session_id : option string) (log_file : PathBuf) (eviction_minutes : Z)
    (save_conflicts readonly_fallback foreground : bool) : P unit :=
  '(b, mp) ← check_directories backing mountpoint;
  pid ← ask process_id;
  let sid := session_name session_id pid in
  act (ALogTo (log_target log_file).1 (log_target log_file).2);;
  let cfg := mkConfig b mp sid log_file eviction_minutes save_conflicts readonly_fallback
               foreground in
  r ← mount cfg;
  a ← wait_signals ks (run_listed r) mp;
  shut_down a mp.

(** ** The unmount command *)

Definition stderr_busy (o : option Output) : bool :=
  match o with Some o => contains (to_string_lossy (out_stderr o)) "busy" | None => false end.

Definition stdout_busy (o : option Output) : bool :=
  match o with Some o => contains (to_string_lossy (out_stdout o)) "busy" | None => false end.

Definition unmounted (mp : string) : P unit :=
  eprintln (MsgLine ("Successfully unmounted " ++ mp)).

Definition busy (mp : string) : P unit :=
  fail (MsgLine ("Mount point is busy. Make sure no shells or processes are using " ++ mp ++
                 ", then try again.")).

Definition unmount (mountpoint : PathBuf) : P unit :=
  r ← ask (λ o, canonicalize o mountpoint);
  mp ← or_fail r (MsgMountpoint mountpoint);
  let mp := display mp in
  eprintln (MsgLine ("Unmounting " ++ mp ++ "..."));;
  output ← command ["umount"; mp];
  if succeeded output then unmounted mp
  else if stderr_busy output then busy mp
  else
    output ← command ["diskutil"; "unmount"; mp];
    if succeeded output then unmounted mp
    else if stderr_busy output || stdout_busy output then busy mp
    else
      status ← command ["umount"; "-f"; mp];
      if succeeded status then
        eprintln (MsgLine ("Successfully unmounted " ++ mp ++ " (forced)"))
      else fail (MsgLine ("Failed to unmount " ++ mp ++ ". Try: sudo umount -f " ++ mp)).

(** ** The program *)

Definition main (ks : list Tick) (cmd : Command) : P unit :=
  match cmd with
  | Mount backing mountpoint session_id log_file minutes save fallback foreground =>
      mount_command ks backing mountpoint session_id log_file minutes save fallback foreground
  | Unmount mountpoint => unmount mountpoint
  end.

Definition start (o : os) (clk : nat) : Proc := mkProc o clk 0 (mkPipe (-1) 0) false [].

(** The status the process ends with; [None] while it waits. *)
Definition exit_code (r : Stop + unit) : option Z :=
  match r with
  | inr _ => Some 0
  | inl (Exit c) => Some c
  | inl Panicked => Some 101
  | inl (Waiting _) => None
  end.

(** ** Reasoning about runs

    [spec m Q p]: what a run of [m] from [p] ends in satisfies [Q]. *)
Definition spec {A} (m : P A) (Q : Stop + A → Proc → Prop) (p : Proc) : Prop :=
  Q (m p).1 (m p).2.

Definition on_value {A} (Qs : Stop → Proc → Prop) (Q : A → Proc → Prop)
    (r : Stop + A) (p : Proc) : Prop :=
  match r with inl s => Qs s p | inr a => Q a p end.

Lemma spec_bind {A B} (m : P A) (f : A → P B) Q p :
  spec m (on_value (λ s, Q (inl s)) (λ a, spec (f a) Q)) p → spec (m ≫= f) Q p.
Proof.
  unfold spec, mbind, P_bind. destruct (m p) as [[s|a] p']; simpl; [done|].
  by destruct (f a p').
Qed.

Lemma spec_mono {A} (m : P A) (Q Q' : Stop + A → Proc → Prop) p :
  spec m Q p → (∀ r p', Q r p' → Q' r p') → spec m Q' p.
Proof. unfold spec. auto. Qed.

Lemma spec_call {A} (f : os → A * os) Q p :
  (∀ a o, f (pr_os p) = (a, o) →
     Q (inr a) (mkProc o (pr_clk p) (pr_made p) (pr_pipe p) (pr_handler p) (pr_log p))) →
  spec (call f) Q p.
Proof. unfold spec, call. destruct (f (pr_os p)) as [a o]. simpl. auto. Qed.

(** The process with a longer log. *)
Definition logged (p : Proc) (l : list Act) : Proc :=
  mkProc (pr_os p) (pr_clk p) (pr_made p) (pr_pipe p) (pr_handler p) (pr_log p ++ l).

Lemma spec_act a Q p : Q (inr tt) (logged p [a]) → spec (act a) Q p.
Proof. done. Qed.

Lemma spec_ask {A} (f : os → A) Q p : Q (inr (f (pr_os p))) p → spec (ask f) Q p.
Proof. done. Qed.

Lemma spec_ret {A} (a : A) Q p : Q (inr a) p → spec (mret a) Q p.
Proof. done. Qed.

Lemma spec_stop {A} st (Q : Stop + A → Proc → Prop) p : Q (inl st) p → spec (stop st) Q p.
Proof. done. Qed.

(** Setting the signal pipe, and installing the handler. *)
Lemma spec_set_pipe sp b Q p :
  Q (inr tt) (mkProc (pr_os p) (pr_clk p) (pr_made p) sp (b || pr_handler p) (pr_log p)) →
  spec (set_pipe sp b) Q p.
Proof. done. Qed.

Lemma spec_eprints l (Q : Stop + list unit → Proc → Prop) p :
  (∀ us, Q (inr us) (logged p (AEprint ∘ MsgLine <$> l))) → spec (eprint_lines l) Q p.
Proof.
  unfold eprint_lines. revert Q p. induction l as [|s l IH]; intros Q p HQ.
  { apply spec_ret. specialize (HQ []). unfold logged in HQ. simpl in HQ.
    rewrite app_nil_r in HQ. by destruct p. }
  cbn [mapM]. apply spec_bind, spec_act. cbn beta iota delta [on_value].
  apply spec_bind, IH. intros us. cbn beta iota delta [on_value]. apply spec_ret.
  specialize (HQ (tt :: us)). unfold logged in *. simpl in *. by rewrite <-app_assoc.
Qed.
End main.

(** Run the program one primitive at a time. *)
Ltac go_value := cbn beta iota delta [on_value].

Ltac go_step :=
  match goal with
  | |- spec (_ ≫= _) _ _ => apply spec_bind
  | |- spec (act _) _ _ => apply spec_act; go_value
  | |- spec (eprintln _) _ _ => apply spec_act; go_value
  | |- spec (ask _) _ _ => apply spec_ask; go_value
  | |- spec (mret _) _ _ => apply spec_ret; go_value
  | |- spec (stop _) _ _ => apply spec_stop; go_value
  | |- spec (set_pipe _ _) _ _ => apply spec_set_pipe; go_value
  | |- spec (call _) _ _ => apply spec_call; intros ? ? ?; go_value
  | |- spec (match ?x with _ => _ end) _ _ => destruct x eqn:?
  end.

Ltac go_unfold :=
  match goal with
  | |- spec (fail _) _ _ => unfold fail
  | |- spec (or_fail _ _) _ _ => unfold or_fail
  | |- spec (ensure _ _) _ _ => unfold ensure
  | |- spec (command _) _ _ => unfold command
  | |- spec (spawn _ _ _ _) _ _ => unfold spawn
  | |- spec (start_eviction_thread _ _) _ _ => unfold start_eviction_thread
  | |- spec (create_mountpoint _ _) _ _ => unfold create_mountpoint
  | |- spec (is_stale_fuse_mount _) _ _ => unfold is_stale_fuse_mount
  | |- spec (unmounted _) _ _ => unfold unmounted
  | |- spec (busy _) _ _ => unfold busy
  end.

Ltac go := repeat first [go_step | go_unfold].

(** Expose the log and the state of the kernel after a run. *)
Ltac go_log :=
  cbn [logged pr_os pr_clk pr_made pr_pipe pr_handler pr_log] in *;
  rewrite <-?app_assoc; eexists; split; [first [reflexivity | by rewrite app_nil_r]|];
  split; [repeat constructor|].
