(* ===== verification/MainProps.v ===== *)
(** * MainProps: what the program does when (src/main.rs)

    The phases of [main] one by one, then whole runs: nothing is started before
    every check has passed, the shutdown has a fixed order, the program ends, the
    [unmount] command forces last. *)
From S2P Require Import Prelude Paths Env Sample Handles HashTable Eviction Config Fs Shutdown Main.

Local Open Scope Z_scope.

Section specs.
Context `{Posix} `{Clocks} `{!Host}.

(** Acts that neither mount nor start anything. *)
Definition preparatory (a : Act) : Prop :=
  match a with
  | ARun ["mount"%string] | ACreateDir _ | AEprint _ => True
  | _ => False
  end.

(** The mount point exists, or is made. *)
Definition prepared (o : os) (mountpoint : PathBuf) (o' : os) : Prop :=
  (fs_exists o mountpoint = true ∧ o' = o) ∨
  (fs_exists o mountpoint = false ∧ fs_create_dir_all o mountpoint = (Ok tt, o')).

(** [mount] does not list the path as a FUSE mount, or the path can be listed. *)
Definition not_stale (o : os) (mp : PathBuf) : Prop :=
  match run_command o ["mount"%string] with
  | (Some out, o') =>
      existsb (listed_as_fuse (display mp)) (lines (to_string_lossy (out_stdout out))) = false ∨
      ∃ l, fs_read_dir o' mp = Ok l
  | (None, _) => True
  end.

(** What both directories went through when the checks let them pass. *)
Definition checked (o : os) (backing mountpoint b mp : PathBuf) : Prop :=
  canonicalize o backing = Ok b ∧ is_dir o b = true ∧
  ∃ o', prepared o mountpoint o' ∧ canonicalize o' mountpoint = Ok mp ∧ not_stale o' mp.

Lemma check_directories_spec backing mountpoint p :
  spec (check_directories backing mountpoint)
    (λ r p', ∃ l, pr_log p' = pr_log p ++ l ∧ Forall preparatory l ∧
       pr_made p' = pr_made p ∧ pr_pipe p' = pr_pipe p ∧
       match r with
       | inl s => s = Exit 1
       | inr (b, mp) => checked (pr_os p) backing mountpoint b mp
       end) p.
Proof.
  unfold check_directories. go. all: go_log. all: repeat split; eauto.
  all: lazymatch goal with
       | Hr : run_command ?o _ = _ |- ex _ =>
           exists o; split; [|split; [done|unfold not_stale; rewrite Hr]]
       end.
  all: unfold prepared; simplify_eq; try by left.
  all: try (match goal with u : unit |- _ => destruct u end; by right).
  all: try done.
  all: match goal with Hn : negb (match fs_read_dir ?o ?q with _ => _ end) = true |- _ =>
         right; destruct (fs_read_dir o q); [by eauto|done] end.
Qed.

(** The two attempts at mounting. *)
Definition first_attempt (k : nat) (cfg : DibsConfig) : list Act :=
  [ANewFs k cfg; AStartEviction k (c_eviction_minutes cfg);
   ASpawnMount k (c_mountpoint cfg) fuse_config].

Definition second_attempt (k : nat) (cfg : DibsConfig) : list Act :=
  [ANewFs (S k) cfg; ASpawnMount (S k) (c_mountpoint cfg) (set_acl AclOwner fuse_config)].

Lemma spec_make_fs cfg Q p :
  Q (inr (pr_made p, w_fs (fs_new cfg (pr_os p) (pr_clk p))))
    (mkProc (w_os (fs_new cfg (pr_os p) (pr_clk p))) (w_clk (fs_new cfg (pr_os p) (pr_clk p)))
       (S (pr_made p)) (pr_pipe p) (pr_handler p) (pr_log p ++ [ANewFs (pr_made p) cfg])) →
  spec (make_fs cfg) Q p.
Proof. done. Qed.

(** What the idle window of a configuration comes to in this build. *)
Definition window_of (cfg : DibsConfig) : option Z :=
  eviction_duration overflow_checks (c_eviction_minutes cfg).

Lemma mount_spec cfg p :
  spec (mount cfg)
    (λ r p', ∃ l, pr_log p' = pr_log p ++ l ∧ pr_pipe p' = pr_pipe p ∧
       ((l = [ANewFs (pr_made p) cfg] ∧ r = inl Panicked ∧ window_of cfg = None) ∨
        (l = first_attempt (pr_made p) cfg ∧
         (r = inl (Exit 1) ∨ r = inr (mkRunning (pr_made p) (pr_made p) (pr_made p)))) ∨
        (l = first_attempt (pr_made p) cfg ++ second_attempt (pr_made p) cfg ∧
         (r = inl (Exit 1) ∨
          r = inr (mkRunning (S (pr_made p)) (pr_made p) (S (pr_made p))))))) p.
Proof.
  unfold mount.
  repeat first [apply spec_make_fs; go_value | go_step | go_unfold].
  all: cbn [logged pr_os pr_clk pr_made pr_pipe pr_handler pr_log] in *; rewrite <-?app_assoc.
  all: eexists; (split; [reflexivity|split; [reflexivity|]]); cbn [app]; auto 6.
Qed.

(** What a wait does meanwhile: print, and probe the mount. *)
Definition waiting (mp : PathBuf) (a : Act) : Prop :=
  match a with
  | AEprint _ => True
  | ARun argv => argv = ["umount"%string; render mp]
  | _ => False
  end.

Lemma printed_waiting mp ms : Forall (waiting mp) (AEprint ∘ MsgLine <$> ms).
Proof. apply Forall_fmap, Forall_forall. done. Qed.

(** One round is the pure one, for some answer to the probe. *)
Lemma wait_step_spec k st mp p :
  spec (wait_step k st mp)
    (λ r p', ∃ u l, pr_log p' = pr_log p ++ l ∧ Forall (waiting mp) l ∧
       pr_pipe p' = (poll k (pr_pipe p)).2 ∧
       r = inr (wait_round (observation (poll k (pr_pipe p)).1 k u) st).1) p.
Proof.
  unfold wait_step, poll_pipe. apply spec_bind. unfold spec at 1.
  destruct (poll k (pr_pipe p)) as [ret sp]. go_value. cbn [fst snd]. apply spec_bind.
  apply (spec_mono _ (λ r p1, ∃ u l, r = inr u ∧ pr_log p1 = pr_log p ++ l ∧
    Forall (waiting mp) l ∧ pr_pipe p1 = sp)).
  - destruct (asks ret (k_finished k) st).
    + unfold try_unmount. go. eexists _, [_]. repeat split. by repeat constructor.
    + go_step. eexists _, []. rewrite app_nil_r. repeat split. constructor.
  - intros r p1 (u&l&->&Hl&Hw&Hp). go_value. apply spec_bind, spec_eprints. intros us. go_value.
    go_step. eexists u, (l ++ _). unfold logged. cbn [pr_log pr_pipe]. rewrite Hl, app_assoc.
    split; [reflexivity|]. split; [|done]. apply Forall_app. split; [done|apply printed_waiting].
Qed.

(** The rounds are the pure loop, for some answers to the probes. *)
Lemma wait_rounds_spec ks st mp p :
  spec (wait_rounds ks st mp)
    (λ r p', ∃ us l, us.*1 = ks ∧ pr_log p' = pr_log p ++ l ∧ Forall (waiting mp) l ∧
       match r with
       | inl s => ∃ st', s = Waiting st' ∧ wait_loop (observe us (pr_pipe p)) st = inr st'
       | inr a => ∃ n, wait_loop (observe us (pr_pipe p)) st = inl (a, n)
       end) p.
Proof.
  revert st p. induction ks as [|k ks IH]; intros st p; cbn [wait_rounds].
  { go_step. exists [], []. rewrite app_nil_r. repeat split; [constructor|]. eauto. }
  apply spec_bind. eapply spec_mono; [apply wait_step_spec|].
  intros r p1 (u&l&Hl&Hw&Hp&->). go_value.
  destruct (wait_round (observation (poll k (pr_pipe p)).1 k u) st).1 as [a|st1] eqn:Er.
  - go_step. exists ((k, u) :: ((λ k, (k, false)) <$> ks)), l. split.
    { cbn. f_equal. rewrite <-list_fmap_compose. apply list_fmap_id. }
    split; [done|]. split; [done|]. cbn [observe].
    rewrite (surjective_pairing (poll k (pr_pipe p))). cbn [wait_loop]. rewrite Er. eauto.
  - eapply spec_mono; [apply IH|]. intros r p2 (us&l2&Hus&Hl2&Hw2&Hr).
    exists ((k, u) :: us), (l ++ l2). split; [cbn; by rewrite Hus|].
    split; [by rewrite Hl2, Hl, app_assoc|]. split; [by apply Forall_app|].
    cbn [observe]. rewrite (surjective_pairing (poll k (pr_pipe p))). cbn [wait_loop].
    rewrite Er, <-Hp. destruct r as [s|a].
    + destruct Hr as (st'&->&->). eauto.
    + destruct Hr as (n&->). eauto.
Qed.

Lemma wait_signals_spec ks listed mp p :
  spec (wait_signals ks listed mp)
    (λ r p', ∃ l us, Forall (waiting mp) l ∧ us.*1 = ks ∧
       match r with
       | inl s =>
           pr_log p' = pr_log p ++ l ∧ s ≠ Exit 0 ∧
           (∀ st, s = Waiting st → ∃ fd, make_pipe (pr_os p) = Some fd ∧
              wait_for_shutdown (observe us (mkPipe fd 0)) = inr st)
       | inr a =>
           pr_log p' = pr_log p ++ l ++ [AWaited listed a] ∧
           pr_pipe p' = mkPipe (-1) 0 ∧
           ∃ fd n, make_pipe (pr_os p) = Some fd ∧
             wait_for_shutdown (observe us (mkPipe fd 0)) = inl (a, n)
       end) p.
Proof.
  unfold wait_signals. go_step. go_step. destruct (make_pipe (pr_os p)) as [fd|] eqn:Efd.
  2:{ go_step. exists [], ((λ k, (k, false)) <$> ks). split; [done|]. split.
      { rewrite <-list_fmap_compose. apply list_fmap_id. }
      rewrite app_nil_r. naive_solver. }
  go_step. go_step. apply spec_bind. eapply spec_mono; [apply wait_rounds_spec|].
  intros r p' (us&l&Hus&Hl&Hw&Hr). cbn [pr_pipe pr_log] in *.
  destruct r as [s|a]; go_value.
  - destruct Hr as (st&->&Hr). exists l, us. naive_solver.
  - destruct Hr as (n&Hr). do 4 go_step. go_step. exists l, us. unfold logged. cbn [pr_log pr_pipe].
    split; [done|]. split; [done|]. rewrite Hl, <-app_assoc. eauto 10.
Qed.

(** What ends the session after the wait. *)
Definition session_end (a : ShutdownAction) (mp : PathBuf) (l : list Act) : Prop :=
  match a with
  | ForceUnmount => l = [AUmountAndJoin] ∨ l = [AUmountAndJoin; ARun ["umount"; "-f"; display mp]]
  | ExternalUnmount => l = [AJoinSession]
  end.

Lemma shut_down_spec a mp p :
  spec (shut_down a mp)
    (λ r p', r = inr tt ∧ pr_pipe p' = pr_pipe p ∧ ∃ l,
       pr_log p' = pr_log p ++ [AStopEviction; AJoinEviction] ++ l ++
                   [AEprint (MsgLine ("dibs: unmounted " ++ display mp))] ∧
       session_end a mp l ∧
       (ARun ["umount"; "-f"; display mp] ∈ l → ∃ e, (umount_and_join (pr_os p)).1 = Err e)) p.
Proof.
  unfold shut_down. destruct a; go;
    cbn [logged pr_os pr_clk pr_made pr_pipe pr_handler pr_log session_end] in *;
    rewrite <-?app_assoc; (split; [done|split; [done|]]).
  - exists [AUmountAndJoin]. naive_solver set_solver.
  - eexists [AUmountAndJoin; _]. split; [done|]. split; [by right|]. intros _.
    match goal with E : umount_and_join _ = _ |- _ => rewrite E; by eauto end.
  - exists [AJoinSession]. naive_solver set_solver.
Qed.

(** The log of the attempts, with what the session then serves. *)
Inductive attempts (cfg : DibsConfig) : list Act → nat → Prop :=
| attempts_one : attempts cfg (first_attempt 0 cfg) 0
| attempts_two : attempts cfg (first_attempt 0 cfg ++ second_attempt 0 cfg) 1.

(** The configuration the command line asks for. *)
Definition config_for (cmd : Command) (b mp : PathBuf) (cfg : DibsConfig) : Prop :=
  match cmd with
  | Mount _ _ session_id log_file minutes save fallback foreground =>
      ∃ pid, cfg = mkConfig b mp (session_name session_id pid) log_file minutes save fallback
                     foreground
  | Unmount _ => False
  end.

(** The end of a run that mounted: its result and its log. *)
Definition finished_run (ks : list Tick) (served : nat) (mp : PathBuf) (r : Stop + unit)
    (l : list Act) (sp : SignalPipe) : Prop :=
  ∃ ws us, Forall (waiting mp) ws ∧ us.*1 = ks ∧
  match r with
  | inl s =>
      l = ws ∧ s ≠ Exit 0 ∧
      ∀ st, s = Waiting st → ∃ o fd, make_pipe o = Some fd ∧
        wait_for_shutdown (observe us (mkPipe fd 0)) = inr st
  | inr _ =>
      ∃ o o' fd a n e, make_pipe o = Some fd ∧
        wait_for_shutdown (observe us (mkPipe fd 0)) = inl (a, n) ∧
        l = ws ++ [AWaited served a; AStopEviction; AJoinEviction] ++ e ++
              [AEprint (MsgLine ("dibs: unmounted " ++ display mp))] ∧
        session_end a mp e ∧
        (ARun ["umount"; "-f"; display mp] ∈ e → ∃ err, (umount_and_join o').1 = Err err) ∧
        sp = mkPipe (-1) 0
  end.

(** A whole run of the mount command: the checks fail, or the checks pass and the
    start of the eviction thread panics, or the attempts at mounting fail, or the
    session is waited for. *)
Inductive mount_run (ks : list Tick) (o : os) (backing mountpoint : PathBuf) (cmd : Command)
    : Stop + unit → list Act → SignalPipe → Prop :=
| run_refused pre sp :
    Forall preparatory pre →
    mount_run ks o backing mountpoint cmd (inl (Exit 1)) pre sp
| run_panicked pre b mp cfg dir name sp :
    Forall preparatory pre → checked o backing mountpoint b mp → config_for cmd b mp cfg →
    window_of cfg = None →
    mount_run ks o backing mountpoint cmd (inl Panicked)
      (pre ++ [ALogTo dir name] ++ [ANewFs 0 cfg]) sp
| run_unmountable pre b mp cfg dir name l k sp :
    Forall preparatory pre → checked o backing mountpoint b mp → config_for cmd b mp cfg →
    attempts cfg l k →
    mount_run ks o backing mountpoint cmd (inl (Exit 1)) (pre ++ [ALogTo dir name] ++ l) sp
| run_served_end pre b mp cfg dir name l k r e sp :
    Forall preparatory pre → checked o backing mountpoint b mp → config_for cmd b mp cfg →
    attempts cfg l k → finished_run ks k mp r e sp →
    mount_run ks o backing mountpoint cmd r (pre ++ [ALogTo dir name] ++ l ++ e) sp.

Lemma mount_command_spec ks backing mountpoint session_id log_file minutes save fb fg o clk :
  spec (mount_command ks backing mountpoint session_id log_file minutes save fb fg)
    (λ r p', mount_run ks o backing mountpoint
       (Mount backing mountpoint session_id log_file minutes save fb fg) r (pr_log p') (pr_pipe p'))
    (start o clk).
Proof.
  unfold mount_command. apply spec_bind.
  eapply spec_mono; [apply check_directories_spec|]. cbn [start pr_os pr_made pr_pipe pr_log].
  intros r p (pre&Hl&Hpre&Hmade&Hpipe&Hr). cbn [app] in Hl. subst pre.
  destruct r as [st|[b mp]]; go_value; [subst; by constructor|].
  go_step. go_step. go_step. go_step. go_step.
  set (cfg := mkConfig _ _ _ _ _ _ _ _).
  assert (config_for (Mount backing mountpoint session_id log_file minutes save fb fg) b mp cfg)
    as Hcfg by (eexists; reflexivity).
  eapply spec_mono; [apply mount_spec|]. unfold logged. cbn [pr_os pr_made pr_pipe pr_log].
  rewrite Hmade. intros r p1 (l&Hl&_&Hr1).
  destruct Hr1 as [(->&->&Hwin)|Hr1].
  { go_value. rewrite <-app_assoc in Hl. rewrite Hl. by econstructor. }
  assert (∃ k, attempts cfg l k ∧ (r = inl (Exit 1) ∨ r = inr (mkRunning k 0 k))) as (k&Hl1&Hr2).
  { destruct Hr1 as [[-> Hr1]|[-> Hr1]]; eexists; (split; [constructor|]); done. }
  rewrite <-app_assoc in Hl. destruct Hr2 as [->| ->]; go_value; [rewrite Hl; by econstructor|].
  apply spec_bind. eapply spec_mono; [apply wait_signals_spec|]. intros r p2 (ws&us&Hws&Hus&Hr3).
  destruct r as [st|a]; go_value.
  { destruct Hr3 as (Hl2&Hst&Hw). rewrite Hl2, Hl, <-?app_assoc.
    econstructor; try done. exists ws, us. split_and!; [done..|]. intros st' ->.
    destruct (Hw st' eq_refl) as (fd&?&?). eauto. }
  destruct Hr3 as (Hl2&Hpipe2&fd&n&Hfd&Hw).
  eapply spec_mono; [apply shut_down_spec|]. intros r p3 (->&Hpipe3&e&Hl3&Hend&Hforce).
  rewrite Hl3, Hl2, Hl, <-?app_assoc. econstructor; try done.
  exists ws, us. split; [done|]. split; [done|]. exists (pr_os p1), (pr_os p2), fd, a, n, e.
  cbn [run_listed]. split_and!; try done; congruence.
Qed.

Lemma mount_run_main ks backing mountpoint session_id log_file minutes save fb fg o clk r p :
  let cmd := Mount backing mountpoint session_id log_file minutes save fb fg in
  main ks cmd (start o clk) = (r, p) →
  mount_run ks o backing mountpoint cmd r (pr_log p) (pr_pipe p).
Proof.
  intros cmd E. pose proof (mount_command_spec ks backing mountpoint session_id log_file minutes
    save fb fg o clk) as Hs.
  unfold spec in Hs. change (mount_command _ _ _ _ _ _ _ _ _) with (main ks cmd) in Hs.
  by rewrite E in Hs.
Qed.

(** Where the attempts and the end of a run can have started an instance. *)
Definition starts (a : Act) : bool :=
  match a with ANewFs _ _ | AStartEviction _ _ | ASpawnMount _ _ _ => true | _ => false end.

Lemma starts_preparatory l a : Forall preparatory l → a ∈ l → starts a = false.
Proof. rewrite Forall_forall. intros Hl Ha%Hl. by destruct a. Qed.

Lemma starts_finished ks k mp r e sp a : finished_run ks k mp r e sp → a ∈ e → starts a = false.
Proof.
  intros (ws&us&Hws&_&Hr) Ha. rewrite Forall_forall in Hws. destruct r as [st|u].
  - destruct Hr as [-> _]. apply Hws in Ha. by destruct a.
  - destruct Hr as (?&?&?&a'&?&e'&_&_&->&He'&_). rewrite !elem_of_app in Ha.
    destruct Ha as [Ha|[Ha|[Ha|Ha]]]; [apply Hws in Ha; by destruct a|set_solver| |set_solver].
    destruct a'; simpl in He'; [destruct He' as [-> | ->]|subst]; set_solver.
Qed.

(** What an act of the attempts works on. *)
Definition works_on (cfg : DibsConfig) (a : Act) : Prop :=
  match a with
  | ANewFs _ c => c = cfg
  | AStartEviction _ m => m = c_eviction_minutes cfg
  | ASpawnMount _ m _ => m = c_mountpoint cfg
  | _ => False
  end.

Lemma attempts_work cfg l k : attempts cfg l k → Forall (works_on cfg) l.
Proof. intros [|]; repeat constructor. Qed.

Lemma attempts_starts cfg l k : attempts cfg l k → ANewFs 0 cfg ∈ l.
Proof. intros [|]; by left. Qed.

Lemma attempts_spawns cfg l k :
  attempts cfg l k → ∃ fc, ASpawnMount k (c_mountpoint cfg) fc ∈ l.
Proof.
  intros [|]; [exists fuse_config|exists (set_acl AclOwner fuse_config)];
    unfold first_attempt, second_attempt; set_solver.
Qed.

(** C14. Nothing is mounted unchecked.  When the mount command starts a file
    system, an eviction thread or a session, both directories have passed every
    check: the backing path is canonical and a directory, the mount point existed
    or was created, is canonical and no stale FUSE mount; the instance is
    configured with these canonical paths, and the session is spawned at this
    mount point.  When it starts none of them, it ends with exit code 1, having
    done nothing but create the mount point, list the mounts and print. *)
Theorem mount_only_checked (ks : list Tick) (backing mountpoint : PathBuf)
    (session_id : option string) (log_file : PathBuf) (minutes : Z) (save fb fg : bool)
    (o : os) (clk : nat) (r : Stop + unit) (p : Proc) :
  let cmd := Mount backing mountpoint session_id log_file minutes save fb fg in
  main ks cmd (start o clk) = (r, p) →
  (∀ a, a ∈ pr_log p → starts a = true →
     ∃ b mp cfg, checked o backing mountpoint b mp ∧ config_for cmd b mp cfg ∧
       works_on cfg a) ∧
  ((∀ a, a ∈ pr_log p → starts a = false) →
     r = inl (Exit 1) ∧ Forall preparatory (pr_log p)).
Proof.
  intros cmd E%mount_run_main. split.
  - intros a Ha Hs. destruct E as [pre ? Hpre|pre b mp cfg ? ? ? Hpre Hc Hcfg _
      |pre b mp cfg ? ? l k ? Hpre Hc Hcfg Hl|pre b mp cfg ? ? l k r e sp Hpre Hc Hcfg Hl He].
    { by rewrite (starts_preparatory _ _ Hpre Ha) in Hs. }
    all: exists b, mp, cfg; split; [done|split; [done|]].
    all: rewrite !elem_of_app, list_elem_of_singleton in Ha.
    all: destruct Ha as [Ha|[->|Ha]]; [by rewrite (starts_preparatory _ _ Hpre Ha) in Hs|done|].
    1: by apply list_elem_of_singleton in Ha as ->.
    2: destruct Ha as [Ha|Ha]; [|by rewrite (starts_finished _ _ _ _ _ _ _ He Ha) in Hs].
    all: apply attempts_work in Hl; rewrite Forall_forall in Hl; by apply Hl.
  - intros Hn. destruct E as [|pre b mp cfg ? ? ? _ _ _ _|pre b mp cfg ? ? l k ? _ _ _ Hl
      |pre b mp cfg ? ? l k r e ? _ _ _ Hl]; [done| | |]; exfalso; try apply attempts_starts in Hl.
    all: enough (starts (ANewFs 0 cfg) = false) by done; apply Hn.
    all: rewrite !elem_of_app, ?list_elem_of_singleton; auto.
Qed.

(** ** Shutting down *)

(** Acts that end something that was started, by force or not. *)
Definition ends (a : Act) : bool :=
  match a with
  | AWaited _ _ | AStopEviction | AJoinEviction | AUmountAndJoin | AJoinSession => true
  | ARun ["umount"; "-f"; _]%string => true
  | _ => false
  end.

Lemma ends_preparatory l a : Forall preparatory l → a ∈ l → ends a = false.
Proof.
  rewrite Forall_forall. intros Hl Ha%Hl. destruct a; try done. simpl in *.
  by repeat (case_match; simplify_eq/=).
Qed.

Lemma ends_attempts cfg l k a : attempts cfg l k → a ∈ l → ends a = false.
Proof. intros Hl%attempts_work. rewrite Forall_forall in Hl. intros Ha%Hl. by destruct a. Qed.

(** C15. The shutdown is orderly.  When the mount command returns, its last acts are
    these, in this order, and none of them came before: the wait that ended with
    an action [a], on the instance that is served; the shutdown flag; the join of
    the eviction thread; then, for a clean end, the join of the session, and for
    a forced one its unmount and join, followed by a forced [umount] only if that
    failed; then the last message.  An end is forced only if two signals were
    delivered.  Afterwards the signal pipe is closed, and signals have no effect.
    (The code, its comments and tests/scenarios.rs agree on this two-phase end;
    ARCHITECTURE.md has the first signal force the unmount.) *)
Theorem orderly_shutdown `{!HostLaws} (ks : list Tick) (backing mountpoint : PathBuf)
    (session_id : option string) (log_file : PathBuf) (minutes : Z) (save fb fg : bool)
    (o : os) (clk : nat) (p : Proc)
    (Hrun : main ks (Mount backing mountpoint session_id log_file minutes save fb fg)
              (start o clk) = (inr tt, p)) :
  ∃ l k a e b mp,
    checked o backing mountpoint b mp ∧
    pr_log p = l ++ [AWaited k a; AStopEviction; AJoinEviction] ++ e ++
                 [AEprint (MsgLine ("dibs: unmounted " ++ display mp))] ∧
    (∃ fc, ASpawnMount k mp fc ∈ l) ∧ (∀ x, x ∈ l → ends x = false) ∧
    match a with
    | ExternalUnmount => e = [AJoinSession]
    | ForceUnmount =>
        (2 <= delivered ks)%nat ∧
        (e = [AUmountAndJoin] ∨
         e = [AUmountAndJoin; ARun ["umount"; "-f"; display mp]] ∧
         ∃ o' err, (umount_and_join o').1 = Err err)
    end ∧
    signal_handler (pr_pipe p) = pr_pipe p.
Proof.
  apply mount_run_main in Hrun.
  inversion Hrun as [| | |pre b mp cfg dir name l k r e sp Hpre Hc Hcfg Hl He Hr Hlog Hsp]; subst r sp.
  destruct He as (ws&us&Hws&Hus&o1&o2&fd&a&n&e'&Hfd&Hw&->&Hend&Hforce&Hpipe).
  exists (pre ++ [ALogTo dir name] ++ l ++ ws), k, a, e', b, mp.
  split_and!.
  - done.
  - by rewrite <-!app_assoc.
  - apply attempts_spawns in Hl as [fc Hfc]. exists fc. destruct Hcfg as [pid ->]. set_solver.
  - intros x. rewrite !elem_of_app. intros [Hx|[Hx|[Hx|Hx]]].
    + by eapply ends_preparatory.
    + by apply list_elem_of_singleton in Hx as ->.
    + by eapply ends_attempts.
    + rewrite Forall_forall in Hws. apply Hws in Hx. destruct x; simpl in *; try done. subst. by repeat case_match.
  - destruct a; [|exact Hend]. split.
    + apply wait_forced in Hw. pose proof (make_pipe_fd o1 fd Hfd).
      destruct (observe_signals us (mkPipe fd 0)) as [_ Hs]; [done|]. rewrite Hus in Hs.
      simpl in Hs. lia.
    + destruct Hend as [->| ->]; [by left|]. right. split; [done|].
      destruct Hforce as [err Herr]; [set_solver|eauto].
  - by rewrite Hpipe.
Qed.

(** C16. The program ends when it should.  If two signals are delivered, at any
    times, and after the second two calls of [poll] are not interrupted, or if
    the FUSE session is found finished in some round, then the program ends with
    some exit code, whatever the command and whatever fails on the way. *)
Theorem main_ends `{!HostLaws} (ks : list Tick) (cmd : Command) (o : os) (clk : nat)
    (Hend : (∃ ks1 ks2, ks = ks1 ++ ks2 ∧ (2 <= delivered ks1)%nat ∧ (2 <= uninterrupted ks2)%nat) ∨
            (∃ k, k ∈ ks ∧ k_finished k = true)) :
  ∃ code, exit_code (main ks cmd (start o clk)).1 = Some code.
Proof.
  destruct cmd as [backing mountpoint sid lf minutes save fb fg|mountpoint].
  - destruct (main _ _ _) as [r p] eqn:E. apply mount_run_main in E.
    inversion E as [| | |pre b mp cfg dir name l k r' e sp _ _ _ _ (ws&us&_&Hus&He)]; subst; simpl; try by eauto.
    destruct r as [[c| |st]|u]; simpl; try by eauto. exfalso.
    destruct He as (_&_&Hw). destruct (Hw st eq_refl) as (o'&fd&Hfd&Hwait).
    apply make_pipe_fd in Hfd. assert (∃ a n, wait_for_shutdown (observe us (mkPipe fd 0)) = inl (a, n))
      as (a&n&Hw'); [|congruence].
    destruct Hend as [(ks1&ks2&Hks&Hd&Hu)|(t&Ht&Hf)].
    + apply fmap_app_inv in Hks as (us1&us2&->&->&->).
      apply wait_two_signals. by apply two_signals_seen.
    + destruct (observe_finished us (mkPipe fd 0) t Ht Hf) as (ob&?&?). by eapply wait_finished.
  - assert (spec (unmount mountpoint) (λ r _, ∃ code, exit_code r = Some code) (start o clk)) as Hs.
    { unfold unmount. go; simpl; eauto. }
    exact Hs.
Qed.
(** ** The unmount command *)

(** The answers of the commands, in the order they would run. *)
Definition answers (o : os) (mp : string) : option Output * option Output * option Output :=
  let '(a1, o1) := run_command o ["umount"; mp] in
  let '(a2, o2) := run_command o1 ["diskutil"; "unmount"; mp] in
  (a1, a2, (run_command o2 ["umount"; "-f"; mp]).1).

(** Some command that ran reported the mount point busy. *)
Definition reports_busy (a1 a2 : option Output) : bool :=
  stderr_busy a1 || stderr_busy a2 || stdout_busy a2.

(** The commands of a log. *)
Definition commands (l : list Act) : list (list string) :=
  omap (λ a, match a with ARun argv => Some argv | _ => None end) l.

(** The outcome: when force is used, and the exit code. *)
Definition unmount_outcome (o : os) (mp : string) (r : Stop + unit) (l : list Act) : Prop :=
  let '(a1, a2, a3) := answers o mp in
  (["umount"; "-f"; mp] ∈ commands l ↔
     succeeded a1 = false ∧ succeeded a2 = false ∧ reports_busy a1 a2 = false) ∧
  exit_code r = Some (if match length (commands l) with
                         | 1 => succeeded a1
                         | 2 => succeeded a2
                         | _ => succeeded a3
                         end%nat then 0 else 1).

(** C34. The [unmount] command forces only as a last resort, and its exit code is
    right.  It fails without running anything if the mount point cannot be
    resolved.  Otherwise it runs a forced [umount] exactly when neither plain
    command succeeded and none of them reported the mount busy, and it ends with
    exit code 0 exactly when the last command it ran succeeded, else with 1. *)
Theorem unmount_forces_last (ks : list Tick) (mountpoint : PathBuf) (o : os) (clk : nat)
    (r : Stop + unit) (p : Proc) (Hrun : main ks (Unmount mountpoint) (start o clk) = (r, p)) :
  match canonicalize o mountpoint with
  | Err _ => commands (pr_log p) = [] ∧ exit_code r = Some 1
  | Ok mp =>
      unmount_outcome o (display mp) r (pr_log p)
  end.
Proof.
  assert (spec (unmount mountpoint) (λ r p,
    match canonicalize o mountpoint with
    | Err _ => commands (pr_log p) = [] ∧ exit_code r = Some 1
    | Ok mp => unmount_outcome o (display mp) r (pr_log p)
    end) (start o clk)) as Hs; [|unfold spec in Hs; change (unmount mountpoint) with
      (main ks (Unmount mountpoint)) in Hs; by rewrite Hrun in Hs].
  unfold unmount, unmount_outcome, answers. clear Hrun. go_step. go_step.
  cbn [start pr_os]. destruct (canonicalize o mountpoint) as [mp|e]; go; simpl in *; try done.
  all: repeat match goal with
       | E : run_command _ _ = _ |- _ => rewrite E; clear E
       | |- context [match run_command ?o ?c with _ => _ end] =>
           destruct (run_command o c) as [??]
       end.
  all: unfold reports_busy; rewrite ?elem_of_cons, elem_of_nil, ?andb_true_iff, ?orb_false_iff.
  all: repeat match goal with E : orb _ _ = false |- _ => apply orb_false_iff in E as [??] end.
  all: repeat match goal with E : orb _ _ = true |- _ => apply orb_true_iff in E end.
  all: cbn [fst snd] in *; simplify_option_eq; split; [|by repeat case_match].
  all: naive_solver congruence.
Qed.

(** ** A mount that is retried *)

(** The tables of the instances, after the eviction thread has run with an idle
    window of [d] nanoseconds. *)
Definition after_evictions `{DashMapIter} (r : Running) (d : Z) (nows : list Z)
    (tables : gmap nat CasTable.t) : gmap nat CasTable.t :=
  alter (apply_evictions d nows) (run_evicted r) tables.

(** The instances the acts of a log hand to the eviction thread, and to the
    sessions that are tried, in order. *)
Definition evicted_by (l : list Act) : list nat :=
  omap (λ a, match a with AStartEviction k _ => Some k | _ => None end) l.

Definition sessions_of (l : list Act) : list nat :=
  omap (λ a, match a with ASpawnMount k _ _ => Some k | _ => None end) l.

Lemma mount_running cfg p :
  let w := fs_new cfg (pr_os p) (pr_clk p) in
  let first := (spawn_mount2 (w_os w) (w_fs w) (c_mountpoint cfg) fuse_config).1 in
  spec (mount cfg)
    (λ r p', ∃ l, pr_log p' = pr_log p ++ l ∧ ∀ run, r = inr run →
       is_Some (window_of cfg) ∧
       evicted_by l = [run_evicted run] ∧ last (sessions_of l) = Some (run_served run) ∧
       ((first = Ok tt ∧ run = mkRunning (pr_made p) (pr_made p) (pr_made p)) ∨
        (first ≠ Ok tt ∧ run = mkRunning (S (pr_made p)) (pr_made p) (S (pr_made p))))) p.
Proof.
  intros w first. unfold mount.
  repeat first [apply spec_make_fs; go_value | go_step | go_unfold].
  all: unfold logged in *; cbn [pr_os pr_clk pr_made pr_pipe pr_handler pr_log] in *.
  all: rewrite <-?app_assoc; eexists; (split; [reflexivity|]); intros run Hr; simplify_eq.
  all: (split; [unfold window_of; by eauto|split; [done|split; [done|]]]).
  all: match goal with E : spawn_mount2 _ _ _ fuse_config = _ |- _ =>
         unfold first, w; rewrite E end.
  - left. by match goal with u : () |- _ => destruct u end.
  - by right.
Qed.

(** C38. A mount that succeeds on its retry serves an instance whose CAS table
    nobody evicts: the one eviction thread was given the first instance's table
    and keeps pruning that one, so the table of the instance in the last session
    started only grows, whatever the configured window; a mount that succeeds at
    once evicts the table it serves. *)
Theorem retried_mount_never_evicts `{DashMapIter} (cfg : DibsConfig) (p p' : Proc) (r : Running)
    (nows : list Z) (tables : gmap nat CasTable.t) (Hmount : mount cfg p = (inr r, p')) :
  let w := fs_new cfg (pr_os p) (pr_clk p) in
  let first := (spawn_mount2 (w_os w) (w_fs w) (c_mountpoint cfg) fuse_config).1 in
  ∃ d l, window_of cfg = Some d ∧ pr_log p' = pr_log p ++ l ∧
    evicted_by l = [run_evicted r] ∧ last (sessions_of l) = Some (run_served r) ∧
    let tables' := after_evictions r d nows tables in
    (first = Ok tt →
     tables' !! run_served r = apply_evictions d nows <$> tables !! run_served r) ∧
    (first ≠ Ok tt → tables' !! run_served r = tables !! run_served r).
Proof.
  intros w first. pose proof (mount_running cfg p) as Hr. unfold spec in Hr.
  rewrite Hmount in Hr. destruct Hr as (l&Hl&Hr). destruct (Hr r eq_refl) as ([d Hd]&He&Hs&Hc).
  exists d, l. do 4 (split; [done|]). unfold after_evictions.
  destruct Hc as [[Hf ->]|[Hf ->]]; (split; [intros Hf'|intros Hf']); try done.
  - simpl. by rewrite lookup_alter_eq.
  - simpl. rewrite lookup_alter_ne; [done|lia].
Qed.
End specs.

(** ** A concrete host

    Mounting for everybody is not permitted; the mount is busy, so that neither a
    plain [umount] nor the session's own succeeds; other commands do. *)
Definition sample_host : @Host mem_posix := {|
  overflow_checks := true;
  canonicalize := λ (m : @os mem_posix) p, if mem_exists m p then Ok p else Err (OsError 2);
  is_dir := λ (m : @os mem_posix) p,
    match mem_lookup m p with Some (_, NDir) => true | _ => false end;
  process_id := λ _, 4242;
  run_command := λ m argv,
    (Some (mkOutput (negb (bool_decide (argv = ["umount"; "/mnt/dibs"]%string))) "" ""), m);
  spawn_mount2 := λ m _ _ fc,
    (match acl fc with AclAll => Err (mkMountError (Some EPERM) "") | AclOwner => Ok tt end, m);
  make_pipe := λ _, Some 4;
  umount_and_join := λ m, (Err (OsError 16), m);
  join_session := λ m, (Ok tt, m)
|}.

Lemma sample_host_laws : @HostLaws mem_posix sample_host.
Proof. split. intros o fd [= <-]. lia. Qed.

Definition sample_dirs : mem_os := mem_add (parse "/data") NDir mem_init.

Definition sample_mount : Command :=
  mount_defaults (parse "/data") (parse "/mnt/dibs").

(** Two signals while the mount is busy, then nothing. *)
Definition sample_ticks : list Tick :=
  [mkTick 0 false false []; mkTick 1 false false []; mkTick 0 false false [];
   mkTick 1 true false []; mkTick 0 false false []; mkTick 0 false false []].

Definition sample_main (ks : list Tick) (cmd : Command) : (Stop + unit) * @Proc mem_posix :=
  @main mem_posix tick_clocks sample_host ks cmd (start (sample_dirs : @os mem_posix) 0).

(** Only the result of a run has to be evaluated. *)
Lemma run_result {A B} (x : A * B) (a : A) : x.1 = a → x = (a, x.2).
Proof. by destruct x; intros <-. Defined.

Lemma mount_only_checked_witness :
  ∃ b mp cfg,
    @checked mem_posix sample_host sample_dirs (parse "/data") (parse "/mnt/dibs") b mp ∧
    config_for sample_mount b mp cfg ∧ works_on cfg (AStartEviction 0 60).
Proof.
  apply (proj1 (@mount_only_checked mem_posix tick_clocks sample_host sample_ticks (parse "/data")
    (parse "/mnt/dibs") None (parse "/tmp/dibs.log") 60 false false false sample_dirs 0
    (sample_main sample_ticks sample_mount).1 (sample_main sample_ticks sample_mount).2
    (surjective_pairing _)) (AStartEviction 0 60)); [|reflexivity].
  vm_compute. do 4 right. left.
Defined.

Lemma orderly_shutdown_witness :
  ∃ l k a e b mp,
    @checked mem_posix sample_host sample_dirs (parse "/data") (parse "/mnt/dibs") b mp ∧
    pr_log (sample_main sample_ticks sample_mount).2 =
      l ++ [AWaited k a; AStopEviction; AJoinEviction] ++ e ++
        [AEprint (MsgLine ("dibs: unmounted " ++ display mp))] ∧
    (∃ fc, ASpawnMount k mp fc ∈ l) ∧ (∀ x, x ∈ l → ends x = false) ∧
    match a with
    | ExternalUnmount => e = [AJoinSession]
    | ForceUnmount =>
        (2 <= delivered sample_ticks)%nat ∧
        (e = [AUmountAndJoin] ∨
         e = [AUmountAndJoin; ARun ["umount"; "-f"; display mp]] ∧
         ∃ o' err, (@umount_and_join mem_posix sample_host o').1 = Err err)
    end ∧
    signal_handler (pr_pipe (sample_main sample_ticks sample_mount).2) =
      pr_pipe (sample_main sample_ticks sample_mount).2.
Proof.
  apply (@orderly_shutdown mem_posix tick_clocks sample_host sample_host_laws sample_ticks
    (parse "/data") (parse "/mnt/dibs") None (parse "/tmp/dibs.log") 60 false false false
    sample_dirs 0).
  apply run_result. vm_compute. reflexivity.
Defined.

Lemma main_ends_witness :
  ∃ code, exit_code (sample_main sample_ticks sample_mount).1 = Some code.
Proof.
  apply (@main_ends mem_posix tick_clocks sample_host sample_host_laws sample_ticks sample_mount
    sample_dirs 0).
  left. exists (take 4 sample_ticks), (drop 4 sample_ticks).
  repeat split; vm_compute; lia.
Defined.

Lemma unmount_forces_last_witness :
  ∃ r p, sample_main [] (Unmount (parse "/data")) = (r, p) ∧
    @unmount_outcome mem_posix sample_host sample_dirs "/data" r (pr_log p).
Proof.
  exists (inr tt), (sample_main [] (Unmount (parse "/data"))).2.
  assert (sample_main [] (Unmount (parse "/data")) =
    (inr tt, (sample_main [] (Unmount (parse "/data"))).2)) as Hrun.
  { apply run_result. vm_compute. reflexivity. }
  split; [exact Hrun|].
  apply (@unmount_forces_last mem_posix tick_clocks sample_host [] (parse "/data") sample_dirs 0
    (inr tt) _ Hrun).
Defined.

(** One minute of idle time; the first attempt is refused. *)
Lemma retried_mount_never_evicts_witness :
  let cfg := mkConfig (parse "/data") (parse "/data") "" (parse "/tmp/l") 1 false false false in
  let table := CasTable.record_reader 0 (parse "f") [] 7 CasTable.new in
  let p := start (sample_dirs : @os mem_posix) 0 in
  let run := @mount mem_posix tick_clocks sample_host cfg p in
  run.1 = inr (mkRunning 1 0 1) ∧
  @after_evictions tick_clocks canonical_iter (mkRunning 1 0 1) 60000000000 [2 ^ 60]
    {[1%nat := table]} !! 1%nat = Some table.
Proof.
  intros cfg table p run. split; [vm_compute; reflexivity|].
  destruct (@retried_mount_never_evicts mem_posix tick_clocks sample_host canonical_iter cfg p
    run.2 (mkRunning 1 0 1) [2 ^ 60] {[1%nat := table]}) as (d&l&Hd&_&_&_&_&Hr);
    [apply run_result; vm_compute; reflexivity|].
  vm_compute in Hd. injection Hd as <-.
  etransitivity; [apply Hr; vm_compute; discriminate|reflexivity].
Defined.
